(** * The phase-vocoder kernel of pyo: [src/objects/phasevocmodule.c]

    A shallow embedding of the analysis node [PVAnal], the resynthesis node
    [PVSynth] and the spectral transformers [PVTranspose], [PVVerb] and
    [PVGate], followed by the properties established about them.

    Conventions of the embedding.
    - A C [int] is a [Z].  Where the source can leave the 32-bit range
      (the doubling loop of the power-of-two snap, [x - 1] in
      [isPowerOfTwo], the length [size + hopsize] of the accumulator of
      [PVSynth]) the two's-complement wrap-around is written out with
      [wrap_int]; the cast of a [MYFLT] to [int] is undefined, [None],
      outside the range of [int].
    - [MYFLT] is a real number ([R]); infinities and NaN are outside the
      model.  The rounding of [MYFLT] arithmetic is a parameter, [fl], of
      the computations whose outcome is compared or cast: the product
      [k * transpo] that [PVTranspose] casts to an index, and the follower
      of [PVVerb] with its mapped coefficients.  Elsewhere the arithmetic
      is exact, which is [fl := MYFLT_exact] there; [round_binary32] is the
      rounding of single precision.
    - A heap array is a [list]; an access outside its bounds is undefined
      behaviour in C and is [None] here, as are an integer division by zero
      and a loop that never exits.  Every operation therefore lives in the
      [option] monad.
    - The collaborators that are not part of this file ([gen_window],
      [realfft_split], [irealfft_split]) are parameters, each given by the
      value it stores at index [k] of the buffer it fills. *)

From Stdlib Require Import ZArith Reals Lra Lia.
From stdpp Require Import base option list numbers.

(** ** C integers *)

Definition INT_MIN : Z := (- 2 ^ 31)%Z.
Definition INT_MAX : Z := (2 ^ 31 - 1)%Z.

Definition in_int_range (z : Z) : Prop := (INT_MIN ≤ z ≤ INT_MAX)%Z.

(** Reduction of a mathematical integer to the 32-bit signed range. *)
Definition wrap_int (z : Z) : Z := ((z + 2 ^ 31) `mod` 2 ^ 32 - 2 ^ 31)%Z.

(** [a / b] on [int]: truncation towards zero; traps when [b] is zero or
    the quotient is not representable. *)
Definition int_div (a b : Z) : option Z :=
  if bool_decide (b = 0 ∨ (a = INT_MIN ∧ b = -1))%Z then None
  else Some (a `quot` b)%Z.

(** [static int isPowerOfTwo(int x)]. *)
Definition isPowerOfTwo (x : Z) : bool :=
  negb (x =? 0)%Z && (Z.land x (wrap_int (x - 1)) =? 0)%Z.

(** The loop [while (k < bound) k *= 2;] that occurs in [PVAnal_new],
    [PVAnal_setSize] and [PVAnal_setOverlaps].  It runs out of [fuel]
    exactly when the C loop does not exit. *)
Fixpoint double_until (fuel : nat) (k bound : Z) : option Z :=
  if (k <? bound)%Z then
    match fuel with
    | O => None
    | S fuel' => double_until fuel' (wrap_int (k * 2)) bound
    end
  else Some k.

(** More iterations than a 32-bit counter can distinguish: after 32
    doublings [k] is 0 and stays 0. *)
Definition doubling_fuel : nat := 64.

(** [k = 1; while (k < x) k *= 2;] *)
Definition next_power_of_two (x : Z) : option Z := double_until doubling_fuel 1 x.

(** The mathematical notion the spec refers to. *)
Definition power_of_two (x : Z) : Prop := ∃ n : nat, x = (2 ^ Z.of_nat n)%Z.

(** ** Arrays and loops *)

(** [a[i]] as an rvalue. *)
Definition rd {A} (a : list A) (i : Z) : option A :=
  if bool_decide (0 ≤ i)%Z then a !! Z.to_nat i else None.

(** [a[i] = x]. *)
Definition wr {A} (a : list A) (i : Z) (x : A) : option (list A) :=
  if bool_decide (0 ≤ i < Z.of_nat (length a))%Z
  then Some (<[Z.to_nat i := x]> a) else None.

(** [a[i][k]] and [a[i][k] = x] on an array of rows. *)
Definition rd2 {A} (a : list (list A)) (i k : Z) : option A :=
  row ← rd a i; rd row k.

Definition wr2 {A} (a : list (list A)) (i k : Z) (x : A) : option (list (list A)) :=
  row ← rd a i; row' ← wr row k x; wr a i row'.

(** A buffer of [n] cells all set to [x]; a failed allocation (negative
    [n]) leaves no cell that can be accessed. *)
Definition filled {A} (n : Z) (x : A) : list A := replicate (Z.to_nat n) x.

(** A buffer of [n] cells where cell [k] holds [f k]. *)
Definition tabulate {A} (n : Z) (f : Z → A) : list A :=
  (λ k : nat, f (Z.of_nat k)) <$> seq 0 (Z.to_nat n).

(** [for (k = 0; k < n; k++) body] over a state [St], as iteration on the
    number of rounds. *)
Fixpoint for_upto {St} (n : nat) (body : Z → St → option St) (s : St) : option St :=
  match n with
  | O => Some s
  | S m => s' ← for_upto m body s; body (Z.of_nat m) s'
  end.

Definition for_loop {St} (n : Z) (body : Z → St → option St) (s : St) : option St :=
  for_upto (Z.to_nat n) body s.

(** [for (k = 1; k < n; k++) body]. *)
Definition for_loop_from_1 {St} (n : Z) (body : Z → St → option St) (s : St) : option St :=
  for_upto (Z.to_nat (n - 1)) (λ j, body (j + 1)%Z) s.

(** [overcount++; if (overcount >= olaps) overcount = 0;] *)
Definition next_overcount (overcount olaps : Z) : Z :=
  if (olaps <=? overcount + 1)%Z then 0%Z else (overcount + 1)%Z.

(** ** Floating-point constants and library functions

    [pyomodule.h], which is not among the sources, defines [PI], [TWOPI]
    and the macros [MYSQRT], [MYATAN2], [MYCOS], [MYSIN] and [MYPOW] that
    select the single or double precision function of libm.  On real
    numbers [MYSQRT], [MYCOS] and [MYSIN] are [sqrt], [cos] and [sin]. *)

(** Modelled from the spec: the macros [PI] and [TWOPI] of [pyomodule.h];
    the spec writes them π and 2π. *)
Definition TWOPI : R := (2 * PI)%R.

(** Modelled from the spec: the macro [MYATAN2] of [pyomodule.h], libm's
    [atan2(y, x)]: the angle of the point [(x, y)] in (-π, π], with
    [atan2(0, 0) = 0] as the spec has it. *)
Definition MYATAN2 (y x : R) : R :=
  if Rlt_dec 0 x then atan (y / x)
  else if Rlt_dec x 0 then
    (if Rle_dec 0 y then atan (y / x) + PI else atan (y / x) - PI)%R
  else if Rlt_dec 0 y then (PI / 2)%R
  else if Rlt_dec y 0 then (- PI / 2)%R
  else 0%R.

(** [while (tmp > PI) tmp -= TWOPI;] *)
Fixpoint wrap_above (fuel : nat) (tmp : R) : option R :=
  if Rlt_dec PI tmp then
    match fuel with
    | O => None
    | S fuel' => wrap_above fuel' (tmp - TWOPI)
    end
  else Some tmp.

(** [while (tmp < -PI) tmp += TWOPI;] *)
Fixpoint wrap_below (fuel : nat) (tmp : R) : option R :=
  if Rlt_dec tmp (- PI) then
    match fuel with
    | O => None
    | S fuel' => wrap_below fuel' (tmp + TWOPI)
    end
  else Some tmp.

(** A number of rounds that suffices for either loop started at [tmp]. *)
Definition unwrap_fuel (tmp : R) : nat := Z.to_nat (up (Rabs tmp / TWOPI)).

(** The two loops in sequence. *)
Definition unwrap (tmp : R) : option R :=
  tmp' ← wrap_above (unwrap_fuel tmp) tmp;
  wrap_below (unwrap_fuel tmp') tmp'.

(** Modelled from the spec: the macro [MYPOW] of [pyomodule.h], libm's
    [pow], at the base 10.0 of its only use; the spec writes [10^x]. *)
Definition MYPOW10 (x : R) : R := Rpower 10 x.

(** The cast [(int) x]: truncation towards zero.  The cast of a value
    whose truncation is not an [int] is undefined. *)
Definition int_of_float (x : R) : option Z :=
  let z := if Rle_dec 0 x then Int_part x else (- Int_part (- x))%Z in
  if bool_decide (in_int_range z) then Some z else None.

(** The rounding of an arithmetic result to [MYFLT] is a parameter, [fl],
    of the computations in which it is written out.  [MYFLT_exact] is the
    idealisation that leaves every result as it is. *)
Definition MYFLT_exact (x : R) : R := x.

(** What the bounds below need of a rounding: it is monotone, it leaves
    the numbers it produces as they are, and 0 and 1 are such numbers. *)
Record MYFLT_rounding (fl : R → R) : Prop := {
  fl_monotone : ∀ x y, (x <= y)%R → (fl x <= fl y)%R;
  fl_idempotent : ∀ x, fl (fl x) = fl x;
  fl_0 : fl 0%R = 0%R;
  fl_1 : fl 1%R = 1%R
}.

(** Modelled from the spec: [MYFLT] is declared in [pyomodule.h]; the spec
    speaks of single precision, that is the IEEE 754 binary32 format, whose
    arithmetic rounds to the nearest number of the format, ties to even.
    The four definitions that follow are that rounding; the overflow to
    an infinity is left out.

    The integer nearest to [x], the even one of two at the same
    distance. *)
Definition round_half_even (x : R) : Z :=
  let f := Int_part x in
  let r := (x - IZR f)%R in
  if Rlt_dec r (1 / 2) then f
  else if Rlt_dec (1 / 2) r then (f + 1)%Z
  else if Z.even f then f else (f + 1)%Z.

(** Modelled from the spec: the number of low bits that single precision
    drops from a number [X] counted in units of [2^-149], the smallest
    positive number of the format: none below [2^24] units, and as many as
    leave 24 bits above. *)
Definition binary32_drop (X : R) : Z :=
  Z.max (Z.log2 (Int_part (Rabs X)) - 23) 0.

(** Modelled from the spec: the number of the format nearest to [X], in
    units of [2^-149]: the bits to drop are rounded off. *)
Definition binary32_units (X : R) : R :=
  let E := binary32_drop X in
  (IZR (round_half_even (X / IZR (2 ^ E))) * IZR (2 ^ E))%R.

(** Modelled from the spec: the single-precision number nearest to [x]. *)
Definition round_binary32 (x : R) : R :=
  (binary32_units (x * IZR (2 ^ 149)) / IZR (2 ^ 149))%R.

(** Messages printed on standard output by the power-of-two snap, with the
    value that is used instead of the requested one. *)
Inductive advisory : Type :=
  | FFT_size_must_be_power_of_2 (used : Z)
  | FFT_overlaps_must_be_power_of_2 (used : Z).

(** The argument of a Python-level setter. *)
Inductive PyObject : Type :=
  | PyInt (n : Z)
  | PyNotAnInt.

(** ** The spectral frame carrier, [PVStream]

    A consumer reads the producer's tables through the pointers stored in
    the stream, so the stream of a node is a view of its current state. *)
Module PVStream.
Record t : Type := mk {
  fftsize : Z;
  olaps : Z;
  magn : list (list R);
  freq : list (list R);
  count : list Z
}.
End PVStream.

(** ** PVAnal *)

Module PVAnal.
Record t : Type := mk {
  bufsize : Z;          (* pyo_audio_HEAD *)
  sr : R;               (* pyo_audio_HEAD *)
  size : Z;
  olaps : Z;
  hsize : Z;
  hopsize : Z;
  wintype : Z;
  incount : Z;
  inputLatency : Z;
  overcount : Z;
  factor : R;
  scale : R;
  input_buffer : list R;
  inframe : list R;
  outframe : list R;
  real : list R;
  imag : list R;
  lastPhase : list R;
  window : list R;
  magn : list (list R);
  freq : list (list R);
  count : list Z
}.
End PVAnal.

(** ** PVSynth *)

Module PVSynth.
Record t : Type := mk {
  bufsize : Z;          (* pyo_audio_HEAD *)
  sr : R;               (* pyo_audio_HEAD *)
  data : list R;        (* pyo_audio_HEAD: the output block *)
  size : Z;
  hsize : Z;
  olaps : Z;
  hopsize : Z;
  wintype : Z;
  inputLatency : Z;
  overcount : Z;
  ampscl : R;
  factor : R;
  scale : R;
  output_buffer : list R;
  outputAccum : list R;
  inframe : list R;
  outframe : list R;
  real : list R;
  imag : list R;
  sumPhase : list R;
  window : list R
}.
End PVSynth.

(** ** The records of the transformers *)

Module PVTranspose.
Record t : Type := mk {
  bufsize : Z;          (* pyo_audio_HEAD *)
  size : Z;
  olaps : Z;
  hsize : Z;
  hopsize : Z;
  overcount : Z;
  magn : list (list R);
  freq : list (list R);
  count : list Z
}.
End PVTranspose.

Module PVVerb.
Record t : Type := mk {
  bufsize : Z;          (* pyo_audio_HEAD *)
  size : Z;
  olaps : Z;
  hsize : Z;
  hopsize : Z;
  overcount : Z;
  l_magn : list R;
  magn : list (list R);
  freq : list (list R);
  count : list Z
}.
End PVVerb.

Module PVGate.
Record t : Type := mk {
  bufsize : Z;          (* pyo_audio_HEAD *)
  size : Z;
  olaps : Z;
  hsize : Z;
  hopsize : Z;
  overcount : Z;
  magn : list (list R);
  freq : list (list R);
  count : list Z
}.
End PVGate.

Section Collaborators.

(** [gen_window(window, size, wintype)] stores [gen_window size wintype k]
    in [window[k]]. *)
Variable gen_window : Z → Z → Z → R.

(** [realfft_split(in, out, size, twiddle)] stores
    [realfft_split in size k] in [out[k]]; the twiddle table is a function
    of [size] alone. *)
Variable realfft_split : list R → Z → Z → R.

(** Likewise for [irealfft_split]. *)
Variable irealfft_split : list R → Z → Z → R.

(** [PVAnal_realloc_memories]: the fields of [self] that it reads are
    [bufsize], [sr], [size], [olaps], [wintype] and the [count] array,
    which is allocated once by [PVAnal_new]. *)
Definition PVAnal_realloc_memories (self : PVAnal.t) : option PVAnal.t :=
  let size := PVAnal.size self in
  let olaps := PVAnal.olaps self in
  hsize ← int_div size 2;
  hopsize ← int_div size olaps;
  let inputLatency := (size - hopsize)%Z in
  let incount := inputLatency in
  count ← for_loop (PVAnal.bufsize self) (λ i c, wr c i incount) (PVAnal.count self);
  Some {|
    PVAnal.bufsize := PVAnal.bufsize self;
    PVAnal.sr := PVAnal.sr self;
    PVAnal.size := size;
    PVAnal.olaps := olaps;
    PVAnal.hsize := hsize;
    PVAnal.hopsize := hopsize;
    PVAnal.wintype := PVAnal.wintype self;
    PVAnal.incount := incount;
    PVAnal.inputLatency := inputLatency;
    PVAnal.overcount := 0;
    PVAnal.factor := (PVAnal.sr self / (IZR hopsize * TWOPI))%R;
    PVAnal.scale := (TWOPI * IZR hopsize / IZR size)%R;
    PVAnal.input_buffer := filled size 0%R;
    PVAnal.inframe := filled size 0%R;
    PVAnal.outframe := filled size 0%R;
    PVAnal.real := filled hsize 0%R;
    PVAnal.imag := filled hsize 0%R;
    PVAnal.lastPhase := filled hsize 0%R;
    PVAnal.window := tabulate size (gen_window size (PVAnal.wintype self));
    PVAnal.magn := filled olaps (filled hsize 0%R);
    PVAnal.freq := filled olaps (filled hsize 0%R);
    PVAnal.count := count
  |}.

(** The state of a [PVAnal] between allocation and the first
    [PVAnal_realloc_memories]: every pointer is still null. *)
Definition PVAnal_alloc (bufsize : Z) (sr : R) (size olaps wintype : Z) : PVAnal.t :=
  {| PVAnal.bufsize := bufsize; PVAnal.sr := sr;
     PVAnal.size := size; PVAnal.olaps := olaps;
     PVAnal.hsize := 0; PVAnal.hopsize := 0; PVAnal.wintype := wintype;
     PVAnal.incount := 0; PVAnal.inputLatency := 0; PVAnal.overcount := 0;
     PVAnal.factor := 0; PVAnal.scale := 0;
     PVAnal.input_buffer := []; PVAnal.inframe := []; PVAnal.outframe := [];
     PVAnal.real := []; PVAnal.imag := []; PVAnal.lastPhase := [];
     PVAnal.window := []; PVAnal.magn := []; PVAnal.freq := [];
     PVAnal.count := [] |}.

Definition PVAnal_with_size (self : PVAnal.t) (size : Z) : PVAnal.t :=
  {| PVAnal.bufsize := PVAnal.bufsize self; PVAnal.sr := PVAnal.sr self;
     PVAnal.size := size; PVAnal.olaps := PVAnal.olaps self;
     PVAnal.hsize := PVAnal.hsize self; PVAnal.hopsize := PVAnal.hopsize self;
     PVAnal.wintype := PVAnal.wintype self;
     PVAnal.incount := PVAnal.incount self;
     PVAnal.inputLatency := PVAnal.inputLatency self;
     PVAnal.overcount := PVAnal.overcount self;
     PVAnal.factor := PVAnal.factor self; PVAnal.scale := PVAnal.scale self;
     PVAnal.input_buffer := PVAnal.input_buffer self;
     PVAnal.inframe := PVAnal.inframe self;
     PVAnal.outframe := PVAnal.outframe self;
     PVAnal.real := PVAnal.real self; PVAnal.imag := PVAnal.imag self;
     PVAnal.lastPhase := PVAnal.lastPhase self;
     PVAnal.window := PVAnal.window self;
     PVAnal.magn := PVAnal.magn self; PVAnal.freq := PVAnal.freq self;
     PVAnal.count := PVAnal.count self |}.

Definition PVAnal_with_olaps (self : PVAnal.t) (olaps : Z) : PVAnal.t :=
  {| PVAnal.bufsize := PVAnal.bufsize self; PVAnal.sr := PVAnal.sr self;
     PVAnal.size := PVAnal.size self; PVAnal.olaps := olaps;
     PVAnal.hsize := PVAnal.hsize self; PVAnal.hopsize := PVAnal.hopsize self;
     PVAnal.wintype := PVAnal.wintype self;
     PVAnal.incount := PVAnal.incount self;
     PVAnal.inputLatency := PVAnal.inputLatency self;
     PVAnal.overcount := PVAnal.overcount self;
     PVAnal.factor := PVAnal.factor self; PVAnal.scale := PVAnal.scale self;
     PVAnal.input_buffer := PVAnal.input_buffer self;
     PVAnal.inframe := PVAnal.inframe self;
     PVAnal.outframe := PVAnal.outframe self;
     PVAnal.real := PVAnal.real self; PVAnal.imag := PVAnal.imag self;
     PVAnal.lastPhase := PVAnal.lastPhase self;
     PVAnal.window := PVAnal.window self;
     PVAnal.magn := PVAnal.magn self; PVAnal.freq := PVAnal.freq self;
     PVAnal.count := PVAnal.count self |}.

Definition PVAnal_with_count (self : PVAnal.t) (count : list Z) : PVAnal.t :=
  {| PVAnal.bufsize := PVAnal.bufsize self; PVAnal.sr := PVAnal.sr self;
     PVAnal.size := PVAnal.size self; PVAnal.olaps := PVAnal.olaps self;
     PVAnal.hsize := PVAnal.hsize self; PVAnal.hopsize := PVAnal.hopsize self;
     PVAnal.wintype := PVAnal.wintype self;
     PVAnal.incount := PVAnal.incount self;
     PVAnal.inputLatency := PVAnal.inputLatency self;
     PVAnal.overcount := PVAnal.overcount self;
     PVAnal.factor := PVAnal.factor self; PVAnal.scale := PVAnal.scale self;
     PVAnal.input_buffer := PVAnal.input_buffer self;
     PVAnal.inframe := PVAnal.inframe self;
     PVAnal.outframe := PVAnal.outframe self;
     PVAnal.real := PVAnal.real self; PVAnal.imag := PVAnal.imag self;
     PVAnal.lastPhase := PVAnal.lastPhase self;
     PVAnal.window := PVAnal.window self;
     PVAnal.magn := PVAnal.magn self; PVAnal.freq := PVAnal.freq self;
     PVAnal.count := count |}.

(** The block
    [if (!isPowerOfTwo(x)) { k = 1; while (k < x) k *= 2; x = k; printf(...); }]
    shared by the three entry points: the value kept and what is printed. *)
Definition snap_to_power_of_two (msg : Z → advisory) (x : Z) : option (Z * list advisory) :=
  if isPowerOfTwo x then Some (x, [])
  else k ← next_power_of_two x; Some (k, [msg k]).

(** [PVAnal_new], from the parsed arguments ([size], [olaps] and [wintype]
    default to 1024, 4 and 2) and the server's [bufsize] and [sr].  Only
    [size] goes through the snap. *)
Definition PVAnal_new (bufsize : Z) (sr : R) (size olaps wintype : Z)
    : option (PVAnal.t * list advisory) :=
  '(size', out) ← snap_to_power_of_two FFT_size_must_be_power_of_2 size;
  let self := PVAnal_alloc bufsize sr size' olaps wintype in
  let self := PVAnal_with_count self (filled bufsize 0%Z) in
  self ← PVAnal_realloc_memories self;
  Some (self, out).

(** [PVAnal_setSize]. *)
Definition PVAnal_setSize (self : PVAnal.t) (arg : PyObject)
    : option (PVAnal.t * list advisory) :=
  match arg with
  | PyInt n =>
      '(size', out) ← snap_to_power_of_two FFT_size_must_be_power_of_2 (wrap_int n);
      self ← PVAnal_realloc_memories (PVAnal_with_size self size');
      Some (self, out)
  | PyNotAnInt => Some (self, [])
  end.

(** [PVAnal_setOverlaps]. *)
Definition PVAnal_setOverlaps (self : PVAnal.t) (arg : PyObject)
    : option (PVAnal.t * list advisory) :=
  match arg with
  | PyInt n =>
      '(olaps', out) ← snap_to_power_of_two FFT_overlaps_must_be_power_of_2 (wrap_int n);
      self ← PVAnal_realloc_memories (PVAnal_with_olaps self olaps');
      Some (self, out)
  | PyNotAnInt => Some (self, [])
  end.

(** The frequency in Hz published for bin [k] from its unwrapped phase
    deviation [tmp]: [(tmp + k * self->scale) * self->factor]. *)
Definition PVAnal_true_freq (scale factor : R) (k : Z) (tmp : R) : R :=
  ((tmp + IZR k * scale) * factor)%R.

(** One round of the loop over the bins in [PVAnal_process]; the state of
    the loop is [lastPhase] and the two published tables. *)
Definition PVAnal_bin (real imag : list R) (overcount : Z) (scale factor : R)
    (k : Z) (st : list R * list (list R) * list (list R))
    : option (list R * list (list R) * list (list R)) :=
  let '(lastPhase, magn, freq) := st in
  re ← rd real k;
  im ← rd imag k;
  let mag := sqrt (re * re + im * im) in
  let phase := MYATAN2 im re in
  last ← rd lastPhase k;
  let tmp := (phase - last)%R in
  lastPhase ← wr lastPhase k phase;
  tmp ← unwrap tmp;
  magn ← wr2 magn overcount k mag;
  freq ← wr2 freq overcount k (PVAnal_true_freq scale factor k tmp);
  Some (lastPhase, magn, freq).

(** The body of [if (self->incount >= self->size)] in [PVAnal_process],
    entered with the input buffer already holding the new sample. *)
Definition PVAnal_frame (input_buffer : list R) (count : list Z) (self : PVAnal.t)
    : option PVAnal.t :=
  let size := PVAnal.size self in
  let hsize := PVAnal.hsize self in
  let overcount := PVAnal.overcount self in
  let mod_ := (PVAnal.hopsize self * overcount)%Z in
  inframe ← for_loop size (λ k fr,
      x ← rd input_buffer k;
      w ← rd (PVAnal.window self) k;
      wr fr ((k + mod_) `rem` size)%Z (x * w)%R) (PVAnal.inframe self);
  outframe ← for_loop size (λ k out,
      wr out k (realfft_split inframe size k)) (PVAnal.outframe self);
  o0 ← rd outframe 0;
  real ← wr (PVAnal.real self) 0 o0;
  imag ← wr (PVAnal.imag self) 0 0%R;
  '(real, imag) ← for_loop_from_1 hsize (λ k '(re, im),
      a ← rd outframe k;
      re ← wr re k a;
      b ← rd outframe (size - k);
      im ← wr im k b;
      Some (re, im)) (real, imag);
  '(lastPhase, magn, freq) ← for_loop hsize
      (PVAnal_bin real imag overcount (PVAnal.scale self) (PVAnal.factor self))
      (PVAnal.lastPhase self, PVAnal.magn self, PVAnal.freq self);
  input_buffer ← for_loop (PVAnal.inputLatency self) (λ k buf,
      x ← rd buf (k + PVAnal.hopsize self);
      wr buf k x) input_buffer;
  Some {|
    PVAnal.bufsize := PVAnal.bufsize self;
    PVAnal.sr := PVAnal.sr self;
    PVAnal.size := size;
    PVAnal.olaps := PVAnal.olaps self;
    PVAnal.hsize := hsize;
    PVAnal.hopsize := PVAnal.hopsize self;
    PVAnal.wintype := PVAnal.wintype self;
    PVAnal.incount := PVAnal.inputLatency self;
    PVAnal.inputLatency := PVAnal.inputLatency self;
    PVAnal.overcount := next_overcount overcount (PVAnal.olaps self);
    PVAnal.factor := PVAnal.factor self;
    PVAnal.scale := PVAnal.scale self;
    PVAnal.input_buffer := input_buffer;
    PVAnal.inframe := inframe;
    PVAnal.outframe := outframe;
    PVAnal.real := real;
    PVAnal.imag := imag;
    PVAnal.lastPhase := lastPhase;
    PVAnal.window := PVAnal.window self;
    PVAnal.magn := magn;
    PVAnal.freq := freq;
    PVAnal.count := count
  |}.

(** One round of [for (i=0; i<self->bufsize; i++)] in [PVAnal_process]. *)
Definition PVAnal_sample (input : list R) (i : Z) (self : PVAnal.t) : option PVAnal.t :=
  x ← rd input i;
  input_buffer ← wr (PVAnal.input_buffer self) (PVAnal.incount self) x;
  count ← wr (PVAnal.count self) i (PVAnal.incount self);
  let incount := (PVAnal.incount self + 1)%Z in
  if (PVAnal.size self <=? incount)%Z then PVAnal_frame input_buffer count self
  else Some {|
    PVAnal.bufsize := PVAnal.bufsize self;
    PVAnal.sr := PVAnal.sr self;
    PVAnal.size := PVAnal.size self;
    PVAnal.olaps := PVAnal.olaps self;
    PVAnal.hsize := PVAnal.hsize self;
    PVAnal.hopsize := PVAnal.hopsize self;
    PVAnal.wintype := PVAnal.wintype self;
    PVAnal.incount := incount;
    PVAnal.inputLatency := PVAnal.inputLatency self;
    PVAnal.overcount := PVAnal.overcount self;
    PVAnal.factor := PVAnal.factor self;
    PVAnal.scale := PVAnal.scale self;
    PVAnal.input_buffer := input_buffer;
    PVAnal.inframe := PVAnal.inframe self;
    PVAnal.outframe := PVAnal.outframe self;
    PVAnal.real := PVAnal.real self;
    PVAnal.imag := PVAnal.imag self;
    PVAnal.lastPhase := PVAnal.lastPhase self;
    PVAnal.window := PVAnal.window self;
    PVAnal.magn := PVAnal.magn self;
    PVAnal.freq := PVAnal.freq self;
    PVAnal.count := count
  |}.

(** [PVAnal_process], on the block [input] of the input stream. *)
Definition PVAnal_process (input : list R) (self : PVAnal.t) : option PVAnal.t :=
  for_loop (PVAnal.bufsize self) (PVAnal_sample input) self.

(** What a consumer sees through [self->pv_stream]. *)
Definition PVAnal_pv_stream (self : PVAnal.t) : PVStream.t :=
  {| PVStream.fftsize := PVAnal.size self;
     PVStream.olaps := PVAnal.olaps self;
     PVStream.magn := PVAnal.magn self;
     PVStream.freq := PVAnal.freq self;
     PVStream.count := PVAnal.count self |}.

(** [PVSynth_realloc_memories]; it reads [bufsize], [sr], [data], [size],
    [olaps] and [wintype].  The length of the accumulator is the [int] sum
    [size + hopsize]: when the sum leaves the range of [int] it is
    negative, the allocation fails and the loop that clears the buffer
    does not run, which leaves no cell. *)
Definition PVSynth_realloc_memories (self : PVSynth.t) : option PVSynth.t :=
  let size := PVSynth.size self in
  let olaps := PVSynth.olaps self in
  hsize ← int_div size 2;
  hopsize ← int_div size olaps;
  Some {|
    PVSynth.bufsize := PVSynth.bufsize self;
    PVSynth.sr := PVSynth.sr self;
    PVSynth.data := PVSynth.data self;
    PVSynth.size := size;
    PVSynth.hsize := hsize;
    PVSynth.olaps := olaps;
    PVSynth.hopsize := hopsize;
    PVSynth.wintype := PVSynth.wintype self;
    PVSynth.inputLatency := (size - hopsize)%Z;
    PVSynth.overcount := 0;
    PVSynth.ampscl := (1 / sqrt (IZR olaps))%R;
    PVSynth.factor := (IZR hopsize * TWOPI / PVSynth.sr self)%R;
    PVSynth.scale := (PVSynth.sr self / IZR size)%R;
    PVSynth.output_buffer := filled size 0%R;
    PVSynth.outputAccum := filled (wrap_int (size + hopsize)) 0%R;
    PVSynth.inframe := filled size 0%R;
    PVSynth.outframe := filled size 0%R;
    PVSynth.real := filled hsize 0%R;
    PVSynth.imag := filled hsize 0%R;
    PVSynth.sumPhase := filled hsize 0%R;
    PVSynth.window := tabulate size (gen_window size (PVSynth.wintype self))
  |}.

(** [self->size = size; self->olaps = olaps;] *)
Definition PVSynth_with_size_olaps (self : PVSynth.t) (size olaps : Z) : PVSynth.t :=
  {| PVSynth.bufsize := PVSynth.bufsize self; PVSynth.sr := PVSynth.sr self;
     PVSynth.data := PVSynth.data self;
     PVSynth.size := size; PVSynth.hsize := PVSynth.hsize self;
     PVSynth.olaps := olaps; PVSynth.hopsize := PVSynth.hopsize self;
     PVSynth.wintype := PVSynth.wintype self;
     PVSynth.inputLatency := PVSynth.inputLatency self;
     PVSynth.overcount := PVSynth.overcount self;
     PVSynth.ampscl := PVSynth.ampscl self;
     PVSynth.factor := PVSynth.factor self; PVSynth.scale := PVSynth.scale self;
     PVSynth.output_buffer := PVSynth.output_buffer self;
     PVSynth.outputAccum := PVSynth.outputAccum self;
     PVSynth.inframe := PVSynth.inframe self;
     PVSynth.outframe := PVSynth.outframe self;
     PVSynth.real := PVSynth.real self; PVSynth.imag := PVSynth.imag self;
     PVSynth.sumPhase := PVSynth.sumPhase self;
     PVSynth.window := PVSynth.window self |}.

(** The phase advance of bin [k] for a published frequency [f]:
    [(tmp - k * self->scale) * self->factor]. *)
Definition PVSynth_phase_increment (scale factor : R) (k : Z) (f : R) : R :=
  ((f - IZR k * scale) * factor)%R.

(** One round of the loop over the bins in [PVSynth_process]; the state of
    the loop is [sumPhase], [real] and [imag]. *)
Definition PVSynth_bin (magn freq : list (list R)) (overcount : Z) (scale factor : R)
    (k : Z) (st : list R * list R * list R) : option (list R * list R * list R) :=
  let '(sumPhase, real, imag) := st in
  mag ← rd2 magn overcount k;
  tmp ← rd2 freq overcount k;
  let tmp := PVSynth_phase_increment scale factor k tmp in
  acc ← rd sumPhase k;
  sumPhase ← wr sumPhase k (acc + tmp)%R;
  phase ← rd sumPhase k;
  real ← wr real k (mag * cos phase)%R;
  imag ← wr imag k (mag * sin phase)%R;
  Some (sumPhase, real, imag).

(** The overlap-add loop
    [outputAccum[k] += outframe[(k+mod)%size] * window[k] * ampscl]. *)
Definition PVSynth_accumulate (size mod_ : Z) (outframe window : list R) (ampscl : R)
    (outputAccum : list R) : option (list R) :=
  for_loop size (λ k acc,
      a ← rd acc k;
      o ← rd outframe ((k + mod_) `rem` size)%Z;
      w ← rd window k;
      wr acc k (a + o * w * ampscl)%R) outputAccum.

(** [for (k=0; k<hopsize; k++) output_buffer[k] = outputAccum[k];] *)
Definition PVSynth_copy (hopsize : Z) (outputAccum output_buffer : list R)
    : option (list R) :=
  for_loop hopsize (λ k buf, a ← rd outputAccum k; wr buf k a) output_buffer.

(** [for (k=0; k<size; k++) outputAccum[k] = outputAccum[k + hopsize];] *)
Definition PVSynth_shift (size hopsize : Z) (outputAccum : list R) : option (list R) :=
  for_loop size (λ k acc, a ← rd acc (k + hopsize); wr acc k a) outputAccum.

(** The body of [if (count[i] >= (self->size-1))] in [PVSynth_process]. *)
Definition PVSynth_frame (magn freq : list (list R)) (data : list R) (self : PVSynth.t)
    : option PVSynth.t :=
  let size := PVSynth.size self in
  let hsize := PVSynth.hsize self in
  let hopsize := PVSynth.hopsize self in
  let overcount := PVSynth.overcount self in
  '(sumPhase, real, imag) ← for_loop hsize
      (PVSynth_bin magn freq overcount (PVSynth.scale self) (PVSynth.factor self))
      (PVSynth.sumPhase self, PVSynth.real self, PVSynth.imag self);
  r0 ← rd real 0;
  inframe ← wr (PVSynth.inframe self) 0 r0;
  inframe ← wr inframe hsize 0%R;
  inframe ← for_loop_from_1 hsize (λ k fr,
      a ← rd real k;
      fr ← wr fr k a;
      b ← rd imag k;
      wr fr (size - k) b) inframe;
  outframe ← for_loop size (λ k out,
      wr out k (irealfft_split inframe size k)) (PVSynth.outframe self);
  let mod_ := (hopsize * overcount)%Z in
  outputAccum ← PVSynth_accumulate size mod_ outframe (PVSynth.window self)
                  (PVSynth.ampscl self) (PVSynth.outputAccum self);
  output_buffer ← PVSynth_copy hopsize outputAccum (PVSynth.output_buffer self);
  outputAccum ← PVSynth_shift size hopsize outputAccum;
  Some {|
    PVSynth.bufsize := PVSynth.bufsize self;
    PVSynth.sr := PVSynth.sr self;
    PVSynth.data := data;
    PVSynth.size := size;
    PVSynth.hsize := hsize;
    PVSynth.olaps := PVSynth.olaps self;
    PVSynth.hopsize := hopsize;
    PVSynth.wintype := PVSynth.wintype self;
    PVSynth.inputLatency := PVSynth.inputLatency self;
    PVSynth.overcount := next_overcount overcount (PVSynth.olaps self);
    PVSynth.ampscl := PVSynth.ampscl self;
    PVSynth.factor := PVSynth.factor self;
    PVSynth.scale := PVSynth.scale self;
    PVSynth.output_buffer := output_buffer;
    PVSynth.outputAccum := outputAccum;
    PVSynth.inframe := inframe;
    PVSynth.outframe := outframe;
    PVSynth.real := real;
    PVSynth.imag := imag;
    PVSynth.sumPhase := sumPhase;
    PVSynth.window := PVSynth.window self
  |}.

(** [self->data[i] = ...] alone. *)
Definition PVSynth_with_data (self : PVSynth.t) (data : list R) : PVSynth.t :=
  {| PVSynth.bufsize := PVSynth.bufsize self; PVSynth.sr := PVSynth.sr self;
     PVSynth.data := data;
     PVSynth.size := PVSynth.size self; PVSynth.hsize := PVSynth.hsize self;
     PVSynth.olaps := PVSynth.olaps self; PVSynth.hopsize := PVSynth.hopsize self;
     PVSynth.wintype := PVSynth.wintype self;
     PVSynth.inputLatency := PVSynth.inputLatency self;
     PVSynth.overcount := PVSynth.overcount self;
     PVSynth.ampscl := PVSynth.ampscl self;
     PVSynth.factor := PVSynth.factor self; PVSynth.scale := PVSynth.scale self;
     PVSynth.output_buffer := PVSynth.output_buffer self;
     PVSynth.outputAccum := PVSynth.outputAccum self;
     PVSynth.inframe := PVSynth.inframe self;
     PVSynth.outframe := PVSynth.outframe self;
     PVSynth.real := PVSynth.real self; PVSynth.imag := PVSynth.imag self;
     PVSynth.sumPhase := PVSynth.sumPhase self;
     PVSynth.window := PVSynth.window self |}.

(** The index read from [output_buffer] at a sample whose published
    counter is [c]. *)
Definition PVSynth_read_index (self : PVSynth.t) (c : Z) : Z :=
  (c - PVSynth.inputLatency self)%Z.

(** One round of [for (i=0; i<self->bufsize; i++)] in [PVSynth_process]. *)
Definition PVSynth_sample (input : PVStream.t) (i : Z) (self : PVSynth.t)
    : option PVSynth.t :=
  c ← rd (PVStream.count input) i;
  x ← rd (PVSynth.output_buffer self) (PVSynth_read_index self c);
  data ← wr (PVSynth.data self) i x;
  if (PVSynth.size self - 1 <=? c)%Z
  then PVSynth_frame (PVStream.magn input) (PVStream.freq input) data self
  else Some (PVSynth_with_data self data).

(** [PVSynth_process], reading the stream [input]. *)
Definition PVSynth_process (input : PVStream.t) (self : PVSynth.t) : option PVSynth.t :=
  self ← (if bool_decide (PVSynth.size self ≠ PVStream.fftsize input
                          ∨ PVSynth.olaps self ≠ PVStream.olaps input)
          then PVSynth_realloc_memories
                 (PVSynth_with_size_olaps self (PVStream.fftsize input) (PVStream.olaps input))
          else Some self);
  for_loop (PVSynth.bufsize self) (PVSynth_sample input) self.

(** Successive calls of [PVAnal_process], one per block of input. *)
Fixpoint PVAnal_run (blocks : list (list R)) (self : PVAnal.t) : option PVAnal.t :=
  match blocks with
  | [] => Some self
  | input :: blocks' => self' ← PVAnal_process input self; PVAnal_run blocks' self'
  end.

(** Successive calls of [PVSynth_process], one per state of the stream. *)
Fixpoint PVSynth_run (inputs : list PVStream.t) (self : PVSynth.t) : option PVSynth.t :=
  match inputs with
  | [] => Some self
  | input :: inputs' => self' ← PVSynth_process input self; PVSynth_run inputs' self'
  end.

End Collaborators.

(** ** PVTranspose *)

(** [PVTranspose_realloc_memories], entered with the size and overlaps
    just latched from the input stream. *)
Definition PVTranspose_realloc_memories (self : PVTranspose.t) (size olaps : Z)
    : option PVTranspose.t :=
  hsize ← int_div size 2;
  hopsize ← int_div size olaps;
  let inputLatency := (size - hopsize)%Z in
  count ← for_loop (PVTranspose.bufsize self) (λ i c, wr c i inputLatency)
            (PVTranspose.count self);
  Some {|
    PVTranspose.bufsize := PVTranspose.bufsize self;
    PVTranspose.size := size;
    PVTranspose.olaps := olaps;
    PVTranspose.hsize := hsize;
    PVTranspose.hopsize := hopsize;
    PVTranspose.overcount := 0;
    PVTranspose.magn := filled olaps (filled hsize 0%R);
    PVTranspose.freq := filled olaps (filled hsize 0%R);
    PVTranspose.count := count
  |}.

(** The first loop of a frame: the current slot of both tables is zeroed. *)
Definition PVTranspose_clear (hsize overcount : Z) (tables : list (list R) * list (list R))
    : option (list (list R) * list (list R)) :=
  for_loop hsize (λ k '(magn, freq),
      magn ← wr2 magn overcount k 0%R;
      freq ← wr2 freq overcount k 0%R;
      Some (magn, freq)) tables.

(** The value of [k * transpo] that is cast to [int]: [k] converted to
    [MYFLT], and the product rounded to [MYFLT]. *)
Definition PVTranspose_product (fl : R → R) (transpo : R) (k : Z) : R :=
  fl (fl (IZR k) * transpo)%R.

(** The cast of every product of a frame is defined, and not negative. *)
Definition PVTranspose_index_defined (fl : R → R) (transpo : R) (hsize : Z) : Prop :=
  ∀ k, (0 ≤ k < hsize)%Z →
    (0 <= PVTranspose_product fl transpo k < IZR (INT_MAX + 1))%R.

(** No product of a frame is rounded across an integer. *)
Definition PVTranspose_index_exact (fl : R → R) (transpo : R) (hsize : Z) : Prop :=
  ∀ k, (0 ≤ k < hsize)%Z →
    Int_part (PVTranspose_product fl transpo k) = Int_part (IZR k * transpo).

(** One round of the second loop of a frame. *)
Definition PVTranspose_bin (fl : R → R) (transpo : R) (magn_in freq_in : list (list R))
    (hsize overcount : Z) (k : Z) (tables : list (list R) * list (list R))
    : option (list (list R) * list (list R)) :=
  let '(magn, freq) := tables in
  index ← int_of_float (PVTranspose_product fl transpo k);
  if (index <? hsize)%Z then
    acc ← rd2 magn overcount index;
    m ← rd2 magn_in overcount k;
    magn ← wr2 magn overcount index (acc + m)%R;
    f ← rd2 freq_in overcount k;
    freq ← wr2 freq overcount index (f * transpo)%R;
    Some (magn, freq)
  else Some (magn, freq).

(** The body of [if (count[i] >= (self->size-1))], the same in
    [PVTranspose_process_i] and [PVTranspose_process_a], on the two tables
    of the node. *)
Definition PVTranspose_frame (fl : R → R) (transpo : R) (magn_in freq_in : list (list R))
    (hsize overcount : Z) (tables : list (list R) * list (list R))
    : option (list (list R) * list (list R)) :=
  tables ← PVTranspose_clear hsize overcount tables;
  for_loop hsize (PVTranspose_bin fl transpo magn_in freq_in hsize overcount) tables.

(** One round of the loop over the samples of a block; [transpo_at i] is
    the transposition factor in force at sample [i]. *)
Definition PVTranspose_sample (fl : R → R) (transpo_at : Z → option R) (input : PVStream.t)
    (i : Z) (self : PVTranspose.t) : option PVTranspose.t :=
  c ← rd (PVStream.count input) i;
  count ← wr (PVTranspose.count self) i c;
  if (PVTranspose.size self - 1 <=? c)%Z then
    transpo ← transpo_at i;
    '(magn, freq) ← PVTranspose_frame fl transpo (PVStream.magn input) (PVStream.freq input)
        (PVTranspose.hsize self) (PVTranspose.overcount self)
        (PVTranspose.magn self, PVTranspose.freq self);
    Some {|
      PVTranspose.bufsize := PVTranspose.bufsize self;
      PVTranspose.size := PVTranspose.size self;
      PVTranspose.olaps := PVTranspose.olaps self;
      PVTranspose.hsize := PVTranspose.hsize self;
      PVTranspose.hopsize := PVTranspose.hopsize self;
      PVTranspose.overcount :=
        next_overcount (PVTranspose.overcount self) (PVTranspose.olaps self);
      PVTranspose.magn := magn;
      PVTranspose.freq := freq;
      PVTranspose.count := count
    |}
  else
    Some {|
      PVTranspose.bufsize := PVTranspose.bufsize self;
      PVTranspose.size := PVTranspose.size self;
      PVTranspose.olaps := PVTranspose.olaps self;
      PVTranspose.hsize := PVTranspose.hsize self;
      PVTranspose.hopsize := PVTranspose.hopsize self;
      PVTranspose.overcount := PVTranspose.overcount self;
      PVTranspose.magn := PVTranspose.magn self;
      PVTranspose.freq := PVTranspose.freq self;
      PVTranspose.count := count
    |}.

(** The re-latch at the start of a block. *)
Definition PVTranspose_adapt (input : PVStream.t) (self : PVTranspose.t)
    : option PVTranspose.t :=
  if bool_decide (PVTranspose.size self ≠ PVStream.fftsize input
                  ∨ PVTranspose.olaps self ≠ PVStream.olaps input)
  then PVTranspose_realloc_memories self (PVStream.fftsize input) (PVStream.olaps input)
  else Some self.

(** [PVTranspose_process_i]: [transpo] is a number. *)
Definition PVTranspose_process_i (fl : R → R) (transpo : R) (input : PVStream.t)
    (self : PVTranspose.t)
    : option PVTranspose.t :=
  self ← PVTranspose_adapt input self;
  for_loop (PVTranspose.bufsize self) (PVTranspose_sample fl (λ _, Some transpo) input) self.

(** [PVTranspose_process_a]: [transpo] is read from the block [tr] at the
    sample where the frame edge falls. *)
Definition PVTranspose_process_a (fl : R → R) (tr : list R) (input : PVStream.t)
    (self : PVTranspose.t)
    : option PVTranspose.t :=
  self ← PVTranspose_adapt input self;
  for_loop (PVTranspose.bufsize self) (PVTranspose_sample fl (rd tr) input) self.

(** ** PVVerb *)

Definition PVVerb_realloc_memories (self : PVVerb.t) (size olaps : Z) : option PVVerb.t :=
  hsize ← int_div size 2;
  hopsize ← int_div size olaps;
  let inputLatency := (size - hopsize)%Z in
  count ← for_loop (PVVerb.bufsize self) (λ i c, wr c i inputLatency) (PVVerb.count self);
  Some {|
    PVVerb.bufsize := PVVerb.bufsize self;
    PVVerb.size := size;
    PVVerb.olaps := olaps;
    PVVerb.hsize := hsize;
    PVVerb.hopsize := hopsize;
    PVVerb.overcount := 0;
    PVVerb.l_magn := filled hsize 0%R;
    PVVerb.magn := filled olaps (filled hsize 0%R);
    PVVerb.freq := filled olaps (filled hsize 0%R);
    PVVerb.count := count
  |}.

(** [if (x < 0.0) x = 0.0; else if (x > 1.0) x = 1.0;] *)
Definition clip01 (x : R) : R :=
  if Rlt_dec x 0 then 0%R else if Rlt_dec 1 x then 1%R else x.

(** [revtime = revtime * 0.25 + 0.75] and [damp = damp * 0.003 + 0.997],
    after the clip: a [double] expression, rounded to [MYFLT] where it is
    assigned. *)
Definition PVVerb_revtime (fl : R → R) (revtime : R) : R :=
  fl (clip01 revtime * 0.25 + 0.75)%R.
Definition PVVerb_damp (fl : R → R) (damp : R) : R :=
  fl (clip01 damp * 0.003 + 0.997)%R.

(** What a bin emits, and stores in its follower, for the input magnitude
    [mag], the follower value [last], the mapped reverberation time and the
    current value of [amp]: [mag] when [mag > last], and otherwise
    [mag + (last - mag) * revtime * amp], each of the four operations on
    [MYFLT] operands rounded to [MYFLT]. *)
Definition PVVerb_follow (fl : R → R) (mag last revtime amp : R) : R :=
  if Rlt_dec last mag then mag
  else fl (mag + fl (fl (fl (last - mag) * revtime) * amp))%R.

(** The value of [amp] at bin [k]: [amp = 1.0], then [amp *= damp] after
    every bin. *)
Definition PVVerb_amp (fl : R → R) (damp : R) (k : nat) : R :=
  Nat.iter k (λ amp, fl (amp * damp)%R) 1%R.

(** One round of the loop over the bins; [revtime] and [damp] are the
    mapped values and the state is [amp], [l_magn] and the two tables. *)
Definition PVVerb_bin (fl : R → R) (revtime damp : R) (magn_in freq_in : list (list R))
    (overcount : Z)
    (k : Z) (st : R * list R * list (list R) * list (list R))
    : option (R * list R * list (list R) * list (list R)) :=
  let '(amp, l_magn, magn, freq) := st in
  mag ← rd2 magn_in overcount k;
  last ← rd l_magn k;
  let out := PVVerb_follow fl mag last revtime amp in
  l_magn ← wr l_magn k out;
  magn ← wr2 magn overcount k out;
  f ← rd2 freq_in overcount k;
  freq ← wr2 freq overcount k f;
  Some (fl (amp * damp)%R, l_magn, magn, freq).

(** The body of [if (count[i] >= (self->size-1))] in [PVVerb_process_ii]:
    [amp = 1.0] and the loop over the bins. *)
Definition PVVerb_frame (fl : R → R) (revtime damp : R) (magn_in freq_in : list (list R))
    (hsize overcount : Z) (st : list R * list (list R) * list (list R))
    : option (list R * list (list R) * list (list R)) :=
  let '(l_magn, magn, freq) := st in
  '(_, l_magn, magn, freq) ←
    for_loop hsize (PVVerb_bin fl revtime damp magn_in freq_in overcount)
      (1%R, l_magn, magn, freq);
  Some (l_magn, magn, freq).

Definition PVVerb_sample (fl : R → R) (revtime damp : R) (input : PVStream.t) (i : Z)
    (self : PVVerb.t)
    : option PVVerb.t :=
  c ← rd (PVStream.count input) i;
  count ← wr (PVVerb.count self) i c;
  if (PVVerb.size self - 1 <=? c)%Z then
    '(l_magn, magn, freq) ← PVVerb_frame fl revtime damp
        (PVStream.magn input) (PVStream.freq input)
        (PVVerb.hsize self) (PVVerb.overcount self)
        (PVVerb.l_magn self, PVVerb.magn self, PVVerb.freq self);
    Some {|
      PVVerb.bufsize := PVVerb.bufsize self;
      PVVerb.size := PVVerb.size self;
      PVVerb.olaps := PVVerb.olaps self;
      PVVerb.hsize := PVVerb.hsize self;
      PVVerb.hopsize := PVVerb.hopsize self;
      PVVerb.overcount := next_overcount (PVVerb.overcount self) (PVVerb.olaps self);
      PVVerb.l_magn := l_magn;
      PVVerb.magn := magn;
      PVVerb.freq := freq;
      PVVerb.count := count
    |}
  else
    Some {|
      PVVerb.bufsize := PVVerb.bufsize self;
      PVVerb.size := PVVerb.size self;
      PVVerb.olaps := PVVerb.olaps self;
      PVVerb.hsize := PVVerb.hsize self;
      PVVerb.hopsize := PVVerb.hopsize self;
      PVVerb.overcount := PVVerb.overcount self;
      PVVerb.l_magn := PVVerb.l_magn self;
      PVVerb.magn := PVVerb.magn self;
      PVVerb.freq := PVVerb.freq self;
      PVVerb.count := count
    |}.

(** [PVVerb_process_ii]: [revtime] and [damp] are numbers, clipped and
    mapped once per block. *)
Definition PVVerb_process_ii (fl : R → R) (revtime damp : R) (input : PVStream.t) (self : PVVerb.t)
    : option PVVerb.t :=
  let revtime := PVVerb_revtime fl revtime in
  let damp := PVVerb_damp fl damp in
  self ← (if bool_decide (PVVerb.size self ≠ PVStream.fftsize input
                          ∨ PVVerb.olaps self ≠ PVStream.olaps input)
          then PVVerb_realloc_memories self (PVStream.fftsize input) (PVStream.olaps input)
          else Some self);
  for_loop (PVVerb.bufsize self) (PVVerb_sample fl revtime damp input) self.

(** ** PVGate *)

Definition PVGate_realloc_memories (self : PVGate.t) (size olaps : Z) : option PVGate.t :=
  hsize ← int_div size 2;
  hopsize ← int_div size olaps;
  let inputLatency := (size - hopsize)%Z in
  count ← for_loop (PVGate.bufsize self) (λ i c, wr c i inputLatency) (PVGate.count self);
  Some {|
    PVGate.bufsize := PVGate.bufsize self;
    PVGate.size := size;
    PVGate.olaps := olaps;
    PVGate.hsize := hsize;
    PVGate.hopsize := hopsize;
    PVGate.overcount := 0;
    PVGate.magn := filled olaps (filled hsize 0%R);
    PVGate.freq := filled olaps (filled hsize 0%R);
    PVGate.count := count
  |}.

(** [thresh = MYPOW(10.0, thresh * 0.05)]. *)
Definition PVGate_thresh (thresh : R) : R := MYPOW10 (thresh * 0.05).

(** The magnitude a bin emits; [thresh] is the linear threshold. *)
Definition PVGate_gate (thresh damp mag : R) : R :=
  if Rlt_dec mag thresh then (mag * damp)%R else mag.

(** One round of the loop over the bins; [thresh] is the linear threshold. *)
Definition PVGate_bin (thresh damp : R) (magn_in freq_in : list (list R)) (overcount : Z)
    (k : Z) (tables : list (list R) * list (list R))
    : option (list (list R) * list (list R)) :=
  let '(magn, freq) := tables in
  mag ← rd2 magn_in overcount k;
  magn ← wr2 magn overcount k (PVGate_gate thresh damp mag);
  f ← rd2 freq_in overcount k;
  freq ← wr2 freq overcount k f;
  Some (magn, freq).

(** The body of [if (count[i] >= (self->size-1))] in [PVGate_process_ii]. *)
Definition PVGate_frame (thresh damp : R) (magn_in freq_in : list (list R))
    (hsize overcount : Z) (tables : list (list R) * list (list R))
    : option (list (list R) * list (list R)) :=
  for_loop hsize (PVGate_bin thresh damp magn_in freq_in overcount) tables.

Definition PVGate_sample (thresh damp : R) (input : PVStream.t) (i : Z) (self : PVGate.t)
    : option PVGate.t :=
  c ← rd (PVStream.count input) i;
  count ← wr (PVGate.count self) i c;
  if (PVGate.size self - 1 <=? c)%Z then
    '(magn, freq) ← PVGate_frame thresh damp (PVStream.magn input) (PVStream.freq input)
        (PVGate.hsize self) (PVGate.overcount self) (PVGate.magn self, PVGate.freq self);
    Some {|
      PVGate.bufsize := PVGate.bufsize self;
      PVGate.size := PVGate.size self;
      PVGate.olaps := PVGate.olaps self;
      PVGate.hsize := PVGate.hsize self;
      PVGate.hopsize := PVGate.hopsize self;
      PVGate.overcount := next_overcount (PVGate.overcount self) (PVGate.olaps self);
      PVGate.magn := magn;
      PVGate.freq := freq;
      PVGate.count := count
    |}
  else
    Some {|
      PVGate.bufsize := PVGate.bufsize self;
      PVGate.size := PVGate.size self;
      PVGate.olaps := PVGate.olaps self;
      PVGate.hsize := PVGate.hsize self;
      PVGate.hopsize := PVGate.hopsize self;
      PVGate.overcount := PVGate.overcount self;
      PVGate.magn := PVGate.magn self;
      PVGate.freq := PVGate.freq self;
      PVGate.count := count
    |}.

(** [PVGate_process_ii]: [thresh] (in dB) and [damp] are numbers. *)
Definition PVGate_process_ii (thresh damp : R) (input : PVStream.t) (self : PVGate.t)
    : option PVGate.t :=
  let thresh := PVGate_thresh thresh in
  self ← (if bool_decide (PVGate.size self ≠ PVStream.fftsize input
                          ∨ PVGate.olaps self ≠ PVStream.olaps input)
          then PVGate_realloc_memories self (PVStream.fftsize input) (PVStream.olaps input)
          else Some self);
  for_loop (PVGate.bufsize self) (PVGate_sample thresh damp input) self.

(** ** The transposition as the spec words it

    The spec describes the result of a [PVTranspose] frame bin by bin: the
    magnitudes of the input bins [k] with [⌊k·transpo⌋ = idx] are summed
    into output bin [idx], and the frequency of the last such [k] is kept.
    These two functions follow that wording; [Int_part] is the floor. *)

(** The value of a cell of an input table, 0 where there is none. *)
Definition cell_or_0 (t : list (list R)) (i k : Z) : R := default 0%R (rd2 t i k).

(** The sum of [m k] over the bins [k < n] that land on [idx]. *)
Fixpoint landing_sum (transpo : R) (m : Z → R) (idx : Z) (n : nat) : R :=
  match n with
  | O => 0%R
  | S n' =>
      if (Int_part (IZR (Z.of_nat n') * transpo) =? idx)%Z
      then (landing_sum transpo m idx n' + m (Z.of_nat n'))%R
      else landing_sum transpo m idx n'
  end.

(** The largest bin [k < n] that lands on [idx], if any. *)
Fixpoint landing_last (transpo : R) (idx : Z) (n : nat) : option Z :=
  match n with
  | O => None
  | S n' =>
      if (Int_part (IZR (Z.of_nat n') * transpo) =? idx)%Z
      then Some (Z.of_nat n')
      else landing_last transpo idx n'
  end.

(** The frequency kept in output bin [idx] after the bins [k < n]. *)
Definition landing_freq (transpo : R) (f : Z → R) (idx : Z) (n : nat) : R :=
  match landing_last transpo idx n with
  | Some k => (f k * transpo)%R
  | None => 0%R
  end.

(** The same, with the index of each bin given by a function: what a
    frame leaves when the index computed for a bin is [index k]. *)
Fixpoint landing_sum_by (index : Z → Z) (m : Z → R) (idx : Z) (n : nat) : R :=
  match n with
  | O => 0%R
  | S n' =>
      if (index (Z.of_nat n') =? idx)%Z
      then (landing_sum_by index m idx n' + m (Z.of_nat n'))%R
      else landing_sum_by index m idx n'
  end.

Fixpoint landing_last_by (index : Z → Z) (idx : Z) (n : nat) : option Z :=
  match n with
  | O => None
  | S n' =>
      if (index (Z.of_nat n') =? idx)%Z
      then Some (Z.of_nat n')
      else landing_last_by index idx n'
  end.

Definition landing_freq_by (index : Z → Z) (transpo : R) (f : Z → R) (idx : Z) (n : nat)
    : R :=
  match landing_last_by index idx n with
  | Some k => (f k * transpo)%R
  | None => 0%R
  end.

(** The index that the code computes for bin [k], where the cast is
    defined. *)
Definition PVTranspose_index (fl : R → R) (transpo : R) (k : Z) : Z :=
  Int_part (PVTranspose_product fl transpo k).

(** ** Shapes

    The well-formedness conditions under which the loops stay inside their
    buffers. *)

(** An array of [n] cells. *)
Definition cells {A} (n : Z) (a : list A) : Prop := Z.of_nat (length a) = n.

(** [olaps] rows of [hsize] cells each, as allocated by every
    [*_realloc_memories]. *)
Definition table (olaps hsize : Z) (t : list (list R)) : Prop :=
  cells olaps t ∧ ∀ i row, rd t i = Some row → cells hsize row.

(** The configuration invariants of the spec: [size] and [olaps] are
    powers of two with [size >= 2 * olaps], and the derived quantities are
    the ones computed by [*_realloc_memories]. *)
Definition legal_config (size olaps hsize hopsize inputLatency : Z) : Prop :=
  power_of_two size ∧ power_of_two olaps ∧ (2 * olaps ≤ size)%Z ∧
  hsize = (size `div` 2)%Z ∧ hopsize = (size `div` olaps)%Z ∧
  inputLatency = (size - hopsize)%Z.

(** The configurations in which the nodes can run at all: there is at
    least one bin ([size >= 2]) and the hop is at least one sample
    ([1 <= olaps <= size]).  Every legal configuration is one of them; so
    is, say, [size = 1024] with [olaps = 3]. *)
Definition usable_config (size olaps hsize hopsize inputLatency : Z) : Prop :=
  (2 ≤ size)%Z ∧ (1 ≤ olaps ≤ size)%Z ∧
  hsize = (size `quot` 2)%Z ∧ hopsize = (size `quot` olaps)%Z ∧
  inputLatency = (size - hopsize)%Z.

(** The range of the published counter. *)
Definition count_in_range (inputLatency size : Z) (count : list Z) : Prop :=
  ∀ i c, rd count i = Some c → (inputLatency ≤ c ≤ size - 1)%Z.

(** The state invariant of an analyser in a usable configuration. *)
Record PVAnal_wf (self : PVAnal.t) : Prop := {
  anal_config :
    usable_config (PVAnal.size self) (PVAnal.olaps self) (PVAnal.hsize self)
      (PVAnal.hopsize self) (PVAnal.inputLatency self);
  anal_factor :
    PVAnal.factor self = (PVAnal.sr self / (IZR (PVAnal.hopsize self) * TWOPI))%R;
  anal_scale :
    PVAnal.scale self
    = (TWOPI * IZR (PVAnal.hopsize self) / IZR (PVAnal.size self))%R;
  anal_incount :
    (PVAnal.inputLatency self ≤ PVAnal.incount self < PVAnal.size self)%Z;
  anal_overcount : (0 ≤ PVAnal.overcount self < PVAnal.olaps self)%Z;
  anal_input_buffer : cells (PVAnal.size self) (PVAnal.input_buffer self);
  anal_inframe : cells (PVAnal.size self) (PVAnal.inframe self);
  anal_outframe : cells (PVAnal.size self) (PVAnal.outframe self);
  anal_window : cells (PVAnal.size self) (PVAnal.window self);
  anal_real : cells (PVAnal.hsize self) (PVAnal.real self);
  anal_imag : cells (PVAnal.hsize self) (PVAnal.imag self);
  anal_lastPhase : cells (PVAnal.hsize self) (PVAnal.lastPhase self);
  anal_magn : table (PVAnal.olaps self) (PVAnal.hsize self) (PVAnal.magn self);
  anal_freq : table (PVAnal.olaps self) (PVAnal.hsize self) (PVAnal.freq self);
  anal_bufsize : (0 ≤ PVAnal.bufsize self)%Z;
  anal_count : cells (PVAnal.bufsize self) (PVAnal.count self);
  anal_count_range :
    count_in_range (PVAnal.inputLatency self) (PVAnal.size self) (PVAnal.count self)
}.

(** The top [hopsize] cells of the overlap-add accumulator are zero. *)
Definition tail_is_zero (size hopsize : Z) (outputAccum : list R) : Prop :=
  ∀ k, (size ≤ k < size + hopsize)%Z → rd outputAccum k = Some 0%R.

(** The state invariant of a synthesiser in a usable configuration. *)
Record PVSynth_wf (self : PVSynth.t) : Prop := {
  synth_config :
    usable_config (PVSynth.size self) (PVSynth.olaps self) (PVSynth.hsize self)
      (PVSynth.hopsize self) (PVSynth.inputLatency self);
  synth_overcount : (0 ≤ PVSynth.overcount self < PVSynth.olaps self)%Z;
  synth_output_buffer : cells (PVSynth.size self) (PVSynth.output_buffer self);
  synth_outputAccum :
    cells (PVSynth.size self + PVSynth.hopsize self) (PVSynth.outputAccum self);
  synth_tail :
    tail_is_zero (PVSynth.size self) (PVSynth.hopsize self) (PVSynth.outputAccum self);
  synth_inframe : cells (PVSynth.size self) (PVSynth.inframe self);
  synth_outframe : cells (PVSynth.size self) (PVSynth.outframe self);
  synth_window : cells (PVSynth.size self) (PVSynth.window self);
  synth_real : cells (PVSynth.hsize self) (PVSynth.real self);
  synth_imag : cells (PVSynth.hsize self) (PVSynth.imag self);
  synth_sumPhase : cells (PVSynth.hsize self) (PVSynth.sumPhase self);
  synth_bufsize : (0 ≤ PVSynth.bufsize self)%Z;
  synth_data : cells (PVSynth.bufsize self) (PVSynth.data self)
}.

(** What a consumer needs of the stream it reads: a usable configuration,
    tables of the published dimensions and, for every sample of the block,
    a counter in the range of that configuration. *)
Record PVStream_wf (bufsize : Z) (input : PVStream.t) : Prop := {
  stream_size : (2 ≤ PVStream.fftsize input)%Z;
  stream_olaps : (1 ≤ PVStream.olaps input ≤ PVStream.fftsize input)%Z;
  stream_magn :
    table (PVStream.olaps input) (PVStream.fftsize input `quot` 2) (PVStream.magn input);
  stream_freq :
    table (PVStream.olaps input) (PVStream.fftsize input `quot` 2) (PVStream.freq input);
  stream_count : cells bufsize (PVStream.count input);
  stream_count_range :
    count_in_range
      (PVStream.fftsize input - PVStream.fftsize input `quot` PVStream.olaps input)
      (PVStream.fftsize input) (PVStream.count input)
}.

(** What a synthesiser needs besides, to re-latch on the stream: the
    length [size + hopsize] of its accumulator is an [int]. *)
Definition PVStream_fits (input : PVStream.t) : Prop :=
  (PVStream.fftsize input + PVStream.fftsize input `quot` PVStream.olaps input
   ≤ INT_MAX)%Z.

(** ** Whole blocks

    Notions used to state what the nodes leave behind after whole blocks. *)

(** The fields of an analyser that only a reconfiguration changes. *)
Definition PVAnal_same_config (self self' : PVAnal.t) : Prop :=
  PVAnal.bufsize self' = PVAnal.bufsize self ∧ PVAnal.sr self' = PVAnal.sr self ∧
  PVAnal.size self' = PVAnal.size self ∧ PVAnal.olaps self' = PVAnal.olaps self ∧
  PVAnal.hsize self' = PVAnal.hsize self ∧ PVAnal.hopsize self' = PVAnal.hopsize self ∧
  PVAnal.wintype self' = PVAnal.wintype self ∧
  PVAnal.inputLatency self' = PVAnal.inputLatency self ∧
  PVAnal.factor self' = PVAnal.factor self ∧ PVAnal.scale self' = PVAnal.scale self ∧
  PVAnal.window self' = PVAnal.window self.

(** The sample at time [t] of a signal that was silent before time 0. *)
Definition sample_at (signal : list R) (t : Z) : R := default 0%R (rd signal t).

(** The number of samples of a block at which a consumer computes a
    frame, [count[i] >= size - 1]. *)
Definition frame_edges (size : Z) (count : list Z) : nat :=
  length (filter (λ c, (size - 1 ≤ c)%Z) count).

(** [n] times [overcount++; if (overcount >= olaps) overcount = 0;]. *)
Definition advance_overcount (olaps : Z) (n : nat) (overcount : Z) : Z :=
  Nat.iter n (λ o, next_overcount o olaps) overcount.

(** What a frame of the analyser, computed from the buffer [input_buffer],
    leaves in the state [self']: the windowed and rotated frame, the
    shifted buffer, the polar form of every bin of the transform in the
    current overlap slot, the other slots untouched. *)
Definition PVAnal_framed (realfft_split : list R → Z → Z → R) (input_buffer : list R)
    (self self' : PVAnal.t) : Prop :=
  PVAnal.incount self' = PVAnal.inputLatency self ∧
  PVAnal.overcount self' = next_overcount (PVAnal.overcount self) (PVAnal.olaps self) ∧
  (∀ k, (0 ≤ k < PVAnal.size self)%Z → ∃ x w,
     rd input_buffer k = Some x ∧ rd (PVAnal.window self) k = Some w ∧
     rd (PVAnal.inframe self')
        ((k + PVAnal.hopsize self * PVAnal.overcount self) `rem` PVAnal.size self)
     = Some (x * w)%R) ∧
  (∀ k, (0 ≤ k < PVAnal.inputLatency self)%Z →
     rd (PVAnal.input_buffer self') k = rd input_buffer (k + PVAnal.hopsize self)) ∧
  (∀ k, (PVAnal.inputLatency self ≤ k)%Z →
     rd (PVAnal.input_buffer self') k = rd input_buffer k) ∧
  (∀ k, (0 ≤ k < PVAnal.hsize self)%Z → ∃ last delta,
     let re := realfft_split (PVAnal.inframe self') (PVAnal.size self) k in
     let im := if bool_decide (k = 0%Z) then 0%R
               else realfft_split (PVAnal.inframe self') (PVAnal.size self)
                      (PVAnal.size self - k)%Z in
     rd (PVAnal.lastPhase self) k = Some last ∧
     unwrap (MYATAN2 im re - last) = Some delta ∧
     rd (PVAnal.lastPhase self') k = Some (MYATAN2 im re) ∧
     rd2 (PVAnal.magn self') (PVAnal.overcount self) k
       = Some (sqrt (re * re + im * im)) ∧
     rd2 (PVAnal.freq self') (PVAnal.overcount self) k
       = Some (PVAnal_true_freq (PVAnal.scale self) (PVAnal.factor self) k delta)) ∧
  (∀ i k, i ≠ PVAnal.overcount self →
     rd2 (PVAnal.magn self') i k = rd2 (PVAnal.magn self) i k ∧
     rd2 (PVAnal.freq self') i k = rd2 (PVAnal.freq self) i k).

(** The analyser has consumed [signal] since its last reconfiguration: the
    first [incount] cells of the input buffer hold the most recent samples
    and, once a frame has been computed, [inframe] holds the [size] samples
    that ended at the last frame edge, windowed and rotated by the slot of
    that frame. *)
Definition PVAnal_holds (signal : list R) (self : PVAnal.t) : Prop :=
  let n := Z.of_nat (length signal) in
  let t := (n - (PVAnal.incount self - PVAnal.inputLatency self))%Z in
  (∀ j, (0 ≤ j < PVAnal.incount self)%Z →
     rd (PVAnal.input_buffer self) j
     = Some (sample_at signal (n - PVAnal.incount self + j))) ∧
  ((PVAnal.hopsize self ≤ t)%Z →
   ∀ k, (0 ≤ k < PVAnal.size self)%Z → ∃ w,
     rd (PVAnal.window self) k = Some w ∧
     rd (PVAnal.inframe self)
        ((k + PVAnal.hopsize self
              * ((PVAnal.overcount self + PVAnal.olaps self - 1) `mod` PVAnal.olaps self))
         `rem` PVAnal.size self)
     = Some (sample_at signal (t - PVAnal.size self + k) * w)%R).

(** Every cell of a buffer, or of a table, is zero. *)
Definition all_zero (a : list R) : Prop := ∀ j v, rd a j = Some v → v = 0%R.
Definition all_zero2 (t : list (list R)) : Prop := ∀ i k v, rd2 t i k = Some v → v = 0%R.

(** A transform that maps the zero frame to the zero spectrum, as every
    linear transform does. *)
Definition zero_to_zero (transform : list R → Z → Z → R) : Prop :=
  ∀ frame size k, all_zero frame → transform frame size k = 0%R.

(** The state of an analyser that has only seen silence: the published
    frequencies are 0, in the slots never written, or the centre
    frequencies of the bins. *)
Definition PVAnal_silent (self : PVAnal.t) : Prop :=
  all_zero (PVAnal.input_buffer self) ∧ all_zero (PVAnal.lastPhase self) ∧
  all_zero2 (PVAnal.magn self) ∧
  ∀ i k v, rd2 (PVAnal.freq self) i k = Some v →
    v = 0%R ∨ v = (IZR k * PVAnal.sr self / IZR (PVAnal.size self))%R.

(** The fields of a synthesiser that only a reconfiguration changes. *)
Definition PVSynth_same_config (self self' : PVSynth.t) : Prop :=
  PVSynth.bufsize self' = PVSynth.bufsize self ∧ PVSynth.sr self' = PVSynth.sr self ∧
  PVSynth.size self' = PVSynth.size self ∧ PVSynth.hsize self' = PVSynth.hsize self ∧
  PVSynth.olaps self' = PVSynth.olaps self ∧
  PVSynth.hopsize self' = PVSynth.hopsize self ∧
  PVSynth.wintype self' = PVSynth.wintype self ∧
  PVSynth.inputLatency self' = PVSynth.inputLatency self ∧
  PVSynth.ampscl self' = PVSynth.ampscl self ∧
  PVSynth.factor self' = PVSynth.factor self ∧ PVSynth.scale self' = PVSynth.scale self ∧
  PVSynth.window self' = PVSynth.window self.

(** What a frame of the synthesiser, computed from the tables [magn] and
    [freq], leaves in the state [self']: the accumulated phases and the
    rectangular form of every bin, the packed spectrum, its inverse
    transform, and the overlap-add of that transform into the accumulator,
    whose first [hopsize] cells are handed to the output buffer before the
    accumulator moves down by [hopsize]. *)
Definition PVSynth_framed (irealfft_split : list R → Z → Z → R)
    (magn freq : list (list R)) (self self' : PVSynth.t) : Prop :=
  let size := PVSynth.size self in
  let hsize := PVSynth.hsize self in
  let hopsize := PVSynth.hopsize self in
  let overcount := PVSynth.overcount self in
  let out k := irealfft_split (PVSynth.inframe self') size
                 ((k + hopsize * overcount) `rem` size)%Z in
  PVSynth.overcount self' = next_overcount overcount (PVSynth.olaps self) ∧
  (∀ k, (0 ≤ k < hsize)%Z → ∃ mag f acc,
     rd2 magn overcount k = Some mag ∧ rd2 freq overcount k = Some f ∧
     rd (PVSynth.sumPhase self) k = Some acc ∧
     rd (PVSynth.sumPhase self') k
       = Some (acc + PVSynth_phase_increment (PVSynth.scale self) (PVSynth.factor self) k f)%R ∧
     rd (PVSynth.real self') k
       = Some (mag * cos (acc + PVSynth_phase_increment
                                  (PVSynth.scale self) (PVSynth.factor self) k f))%R ∧
     rd (PVSynth.imag self') k
       = Some (mag * sin (acc + PVSynth_phase_increment
                                  (PVSynth.scale self) (PVSynth.factor self) k f))%R) ∧
  rd (PVSynth.inframe self') 0 = rd (PVSynth.real self') 0 ∧
  rd (PVSynth.inframe self') hsize = Some 0%R ∧
  (∀ k, (1 ≤ k < hsize)%Z →
     rd (PVSynth.inframe self') k = rd (PVSynth.real self') k ∧
     rd (PVSynth.inframe self') (size - k) = rd (PVSynth.imag self') k) ∧
  (∀ j, (hsize < j ≤ size - hsize)%Z →
     rd (PVSynth.inframe self') j = rd (PVSynth.inframe self) j) ∧
  (∀ k, (0 ≤ k < size)%Z →
     rd (PVSynth.outframe self') k
     = Some (irealfft_split (PVSynth.inframe self') size k)) ∧
  (∀ k, (0 ≤ k < hopsize)%Z → ∃ a w,
     rd (PVSynth.outputAccum self) k = Some a ∧ rd (PVSynth.window self) k = Some w ∧
     rd (PVSynth.output_buffer self') k
     = Some (a + out k * w * PVSynth.ampscl self)%R) ∧
  (∀ k, (hopsize ≤ k)%Z →
     rd (PVSynth.output_buffer self') k = rd (PVSynth.output_buffer self) k) ∧
  (∀ k, (0 ≤ k < size - hopsize)%Z → ∃ a w,
     rd (PVSynth.outputAccum self) (k + hopsize) = Some a ∧
     rd (PVSynth.window self) (k + hopsize) = Some w ∧
     rd (PVSynth.outputAccum self') k
     = Some (a + out (k + hopsize)%Z * w * PVSynth.ampscl self)%R) ∧
  (∀ k, (size - hopsize ≤ k < size + hopsize)%Z →
     rd (PVSynth.outputAccum self') k = Some 0%R).

(** The state of a synthesiser that has only emitted silence. *)
Definition PVSynth_silent (self : PVSynth.t) : Prop :=
  all_zero (PVSynth.output_buffer self) ∧ all_zero (PVSynth.outputAccum self) ∧
  all_zero (PVSynth.inframe self).

(** ** The audio-rate variants of the transformers

    [PVVerb] and [PVGate] come in four variants each, one for every
    combination of a parameter given as a number and a parameter given as
    an audio stream.  A number is read, and mapped, once per block before
    the loop over the samples; a stream is read at the sample where a frame
    edge falls, and mapped there.  The loop itself is the same text in the
    four variants; [*_sample_at] is that loop body, with the value of each
    parameter at sample [i] as it enters the loop over the bins. *)

Definition PVVerb_sample_at (fl : R → R) (revtime_at damp_at : Z → option R) (input : PVStream.t)
    (i : Z) (self : PVVerb.t) : option PVVerb.t :=
  c ← rd (PVStream.count input) i;
  count ← wr (PVVerb.count self) i c;
  if (PVVerb.size self - 1 <=? c)%Z then
    revtime ← revtime_at i;
    damp ← damp_at i;
    '(l_magn, magn, freq) ← PVVerb_frame fl revtime damp
        (PVStream.magn input) (PVStream.freq input)
        (PVVerb.hsize self) (PVVerb.overcount self)
        (PVVerb.l_magn self, PVVerb.magn self, PVVerb.freq self);
    Some {|
      PVVerb.bufsize := PVVerb.bufsize self;
      PVVerb.size := PVVerb.size self;
      PVVerb.olaps := PVVerb.olaps self;
      PVVerb.hsize := PVVerb.hsize self;
      PVVerb.hopsize := PVVerb.hopsize self;
      PVVerb.overcount := next_overcount (PVVerb.overcount self) (PVVerb.olaps self);
      PVVerb.l_magn := l_magn;
      PVVerb.magn := magn;
      PVVerb.freq := freq;
      PVVerb.count := count
    |}
  else
    Some {|
      PVVerb.bufsize := PVVerb.bufsize self;
      PVVerb.size := PVVerb.size self;
      PVVerb.olaps := PVVerb.olaps self;
      PVVerb.hsize := PVVerb.hsize self;
      PVVerb.hopsize := PVVerb.hopsize self;
      PVVerb.overcount := PVVerb.overcount self;
      PVVerb.l_magn := PVVerb.l_magn self;
      PVVerb.magn := PVVerb.magn self;
      PVVerb.freq := PVVerb.freq self;
      PVVerb.count := count
    |}.

(** The re-latch at the start of a block. *)
Definition PVVerb_adapt (input : PVStream.t) (self : PVVerb.t) : option PVVerb.t :=
  if bool_decide (PVVerb.size self ≠ PVStream.fftsize input
                  ∨ PVVerb.olaps self ≠ PVStream.olaps input)
  then PVVerb_realloc_memories self (PVStream.fftsize input) (PVStream.olaps input)
  else Some self.

(** [PVVerb_process_ai]: [revtime] is read from the block [rvt], [damp] is
    a number. *)
Definition PVVerb_process_ai (fl : R → R) (rvt : list R) (damp : R) (input : PVStream.t)
    (self : PVVerb.t) : option PVVerb.t :=
  let damp := PVVerb_damp fl damp in
  self ← PVVerb_adapt input self;
  for_loop (PVVerb.bufsize self)
    (PVVerb_sample_at fl (λ i, revtime ← rd rvt i; Some (PVVerb_revtime fl revtime))
       (λ _, Some damp) input) self.

(** [PVVerb_process_ia]: [revtime] is a number, [damp] is read from the
    block [dmp]. *)
Definition PVVerb_process_ia (fl : R → R) (revtime : R) (dmp : list R) (input : PVStream.t)
    (self : PVVerb.t) : option PVVerb.t :=
  let revtime := PVVerb_revtime fl revtime in
  self ← PVVerb_adapt input self;
  for_loop (PVVerb.bufsize self)
    (PVVerb_sample_at fl (λ _, Some revtime)
       (λ i, damp ← rd dmp i; Some (PVVerb_damp fl damp)) input) self.

(** [PVVerb_process_aa]: both are read from blocks, [rvt[i]] first. *)
Definition PVVerb_process_aa (fl : R → R) (rvt dmp : list R) (input : PVStream.t)
    (self : PVVerb.t) : option PVVerb.t :=
  self ← PVVerb_adapt input self;
  for_loop (PVVerb.bufsize self)
    (PVVerb_sample_at fl (λ i, revtime ← rd rvt i; Some (PVVerb_revtime fl revtime))
       (λ i, damp ← rd dmp i; Some (PVVerb_damp fl damp)) input) self.

Definition PVGate_sample_at (thresh_at damp_at : Z → option R) (input : PVStream.t)
    (i : Z) (self : PVGate.t) : option PVGate.t :=
  c ← rd (PVStream.count input) i;
  count ← wr (PVGate.count self) i c;
  if (PVGate.size self - 1 <=? c)%Z then
    thresh ← thresh_at i;
    damp ← damp_at i;
    '(magn, freq) ← PVGate_frame thresh damp (PVStream.magn input) (PVStream.freq input)
        (PVGate.hsize self) (PVGate.overcount self) (PVGate.magn self, PVGate.freq self);
    Some {|
      PVGate.bufsize := PVGate.bufsize self;
      PVGate.size := PVGate.size self;
      PVGate.olaps := PVGate.olaps self;
      PVGate.hsize := PVGate.hsize self;
      PVGate.hopsize := PVGate.hopsize self;
      PVGate.overcount := next_overcount (PVGate.overcount self) (PVGate.olaps self);
      PVGate.magn := magn;
      PVGate.freq := freq;
      PVGate.count := count
    |}
  else
    Some {|
      PVGate.bufsize := PVGate.bufsize self;
      PVGate.size := PVGate.size self;
      PVGate.olaps := PVGate.olaps self;
      PVGate.hsize := PVGate.hsize self;
      PVGate.hopsize := PVGate.hopsize self;
      PVGate.overcount := PVGate.overcount self;
      PVGate.magn := PVGate.magn self;
      PVGate.freq := PVGate.freq self;
      PVGate.count := count
    |}.

Definition PVGate_adapt (input : PVStream.t) (self : PVGate.t) : option PVGate.t :=
  if bool_decide (PVGate.size self ≠ PVStream.fftsize input
                  ∨ PVGate.olaps self ≠ PVStream.olaps input)
  then PVGate_realloc_memories self (PVStream.fftsize input) (PVStream.olaps input)
  else Some self.

(** [PVGate_process_ai]: [thresh] (in dB) is read from the block [rvt],
    [damp] is a number. *)
Definition PVGate_process_ai (rvt : list R) (damp : R) (input : PVStream.t)
    (self : PVGate.t) : option PVGate.t :=
  self ← PVGate_adapt input self;
  for_loop (PVGate.bufsize self)
    (PVGate_sample_at (λ i, thresh ← rd rvt i; Some (PVGate_thresh thresh))
       (λ _, Some damp) input) self.

(** [PVGate_process_ia]: [thresh] is a number, [damp] is read from the
    block [dmp]. *)
Definition PVGate_process_ia (thresh : R) (dmp : list R) (input : PVStream.t)
    (self : PVGate.t) : option PVGate.t :=
  let thresh := PVGate_thresh thresh in
  self ← PVGate_adapt input self;
  for_loop (PVGate.bufsize self) (PVGate_sample_at (λ _, Some thresh) (rd dmp) input) self.

(** [PVGate_process_aa]: both are read from blocks, [rvt[i]] first. *)
Definition PVGate_process_aa (rvt dmp : list R) (input : PVStream.t)
    (self : PVGate.t) : option PVGate.t :=
  self ← PVGate_adapt input self;
  for_loop (PVGate.bufsize self)
    (PVGate_sample_at (λ i, thresh ← rd rvt i; Some (PVGate_thresh thresh))
       (rd dmp) input) self.

(** ** The transformers as producers

    What a consumer sees through the [pv_stream] of a transformer, and the
    state invariants under which the transformers stay inside their
    buffers. *)

Definition PVTranspose_pv_stream (self : PVTranspose.t) : PVStream.t :=
  {| PVStream.fftsize := PVTranspose.size self;
     PVStream.olaps := PVTranspose.olaps self;
     PVStream.magn := PVTranspose.magn self;
     PVStream.freq := PVTranspose.freq self;
     PVStream.count := PVTranspose.count self |}.

Definition PVVerb_pv_stream (self : PVVerb.t) : PVStream.t :=
  {| PVStream.fftsize := PVVerb.size self;
     PVStream.olaps := PVVerb.olaps self;
     PVStream.magn := PVVerb.magn self;
     PVStream.freq := PVVerb.freq self;
     PVStream.count := PVVerb.count self |}.

Definition PVGate_pv_stream (self : PVGate.t) : PVStream.t :=
  {| PVStream.fftsize := PVGate.size self;
     PVStream.olaps := PVGate.olaps self;
     PVStream.magn := PVGate.magn self;
     PVStream.freq := PVGate.freq self;
     PVStream.count := PVGate.count self |}.

Record PVTranspose_wf (self : PVTranspose.t) : Prop := {
  transpose_config :
    usable_config (PVTranspose.size self) (PVTranspose.olaps self)
      (PVTranspose.hsize self) (PVTranspose.hopsize self)
      (PVTranspose.size self - PVTranspose.hopsize self);
  transpose_overcount : (0 ≤ PVTranspose.overcount self < PVTranspose.olaps self)%Z;
  transpose_magn :
    table (PVTranspose.olaps self) (PVTranspose.hsize self) (PVTranspose.magn self);
  transpose_freq :
    table (PVTranspose.olaps self) (PVTranspose.hsize self) (PVTranspose.freq self);
  transpose_bufsize : (0 ≤ PVTranspose.bufsize self)%Z;
  transpose_count : cells (PVTranspose.bufsize self) (PVTranspose.count self)
}.

Record PVVerb_wf (self : PVVerb.t) : Prop := {
  verb_config :
    usable_config (PVVerb.size self) (PVVerb.olaps self)
      (PVVerb.hsize self) (PVVerb.hopsize self)
      (PVVerb.size self - PVVerb.hopsize self);
  verb_overcount : (0 ≤ PVVerb.overcount self < PVVerb.olaps self)%Z;
  verb_l_magn : cells (PVVerb.hsize self) (PVVerb.l_magn self);
  verb_magn : table (PVVerb.olaps self) (PVVerb.hsize self) (PVVerb.magn self);
  verb_freq : table (PVVerb.olaps self) (PVVerb.hsize self) (PVVerb.freq self);
  verb_bufsize : (0 ≤ PVVerb.bufsize self)%Z;
  verb_count : cells (PVVerb.bufsize self) (PVVerb.count self)
}.

Record PVGate_wf (self : PVGate.t) : Prop := {
  gate_config :
    usable_config (PVGate.size self) (PVGate.olaps self)
      (PVGate.hsize self) (PVGate.hopsize self)
      (PVGate.size self - PVGate.hopsize self);
  gate_overcount : (0 ≤ PVGate.overcount self < PVGate.olaps self)%Z;
  gate_magn : table (PVGate.olaps self) (PVGate.hsize self) (PVGate.magn self);
  gate_freq : table (PVGate.olaps self) (PVGate.hsize self) (PVGate.freq self);
  gate_bufsize : (0 ≤ PVGate.bufsize self)%Z;
  gate_count : cells (PVGate.bufsize self) (PVGate.count self)
}.

(** The overlap slot in which a consumer starts a block: 0 if it has to
    re-latch, its own [overcount] otherwise. *)
Definition slot_after_adapt (size olaps overcount : Z) (input : PVStream.t) : Z :=
  if bool_decide (size ≠ PVStream.fftsize input ∨ olaps ≠ PVStream.olaps input)
  then 0%Z else overcount.

(** ** A chain of nodes

    An analyser, the three transformers and a synthesiser in a row, each
    reading the stream of the node before it.  The server computes the
    nodes of a block in the order of their creation, a producer before its
    consumers. *)
Module PVChain.
Record t : Type := mk {
  anal : PVAnal.t;
  transpose : PVTranspose.t;
  verb : PVVerb.t;
  gate : PVGate.t;
  synth : PVSynth.t
}.
End PVChain.

(** One block of input through the chain, the parameters of the
    transformers being numbers. *)
Definition PVChain_block (fl : R → R) (gen_window : Z → Z → Z → R)
    (realfft_split irealfft_split : list R → Z → Z → R)
    (transpo revtime damp thresh gate_damp : R) (input : list R) (chain : PVChain.t)
    : option PVChain.t :=
  anal ← PVAnal_process realfft_split input (PVChain.anal chain);
  transpose ← PVTranspose_process_i fl transpo (PVAnal_pv_stream anal)
                 (PVChain.transpose chain);
  verb ← PVVerb_process_ii fl revtime damp (PVTranspose_pv_stream transpose)
            (PVChain.verb chain);
  gate ← PVGate_process_ii thresh gate_damp (PVVerb_pv_stream verb) (PVChain.gate chain);
  synth ← PVSynth_process gen_window irealfft_split (PVGate_pv_stream gate)
             (PVChain.synth chain);
  Some {| PVChain.anal := anal; PVChain.transpose := transpose; PVChain.verb := verb;
          PVChain.gate := gate; PVChain.synth := synth |}.

(** The nodes of a chain are in step: every one is in a usable
    configuration, they agree on the block size, on [size] and on [olaps],
    and they are at the same overlap slot. *)
Definition PVChain_in_step (chain : PVChain.t) : Prop :=
  let anal := PVChain.anal chain in
  PVAnal_wf anal ∧ PVTranspose_wf (PVChain.transpose chain) ∧
  PVVerb_wf (PVChain.verb chain) ∧ PVGate_wf (PVChain.gate chain) ∧
  PVSynth_wf (PVChain.synth chain) ∧
  (PVTranspose.bufsize (PVChain.transpose chain) = PVAnal.bufsize anal ∧
   PVVerb.bufsize (PVChain.verb chain) = PVAnal.bufsize anal ∧
   PVGate.bufsize (PVChain.gate chain) = PVAnal.bufsize anal ∧
   PVSynth.bufsize (PVChain.synth chain) = PVAnal.bufsize anal) ∧
  (PVTranspose.size (PVChain.transpose chain) = PVAnal.size anal ∧
   PVVerb.size (PVChain.verb chain) = PVAnal.size anal ∧
   PVGate.size (PVChain.gate chain) = PVAnal.size anal ∧
   PVSynth.size (PVChain.synth chain) = PVAnal.size anal) ∧
  (PVTranspose.olaps (PVChain.transpose chain) = PVAnal.olaps anal ∧
   PVVerb.olaps (PVChain.verb chain) = PVAnal.olaps anal ∧
   PVGate.olaps (PVChain.gate chain) = PVAnal.olaps anal ∧
   PVSynth.olaps (PVChain.synth chain) = PVAnal.olaps anal) ∧
  (PVTranspose.overcount (PVChain.transpose chain) = PVAnal.overcount anal ∧
   PVVerb.overcount (PVChain.verb chain) = PVAnal.overcount anal ∧
   PVGate.overcount (PVChain.gate chain) = PVAnal.overcount anal ∧
   PVSynth.overcount (PVChain.synth chain) = PVAnal.overcount anal).

(** ** Changing the window

    [gen_window(self->window, self->size, self->wintype)] on the window
    buffer that is already there: unlike a change of [size] or [olaps], a
    change of the window type allocates nothing and resets nothing. *)
Definition gen_window_into (gen_window : Z → Z → Z → R) (size wintype : Z)
    (window : list R) : option (list R) :=
  for_loop size (λ k w, wr w k (gen_window size wintype k)) window.

(** [PVAnal_setWinType]. *)
Definition PVAnal_setWinType (gen_window : Z → Z → Z → R) (self : PVAnal.t)
    (arg : PyObject) : option PVAnal.t :=
  match arg with
  | PyInt n =>
      let wintype := wrap_int n in
      window ← gen_window_into gen_window (PVAnal.size self) wintype (PVAnal.window self);
      Some {|
        PVAnal.bufsize := PVAnal.bufsize self;
        PVAnal.sr := PVAnal.sr self;
        PVAnal.size := PVAnal.size self;
        PVAnal.olaps := PVAnal.olaps self;
        PVAnal.hsize := PVAnal.hsize self;
        PVAnal.hopsize := PVAnal.hopsize self;
        PVAnal.wintype := wintype;
        PVAnal.incount := PVAnal.incount self;
        PVAnal.inputLatency := PVAnal.inputLatency self;
        PVAnal.overcount := PVAnal.overcount self;
        PVAnal.factor := PVAnal.factor self;
        PVAnal.scale := PVAnal.scale self;
        PVAnal.input_buffer := PVAnal.input_buffer self;
        PVAnal.inframe := PVAnal.inframe self;
        PVAnal.outframe := PVAnal.outframe self;
        PVAnal.real := PVAnal.real self;
        PVAnal.imag := PVAnal.imag self;
        PVAnal.lastPhase := PVAnal.lastPhase self;
        PVAnal.window := window;
        PVAnal.magn := PVAnal.magn self;
        PVAnal.freq := PVAnal.freq self;
        PVAnal.count := PVAnal.count self
      |}
  | PyNotAnInt => Some self
  end.

(** [PVSynth_setWinType]. *)
Definition PVSynth_setWinType (gen_window : Z → Z → Z → R) (self : PVSynth.t)
    (arg : PyObject) : option PVSynth.t :=
  match arg with
  | PyInt n =>
      let wintype := wrap_int n in
      window ← gen_window_into gen_window (PVSynth.size self) wintype (PVSynth.window self);
      Some {|
        PVSynth.bufsize := PVSynth.bufsize self;
        PVSynth.sr := PVSynth.sr self;
        PVSynth.data := PVSynth.data self;
        PVSynth.size := PVSynth.size self;
        PVSynth.hsize := PVSynth.hsize self;
        PVSynth.olaps := PVSynth.olaps self;
        PVSynth.hopsize := PVSynth.hopsize self;
        PVSynth.wintype := wintype;
        PVSynth.inputLatency := PVSynth.inputLatency self;
        PVSynth.overcount := PVSynth.overcount self;
        PVSynth.ampscl := PVSynth.ampscl self;
        PVSynth.factor := PVSynth.factor self;
        PVSynth.scale := PVSynth.scale self;
        PVSynth.output_buffer := PVSynth.output_buffer self;
        PVSynth.outputAccum := PVSynth.outputAccum self;
        PVSynth.inframe := PVSynth.inframe self;
        PVSynth.outframe := PVSynth.outframe self;
        PVSynth.real := PVSynth.real self;
        PVSynth.imag := PVSynth.imag self;
        PVSynth.sumPhase := PVSynth.sumPhase self;
        PVSynth.window := window
      |}
  | PyNotAnInt => Some self
  end.


(** ** The objects behind the transformers

    A transformer keeps each parameter as a Python object, together with
    the audio stream of that object when it has one, and chooses its
    processing function from [modebuffer].  What follows models the
    constructors, the parameter setters, [setProcMode] and
    [compute_next_data_frame].  The fields modelled before are the [core]
    of the object; the server's [bufsize] is an argument of the
    constructors, and the state the input's [pv_stream] is in is an
    argument wherever it is read. *)

(** An audio stream of the server, by its identity. *)
Definition Stream : Type := nat.

(** What a parameter can be given as: a number ([PyNumber_Check] answers 1,
    [x] is the value of [PyNumber_Float]), a pyo object ([_getStream]
    returns its stream), or any other object ([_getStream] returns a null
    pointer, which the setter dereferences). *)
Inductive PyParam : Type :=
| PyNumber (x : R)
| PyoObject (stream : Stream)
| PyOther.

(** [PyFloat_AS_DOUBLE] does not check its argument: it has a value on a
    float only. *)
Definition PyFloat_AS_DOUBLE (p : PyParam) : option R :=
  match p with
  | PyNumber x => Some x
  | _ => None
  end.

(** [Stream_getData]: the block the stream holds, given by [data]; a null
    stream pointer has none. *)
Definition Stream_getData (data : Stream → list R) (stream : option Stream)
    : option (list R) :=
  s ← stream; Some (data s).

(** How a constructor ends: it returns the object, or [Py_Exit] ends the
    interpreter. *)
Inductive PyNew (A : Type) : Type :=
| PyReturn (self : A)
| Py_Exit (status : Z).
Arguments PyReturn {A} self.
Arguments Py_Exit {A} status.

(** The value of a parameter at sample [i]: the number, or the sample of
    the object's stream. *)
Definition PyParam_at (data : Stream → list R) (p : PyParam) (i : Z) : option R :=
  match p with
  | PyNumber x => Some x
  | PyoObject stream => rd (data stream) i
  | PyOther => None
  end.

(** A parameter field, its stream field and its [modebuffer] entry agree. *)
Definition PyParam_mode (p : PyParam) (stream : option Stream) (mode : Z) : Prop :=
  match p with
  | PyNumber _ => mode = 0%Z
  | PyoObject s => mode = 1%Z ∧ stream = Some s
  | PyOther => False
  end.

(** *** PVTranspose *)

Inductive PVTranspose_proc : Type :=
| Ptr_PVTranspose_process_i
| Ptr_PVTranspose_process_a.

Module PVTransposeObject.
Record t : Type := mk {
  core : PVTranspose.t;
  transpo : PyParam;
  transpo_stream : option Stream;
  modebuffer_0 : Z;
  proc_func_ptr : option PVTranspose_proc
}.
End PVTransposeObject.

(** [PVTranspose_setProcMode]; the switch has no default. *)
Definition PVTranspose_setProcMode (self : PVTransposeObject.t) : PVTransposeObject.t :=
  let procmode := PVTransposeObject.modebuffer_0 self in
  {| PVTransposeObject.core := PVTransposeObject.core self;
     PVTransposeObject.transpo := PVTransposeObject.transpo self;
     PVTransposeObject.transpo_stream := PVTransposeObject.transpo_stream self;
     PVTransposeObject.modebuffer_0 := PVTransposeObject.modebuffer_0 self;
     PVTransposeObject.proc_func_ptr :=
       if (procmode =? 0)%Z then Some Ptr_PVTranspose_process_i
       else if (procmode =? 1)%Z then Some Ptr_PVTranspose_process_a
       else PVTransposeObject.proc_func_ptr self |}.

(** [PVTranspose_setTranspo]; the former stream is kept when a number is
    given. *)
Definition PVTranspose_setTranspo (self : PVTransposeObject.t) (arg : PyParam)
    : option PVTransposeObject.t :=
  match arg with
  | PyNumber x =>
      Some (PVTranspose_setProcMode
        {| PVTransposeObject.core := PVTransposeObject.core self;
           PVTransposeObject.transpo := PyNumber x;
           PVTransposeObject.transpo_stream := PVTransposeObject.transpo_stream self;
           PVTransposeObject.modebuffer_0 := 0;
           PVTransposeObject.proc_func_ptr := PVTransposeObject.proc_func_ptr self |})
  | PyoObject stream =>
      Some (PVTranspose_setProcMode
        {| PVTransposeObject.core := PVTransposeObject.core self;
           PVTransposeObject.transpo := PyoObject stream;
           PVTransposeObject.transpo_stream := Some stream;
           PVTransposeObject.modebuffer_0 := 1;
           PVTransposeObject.proc_func_ptr := PVTransposeObject.proc_func_ptr self |})
  | PyOther => None
  end.

Definition PVTransposeObject_with_core (self : PVTransposeObject.t) (core : PVTranspose.t)
    : PVTransposeObject.t :=
  {| PVTransposeObject.core := core;
     PVTransposeObject.transpo := PVTransposeObject.transpo self;
     PVTransposeObject.transpo_stream := PVTransposeObject.transpo_stream self;
     PVTransposeObject.modebuffer_0 := PVTransposeObject.modebuffer_0 self;
     PVTransposeObject.proc_func_ptr := PVTransposeObject.proc_func_ptr self |}.

(** The object as [tp_alloc] and the first assignments of [PVTranspose_new]
    leave it: zero everywhere, but for [transpo], [size], [olaps] and the
    server's [bufsize]. *)
Definition PVTranspose_alloc (bufsize : Z) : PVTransposeObject.t :=
  {| PVTransposeObject.core :=
       {| PVTranspose.bufsize := bufsize;
          PVTranspose.size := 1024; PVTranspose.olaps := 4;
          PVTranspose.hsize := 0; PVTranspose.hopsize := 0;
          PVTranspose.overcount := 0;
          PVTranspose.magn := []; PVTranspose.freq := [];
          PVTranspose.count := [] |};
     PVTransposeObject.transpo := PyNumber 1;
     PVTransposeObject.transpo_stream := None;
     PVTransposeObject.modebuffer_0 := 0;
     PVTransposeObject.proc_func_ptr := None |}.

Definition PVTranspose_with_count (self : PVTranspose.t) (count : list Z) : PVTranspose.t :=
  {| PVTranspose.bufsize := PVTranspose.bufsize self;
     PVTranspose.size := PVTranspose.size self; PVTranspose.olaps := PVTranspose.olaps self;
     PVTranspose.hsize := PVTranspose.hsize self;
     PVTranspose.hopsize := PVTranspose.hopsize self;
     PVTranspose.overcount := PVTranspose.overcount self;
     PVTranspose.magn := PVTranspose.magn self; PVTranspose.freq := PVTranspose.freq self;
     PVTranspose.count := count |}.

(** [PVTranspose_new].  [inputtmp] is the [pv_stream] of the input, [None]
    for an object without one.  [transpotmp] is [None] when the argument is
    left out: the variable is not initialised then, and the test
    [if (transpotmp)] reads it. *)
Definition PVTranspose_new (bufsize : Z) (inputtmp : option PVStream.t)
    (transpotmp : option PyParam) : option (PyNew PVTransposeObject.t) :=
  let self := PVTranspose_alloc bufsize in
  match inputtmp with
  | None => Some (Py_Exit 1)
  | Some input_stream =>
      arg ← transpotmp;
      self ← PVTranspose_setTranspo self arg;
      let core := PVTranspose_with_count (PVTransposeObject.core self) (filled bufsize 0%Z) in
      core ← PVTranspose_realloc_memories core
                (PVStream.fftsize input_stream) (PVStream.olaps input_stream);
      Some (PyReturn (PVTranspose_setProcMode (PVTransposeObject_with_core self core)))
  end.

(** [PVTranspose_compute_next_data_frame]: the call through
    [proc_func_ptr], with what the called function reads from the object. *)
Definition PVTranspose_compute_next_data_frame (fl : R → R) (data : Stream → list R)
    (input : PVStream.t) (self : PVTransposeObject.t) : option PVTransposeObject.t :=
  ptr ← PVTransposeObject.proc_func_ptr self;
  core ← match ptr with
         | Ptr_PVTranspose_process_i =>
             transpo ← PyFloat_AS_DOUBLE (PVTransposeObject.transpo self);
             PVTranspose_process_i fl transpo input (PVTransposeObject.core self)
         | Ptr_PVTranspose_process_a =>
             tr ← Stream_getData data (PVTransposeObject.transpo_stream self);
             PVTranspose_process_a fl tr input (PVTransposeObject.core self)
         end;
  Some (PVTransposeObject_with_core self core).

(** The objects a program can hold: built by the constructor, then given
    any number of parameter changes and blocks. *)
Inductive PVTranspose_reachable (fl : R → R) : PVTransposeObject.t → Prop :=
| PVTranspose_reachable_new bufsize inputtmp transpotmp self :
    PVTranspose_new bufsize inputtmp transpotmp = Some (PyReturn self) →
    PVTranspose_reachable fl self
| PVTranspose_reachable_setTranspo self arg self' :
    PVTranspose_reachable fl self → PVTranspose_setTranspo self arg = Some self' →
    PVTranspose_reachable fl self'
| PVTranspose_reachable_compute self data input self' :
    PVTranspose_reachable fl self →
    PVTranspose_compute_next_data_frame fl data input self = Some self' →
    PVTranspose_reachable fl self'.

(** The one loop that reads the parameter where it is. *)
Definition PVTranspose_process_at (fl : R → R) (data : Stream → list R) (input : PVStream.t)
    (self : PVTransposeObject.t) : option PVTransposeObject.t :=
  core ← (core ← PVTranspose_adapt input (PVTransposeObject.core self);
          for_loop (PVTranspose.bufsize core)
            (PVTranspose_sample fl (PyParam_at data (PVTransposeObject.transpo self)) input)
            core);
  Some (PVTransposeObject_with_core self core).

Definition PVTranspose_selected (self : PVTransposeObject.t) : Prop :=
  PyParam_mode (PVTransposeObject.transpo self) (PVTransposeObject.transpo_stream self)
    (PVTransposeObject.modebuffer_0 self) ∧
  PVTransposeObject.proc_func_ptr self
  = Some (if (PVTransposeObject.modebuffer_0 self =? 0)%Z
          then Ptr_PVTranspose_process_i else Ptr_PVTranspose_process_a).

(** *** PVVerb *)

Inductive PVVerb_proc : Type :=
| Ptr_PVVerb_process_ii
| Ptr_PVVerb_process_ai
| Ptr_PVVerb_process_ia
| Ptr_PVVerb_process_aa.

Module PVVerbObject.
Record t : Type := mk {
  core : PVVerb.t;
  revtime : PyParam;
  revtime_stream : option Stream;
  damp : PyParam;
  damp_stream : option Stream;
  modebuffer_0 : Z;
  modebuffer_1 : Z;
  proc_func_ptr : option PVVerb_proc
}.
End PVVerbObject.

(** [PVVerb_setProcMode]; the switch has no default. *)
Definition PVVerb_setProcMode (self : PVVerbObject.t) : PVVerbObject.t :=
  let procmode := (PVVerbObject.modebuffer_0 self + PVVerbObject.modebuffer_1 self * 10)%Z in
  {| PVVerbObject.core := PVVerbObject.core self;
     PVVerbObject.revtime := PVVerbObject.revtime self;
     PVVerbObject.revtime_stream := PVVerbObject.revtime_stream self;
     PVVerbObject.damp := PVVerbObject.damp self;
     PVVerbObject.damp_stream := PVVerbObject.damp_stream self;
     PVVerbObject.modebuffer_0 := PVVerbObject.modebuffer_0 self;
     PVVerbObject.modebuffer_1 := PVVerbObject.modebuffer_1 self;
     PVVerbObject.proc_func_ptr :=
       if (procmode =? 0)%Z then Some Ptr_PVVerb_process_ii
       else if (procmode =? 1)%Z then Some Ptr_PVVerb_process_ai
       else if (procmode =? 10)%Z then Some Ptr_PVVerb_process_ia
       else if (procmode =? 11)%Z then Some Ptr_PVVerb_process_aa
       else PVVerbObject.proc_func_ptr self |}.

(** [PVVerb_setRevtime]. *)
Definition PVVerb_setRevtime (self : PVVerbObject.t) (arg : PyParam)
    : option PVVerbObject.t :=
  match arg with
  | PyNumber x =>
      Some (PVVerb_setProcMode
        {| PVVerbObject.core := PVVerbObject.core self;
           PVVerbObject.revtime := PyNumber x;
           PVVerbObject.revtime_stream := PVVerbObject.revtime_stream self;
           PVVerbObject.damp := PVVerbObject.damp self;
           PVVerbObject.damp_stream := PVVerbObject.damp_stream self;
           PVVerbObject.modebuffer_0 := 0;
           PVVerbObject.modebuffer_1 := PVVerbObject.modebuffer_1 self;
           PVVerbObject.proc_func_ptr := PVVerbObject.proc_func_ptr self |})
  | PyoObject stream =>
      Some (PVVerb_setProcMode
        {| PVVerbObject.core := PVVerbObject.core self;
           PVVerbObject.revtime := PyoObject stream;
           PVVerbObject.revtime_stream := Some stream;
           PVVerbObject.damp := PVVerbObject.damp self;
           PVVerbObject.damp_stream := PVVerbObject.damp_stream self;
           PVVerbObject.modebuffer_0 := 1;
           PVVerbObject.modebuffer_1 := PVVerbObject.modebuffer_1 self;
           PVVerbObject.proc_func_ptr := PVVerbObject.proc_func_ptr self |})
  | PyOther => None
  end.

(** [PVVerb_setDamp]. *)
Definition PVVerb_setDamp (self : PVVerbObject.t) (arg : PyParam)
    : option PVVerbObject.t :=
  match arg with
  | PyNumber x =>
      Some (PVVerb_setProcMode
        {| PVVerbObject.core := PVVerbObject.core self;
           PVVerbObject.revtime := PVVerbObject.revtime self;
           PVVerbObject.revtime_stream := PVVerbObject.revtime_stream self;
           PVVerbObject.damp := PyNumber x;
           PVVerbObject.damp_stream := PVVerbObject.damp_stream self;
           PVVerbObject.modebuffer_0 := PVVerbObject.modebuffer_0 self;
           PVVerbObject.modebuffer_1 := 0;
           PVVerbObject.proc_func_ptr := PVVerbObject.proc_func_ptr self |})
  | PyoObject stream =>
      Some (PVVerb_setProcMode
        {| PVVerbObject.core := PVVerbObject.core self;
           PVVerbObject.revtime := PVVerbObject.revtime self;
           PVVerbObject.revtime_stream := PVVerbObject.revtime_stream self;
           PVVerbObject.damp := PyoObject stream;
           PVVerbObject.damp_stream := Some stream;
           PVVerbObject.modebuffer_0 := PVVerbObject.modebuffer_0 self;
           PVVerbObject.modebuffer_1 := 1;
           PVVerbObject.proc_func_ptr := PVVerbObject.proc_func_ptr self |})
  | PyOther => None
  end.

Definition PVVerbObject_with_core (self : PVVerbObject.t) (core : PVVerb.t)
    : PVVerbObject.t :=
  {| PVVerbObject.core := core;
     PVVerbObject.revtime := PVVerbObject.revtime self;
     PVVerbObject.revtime_stream := PVVerbObject.revtime_stream self;
     PVVerbObject.damp := PVVerbObject.damp self;
     PVVerbObject.damp_stream := PVVerbObject.damp_stream self;
     PVVerbObject.modebuffer_0 := PVVerbObject.modebuffer_0 self;
     PVVerbObject.modebuffer_1 := PVVerbObject.modebuffer_1 self;
     PVVerbObject.proc_func_ptr := PVVerbObject.proc_func_ptr self |}.

(** The object as [tp_alloc] and the first assignments of [PVVerb_new]
    leave it. *)
Definition PVVerb_alloc (bufsize : Z) : PVVerbObject.t :=
  {| PVVerbObject.core :=
       {| PVVerb.bufsize := bufsize;
          PVVerb.size := 1024; PVVerb.olaps := 4;
          PVVerb.hsize := 0; PVVerb.hopsize := 0;
          PVVerb.overcount := 0;
          PVVerb.l_magn := [];
          PVVerb.magn := []; PVVerb.freq := [];
          PVVerb.count := [] |};
     PVVerbObject.revtime := PyNumber 0.75;
     PVVerbObject.revtime_stream := None;
     PVVerbObject.damp := PyNumber 0.75;
     PVVerbObject.damp_stream := None;
     PVVerbObject.modebuffer_0 := 0;
     PVVerbObject.modebuffer_1 := 0;
     PVVerbObject.proc_func_ptr := None |}.

Definition PVVerb_with_count (self : PVVerb.t) (count : list Z) : PVVerb.t :=
  {| PVVerb.bufsize := PVVerb.bufsize self;
     PVVerb.size := PVVerb.size self; PVVerb.olaps := PVVerb.olaps self;
     PVVerb.hsize := PVVerb.hsize self; PVVerb.hopsize := PVVerb.hopsize self;
     PVVerb.overcount := PVVerb.overcount self;
     PVVerb.l_magn := PVVerb.l_magn self;
     PVVerb.magn := PVVerb.magn self; PVVerb.freq := PVVerb.freq self;
     PVVerb.count := count |}.

(** [PVVerb_new].  [inputtmp] is the [pv_stream] of the input, [None] for
    an object without one; [revtimetmp] and [damptmp] are [None] when the
    argument is left out (both variables start as null pointers). *)
Definition PVVerb_new (bufsize : Z) (inputtmp : option PVStream.t)
    (revtimetmp damptmp : option PyParam) : option (PyNew PVVerbObject.t) :=
  let self := PVVerb_alloc bufsize in
  match inputtmp with
  | None => Some (Py_Exit 1)
  | Some input_stream =>
      self ← match revtimetmp with
             | Some arg => PVVerb_setRevtime self arg
             | None => Some self
             end;
      self ← match damptmp with
             | Some arg => PVVerb_setDamp self arg
             | None => Some self
             end;
      let core := PVVerb_with_count (PVVerbObject.core self) (filled bufsize 0%Z) in
      core ← PVVerb_realloc_memories core
                (PVStream.fftsize input_stream) (PVStream.olaps input_stream);
      Some (PyReturn (PVVerb_setProcMode (PVVerbObject_with_core self core)))
  end.

(** [PVVerb_compute_next_data_frame]: the call through [proc_func_ptr],
    with what the called function reads from the object. *)
Definition PVVerb_compute_next_data_frame (fl : R → R) (data : Stream → list R)
    (input : PVStream.t) (self : PVVerbObject.t) : option PVVerbObject.t :=
  ptr ← PVVerbObject.proc_func_ptr self;
  core ← match ptr with
         | Ptr_PVVerb_process_ii =>
             revtime ← PyFloat_AS_DOUBLE (PVVerbObject.revtime self);
             damp ← PyFloat_AS_DOUBLE (PVVerbObject.damp self);
             PVVerb_process_ii fl revtime damp input (PVVerbObject.core self)
         | Ptr_PVVerb_process_ai =>
             rvt ← Stream_getData data (PVVerbObject.revtime_stream self);
             damp ← PyFloat_AS_DOUBLE (PVVerbObject.damp self);
             PVVerb_process_ai fl rvt damp input (PVVerbObject.core self)
         | Ptr_PVVerb_process_ia =>
             revtime ← PyFloat_AS_DOUBLE (PVVerbObject.revtime self);
             dmp ← Stream_getData data (PVVerbObject.damp_stream self);
             PVVerb_process_ia fl revtime dmp input (PVVerbObject.core self)
         | Ptr_PVVerb_process_aa =>
             rvt ← Stream_getData data (PVVerbObject.revtime_stream self);
             dmp ← Stream_getData data (PVVerbObject.damp_stream self);
             PVVerb_process_aa fl rvt dmp input (PVVerbObject.core self)
         end;
  Some (PVVerbObject_with_core self core).

Inductive PVVerb_reachable (fl : R → R) : PVVerbObject.t → Prop :=
| PVVerb_reachable_new bufsize inputtmp revtimetmp damptmp self :
    PVVerb_new bufsize inputtmp revtimetmp damptmp = Some (PyReturn self) →
    PVVerb_reachable fl self
| PVVerb_reachable_setRevtime self arg self' :
    PVVerb_reachable fl self → PVVerb_setRevtime self arg = Some self' →
    PVVerb_reachable fl self'
| PVVerb_reachable_setDamp self arg self' :
    PVVerb_reachable fl self → PVVerb_setDamp self arg = Some self' →
    PVVerb_reachable fl self'
| PVVerb_reachable_compute self data input self' :
    PVVerb_reachable fl self →
    PVVerb_compute_next_data_frame fl data input self = Some self' →
    PVVerb_reachable fl self'.

(** The one loop that reads each parameter where it is. *)
Definition PVVerb_process_at (fl : R → R) (data : Stream → list R) (input : PVStream.t)
    (self : PVVerbObject.t) : option PVVerbObject.t :=
  core ← (core ← PVVerb_adapt input (PVVerbObject.core self);
          for_loop (PVVerb.bufsize core)
            (PVVerb_sample_at fl
               (λ i, revtime ← PyParam_at data (PVVerbObject.revtime self) i;
                     Some (PVVerb_revtime fl revtime))
               (λ i, damp ← PyParam_at data (PVVerbObject.damp self) i;
                     Some (PVVerb_damp fl damp))
               input)
            core);
  Some (PVVerbObject_with_core self core).

Definition PVVerb_selected (self : PVVerbObject.t) : Prop :=
  PyParam_mode (PVVerbObject.revtime self) (PVVerbObject.revtime_stream self)
    (PVVerbObject.modebuffer_0 self) ∧
  PyParam_mode (PVVerbObject.damp self) (PVVerbObject.damp_stream self)
    (PVVerbObject.modebuffer_1 self) ∧
  PVVerbObject.proc_func_ptr self
  = Some (if (PVVerbObject.modebuffer_0 self =? 0)%Z
          then if (PVVerbObject.modebuffer_1 self =? 0)%Z
               then Ptr_PVVerb_process_ii else Ptr_PVVerb_process_ia
          else if (PVVerbObject.modebuffer_1 self =? 0)%Z
               then Ptr_PVVerb_process_ai else Ptr_PVVerb_process_aa).

(** *** PVGate *)

Inductive PVGate_proc : Type :=
| Ptr_PVGate_process_ii
| Ptr_PVGate_process_ai
| Ptr_PVGate_process_ia
| Ptr_PVGate_process_aa.

Module PVGateObject.
Record t : Type := mk {
  core : PVGate.t;
  thresh : PyParam;
  thresh_stream : option Stream;
  damp : PyParam;
  damp_stream : option Stream;
  modebuffer_0 : Z;
  modebuffer_1 : Z;
  proc_func_ptr : option PVGate_proc
}.
End PVGateObject.

(** [PVGate_setProcMode]; the switch has no default. *)
Definition PVGate_setProcMode (self : PVGateObject.t) : PVGateObject.t :=
  let procmode := (PVGateObject.modebuffer_0 self + PVGateObject.modebuffer_1 self * 10)%Z in
  {| PVGateObject.core := PVGateObject.core self;
     PVGateObject.thresh := PVGateObject.thresh self;
     PVGateObject.thresh_stream := PVGateObject.thresh_stream self;
     PVGateObject.damp := PVGateObject.damp self;
     PVGateObject.damp_stream := PVGateObject.damp_stream self;
     PVGateObject.modebuffer_0 := PVGateObject.modebuffer_0 self;
     PVGateObject.modebuffer_1 := PVGateObject.modebuffer_1 self;
     PVGateObject.proc_func_ptr :=
       if (procmode =? 0)%Z then Some Ptr_PVGate_process_ii
       else if (procmode =? 1)%Z then Some Ptr_PVGate_process_ai
       else if (procmode =? 10)%Z then Some Ptr_PVGate_process_ia
       else if (procmode =? 11)%Z then Some Ptr_PVGate_process_aa
       else PVGateObject.proc_func_ptr self |}.

(** [PVGate_setThresh]. *)
Definition PVGate_setThresh (self : PVGateObject.t) (arg : PyParam)
    : option PVGateObject.t :=
  match arg with
  | PyNumber x =>
      Some (PVGate_setProcMode
        {| PVGateObject.core := PVGateObject.core self;
           PVGateObject.thresh := PyNumber x;
           PVGateObject.thresh_stream := PVGateObject.thresh_stream self;
           PVGateObject.damp := PVGateObject.damp self;
           PVGateObject.damp_stream := PVGateObject.damp_stream self;
           PVGateObject.modebuffer_0 := 0;
           PVGateObject.modebuffer_1 := PVGateObject.modebuffer_1 self;
           PVGateObject.proc_func_ptr := PVGateObject.proc_func_ptr self |})
  | PyoObject stream =>
      Some (PVGate_setProcMode
        {| PVGateObject.core := PVGateObject.core self;
           PVGateObject.thresh := PyoObject stream;
           PVGateObject.thresh_stream := Some stream;
           PVGateObject.damp := PVGateObject.damp self;
           PVGateObject.damp_stream := PVGateObject.damp_stream self;
           PVGateObject.modebuffer_0 := 1;
           PVGateObject.modebuffer_1 := PVGateObject.modebuffer_1 self;
           PVGateObject.proc_func_ptr := PVGateObject.proc_func_ptr self |})
  | PyOther => None
  end.

(** [PVGate_setDamp]. *)
Definition PVGate_setDamp (self : PVGateObject.t) (arg : PyParam)
    : option PVGateObject.t :=
  match arg with
  | PyNumber x =>
      Some (PVGate_setProcMode
        {| PVGateObject.core := PVGateObject.core self;
           PVGateObject.thresh := PVGateObject.thresh self;
           PVGateObject.thresh_stream := PVGateObject.thresh_stream self;
           PVGateObject.damp := PyNumber x;
           PVGateObject.damp_stream := PVGateObject.damp_stream self;
           PVGateObject.modebuffer_0 := PVGateObject.modebuffer_0 self;
           PVGateObject.modebuffer_1 := 0;
           PVGateObject.proc_func_ptr := PVGateObject.proc_func_ptr self |})
  | PyoObject stream =>
      Some (PVGate_setProcMode
        {| PVGateObject.core := PVGateObject.core self;
           PVGateObject.thresh := PVGateObject.thresh self;
           PVGateObject.thresh_stream := PVGateObject.thresh_stream self;
           PVGateObject.damp := PyoObject stream;
           PVGateObject.damp_stream := Some stream;
           PVGateObject.modebuffer_0 := PVGateObject.modebuffer_0 self;
           PVGateObject.modebuffer_1 := 1;
           PVGateObject.proc_func_ptr := PVGateObject.proc_func_ptr self |})
  | PyOther => None
  end.

Definition PVGateObject_with_core (self : PVGateObject.t) (core : PVGate.t)
    : PVGateObject.t :=
  {| PVGateObject.core := core;
     PVGateObject.thresh := PVGateObject.thresh self;
     PVGateObject.thresh_stream := PVGateObject.thresh_stream self;
     PVGateObject.damp := PVGateObject.damp self;
     PVGateObject.damp_stream := PVGateObject.damp_stream self;
     PVGateObject.modebuffer_0 := PVGateObject.modebuffer_0 self;
     PVGateObject.modebuffer_1 := PVGateObject.modebuffer_1 self;
     PVGateObject.proc_func_ptr := PVGateObject.proc_func_ptr self |}.

(** The object as [tp_alloc] and the first assignments of [PVGate_new]
    leave it. *)
Definition PVGate_alloc (bufsize : Z) : PVGateObject.t :=
  {| PVGateObject.core :=
       {| PVGate.bufsize := bufsize;
          PVGate.size := 1024; PVGate.olaps := 4;
          PVGate.hsize := 0; PVGate.hopsize := 0;
          PVGate.overcount := 0;
          PVGate.magn := []; PVGate.freq := [];
          PVGate.count := [] |};
     PVGateObject.thresh := PyNumber (-20);
     PVGateObject.thresh_stream := None;
     PVGateObject.damp := PyNumber 0;
     PVGateObject.damp_stream := None;
     PVGateObject.modebuffer_0 := 0;
     PVGateObject.modebuffer_1 := 0;
     PVGateObject.proc_func_ptr := None |}.

Definition PVGate_with_count (self : PVGate.t) (count : list Z) : PVGate.t :=
  {| PVGate.bufsize := PVGate.bufsize self;
     PVGate.size := PVGate.size self; PVGate.olaps := PVGate.olaps self;
     PVGate.hsize := PVGate.hsize self; PVGate.hopsize := PVGate.hopsize self;
     PVGate.overcount := PVGate.overcount self;
     PVGate.magn := PVGate.magn self; PVGate.freq := PVGate.freq self;
     PVGate.count := count |}.

(** [PVGate_new]; the arguments are those of [PVVerb_new]. *)
Definition PVGate_new (bufsize : Z) (inputtmp : option PVStream.t)
    (threshtmp damptmp : option PyParam) : option (PyNew PVGateObject.t) :=
  let self := PVGate_alloc bufsize in
  match inputtmp with
  | None => Some (Py_Exit 1)
  | Some input_stream =>
      self ← match threshtmp with
             | Some arg => PVGate_setThresh self arg
             | None => Some self
             end;
      self ← match damptmp with
             | Some arg => PVGate_setDamp self arg
             | None => Some self
             end;
      let core := PVGate_with_count (PVGateObject.core self) (filled bufsize 0%Z) in
      core ← PVGate_realloc_memories core
                (PVStream.fftsize input_stream) (PVStream.olaps input_stream);
      Some (PyReturn (PVGate_setProcMode (PVGateObject_with_core self core)))
  end.

(** [PVGate_compute_next_data_frame]. *)
Definition PVGate_compute_next_data_frame (data : Stream → list R)
    (input : PVStream.t) (self : PVGateObject.t) : option PVGateObject.t :=
  ptr ← PVGateObject.proc_func_ptr self;
  core ← match ptr with
         | Ptr_PVGate_process_ii =>
             thresh ← PyFloat_AS_DOUBLE (PVGateObject.thresh self);
             damp ← PyFloat_AS_DOUBLE (PVGateObject.damp self);
             PVGate_process_ii thresh damp input (PVGateObject.core self)
         | Ptr_PVGate_process_ai =>
             rvt ← Stream_getData data (PVGateObject.thresh_stream self);
             damp ← PyFloat_AS_DOUBLE (PVGateObject.damp self);
             PVGate_process_ai rvt damp input (PVGateObject.core self)
         | Ptr_PVGate_process_ia =>
             thresh ← PyFloat_AS_DOUBLE (PVGateObject.thresh self);
             dmp ← Stream_getData data (PVGateObject.damp_stream self);
             PVGate_process_ia thresh dmp input (PVGateObject.core self)
         | Ptr_PVGate_process_aa =>
             rvt ← Stream_getData data (PVGateObject.thresh_stream self);
             dmp ← Stream_getData data (PVGateObject.damp_stream self);
             PVGate_process_aa rvt dmp input (PVGateObject.core self)
         end;
  Some (PVGateObject_with_core self core).

Inductive PVGate_reachable : PVGateObject.t → Prop :=
| PVGate_reachable_new bufsize inputtmp threshtmp damptmp self :
    PVGate_new bufsize inputtmp threshtmp damptmp = Some (PyReturn self) →
    PVGate_reachable self
| PVGate_reachable_setThresh self arg self' :
    PVGate_reachable self → PVGate_setThresh self arg = Some self' →
    PVGate_reachable self'
| PVGate_reachable_setDamp self arg self' :
    PVGate_reachable self → PVGate_setDamp self arg = Some self' →
    PVGate_reachable self'
| PVGate_reachable_compute self data input self' :
    PVGate_reachable self →
    PVGate_compute_next_data_frame data input self = Some self' →
    PVGate_reachable self'.

(** The one loop that reads each parameter where it is. *)
Definition PVGate_process_at (data : Stream → list R) (input : PVStream.t)
    (self : PVGateObject.t) : option PVGateObject.t :=
  core ← (core ← PVGate_adapt input (PVGateObject.core self);
          for_loop (PVGate.bufsize core)
            (PVGate_sample_at
               (λ i, thresh ← PyParam_at data (PVGateObject.thresh self) i;
                     Some (PVGate_thresh thresh))
               (PyParam_at data (PVGateObject.damp self))
               input)
            core);
  Some (PVGateObject_with_core self core).

Definition PVGate_selected (self : PVGateObject.t) : Prop :=
  PyParam_mode (PVGateObject.thresh self) (PVGateObject.thresh_stream self)
    (PVGateObject.modebuffer_0 self) ∧
  PyParam_mode (PVGateObject.damp self) (PVGateObject.damp_stream self)
    (PVGateObject.modebuffer_1 self) ∧
  PVGateObject.proc_func_ptr self
  = Some (if (PVGateObject.modebuffer_0 self =? 0)%Z
          then if (PVGateObject.modebuffer_1 self =? 0)%Z
               then Ptr_PVGate_process_ii else Ptr_PVGate_process_ia
          else if (PVGateObject.modebuffer_1 self =? 0)%Z
               then Ptr_PVGate_process_ai else Ptr_PVGate_process_aa).
(** ** A small configuration

    [size = 4], [olaps = 2], hence [hsize = 2], [hopsize = 2] and
    [inputLatency = 2], with blocks of 2 samples at [sampleRate = 4]; the
    states below are used to exercise the statements that follow. *)

(** An analyser as [PVAnal_new] hands it to [PVAnal_realloc_memories]. *)
Definition sample_anal : PVAnal.t :=
  PVAnal_with_count (PVAnal_alloc 2 4%R 4 2 2) [0; 0]%Z.

(** An analyser in the middle of a run. *)
Definition sample_anal_running : PVAnal.t :=
  {| PVAnal.bufsize := 2; PVAnal.sr := 4%R;
     PVAnal.size := 4; PVAnal.olaps := 2; PVAnal.hsize := 2; PVAnal.hopsize := 2;
     PVAnal.wintype := 2; PVAnal.incount := 3; PVAnal.inputLatency := 2;
     PVAnal.overcount := 1;
     PVAnal.factor := (4 / (2 * TWOPI))%R; PVAnal.scale := (TWOPI * 2 / 4)%R;
     PVAnal.input_buffer := [0; 0; 1; 0]%R; PVAnal.inframe := [0; 0; 0; 0]%R;
     PVAnal.outframe := [0; 0; 0; 0]%R;
     PVAnal.real := [0; 0]%R; PVAnal.imag := [0; 0]%R;
     PVAnal.lastPhase := [0; 1]%R;
     PVAnal.window := [1; 1; 1; 1]%R;
     PVAnal.magn := [[0; 0]; [0; 0]]%R; PVAnal.freq := [[0; 0]; [0; 0]]%R;
     PVAnal.count := [3; 2]%Z |}.

(** A synthesiser as [PVSynth_new] hands it to [PVSynth_realloc_memories]. *)
Definition sample_synth : PVSynth.t :=
  {| PVSynth.bufsize := 2; PVSynth.sr := 4%R; PVSynth.data := [0; 0]%R;
     PVSynth.size := 4; PVSynth.hsize := 0; PVSynth.olaps := 2;
     PVSynth.hopsize := 0; PVSynth.wintype := 2; PVSynth.inputLatency := 0;
     PVSynth.overcount := 0; PVSynth.ampscl := 0; PVSynth.factor := 0;
     PVSynth.scale := 0; PVSynth.output_buffer := []; PVSynth.outputAccum := [];
     PVSynth.inframe := []; PVSynth.outframe := []; PVSynth.real := [];
     PVSynth.imag := []; PVSynth.sumPhase := []; PVSynth.window := [] |}.

(** The tables of an input stream and of a transformer. *)
Definition sample_magn_in : list (list R) := [[1; 2]; [3; 1 / 2]]%R.
Definition sample_freq_in : list (list R) := [[0; 1]; [0; 2]]%R.
Definition sample_table : list (list R) := [[5; 5]; [5; 5]]%R.
Definition sample_l_magn : list R := [1; 2]%R.

(** A synthesiser in the middle of a run that has been silent so far. *)
Definition sample_synth_running : PVSynth.t :=
  {| PVSynth.bufsize := 2; PVSynth.sr := 4%R; PVSynth.data := [1; 1]%R;
     PVSynth.size := 4; PVSynth.hsize := 2; PVSynth.olaps := 2;
     PVSynth.hopsize := 2; PVSynth.wintype := 2; PVSynth.inputLatency := 2;
     PVSynth.overcount := 1; PVSynth.ampscl := (1 / sqrt 2)%R;
     PVSynth.factor := (2 * TWOPI / 4)%R; PVSynth.scale := (4 / 4)%R;
     PVSynth.output_buffer := [0; 0; 0; 0]%R;
     PVSynth.outputAccum := [0; 0; 0; 0; 0; 0]%R;
     PVSynth.inframe := [0; 0; 0; 0]%R; PVSynth.outframe := [0; 0; 0; 0]%R;
     PVSynth.real := [0; 0]%R; PVSynth.imag := [0; 0]%R;
     PVSynth.sumPhase := [0; 0]%R; PVSynth.window := [1; 1; 1; 1]%R |}.

(** Two states of a stream over blocks of 2 samples, the second without
    energy. *)
Definition sample_stream : PVStream.t :=
  {| PVStream.fftsize := 4; PVStream.olaps := 2;
     PVStream.magn := sample_magn_in; PVStream.freq := sample_freq_in;
     PVStream.count := [3; 2]%Z |}.

Definition sample_silent_stream : PVStream.t :=
  {| PVStream.fftsize := 4; PVStream.olaps := 2;
     PVStream.magn := [[0; 0]; [0; 0]]%R; PVStream.freq := sample_freq_in;
     PVStream.count := [3; 2]%Z |}.

(** The three transformers in the middle of a run. *)
Definition sample_gate : PVGate.t :=
  {| PVGate.bufsize := 2; PVGate.size := 4; PVGate.olaps := 2; PVGate.hsize := 2;
     PVGate.hopsize := 2; PVGate.overcount := 1;
     PVGate.magn := sample_table; PVGate.freq := sample_table;
     PVGate.count := [2; 2]%Z |}.

Definition sample_verb : PVVerb.t :=
  {| PVVerb.bufsize := 2; PVVerb.size := 4; PVVerb.olaps := 2; PVVerb.hsize := 2;
     PVVerb.hopsize := 2; PVVerb.overcount := 1; PVVerb.l_magn := sample_l_magn;
     PVVerb.magn := sample_table; PVVerb.freq := sample_table;
     PVVerb.count := [2; 2]%Z |}.

Definition sample_transpose : PVTranspose.t :=
  {| PVTranspose.bufsize := 2; PVTranspose.size := 4; PVTranspose.olaps := 2;
     PVTranspose.hsize := 2; PVTranspose.hopsize := 2; PVTranspose.overcount := 1;
     PVTranspose.magn := sample_table; PVTranspose.freq := sample_table;
     PVTranspose.count := [2; 2]%Z |}.

(** The five nodes in a row. *)
Definition sample_chain : PVChain.t :=
  {| PVChain.anal := sample_anal_running; PVChain.transpose := sample_transpose;
     PVChain.verb := sample_verb; PVChain.gate := sample_gate;
     PVChain.synth := sample_synth_running |}.

(** ** Examples in single precision *)

(** [a / b] rounded to the nearest integer, ties to even, on integers. *)
Definition round_half_even_quotient (a b : Z) : Z :=
  let q := (a `div` b)%Z in
  let r := (a `mod` b)%Z in
  if (2 * r <? b)%Z then q
  else if (b <? 2 * r)%Z then (q + 1)%Z
  else if Z.even q then q else (q + 1)%Z.

(** The single-precision number nearest to 1.4, [11744051 * 2^-23]. *)
Definition binary32_1_4 : R := (11744051 / 8388608)%R.

(** A stream of 8 bins of magnitude 1 with a frame edge at its only
    sample, and a transposer latched on it. *)
Definition stream_of_8_bins : PVStream.t :=
  {| PVStream.fftsize := 16; PVStream.olaps := 2;
     PVStream.magn := [[1; 1; 1; 1; 1; 1; 1; 1]; [1; 1; 1; 1; 1; 1; 1; 1]]%R;
     PVStream.freq := [[0; 0; 0; 0; 0; 0; 0; 0]; [0; 0; 0; 0; 0; 0; 0; 0]]%R;
     PVStream.count := [15]%Z |}.

Definition transpose_of_8_bins : PVTranspose.t :=
  {| PVTranspose.bufsize := 1; PVTranspose.size := 16; PVTranspose.olaps := 2;
     PVTranspose.hsize := 8; PVTranspose.hopsize := 8; PVTranspose.overcount := 0;
     PVTranspose.magn := [[5; 5; 5; 5; 5; 5; 5; 5]; [5; 5; 5; 5; 5; 5; 5; 5]]%R;
     PVTranspose.freq := [[5; 5; 5; 5; 5; 5; 5; 5]; [5; 5; 5; 5; 5; 5; 5; 5]]%R;
     PVTranspose.count := [8]%Z |}.

(** A stream whose bin 0 of slot 1 holds the magnitude [3 * 2^-24], and a
    reverberator in slot 1 whose follower of bin 0 holds [1 + 3 * 2^-23];
    both are single-precision numbers. *)
Definition stream_near_tie : PVStream.t :=
  {| PVStream.fftsize := 4; PVStream.olaps := 2;
     PVStream.magn := [[0; 0]; [3 / 16777216; 0]]%R; PVStream.freq := sample_freq_in;
     PVStream.count := [3; 2]%Z |}.

Definition verb_near_tie : PVVerb.t :=
  {| PVVerb.bufsize := 2; PVVerb.size := 4; PVVerb.olaps := 2; PVVerb.hsize := 2;
     PVVerb.hopsize := 2; PVVerb.overcount := 1;
     PVVerb.l_magn := [8388611 / 8388608; 0]%R;
     PVVerb.magn := sample_table; PVVerb.freq := sample_table;
     PVVerb.count := [2; 2]%Z |}.

(** * Properties *)

(** ** Arrays *)

Lemma rd_Some_bounds {A} (a : list A) i x :
  rd a i = Some x → (0 ≤ i < Z.of_nat (length a))%Z.
Proof.
  unfold rd. case_bool_decide; [|done].
  intros Hx%lookup_lt_Some. lia.
Qed.

Lemma rd_in_bounds {A} (a : list A) i :
  (0 ≤ i < Z.of_nat (length a))%Z → ∃ x, rd a i = Some x.
Proof.
  intros Hi. unfold rd. rewrite bool_decide_eq_true_2 by lia.
  apply lookup_lt_is_Some_2. lia.
Qed.

Lemma rd_cells {A} n (a : list A) i :
  cells n a → (0 ≤ i < n)%Z → ∃ x, rd a i = Some x.
Proof. unfold cells. intros <- Hi. by apply rd_in_bounds. Qed.

Lemma wr_in_bounds {A} (a : list A) i x :
  (0 ≤ i < Z.of_nat (length a))%Z → wr a i x = Some (<[Z.to_nat i := x]> a).
Proof. intros Hi. unfold wr. by rewrite bool_decide_eq_true_2. Qed.

Lemma wr_Some_inv {A} (a a' : list A) i x :
  wr a i x = Some a' →
  (0 ≤ i < Z.of_nat (length a))%Z ∧ a' = <[Z.to_nat i := x]> a.
Proof. unfold wr. case_bool_decide as Hi; [|done]. by intros [= <-]. Qed.

Lemma wr_length {A} (a a' : list A) i x :
  wr a i x = Some a' → length a' = length a.
Proof. intros [_ ->]%wr_Some_inv. apply length_insert. Qed.

Lemma wr_cells {A} n (a a' : list A) i x :
  wr a i x = Some a' → cells n a → cells n a'.
Proof. unfold cells. by intros ->%wr_length. Qed.

Lemma rd_wr_eq {A} (a a' : list A) i x :
  wr a i x = Some a' → rd a' i = Some x.
Proof.
  intros [Hi ->]%wr_Some_inv. unfold rd.
  rewrite bool_decide_eq_true_2 by lia.
  apply list_lookup_insert_eq. lia.
Qed.

Lemma rd_wr_ne {A} (a a' : list A) i j x :
  wr a i x = Some a' → j ≠ i → rd a' j = rd a j.
Proof.
  intros [Hi ->]%wr_Some_inv Hne. unfold rd.
  case_bool_decide; [|done].
  apply list_lookup_insert_ne. lia.
Qed.

Lemma rd_filled {A} n (x : A) i : (0 ≤ i < n)%Z → rd (filled n x) i = Some x.
Proof.
  intros Hi. unfold rd, filled. rewrite bool_decide_eq_true_2 by lia.
  apply lookup_replicate_2. lia.
Qed.

Lemma rd_filled_inv {A} n (x y : A) i : rd (filled n x) i = Some y → y = x.
Proof.
  unfold rd, filled. case_bool_decide; [|done].
  by intros [-> _]%lookup_replicate.
Qed.

Lemma cells_filled {A} n (x : A) : (0 ≤ n)%Z → cells n (filled n x).
Proof. intros Hn. unfold cells, filled. rewrite length_replicate. lia. Qed.

Lemma cells_tabulate {A} n (f : Z → A) : (0 ≤ n)%Z → cells n (tabulate n f).
Proof.
  intros Hn. unfold cells, tabulate. rewrite length_fmap, length_seq. lia.
Qed.

Lemma table_filled olaps hsize :
  (0 ≤ olaps)%Z → (0 ≤ hsize)%Z → table olaps hsize (filled olaps (filled hsize 0%R)).
Proof.
  intros Ho Hh. split; [by apply cells_filled|].
  intros i row ->%rd_filled_inv. by apply cells_filled.
Qed.

Lemma table_Forall olaps hsize t :
  cells olaps t → Forall (cells hsize) t → table olaps hsize t.
Proof.
  intros Hn Hrows. split; [done|]. intros i row Hrd.
  unfold rd in Hrd. case_bool_decide; [|done].
  eapply Forall_lookup_1; eauto.
Qed.

Lemma rd2_Some_inv {A} (t : list (list A)) i k x :
  rd2 t i k = Some x → ∃ row, rd t i = Some row ∧ rd row k = Some x.
Proof.
  unfold rd2. destruct (rd t i) as [row|]; [|done]. simpl. eauto.
Qed.

Lemma rd2_table olaps hsize t i k :
  table olaps hsize t → (0 ≤ i < olaps)%Z → (0 ≤ k < hsize)%Z →
  ∃ x, rd2 t i k = Some x.
Proof.
  intros [Hn Hrows] Hi Hk.
  destruct (rd_cells _ _ _ Hn Hi) as [row Hrow].
  destruct (rd_cells _ _ _ (Hrows _ _ Hrow) Hk) as [x Hx].
  exists x. unfold rd2. by rewrite Hrow.
Qed.

(** A store in a well-formed table succeeds, keeps the shape, is seen by
    a later load of the same cell and by no other. *)
Lemma wr2_table olaps hsize t i k x :
  table olaps hsize t → (0 ≤ i < olaps)%Z → (0 ≤ k < hsize)%Z →
  ∃ t', wr2 t i k x = Some t' ∧ table olaps hsize t' ∧
        rd2 t' i k = Some x ∧
        ∀ i' k', (i', k') ≠ (i, k) → rd2 t' i' k' = rd2 t i' k'.
Proof.
  intros [Hn Hrows] Hi Hk.
  destruct (rd_cells _ _ _ Hn Hi) as [row Hrow].
  pose proof (Hrows _ _ Hrow) as Hlen.
  assert (Hw : wr row k x = Some (<[Z.to_nat k := x]> row))
    by (apply wr_in_bounds; unfold cells in Hlen; lia).
  assert (Hw' : wr t i (<[Z.to_nat k := x]> row)
                = Some (<[Z.to_nat i := <[Z.to_nat k := x]> row]> t))
    by (apply wr_in_bounds; unfold cells in Hn; lia).
  eexists. split; [|split; [|split]].
  - unfold wr2. rewrite Hrow. simpl. rewrite Hw. simpl. exact Hw'.
  - split; [by eapply wr_cells|].
    intros i' row' Hrd. destruct (decide (i' = i)) as [->|Hne].
    + rewrite (rd_wr_eq _ _ _ _ Hw') in Hrd. injection Hrd as <-.
      by eapply wr_cells.
    + rewrite (rd_wr_ne _ _ _ _ _ Hw' Hne) in Hrd. eauto.
  - unfold rd2. rewrite (rd_wr_eq _ _ _ _ Hw'). simpl. by eapply rd_wr_eq.
  - intros i' k' Hne. unfold rd2. destruct (decide (i' = i)) as [->|Hi'].
    + rewrite (rd_wr_eq _ _ _ _ Hw'), Hrow. simpl.
      eapply rd_wr_ne; [done|]. congruence.
    + by rewrite (rd_wr_ne _ _ _ _ _ Hw' Hi').
Qed.

(** ** Loops *)

(** The invariant rule for [for_upto]: a loop whose body succeeds and
    re-establishes [P] at every round runs to completion. *)
Lemma for_upto_inv {St} (P : Z → St → Prop) n (body : Z → St → option St) s :
  P 0%Z s →
  (∀ k s, (0 ≤ k < Z.of_nat n)%Z → P k s → ∃ s', body k s = Some s' ∧ P (k + 1)%Z s') →
  ∃ s', for_upto n body s = Some s' ∧ P (Z.of_nat n) s'.
Proof.
  intros H0 Hstep. induction n as [|n IH].
  - exists s. by split.
  - destruct IH as (s1 & Hrun & HP).
    { intros k s0 Hk. apply Hstep. lia. }
    destruct (Hstep (Z.of_nat n) s1) as (s2 & Hbody & HP2); [lia|done|].
    exists s2. split.
    + simpl. rewrite Hrun. exact Hbody.
    + by replace (Z.of_nat (S n)) with (Z.of_nat n + 1)%Z by lia.
Qed.

Lemma for_loop_inv {St} (P : Z → St → Prop) n (body : Z → St → option St) s :
  (0 ≤ n)%Z →
  P 0%Z s →
  (∀ k s, (0 ≤ k < n)%Z → P k s → ∃ s', body k s = Some s' ∧ P (k + 1)%Z s') →
  ∃ s', for_loop n body s = Some s' ∧ P n s'.
Proof.
  intros Hn H0 Hstep. unfold for_loop.
  destruct (for_upto_inv P (Z.to_nat n) body s H0) as (s' & Hrun & HP).
  { intros k s0 Hk. apply Hstep. lia. }
  exists s'. split; [done|]. by rewrite Z2Nat.id in HP.
Qed.

Lemma for_loop_from_1_inv {St} (P : Z → St → Prop) n (body : Z → St → option St) s :
  (1 ≤ n)%Z →
  P 1%Z s →
  (∀ k s, (1 ≤ k < n)%Z → P k s → ∃ s', body k s = Some s' ∧ P (k + 1)%Z s') →
  ∃ s', for_loop_from_1 n body s = Some s' ∧ P n s'.
Proof.
  intros Hn H1 Hstep. unfold for_loop_from_1.
  destruct (for_upto_inv (λ j, P (j + 1)%Z) (Z.to_nat (n - 1))
              (λ j, body (j + 1)%Z) s H1) as (s' & Hrun & HP).
  { intros k s0 Hk HP. destruct (Hstep (k + 1)%Z s0) as (s1 & ? & ?); [lia|done|].
    exists s1. by split. }
  exists s'. split; [done|].
  by replace (Z.of_nat (Z.to_nat (n - 1)) + 1)%Z with n in HP by lia.
Qed.

Lemma for_loop_nothing {St} n (body : Z → St → option St) s :
  (n ≤ 0)%Z → for_loop n body s = Some s.
Proof. intros Hn. unfold for_loop. by replace (Z.to_nat n) with O by lia. Qed.

(** ** PVGate *)


Lemma PVGate_frame_run T damp olaps hsize overcount magn_in freq_in magn freq :
  table olaps hsize magn_in → table olaps hsize freq_in →
  table olaps hsize magn → table olaps hsize freq →
  (0 ≤ overcount < olaps)%Z → (0 ≤ hsize)%Z →
  ∃ magn' freq',
    PVGate_frame T damp magn_in freq_in hsize overcount (magn, freq)
      = Some (magn', freq') ∧
    table olaps hsize magn' ∧ table olaps hsize freq' ∧
    ∀ k, (0 ≤ k < hsize)%Z →
      ∃ mag_in f_in,
        rd2 magn_in overcount k = Some mag_in ∧
        rd2 freq_in overcount k = Some f_in ∧
        rd2 magn' overcount k = Some (PVGate_gate T damp mag_in) ∧
        rd2 freq' overcount k = Some f_in.
Proof.
  intros Hmi Hfi Hm Hf Ho Hh. unfold PVGate_frame.
  destruct (for_loop_inv
    (λ n '(m, f), table olaps hsize m ∧ table olaps hsize f ∧
       ∀ k, (0 ≤ k < n)%Z →
         ∃ mag_in f_in,
           rd2 magn_in overcount k = Some mag_in ∧
           rd2 freq_in overcount k = Some f_in ∧
           rd2 m overcount k = Some (PVGate_gate T damp mag_in) ∧
           rd2 f overcount k = Some f_in)
    hsize (PVGate_bin T damp magn_in freq_in overcount) (magn, freq))
    as ([magn' freq'] & Hrun & Hm' & Hf' & Hbins); [done| |  |by eauto 10].
  { split_and!; [done..|]. intros k Hk. lia. }
  intros k [m f] Hk (Hmt & Hft & Hdone).
  destruct (rd2_table _ _ _ _ _ Hmi Ho Hk) as [mag Hmag].
  destruct (rd2_table _ _ _ _ _ Hfi Ho Hk) as [fr Hfr].
  destruct (wr2_table _ _ _ _ _ (PVGate_gate T damp mag) Hmt Ho Hk)
    as (m' & Hwm & Hmt' & Hrm & Hom).
  destruct (wr2_table _ _ _ _ _ fr Hft Ho Hk) as (f' & Hwf & Hft' & Hrf & Hof).
  exists (m', f'). split.
  { unfold PVGate_bin. rewrite Hmag. simpl. rewrite Hwm. simpl.
    rewrite Hfr. simpl. by rewrite Hwf. }
  split_and!; [done..|]. intros j Hj.
  destruct (decide (j = k)) as [->|Hne]; [by eauto 10|].
  destruct (Hdone j) as (a & b & ? & ? & ? & ?); [lia|].
  exists a, b. split_and!; [done..| |].
  - rewrite Hom; [done|congruence].
  - rewrite Hof; [done|congruence].
Qed.

(** ** PVVerb *)


Lemma clip01_bounds x : (0 <= clip01 x <= 1)%R.
Proof. unfold clip01. repeat destruct (Rlt_dec _ _); lra. Qed.

Lemma clip01_id x : (0 <= x <= 1)%R → clip01 x = x.
Proof. unfold clip01. repeat destruct (Rlt_dec _ _); lra. Qed.

Lemma MYFLT_exact_rounding : MYFLT_rounding MYFLT_exact.
Proof. split; unfold MYFLT_exact; auto. Qed.

(** A rounding keeps a number of the unit interval in it. *)
Lemma MYFLT_rounding_unit fl x :
  MYFLT_rounding fl → (0 <= x <= 1)%R → (0 <= fl x <= 1)%R.
Proof.
  intros [Hmono _ H0 H1] [Hx0 Hx1].
  pose proof (Hmono _ _ Hx0) as Hlo. pose proof (Hmono _ _ Hx1) as Hhi.
  rewrite H0 in Hlo. rewrite H1 in Hhi. lra.
Qed.



Lemma PVVerb_revtime_bounds revtime :
  (0.75 <= PVVerb_revtime MYFLT_exact revtime <= 1)%R.
Proof.
  unfold PVVerb_revtime, MYFLT_exact. pose proof (clip01_bounds revtime). lra.
Qed.

Lemma PVVerb_damp_bounds damp : (0.997 <= PVVerb_damp MYFLT_exact damp <= 1)%R.
Proof. unfold PVVerb_damp, MYFLT_exact. pose proof (clip01_bounds damp). lra. Qed.

Lemma PVVerb_revtime_unit fl revtime :
  MYFLT_rounding fl → (0 <= PVVerb_revtime fl revtime <= 1)%R.
Proof.
  intros Hfl. unfold PVVerb_revtime. apply MYFLT_rounding_unit; [exact Hfl|].
  pose proof (clip01_bounds revtime). lra.
Qed.

Lemma PVVerb_damp_unit fl damp :
  MYFLT_rounding fl → (0 <= PVVerb_damp fl damp <= 1)%R.
Proof.
  intros Hfl. unfold PVVerb_damp. apply MYFLT_rounding_unit; [exact Hfl|].
  pose proof (clip01_bounds damp). lra.
Qed.


(** Without rounding [amp] is [damp^k] at bin [k]. *)
Lemma PVVerb_amp_exact damp k : PVVerb_amp MYFLT_exact damp k = (damp ^ k)%R.
Proof.
  unfold PVVerb_amp, MYFLT_exact. induction k as [|k IH]; simpl; [done|].
  rewrite IH. lra.
Qed.

Lemma PVVerb_amp_unit fl damp k :
  MYFLT_rounding fl → (0 <= damp <= 1)%R → (0 <= PVVerb_amp fl damp k <= 1)%R.
Proof.
  intros Hfl Hd. unfold PVVerb_amp. induction k as [|k IH]; simpl; [lra|].
  apply MYFLT_rounding_unit; [exact Hfl|]. nra.
Qed.

(** Without rounding the follower is the expression of the source. *)
Lemma PVVerb_follow_exact mag last revtime amp :
  PVVerb_follow MYFLT_exact mag last revtime amp
  = (if Rlt_dec last mag then mag else mag + (last - mag) * revtime * amp)%R.
Proof. reflexivity. Qed.

(** Without rounding the value emitted by a bin stays between the input
    magnitude and the larger of the input magnitude and the follower,
    whenever the decay coefficient [revtime * amp] lies in the unit
    interval. *)
Lemma PVVerb_follow_bounds mag last revtime amp :
  (0 <= revtime * amp <= 1)%R →
  (mag <= PVVerb_follow MYFLT_exact mag last revtime amp <= Rmax mag last)%R.
Proof.
  intros Hc. rewrite PVVerb_follow_exact. unfold Rmax.
  destruct (Rlt_dec last mag), (Rle_dec mag last); try lra.
  rewrite Rmult_assoc. nra.
Qed.

(** With a rounding, the value emitted by a bin is not below the input
    magnitude, and not above the larger of the input magnitude and the
    rounded sum [mag + (last - mag)]. *)
Lemma PVVerb_follow_rounded_bounds fl mag last revtime amp :
  MYFLT_rounding fl → fl mag = mag →
  (0 <= revtime <= 1)%R → (0 <= amp <= 1)%R →
  (mag <= PVVerb_follow fl mag last revtime amp
       <= Rmax mag (fl (mag + fl (last - mag))))%R.
Proof.
  intros [Hmono Hidem H0 H1] Hmag Hr Ha. unfold PVVerb_follow.
  destruct (Rlt_dec last mag) as [Hlt|Hge].
  { split; [lra|apply Rmax_l]. }
  set (D := fl (last - mag)%R).
  assert (HD : (0 <= D)%R).
  { rewrite <- H0. apply Hmono. lra. }
  assert (HDi : fl D = D) by apply Hidem.
  set (P := fl (D * revtime)%R).
  assert (HPi : fl P = P) by apply Hidem.
  assert (HP : (0 <= P <= D)%R).
  { split.
    - rewrite <- H0. apply Hmono. nra.
    - apply Rle_trans with (fl D); [apply Hmono; nra|lra]. }
  set (Q := fl (P * amp)%R).
  assert (HQ : (0 <= Q <= P)%R).
  { split.
    - rewrite <- H0. apply Hmono. nra.
    - apply Rle_trans with (fl P); [apply Hmono; nra|lra]. }
  split.
  - apply Rle_trans with (fl mag); [lra|]. apply Hmono. lra.
  - eapply Rle_trans; [|apply Rmax_r]. apply Hmono. lra.
Qed.

Lemma PVVerb_frame_run fl r d olaps hsize overcount magn_in freq_in l_magn magn freq :
  table olaps hsize magn_in → table olaps hsize freq_in →
  cells hsize l_magn →
  table olaps hsize magn → table olaps hsize freq →
  (0 ≤ overcount < olaps)%Z → (0 ≤ hsize)%Z →
  ∃ l_magn' magn' freq',
    PVVerb_frame fl r d magn_in freq_in hsize overcount (l_magn, magn, freq)
      = Some (l_magn', magn', freq') ∧
    cells hsize l_magn' ∧ table olaps hsize magn' ∧ table olaps hsize freq' ∧
    ∀ k, (0 ≤ k < hsize)%Z →
      ∃ mag_in last f_in,
        rd2 magn_in overcount k = Some mag_in ∧
        rd l_magn k = Some last ∧
        rd2 freq_in overcount k = Some f_in ∧
        rd l_magn' k
          = Some (PVVerb_follow fl mag_in last r (PVVerb_amp fl d (Z.to_nat k))) ∧
        rd2 magn' overcount k
          = Some (PVVerb_follow fl mag_in last r (PVVerb_amp fl d (Z.to_nat k))) ∧
        rd2 freq' overcount k = Some f_in.
Proof.
  intros Hmi Hfi Hl Hm Hf Ho Hh. unfold PVVerb_frame.
  destruct (for_loop_inv
    (λ n '(amp, l, m, f),
       amp = PVVerb_amp fl d (Z.to_nat n) ∧
       cells hsize l ∧ table olaps hsize m ∧ table olaps hsize f ∧
       (∀ k, (n ≤ k)%Z → rd l k = rd l_magn k) ∧
       ∀ k, (0 ≤ k < n)%Z →
         ∃ mag_in last f_in,
           rd2 magn_in overcount k = Some mag_in ∧
           rd l_magn k = Some last ∧
           rd2 freq_in overcount k = Some f_in ∧
           rd l k = Some (PVVerb_follow fl mag_in last r (PVVerb_amp fl d (Z.to_nat k))) ∧
           rd2 m overcount k
             = Some (PVVerb_follow fl mag_in last r (PVVerb_amp fl d (Z.to_nat k))) ∧
           rd2 f overcount k = Some f_in)
    hsize (PVVerb_bin fl r d magn_in freq_in overcount) (1%R, l_magn, magn, freq))
    as ([[[amp l'] m'] f'] & Hrun & _ & Hl' & Hm' & Hf' & _ & Hbins); [done| | |].
  { split_and!; [done..|]. intros k Hk. lia. }
  { intros k [[[amp l] m] f] Hk (-> & Hlc & Hmt & Hft & Hrest & Hdone).
    destruct (rd2_table _ _ _ _ _ Hmi Ho Hk) as [mag Hmag].
    destruct (rd2_table _ _ _ _ _ Hfi Ho Hk) as [fr Hfr].
    destruct (rd_cells _ _ _ Hl Hk) as [last Hlast].
    assert (Hlast' : rd l k = Some last) by (rewrite Hrest; [done|lia]).
    set (out := PVVerb_follow fl mag last r (PVVerb_amp fl d (Z.to_nat k))).
    assert (Hwl : wr l k out = Some (<[Z.to_nat k := out]> l))
      by (apply wr_in_bounds; unfold cells in Hlc; lia).
    destruct (wr2_table _ _ _ _ _ out Hmt Ho Hk) as (m1 & Hwm & Hmt' & Hrm & Hom).
    destruct (wr2_table _ _ _ _ _ fr Hft Ho Hk) as (f1 & Hwf & Hft' & Hrf & Hof).
    eexists (_, _, m1, f1). split.
    { unfold PVVerb_bin. rewrite Hmag. simpl. rewrite Hlast'. simpl.
      fold out. rewrite Hwl. simpl. rewrite Hwm. simpl. rewrite Hfr. simpl.
      by rewrite Hwf. }
    split_and!; [|by eapply wr_cells|done|done| |].
    - by replace (Z.to_nat (k + 1)) with (S (Z.to_nat k)) by lia.
    - intros j Hj. rewrite (rd_wr_ne _ _ _ _ _ Hwl); [|lia]. apply Hrest. lia.
    - intros j Hj. destruct (decide (j = k)) as [->|Hne].
      + exists mag, last, fr. split_and!; [done..| |done|done].
        by eapply rd_wr_eq.
      + destruct (Hdone j) as (a & b & c & ? & ? & ? & ? & ? & ?); [lia|].
        exists a, b, c. split_and!; [done..| | |].
        * by rewrite (rd_wr_ne _ _ _ _ _ Hwl).
        * rewrite Hom; [done|congruence].
        * rewrite Hof; [done|congruence]. }
  rewrite Hrun. simpl. eauto 10.
Qed.

(** ** PVTranspose *)

Lemma Int_part_nonneg x : (0 <= x)%R → (0 ≤ Int_part x)%Z.
Proof.
  intros Hx. unfold Int_part. destruct (archimed x) as [Hup _].
  assert (0 < IZR (up x))%R by lra.
  assert (0 < up x)%Z by (by apply lt_IZR). lia.
Qed.

(** On a nonnegative number below [2^31] the cast to [int] is the floor. *)
Lemma int_of_float_floor x :
  (0 <= x < IZR (INT_MAX + 1))%R →
  int_of_float x = Some (Int_part x) ∧ (0 ≤ Int_part x ≤ INT_MAX)%Z.
Proof.
  intros [Hx Hmax]. pose proof (Int_part_nonneg _ Hx) as Hfloor.
  destruct (base_Int_part x) as [Hle _].
  assert (Int_part x < INT_MAX + 1)%Z by (apply lt_IZR; lra).
  split; [|lia].
  unfold int_of_float. destruct (Rle_dec 0 x); [|done].
  rewrite bool_decide_eq_true_2; [done|].
  unfold in_int_range, INT_MIN, INT_MAX in *. lia.
Qed.

(** Beyond the range of [int] the cast is undefined. *)
Lemma int_of_float_overflow x : (IZR (INT_MAX + 1) <= x)%R → int_of_float x = None.
Proof.
  intros Hx. unfold int_of_float.
  assert (0 < IZR (INT_MAX + 1))%R by (apply IZR_lt; unfold INT_MAX; lia).
  destruct (Rle_dec 0 x) as [_|Hneg]; [|lra].
  rewrite bool_decide_eq_false_2; [done|].
  unfold in_int_range. intros [_ Hmax].
  destruct (base_Int_part x) as [_ Hgt].
  apply IZR_le in Hmax. rewrite plus_IZR in Hx. lra.
Qed.

Lemma landing_last_bounds transpo idx n k :
  landing_last transpo idx n = Some k →
  (0 ≤ k < Z.of_nat n)%Z ∧ Int_part (IZR k * transpo) = idx ∧
  ∀ k', (k < k' < Z.of_nat n)%Z → Int_part (IZR k' * transpo) ≠ idx.
Proof.
  induction n as [|n IH]; [done|]. simpl.
  destruct (Z.eqb_spec (Int_part (IZR (Z.of_nat n) * transpo)) idx) as [Heq|Hne].
  - intros [= <-]. split_and!; [lia..|done|]. intros k' Hk'. lia.
  - intros (Hk & Hidx & Hlast)%IH. split_and!; [lia..|done|].
    intros k' Hk'. destruct (decide (k' = Z.of_nat n)) as [->|]; [done|].
    apply Hlast. lia.
Qed.

Lemma landing_last_None transpo idx n k :
  landing_last transpo idx n = None →
  (0 ≤ k < Z.of_nat n)%Z → Int_part (IZR k * transpo) ≠ idx.
Proof.
  induction n as [|n IH]; [lia|]. simpl.
  destruct (Z.eqb_spec (Int_part (IZR (Z.of_nat n) * transpo)) idx) as [Heq|Hne]; [done|].
  intros Hnone Hk. destruct (decide (k = Z.of_nat n)) as [->|]; [done|].
  apply IH; [done|lia].
Qed.

(** [landing_freq] keeps the frequency of the largest bin that lands on
    [idx], and 0 when no bin does. *)
Lemma landing_freq_largest transpo f idx n k :
  (0 ≤ k < Z.of_nat n)%Z → Int_part (IZR k * transpo) = idx →
  (∀ k', (k < k' < Z.of_nat n)%Z → Int_part (IZR k' * transpo) ≠ idx) →
  landing_freq transpo f idx n = (f k * transpo)%R.
Proof.
  intros Hk Hidx Hlargest. unfold landing_freq.
  destruct (landing_last transpo idx n) as [k0|] eqn:Hlast.
  - apply landing_last_bounds in Hlast as (Hk0 & Hidx0 & Hlargest0).
    destruct (Z.lt_trichotomy k k0) as [Hlt|[->|Hgt]]; [|done|].
    + destruct (Hlargest k0); [lia|done].
    + destruct (Hlargest0 k); [lia|done].
  - by destruct (landing_last_None _ _ _ k Hlast Hk).
Qed.

Lemma landing_freq_nothing transpo f idx n :
  (∀ k, (0 ≤ k < Z.of_nat n)%Z → Int_part (IZR k * transpo) ≠ idx) →
  landing_freq transpo f idx n = 0%R.
Proof.
  intros Hnone. unfold landing_freq.
  destruct (landing_last transpo idx n) as [k0|] eqn:Hlast; [|done].
  apply landing_last_bounds in Hlast as (Hk0 & Hidx0 & _).
  by destruct (Hnone k0).
Qed.

Lemma PVTranspose_clear_run olaps hsize overcount magn freq :
  table olaps hsize magn → table olaps hsize freq →
  (0 ≤ overcount < olaps)%Z → (0 ≤ hsize)%Z →
  ∃ magn0 freq0,
    PVTranspose_clear hsize overcount (magn, freq) = Some (magn0, freq0) ∧
    table olaps hsize magn0 ∧ table olaps hsize freq0 ∧
    (∀ i k, i ≠ overcount →
       rd2 magn0 i k = rd2 magn i k ∧ rd2 freq0 i k = rd2 freq i k) ∧
    ∀ k, (0 ≤ k < hsize)%Z →
      rd2 magn0 overcount k = Some 0%R ∧ rd2 freq0 overcount k = Some 0%R.
Proof.
  intros Hm Hf Ho Hh. unfold PVTranspose_clear.
  destruct (for_loop_inv
    (λ n '(m, f), table olaps hsize m ∧ table olaps hsize f ∧
       (∀ i k, i ≠ overcount → rd2 m i k = rd2 magn i k ∧ rd2 f i k = rd2 freq i k) ∧
       ∀ k, (0 ≤ k < n)%Z →
         rd2 m overcount k = Some 0%R ∧ rd2 f overcount k = Some 0%R)
    hsize
    (λ k '(magn, freq),
       magn ← wr2 magn overcount k 0%R;
       freq ← wr2 freq overcount k 0%R;
       Some (magn, freq)) (magn, freq))
    as ([magn0 freq0] & Hrun & Hm0 & Hf0 & Hrows & Hbins); [done| | |by eauto 10].
  { split_and!; [done..|]. intros k Hk. lia. }
  intros k [m f] Hk (Hmt & Hft & Hkept & Hdone).
  destruct (wr2_table _ _ _ _ _ 0%R Hmt Ho Hk) as (m1 & Hwm & Hmt' & Hrm & Hom).
  destruct (wr2_table _ _ _ _ _ 0%R Hft Ho Hk) as (f1 & Hwf & Hft' & Hrf & Hof).
  exists (m1, f1). split; [by rewrite Hwm; simpl; rewrite Hwf|].
  split_and!; [done..| |].
  - intros i k' Hi. rewrite Hom, Hof by congruence. by apply Hkept.
  - intros j Hj.
    destruct (decide (j = k)) as [->|Hne]; [done|].
    destruct (Hdone j) as [? ?]; [lia|].
    rewrite Hom, Hof by congruence. done.
Qed.

Lemma landing_sum_by_ext index index' m idx n :
  (∀ k, (0 ≤ k < Z.of_nat n)%Z → index k = index' k) →
  landing_sum_by index m idx n = landing_sum_by index' m idx n.
Proof.
  induction n as [|n IH]; intros Hext; [done|]. simpl.
  rewrite Hext by lia. rewrite IH; [done|]. intros k Hk. apply Hext. lia.
Qed.

Lemma landing_last_by_ext index index' idx n :
  (∀ k, (0 ≤ k < Z.of_nat n)%Z → index k = index' k) →
  landing_last_by index idx n = landing_last_by index' idx n.
Proof.
  induction n as [|n IH]; intros Hext; [done|]. simpl.
  rewrite Hext by lia. rewrite IH; [done|]. intros k Hk. apply Hext. lia.
Qed.

Lemma landing_sum_by_spec transpo m idx n :
  landing_sum_by (λ k, Int_part (IZR k * transpo)) m idx n = landing_sum transpo m idx n.
Proof. induction n as [|n IH]; [done|]. simpl. by rewrite IH. Qed.

Lemma landing_last_by_spec transpo idx n :
  landing_last_by (λ k, Int_part (IZR k * transpo)) idx n = landing_last transpo idx n.
Proof. induction n as [|n IH]; [done|]. simpl. by rewrite IH. Qed.

(** Where no product is rounded across an integer, the code computes the
    sums of the spec. *)
Lemma landing_by_exact fl transpo hsize m f idx :
  PVTranspose_index_exact fl transpo hsize →
  landing_sum_by (PVTranspose_index fl transpo) m idx (Z.to_nat hsize)
  = landing_sum transpo m idx (Z.to_nat hsize) ∧
  landing_freq_by (PVTranspose_index fl transpo) transpo f idx (Z.to_nat hsize)
  = landing_freq transpo f idx (Z.to_nat hsize).
Proof.
  intros Hexact.
  assert (Hext : ∀ k, (0 ≤ k < Z.of_nat (Z.to_nat hsize))%Z →
            PVTranspose_index fl transpo k = Int_part (IZR k * transpo))
    by (intros k Hk; apply Hexact; lia).
  split.
  - rewrite <- landing_sum_by_spec. by apply landing_sum_by_ext.
  - unfold landing_freq_by, landing_freq. rewrite <- landing_last_by_spec.
    by rewrite (landing_last_by_ext _ _ _ _ Hext).
Qed.

(** With the idealised arithmetic the two conditions on the products are
    conditions on the factor. *)
Lemma PVTranspose_index_MYFLT_exact transpo hsize :
  (0 <= transpo)%R → (IZR (hsize - 1) * transpo < IZR (INT_MAX + 1))%R →
  PVTranspose_index_defined MYFLT_exact transpo hsize ∧
  PVTranspose_index_exact MYFLT_exact transpo hsize.
Proof.
  intros Ht Hmax. split; [|done]. intros k Hk.
  unfold PVTranspose_product, MYFLT_exact.
  assert (0 <= IZR k)%R by (apply IZR_le; lia).
  assert (IZR k <= IZR (hsize - 1))%R by (apply IZR_le; lia).
  split; [by apply Rmult_le_pos|]. nra.
Qed.

Lemma PVTranspose_bins_run fl transpo olaps hsize overcount magn_in freq_in magn0 freq0 :
  PVTranspose_index_defined fl transpo hsize →
  table olaps hsize magn_in → table olaps hsize freq_in →
  table olaps hsize magn0 → table olaps hsize freq0 →
  (0 ≤ overcount < olaps)%Z → (0 ≤ hsize)%Z →
  (∀ k, (0 ≤ k < hsize)%Z →
     rd2 magn0 overcount k = Some 0%R ∧ rd2 freq0 overcount k = Some 0%R) →
  ∃ magn' freq',
    for_loop hsize (PVTranspose_bin fl transpo magn_in freq_in hsize overcount) (magn0, freq0)
      = Some (magn', freq') ∧
    table olaps hsize magn' ∧ table olaps hsize freq' ∧
    (∀ i k, i ≠ overcount →
       rd2 magn' i k = rd2 magn0 i k ∧ rd2 freq' i k = rd2 freq0 i k) ∧
    ∀ idx, (0 ≤ idx < hsize)%Z →
      rd2 magn' overcount idx
        = Some (landing_sum_by (PVTranspose_index fl transpo)
                  (cell_or_0 magn_in overcount) idx (Z.to_nat hsize)) ∧
      rd2 freq' overcount idx
        = Some (landing_freq_by (PVTranspose_index fl transpo) transpo
                  (cell_or_0 freq_in overcount) idx (Z.to_nat hsize)).
Proof.
  intros Ht Hmi Hfi Hm Hf Ho Hh Hzero.
  destruct (for_loop_inv
    (λ n '(m, f), table olaps hsize m ∧ table olaps hsize f ∧
       (∀ i k, i ≠ overcount →
          rd2 m i k = rd2 magn0 i k ∧ rd2 f i k = rd2 freq0 i k) ∧
       ∀ idx, (0 ≤ idx < hsize)%Z →
         rd2 m overcount idx
           = Some (landing_sum_by (PVTranspose_index fl transpo)
                     (cell_or_0 magn_in overcount) idx (Z.to_nat n)) ∧
         rd2 f overcount idx
           = Some (landing_freq_by (PVTranspose_index fl transpo) transpo
                     (cell_or_0 freq_in overcount) idx (Z.to_nat n)))
    hsize (PVTranspose_bin fl transpo magn_in freq_in hsize overcount) (magn0, freq0))
    as ([magn' freq'] & Hrun & Hm' & Hf' & Hrows & Hbins); [done| | |by eauto 10].
  { split_and!; [done..|]. intros idx Hidx. by apply Hzero. }
  intros k [m f] Hk (Hmt & Hft & Hkept & Hdone).
  destruct (int_of_float_floor _ (Ht k Hk)) as [Hcast Hidx0].
  replace (Z.to_nat (k + 1)) with (S (Z.to_nat k)) by lia.
  unfold PVTranspose_bin, landing_freq_by. simpl.
  rewrite Z2Nat.id by lia. rewrite Hcast. simpl.
  fold (PVTranspose_index fl transpo k) in *.
  set (index := PVTranspose_index fl transpo k) in *.
  destruct (Z.ltb_spec index hsize) as [Hlt|Hge].
  - assert (Hi : (0 ≤ index < hsize)%Z) by lia.
    destruct (Hdone index Hi) as [Hacc Hfr].
    destruct (rd2_table _ _ _ _ _ Hmi Ho Hk) as [mag Hmag].
    destruct (rd2_table _ _ _ _ _ Hfi Ho Hk) as [fr Hfreq].
    destruct (wr2_table _ _ _ _ _
      (landing_sum_by (PVTranspose_index fl transpo) (cell_or_0 magn_in overcount) index
         (Z.to_nat k) + mag)%R
      Hmt Ho Hi) as (m1 & Hwm & Hmt' & Hrm & Hom).
    destruct (wr2_table _ _ _ _ _ (fr * transpo)%R Hft Ho Hi)
      as (f1 & Hwf & Hft' & Hrf & Hof).
    exists (m1, f1). split.
    { rewrite Hacc. simpl. rewrite Hmag. simpl. rewrite Hwm. simpl.
      rewrite Hfreq. simpl. by rewrite Hwf. }
    split_and!; [done..| |].
    + intros i k' Hi'. rewrite Hom, Hof by congruence. by apply Hkept.
    + intros idx Hidx.
      destruct (Z.eqb_spec index idx) as [<-|Hne].
      * unfold cell_or_0. rewrite Hmag, Hfreq. simpl. done.
      * rewrite Hom, Hof by congruence. by apply Hdone.
  - exists (m, f). split; [done|]. split_and!; [done..|]. intros idx Hidx.
    destruct (Z.eqb_spec index idx) as [<-|Hne]; [lia|]. by apply Hdone.
Qed.

(** ** Powers of two *)

Lemma wrap_int_id z : in_int_range z → wrap_int z = z.
Proof.
  unfold in_int_range, INT_MIN, INT_MAX, wrap_int. intros Hz.
  rewrite Z.mod_small; lia.
Qed.

Lemma land_even_odd a b : Z.land (2 * a) (2 * b + 1) = (2 * Z.land a b)%Z.
Proof.
  apply Z.bits_inj'. intros n Hn. rewrite Z.land_spec.
  destruct (decide (n = 0%Z)) as [->|Hne].
  - by rewrite !Z.testbit_even_0.
  - replace n with (Z.succ (n - 1)%Z) by lia.
    rewrite !Z.testbit_even_succ, Z.testbit_odd_succ by lia.
    by rewrite Z.land_spec.
Qed.

Lemma land_odd_even a b : Z.land (2 * a + 1) (2 * b) = (2 * Z.land a b)%Z.
Proof. rewrite Z.land_comm, land_even_odd. by rewrite Z.land_comm. Qed.

(** The bit trick of [isPowerOfTwo], on positive numbers. *)
Lemma land_pred_zero (p : positive) :
  Z.land (Z.pos p) (Z.pos p - 1) = 0%Z → power_of_two (Z.pos p).
Proof.
  induction p as [p IH|p IH|].
  - replace (Z.pos p~1 - 1)%Z with (2 * Z.pos p)%Z by lia.
    replace (Z.pos p~1) with (2 * Z.pos p + 1)%Z by lia.
    rewrite land_odd_even, Z.land_diag. lia.
  - replace (Z.pos p~0 - 1)%Z with (2 * (Z.pos p - 1) + 1)%Z by lia.
    replace (Z.pos p~0) with (2 * Z.pos p)%Z by lia.
    rewrite land_even_odd. intros Hland.
    destruct IH as [n Hn]; [lia|]. exists (S n). rewrite Hn.
    rewrite Nat2Z.inj_succ, Z.pow_succ_r by lia. done.
  - intros _. by exists O.
Qed.

Lemma power_of_two_land_pred x :
  power_of_two x → Z.land x (x - 1) = 0%Z.
Proof.
  intros [n ->]. rewrite Z.sub_1_r. fold (Z.ones (Z.of_nat n)).
  rewrite <- Z.ones_equiv, Z.land_ones by lia. apply Z.mod_same. lia.
Qed.

Lemma power_of_two_pos x : power_of_two x → (0 < x)%Z.
Proof. intros [n ->]. lia. Qed.

(** [isPowerOfTwo] decides being a power of two on every [int] but
    [INT_MIN], where [x - 1] wraps around and the test answers 1. *)
Lemma isPowerOfTwo_spec x :
  in_int_range x → x ≠ INT_MIN → isPowerOfTwo x = true ↔ power_of_two x.
Proof.
  intros Hr Hmin. unfold isPowerOfTwo.
  rewrite wrap_int_id by (unfold in_int_range, INT_MIN, INT_MAX in *; lia).
  rewrite andb_true_iff, negb_true_iff, Z.eqb_neq, Z.eqb_eq. split.
  - intros [Hne Hland]. destruct x as [|p|p]; [done|by apply land_pred_zero|].
    assert (Z.land (Z.neg p) (Z.neg p - 1) < 0)%Z by (apply Z.land_neg; lia). lia.
  - intros Hp. pose proof (power_of_two_pos _ Hp).
    split; [lia|by apply power_of_two_land_pred].
Qed.

Lemma isPowerOfTwo_INT_MIN : isPowerOfTwo INT_MIN = true.
Proof. reflexivity. Qed.

(** A power of two divides every power of two that is not smaller. *)
Lemma power_of_two_quot a b :
  power_of_two a → power_of_two b → (b ≤ a)%Z →
  power_of_two (a `quot` b) ∧ (a `quot` b * b = a)%Z.
Proof.
  intros [n ->] [m ->] Hle.
  assert (m ≤ n)%nat.
  { apply Nat2Z.inj_le. apply (Z.pow_le_mono_r_iff 2); lia. }
  replace (Z.of_nat n) with (Z.of_nat (n - m) + Z.of_nat m)%Z by lia.
  rewrite Z.pow_add_r by lia. rewrite Z.quot_mul by lia.
  split; [by exists (n - m)%nat|done].
Qed.

(** ** The doubling loop *)

(** Started at [2^i] with a bound of at most [2^30], the loop exits with
    the least power of two that is at least the bound and at least [2^i]. *)
Lemma double_until_exits bound fuel i :
  (bound ≤ 2 ^ 30)%Z → (i ≤ 30)%nat → (31 - i ≤ fuel)%nat →
  ∃ j : nat, (i ≤ j ≤ 30)%nat ∧
    double_until fuel (2 ^ Z.of_nat i) bound = Some (2 ^ Z.of_nat j)%Z ∧
    (bound ≤ 2 ^ Z.of_nat j)%Z ∧
    ((i < j)%nat → (2 ^ Z.of_nat j < 2 * bound)%Z).
Proof.
  intros Hb. revert i. induction fuel as [|fuel IH]; intros i Hi Hfuel; [lia|].
  simpl. destruct (Z.ltb_spec (2 ^ Z.of_nat i) bound) as [Hlt|Hge].
  - assert (i < 30)%nat.
    { apply Nat2Z.inj_lt. apply (Z.pow_lt_mono_r_iff 2); lia. }
    assert (Hw : wrap_int (2 ^ Z.of_nat i * 2) = (2 ^ Z.of_nat (S i))%Z).
    { rewrite Nat2Z.inj_succ, Z.pow_succ_r by lia.
      rewrite wrap_int_id; [lia|].
      assert (2 ^ Z.of_nat i ≤ 2 ^ 29)%Z by (apply Z.pow_le_mono_r; lia).
      unfold in_int_range, INT_MIN, INT_MAX. lia. }
    rewrite Hw. destruct (IH (S i)) as (j & Hj & Hrun & Hle & Hmin); [lia..|].
    exists j. split_and!; [lia..|done|done|]. intros _.
    destruct (decide (j = S i)) as [->|]; [|apply Hmin; lia].
    rewrite Nat2Z.inj_succ, Z.pow_succ_r by lia. lia.
  - exists i. split_and!; [lia..|done|lia|lia].
Qed.

Lemma next_power_of_two_exits x :
  (x ≤ 2 ^ 30)%Z →
  ∃ k, next_power_of_two x = Some k ∧ power_of_two k ∧ (x ≤ k)%Z ∧
       (1 < k → k < 2 * x)%Z.
Proof.
  intros Hx. unfold next_power_of_two, doubling_fuel.
  destruct (double_until_exits x 64 0) as (j & Hj & Hrun & Hle & Hmin); [done|lia..|].
  exists (2 ^ Z.of_nat j)%Z. split_and!; [done|by exists j|done|].
  intros Hk. apply Hmin. destruct j; [simpl in Hk|]; lia.
Qed.

Lemma double_until_step fuel k bound :
  (k < bound)%Z →
  double_until fuel k bound
  = match fuel with
    | O => None
    | S fuel' => double_until fuel' (wrap_int (k * 2)) bound
    end.
Proof. intros Hk. destruct fuel; simpl; by destruct (Z.ltb_spec k bound); [|lia]. Qed.

Lemma double_until_stuck_at_0 bound fuel :
  (0 < bound)%Z → double_until fuel 0 bound = None.
Proof.
  intros Hb. induction fuel as [|fuel IH]; rewrite double_until_step by done; [done|].
  exact IH.
Qed.

Lemma double_until_overflows bound n : ∀ fuel i,
  (2 ^ 30 < bound)%Z → (i + n = 30)%nat →
  double_until fuel (2 ^ Z.of_nat i) bound = None.
Proof.
  induction n as [|n IH]; intros fuel i Hb Hi.
  - assert (i = 30)%nat as -> by lia.
    rewrite double_until_step by lia. destruct fuel as [|fuel]; [done|].
    change (wrap_int (2 ^ Z.of_nat 30 * 2)) with (- 2 ^ 31)%Z.
    rewrite double_until_step by lia. destruct fuel as [|fuel]; [done|].
    change (wrap_int (- 2 ^ 31 * 2)) with 0%Z.
    apply double_until_stuck_at_0. lia.
  - assert (2 ^ Z.of_nat i ≤ 2 ^ 29)%Z by (apply Z.pow_le_mono_r; lia).
    assert (Hw : wrap_int (2 ^ Z.of_nat i * 2) = (2 ^ Z.of_nat (S i))%Z).
    { rewrite Nat2Z.inj_succ, Z.pow_succ_r by lia.
      rewrite wrap_int_id; [lia|]. unfold in_int_range, INT_MIN, INT_MAX. lia. }
    rewrite double_until_step by lia. destruct fuel as [|fuel]; [done|].
    rewrite Hw. apply IH; [done|lia].
Qed.

(** Above [2^30] the counter wraps round to 0 before it reaches the bound
    and the loop never exits, whatever the number of rounds allowed. *)
Lemma double_until_never_exits bound fuel :
  (2 ^ 30 < bound)%Z → double_until fuel 1 bound = None.
Proof. intros Hb. by apply (double_until_overflows bound 30 fuel 0). Qed.

(** ** Reconfiguration *)

(** [for (i=0; i<n; i++) a[i] = v;] on an array of [n] cells. *)
Lemma fill_loop {A} n (a : list A) v :
  (0 ≤ n)%Z → cells n a →
  ∃ a', for_loop n (λ i c, wr c i v) a = Some a' ∧ cells n a' ∧
        ∀ i, (0 ≤ i < n)%Z → rd a' i = Some v.
Proof.
  intros Hn Ha.
  apply (for_loop_inv (λ k c, cells n c ∧ ∀ i, (0 ≤ i < k)%Z → rd c i = Some v));
    [done|split; [done|lia]|].
  intros k c Hk [Hc Hdone].
  assert (Hw : wr c k v = Some (<[Z.to_nat k := v]> c))
    by (apply wr_in_bounds; unfold cells in Hc; lia).
  eexists. split; [exact Hw|]. split; [by eapply wr_cells|].
  intros i Hi. destruct (decide (i = k)) as [->|Hne]; [by eapply rd_wr_eq|].
  rewrite (rd_wr_ne _ _ _ _ _ Hw Hne). apply Hdone. lia.
Qed.

Lemma int_div_pos a b : (0 < b)%Z → int_div a b = Some (a `quot` b)%Z.
Proof.
  intros Hb. unfold int_div. rewrite bool_decide_eq_false_2; [done|]. lia.
Qed.

Lemma power_of_two_2 : power_of_two 2.
Proof. by exists 1%nat. Qed.

(** C4. For all powers of two [size] and [olaps] with [size >= 2 * olaps],
    [PVAnal_realloc_memories] and [PVSynth_realloc_memories] return, and
    leave [hsize = size / 2], [hopsize = size / olaps],
    [hopsize * olaps = size], [inputLatency = size - hopsize], hence
    [inputLatency + hopsize = size], [overcount = 0] and, in the analyser,
    [incount = inputLatency]. *)
Theorem realloc_memories_configuration gen_window size olaps
    (anal : PVAnal.t) (synth : PVSynth.t) :
  power_of_two size → power_of_two olaps → (2 * olaps ≤ size)%Z →
  PVAnal.size anal = size → PVAnal.olaps anal = olaps →
  (0 ≤ PVAnal.bufsize anal)%Z → cells (PVAnal.bufsize anal) (PVAnal.count anal) →
  PVSynth.size synth = size → PVSynth.olaps synth = olaps →
  (∃ anal', PVAnal_realloc_memories gen_window anal = Some anal' ∧
     PVAnal.size anal' = size ∧ PVAnal.olaps anal' = olaps ∧
     PVAnal.hsize anal' = (size `div` 2)%Z ∧
     PVAnal.hopsize anal' = (size `div` olaps)%Z ∧
     (PVAnal.hopsize anal' * olaps)%Z = size ∧
     PVAnal.inputLatency anal' = (size - PVAnal.hopsize anal')%Z ∧
     (PVAnal.inputLatency anal' + PVAnal.hopsize anal')%Z = size ∧
     PVAnal.incount anal' = PVAnal.inputLatency anal' ∧
     PVAnal.overcount anal' = 0%Z) ∧
  (∃ synth', PVSynth_realloc_memories gen_window synth = Some synth' ∧
     PVSynth.size synth' = size ∧ PVSynth.olaps synth' = olaps ∧
     PVSynth.hsize synth' = (size `div` 2)%Z ∧
     PVSynth.hopsize synth' = (size `div` olaps)%Z ∧
     (PVSynth.hopsize synth' * olaps)%Z = size ∧
     PVSynth.inputLatency synth' = (size - PVSynth.hopsize synth')%Z ∧
     (PVSynth.inputLatency synth' + PVSynth.hopsize synth')%Z = size ∧
     PVSynth.overcount synth' = 0%Z).
Proof.
  intros Hsize Holaps Hle Has Hao Hbuf Hcount Hss Hso.
  pose proof (power_of_two_pos _ Hsize) as Hsize0.
  pose proof (power_of_two_pos _ Holaps) as Holaps0.
  destruct (power_of_two_quot size olaps) as [_ Hhop]; [done|done|lia|].
  rewrite Z.quot_div_nonneg in Hhop by lia.
  split.
  - destruct (fill_loop (PVAnal.bufsize anal) (PVAnal.count anal)
                (size - size `quot` olaps)%Z Hbuf Hcount) as (count' & Hfill & _).
    eexists. split.
    { unfold PVAnal_realloc_memories. rewrite Has, Hao.
      rewrite !int_div_pos by lia. simpl. rewrite Hfill. simpl. reflexivity. }
    simpl. rewrite !Z.quot_div_nonneg by lia. split_and!; try done; lia.
  - eexists. split.
    { unfold PVSynth_realloc_memories. rewrite Hss, Hso.
      rewrite !int_div_pos by lia. simpl. reflexivity. }
    simpl. rewrite !Z.quot_div_nonneg by lia. split_and!; try done; lia.
Qed.

(** ** The power-of-two snap *)

Lemma not_power_of_two_above_2_30 x :
  (2 ^ 30 < x)%Z → in_int_range x → ¬ power_of_two x.
Proof.
  unfold in_int_range, INT_MAX. intros Hlo [_ Hhi] [n ->].
  assert (30 < n)%nat.
  { apply Nat2Z.inj_lt. apply (Z.pow_lt_mono_r_iff 2); lia. }
  assert (2 ^ 31 ≤ 2 ^ Z.of_nat n)%Z by (apply Z.pow_le_mono_r; lia). lia.
Qed.

(** Up to [2^30] the snap returns: a power of two is kept and nothing is
    printed; any other value is replaced by the least power of two above it
    and one message is printed. *)
Lemma snap_to_power_of_two_exits msg x :
  in_int_range x → x ≠ INT_MIN → (x ≤ 2 ^ 30)%Z →
  ∃ k out, snap_to_power_of_two msg x = Some (k, out) ∧
    isPowerOfTwo k = true ∧ power_of_two k ∧
    (power_of_two x → k = x ∧ out = []) ∧
    (¬ power_of_two x → (x < k)%Z ∧ (1 < k → k < 2 * x)%Z ∧ out = [msg k]).
Proof.
  intros Hr Hmin Hx. unfold snap_to_power_of_two.
  destruct (isPowerOfTwo x) eqn:Hp.
  - apply isPowerOfTwo_spec in Hp; [|done..].
    exists x, []. split_and!; [done| |done|done|done].
    by apply isPowerOfTwo_spec.
  - assert (Hnp : ¬ power_of_two x).
    { intros Hpow%isPowerOfTwo_spec; [congruence|done..]. }
    destruct (next_power_of_two_exits x Hx) as (k & -> & Hk & Hle & Hmin').
    exists k, [msg k]. simpl. split_and!; [done| |done|done|].
    + apply isPowerOfTwo_spec; [|intros ->; by apply power_of_two_pos in Hk|done].
      destruct Hk as [n ->]. pose proof (Z.pow_pos_nonneg 2 (Z.of_nat n)).
      destruct (decide (n = O)) as [->|]; unfold in_int_range, INT_MIN, INT_MAX in *;
        [simpl; lia|].
      assert (1 < 2 ^ Z.of_nat n)%Z by (apply Z.pow_gt_1; lia). lia.
    + intros _. split_and!; [|done..].
      destruct (decide (x = k)) as [->|]; [done|lia].
Qed.

(** Above [2^30] the snap does not return. *)
Lemma snap_to_power_of_two_never_exits msg x :
  (2 ^ 30 < x)%Z → in_int_range x → snap_to_power_of_two msg x = None.
Proof.
  intros Hlo Hr. unfold snap_to_power_of_two.
  destruct (isPowerOfTwo x) eqn:Hp.
  - apply isPowerOfTwo_spec in Hp; [|done|unfold INT_MIN; lia].
    by apply not_power_of_two_above_2_30 in Hp.
  - unfold next_power_of_two. by rewrite double_until_never_exits.
Qed.

(** Scenario 5 of the spec: a request for 1000 is snapped to 1024 and
    reported. *)
Example snap_1000 :
  snap_to_power_of_two FFT_size_must_be_power_of_2 1000
  = Some (1024%Z, [FFT_size_must_be_power_of_2 1024]).
Proof. reflexivity. Qed.

Example snap_1024 : snap_to_power_of_two FFT_size_must_be_power_of_2 1024 = Some (1024%Z, []).
Proof. reflexivity. Qed.

(** Zero and the negative numbers are snapped to 1. *)
Example snap_0 :
  snap_to_power_of_two FFT_overlaps_must_be_power_of_2 0
  = Some (1%Z, [FFT_overlaps_must_be_power_of_2 1]).
Proof. reflexivity. Qed.

Example snap_minus_3 :
  snap_to_power_of_two FFT_overlaps_must_be_power_of_2 (-3)
  = Some (1%Z, [FFT_overlaps_must_be_power_of_2 1]).
Proof. reflexivity. Qed.

(** The first request on which the loop does not exit. *)
Example snap_2_30_plus_1 :
  snap_to_power_of_two FFT_size_must_be_power_of_2 (2 ^ 30 + 1) = None.
Proof. reflexivity. Qed.

Lemma PVAnal_realloc_memories_returns gen_window self :
  PVAnal.olaps self ≠ 0%Z →
  (PVAnal.size self = INT_MIN → PVAnal.olaps self ≠ (-1)%Z) →
  (0 ≤ PVAnal.bufsize self)%Z → cells (PVAnal.bufsize self) (PVAnal.count self) →
  ∃ self', PVAnal_realloc_memories gen_window self = Some self' ∧
    PVAnal.size self' = PVAnal.size self ∧ PVAnal.olaps self' = PVAnal.olaps self ∧
    PVAnal.bufsize self' = PVAnal.bufsize self ∧
    cells (PVAnal.bufsize self) (PVAnal.count self').
Proof.
  intros Ho Hmin Hbuf Hcount. unfold PVAnal_realloc_memories.
  assert (Hh : int_div (PVAnal.size self) 2 = Some (PVAnal.size self `quot` 2)%Z)
    by (by apply int_div_pos).
  assert (Hd : int_div (PVAnal.size self) (PVAnal.olaps self)
               = Some (PVAnal.size self `quot` PVAnal.olaps self)%Z).
  { unfold int_div. rewrite bool_decide_eq_false_2; [done|].
    intros [?|[? ?]]; [done|]. by apply Hmin. }
  rewrite Hh, Hd. simpl.
  destruct (fill_loop (PVAnal.bufsize self) (PVAnal.count self)
    (PVAnal.size self - PVAnal.size self `quot` PVAnal.olaps self)%Z Hbuf Hcount)
    as (count' & -> & Hcells & _).
  simpl. eexists. split; [reflexivity|]. by simpl.
Qed.

(** [PVAnal_setOverlaps] does what the snap promises for every request up
    to [2^30]. *)
Lemma PVAnal_setOverlaps_snaps gen_window self n :
  in_int_range n → n ≠ INT_MIN → (n ≤ 2 ^ 30)%Z →
  (0 ≤ PVAnal.bufsize self)%Z → cells (PVAnal.bufsize self) (PVAnal.count self) →
  ∃ self' out, PVAnal_setOverlaps gen_window self (PyInt n) = Some (self', out) ∧
    isPowerOfTwo (PVAnal.olaps self') = true ∧
    (power_of_two n → PVAnal.olaps self' = n ∧ out = []) ∧
    (¬ power_of_two n →
       (n < PVAnal.olaps self')%Z ∧
       out = [FFT_overlaps_must_be_power_of_2 (PVAnal.olaps self')]).
Proof.
  intros Hr Hmin Hn Hbuf Hcount. unfold PVAnal_setOverlaps.
  rewrite wrap_int_id by done.
  destruct (snap_to_power_of_two_exits FFT_overlaps_must_be_power_of_2 n Hr Hmin Hn)
    as (k & out & -> & Hk & Hpow & Hkeep & Hsnap).
  simpl. pose proof (power_of_two_pos _ Hpow).
  destruct (PVAnal_realloc_memories_returns gen_window (PVAnal_with_olaps self k))
    as (self' & -> & _ & Ho & _); simpl; [lia..|done|].
  simpl in Ho. exists self', out. rewrite Ho. split_and!; [done..|].
  intros Hnp. destruct (Hsnap Hnp) as (? & _ & ?). done.
Qed.

(** So does [PVAnal_setSize]. *)
Lemma PVAnal_setSize_snaps gen_window self n :
  in_int_range n → n ≠ INT_MIN → (n ≤ 2 ^ 30)%Z →
  PVAnal.olaps self ≠ 0%Z →
  (0 ≤ PVAnal.bufsize self)%Z → cells (PVAnal.bufsize self) (PVAnal.count self) →
  ∃ self' out, PVAnal_setSize gen_window self (PyInt n) = Some (self', out) ∧
    isPowerOfTwo (PVAnal.size self') = true ∧
    (power_of_two n → PVAnal.size self' = n ∧ out = []) ∧
    (¬ power_of_two n →
       (n < PVAnal.size self')%Z ∧
       out = [FFT_size_must_be_power_of_2 (PVAnal.size self')]).
Proof.
  intros Hr Hmin Hn Ho Hbuf Hcount. unfold PVAnal_setSize.
  rewrite wrap_int_id by done.
  destruct (snap_to_power_of_two_exits FFT_size_must_be_power_of_2 n Hr Hmin Hn)
    as (k & out & -> & Hk & Hpow & Hkeep & Hsnap).
  simpl. pose proof (power_of_two_pos _ Hpow).
  destruct (PVAnal_realloc_memories_returns gen_window (PVAnal_with_size self k))
    as (self' & -> & Hs & _); simpl; [done|unfold INT_MIN; lia|done..|].
  simpl in Hs. exists self', out. rewrite Hs. split_and!; [done..|].
  intros Hnp. destruct (Hsnap Hnp) as (? & _ & ?). done.
Qed.

(** The constructor hands [olaps] to the node as it was requested. *)
Lemma PVAnal_new_olaps_as_requested gen_window bufsize sr size olaps wintype self out :
  PVAnal_new gen_window bufsize sr size olaps wintype = Some (self, out) →
  PVAnal.olaps self = olaps ∧
  (∀ m, In m out → ∃ used, m = FFT_size_must_be_power_of_2 used).
Proof.
  unfold PVAnal_new, snap_to_power_of_two, PVAnal_realloc_memories. intros Hnew.
  destruct (isPowerOfTwo size); simpl in Hnew.
  - destruct (int_div size 2); simpl in Hnew; [|done].
    destruct (int_div size olaps); simpl in Hnew; [|done].
    destruct (for_loop bufsize _ _); simpl in Hnew; [|done].
    injection Hnew as <- <-. split; [done|]. intros m [].
  - destruct (next_power_of_two size) as [k|]; simpl in Hnew; [|done].
    destruct (int_div k 2); simpl in Hnew; [|done].
    destruct (int_div k olaps); simpl in Hnew; [|done].
    destruct (for_loop bufsize _ _); simpl in Hnew; [|done].
    injection Hnew as <- <-. split; [done|].
    intros m [<-|[]]. by exists k.
Qed.

(** With [olaps = 0] the constructor divides by zero. *)
Example PVAnal_new_olaps_0 gen_window sr : PVAnal_new gen_window 4 sr 1024 0 2 = None.
Proof. reflexivity. Qed.

(** C1, at the input on which the code departs from it.  [PVAnal_new]
    called with [size = 1024] and [olaps = 3] returns a node whose [olaps]
    is still 3, which [isPowerOfTwo] rejects, with [hopsize = 341] and
    nothing printed: the constructor snaps [size] only.  The same request
    made through [PVAnal_setOverlaps] is snapped to 4 and reported. *)
Theorem PVAnal_new_keeps_olaps gen_window sr :
  ∃ self,
    PVAnal_new gen_window 4 sr 1024 3 2 = Some (self, []) ∧
    PVAnal.size self = 1024%Z ∧
    PVAnal.olaps self = 3%Z ∧
    isPowerOfTwo (PVAnal.olaps self) = false ∧
    PVAnal.hopsize self = 341%Z ∧
    ∃ self', PVAnal_setOverlaps gen_window self (PyInt 3)
             = Some (self', [FFT_overlaps_must_be_power_of_2 4]) ∧
             PVAnal.olaps self' = 4%Z.
Proof.
  eexists. split.
  { unfold PVAnal_new, snap_to_power_of_two.
    change (isPowerOfTwo 1024) with true. simpl.
    unfold PVAnal_realloc_memories. simpl.
    change (int_div 1024 2) with (Some 512%Z).
    change (int_div 1024 3) with (Some 341%Z). simpl. reflexivity. }
  simpl. split_and!; [done..|].
  eexists. split.
  { unfold PVAnal_setOverlaps, snap_to_power_of_two.
    change (isPowerOfTwo (wrap_int 3)) with false. simpl.
    change (next_power_of_two (wrap_int 3)) with (Some 4%Z). simpl.
    unfold PVAnal_realloc_memories. simpl.
    change (int_div 1024 2) with (Some 512%Z).
    change (int_div 1024 4) with (Some 256%Z). simpl. reflexivity. }
  done.
Qed.

(** ** Phase unwrapping *)

Lemma TWOPI_pos : (0 < TWOPI)%R.
Proof. unfold TWOPI. pose proof PI_RGT_0. lra. Qed.

Lemma MYATAN2_0_0 : MYATAN2 0 0 = 0%R.
Proof.
  unfold MYATAN2. repeat (destruct (Rlt_dec _ _); [lra|]). done.
Qed.

Lemma MYATAN2_1_0 : MYATAN2 1 0 = (PI / 2)%R.
Proof.
  unfold MYATAN2. destruct (Rlt_dec 0 0); [lra|].
  destruct (Rlt_dec 0 1); [done|lra].
Qed.

Lemma wrap_above_exits fuel : ∀ tmp,
  (tmp <= PI + TWOPI * INR fuel)%R →
  ∃ r, wrap_above fuel tmp = Some r ∧ (r <= PI)%R ∧
       (tmp <= PI → r = tmp)%R ∧ (PI < tmp → - PI < r)%R ∧
       ∃ n : nat, r = (tmp - INR n * TWOPI)%R.
Proof.
  pose proof TWOPI_pos as H2pi.
  induction fuel as [|fuel IH]; intros tmp Hfuel; simpl;
    destruct (Rlt_dec PI tmp) as [Hgt|Hle].
  - simpl in Hfuel. lra.
  - exists tmp. split_and!; [done|lra|done|lra|]. exists O. simpl. lra.
  - destruct (IH (tmp - TWOPI)%R) as (r & Hrun & Hr & Hid & Hlow & n & Hn).
    { rewrite S_INR in Hfuel. lra. }
    exists r. split_and!; [done|done|lra| |].
    + intros _. destruct (Rle_dec (tmp - TWOPI) PI) as [Hsmall|Hbig].
      * rewrite (Hid Hsmall). unfold TWOPI in *. lra.
      * apply Hlow. lra.
    + exists (S n). rewrite S_INR. lra.
  - exists tmp. split_and!; [done|lra|done|lra|]. exists O. simpl. lra.
Qed.

Lemma wrap_below_exits fuel : ∀ tmp,
  (- PI - TWOPI * INR fuel <= tmp)%R →
  ∃ r, wrap_below fuel tmp = Some r ∧ (- PI <= r)%R ∧
       (- PI <= tmp → r = tmp)%R ∧ (tmp < - PI → r < PI)%R ∧
       ∃ n : nat, r = (tmp + INR n * TWOPI)%R.
Proof.
  pose proof TWOPI_pos as H2pi.
  induction fuel as [|fuel IH]; intros tmp Hfuel; simpl;
    destruct (Rlt_dec tmp (- PI)) as [Hlt|Hge].
  - simpl in Hfuel. lra.
  - exists tmp. split_and!; [done|lra|done|lra|]. exists O. simpl. lra.
  - destruct (IH (tmp + TWOPI)%R) as (r & Hrun & Hr & Hid & Hhigh & n & Hn).
    { rewrite S_INR in Hfuel. lra. }
    exists r. split_and!; [done|done|lra| |].
    + intros _. destruct (Rle_dec (- PI) (tmp + TWOPI)) as [Hsmall|Hbig].
      * rewrite (Hid Hsmall). unfold TWOPI in *. lra.
      * apply Hhigh. lra.
    + exists (S n). rewrite S_INR. lra.
  - exists tmp. split_and!; [done|lra|done|lra|]. exists O. simpl. lra.
Qed.

Lemma unwrap_fuel_enough tmp : (Rabs tmp < TWOPI * INR (unwrap_fuel tmp))%R.
Proof.
  pose proof TWOPI_pos as H2pi. unfold unwrap_fuel.
  destruct (archimed (Rabs tmp / TWOPI)) as [Hup _].
  assert (0 <= Rabs tmp / TWOPI)%R.
  { apply Rmult_le_pos; [apply Rabs_pos|]. left. by apply Rinv_0_lt_compat. }
  assert (0 < up (Rabs tmp / TWOPI))%Z by (apply lt_IZR; lra).
  rewrite INR_IZR_INZ, Z2Nat.id by lia.
  apply (Rmult_lt_compat_l TWOPI) in Hup; [|done].
  replace (TWOPI * (Rabs tmp / TWOPI))%R with (Rabs tmp) in Hup by (field; lra).
  lra.
Qed.

(** The two loops always exit, with a value in [-π, π] that differs from
    the argument by a multiple of 2π. *)
Lemma unwrap_exits tmp :
  ∃ r, unwrap tmp = Some r ∧ (- PI <= r <= PI)%R ∧
       ∃ n : Z, r = (tmp + IZR n * TWOPI)%R.
Proof.
  pose proof TWOPI_pos as H2pi. unfold unwrap.
  pose proof (unwrap_fuel_enough tmp) as Hf.
  destruct (wrap_above_exits (unwrap_fuel tmp) tmp)
    as (r1 & -> & Hr1 & Hid1 & Hlow1 & n1 & Hn1).
  { pose proof (Rle_abs tmp). pose proof PI_RGT_0. lra. }
  simpl. pose proof (unwrap_fuel_enough r1) as Hf1.
  destruct (wrap_below_exits (unwrap_fuel r1) r1)
    as (r2 & -> & Hr2 & Hid2 & Hhigh2 & n2 & Hn2).
  { pose proof (Rle_abs (- r1)). rewrite Rabs_Ropp in *. pose proof PI_RGT_0. lra. }
  exists r2. split; [done|]. split.
  - split; [done|]. destruct (Rle_dec (- PI) r1) as [Hin|Hout].
    + by rewrite (Hid2 Hin).
    + left. apply Hhigh2. lra.
  - exists (Z.of_nat n2 - Z.of_nat n1)%Z.
    rewrite minus_IZR, <- !INR_IZR_INZ. lra.
Qed.

(** A deviation already in [-π, π] is left alone. *)
Lemma unwrap_id tmp : (- PI <= tmp <= PI)%R → unwrap tmp = Some tmp.
Proof.
  intros Ht. unfold unwrap.
  assert (Ha : ∀ fuel, wrap_above fuel tmp = Some tmp).
  { intros []; simpl; destruct (Rlt_dec PI tmp); (done || lra). }
  assert (Hb : ∀ fuel, wrap_below fuel tmp = Some tmp).
  { intros []; simpl; destruct (Rlt_dec tmp (- PI)); (done || lra). }
  rewrite Ha. simpl. apply Hb.
Qed.

(** ** Running inside the buffers *)

Lemma cells_insert {A} n (a : list A) i x : cells n a → cells n (<[i := x]> a).
Proof. unfold cells. by rewrite length_insert. Qed.

(** Resolve the next load or store of the goal from the shape of the array. *)
Ltac load :=
  match goal with
  | H : cells ?n ?a |- context [rd ?a ?i] =>
      let x := fresh "x" in
      let Hx := fresh "Hrd" in
      destruct (rd_cells n a i H) as [x Hx]; [lia|]; rewrite Hx; simpl
  end.

Ltac store :=
  match goal with
  | H : cells ?n ?a |- context [wr ?a ?i ?v] =>
      rewrite (wr_in_bounds a i v) by (unfold cells in H; lia);
      pose proof (cells_insert n a (Z.to_nat i) v H); simpl
  end.

Lemma usable_config_facts size olaps hsize hopsize inputLatency :
  usable_config size olaps hsize hopsize inputLatency →
  (2 ≤ size ∧ 1 ≤ olaps ∧ 1 ≤ hsize < size ∧ 1 ≤ hopsize ≤ size ∧
   0 ≤ inputLatency < size ∧ inputLatency + hopsize = size)%Z.
Proof.
  intros (Hs & Ho & -> & -> & ->).
  rewrite !Z.quot_div_nonneg by lia.
  assert (1 ≤ size `div` 2)%Z by (apply Z.div_le_lower_bound; lia).
  assert (size `div` 2 < size)%Z by (apply Z.div_lt; lia).
  assert (1 ≤ size `div` olaps)%Z by (apply Z.div_le_lower_bound; lia).
  assert (size `div` olaps ≤ size)%Z by (apply Z.div_le_upper_bound; nia).
  lia.
Qed.

(** Every legal configuration of the spec is usable. *)
Lemma legal_config_usable size olaps hsize hopsize inputLatency :
  legal_config size olaps hsize hopsize inputLatency →
  usable_config size olaps hsize hopsize inputLatency.
Proof.
  intros (Hs & Ho & Hle & -> & -> & ->).
  pose proof (power_of_two_pos _ Hs). pose proof (power_of_two_pos _ Ho).
  rewrite <- !Z.quot_div_nonneg by lia.
  unfold usable_config. split_and!; (done || lia).
Qed.

Lemma next_overcount_range overcount olaps :
  (0 ≤ overcount < olaps)%Z → (0 ≤ next_overcount overcount olaps < olaps)%Z.
Proof.
  intros Ho. unfold next_overcount.
  destruct (Z.leb_spec olaps (overcount + 1)); lia.
Qed.

(** One bin of the analysis: it returns, and what it stores. *)
Lemma PVAnal_bin_run real imag overcount scale factor olaps hsize k lastPhase magn freq :
  cells hsize real → cells hsize imag → cells hsize lastPhase →
  table olaps hsize magn → table olaps hsize freq →
  (0 ≤ overcount < olaps)%Z → (0 ≤ k < hsize)%Z →
  ∃ re im last delta lastPhase' magn' freq',
    rd real k = Some re ∧ rd imag k = Some im ∧ rd lastPhase k = Some last ∧
    unwrap (MYATAN2 im re - last) = Some delta ∧
    PVAnal_bin real imag overcount scale factor k (lastPhase, magn, freq)
      = Some (lastPhase', magn', freq') ∧
    cells hsize lastPhase' ∧ table olaps hsize magn' ∧ table olaps hsize freq' ∧
    rd lastPhase' k = Some (MYATAN2 im re) ∧
    rd2 magn' overcount k = Some (sqrt (re * re + im * im)) ∧
    rd2 freq' overcount k = Some (PVAnal_true_freq scale factor k delta).
Proof.
  intros Hre Him Hlp Hm Hf Ho Hk.
  destruct (rd_cells _ _ _ Hre Hk) as [re Hrd_re].
  destruct (rd_cells _ _ _ Him Hk) as [im Hrd_im].
  destruct (rd_cells _ _ _ Hlp Hk) as [last Hrd_last].
  destruct (unwrap_exits (MYATAN2 im re - last)) as (delta & Hun & _).
  destruct (wr2_table _ _ _ _ _ (sqrt (re * re + im * im)) Hm Ho Hk)
    as (magn' & Hwm & Hm' & Hrm & _).
  destruct (wr2_table _ _ _ _ _ (PVAnal_true_freq scale factor k delta) Hf Ho Hk)
    as (freq' & Hwf & Hf' & Hrf & _).
  assert (Hw : wr lastPhase k (MYATAN2 im re)
               = Some (<[Z.to_nat k := MYATAN2 im re]> lastPhase))
    by (apply wr_in_bounds; unfold cells in Hlp; lia).
  exists re, im, last, delta, (<[Z.to_nat k := MYATAN2 im re]> lastPhase), magn', freq'.
  split_and!; try done.
  - unfold PVAnal_bin. rewrite Hrd_re. simpl. rewrite Hrd_im. simpl.
    rewrite Hrd_last. simpl. rewrite Hw. simpl. rewrite Hun. simpl.
    rewrite Hwm. simpl. by rewrite Hwf.
  - by apply cells_insert.
  - by eapply rd_wr_eq.
Qed.

Lemma PVAnal_frame_wf realfft_split input_buffer count self :
  PVAnal_wf self →
  cells (PVAnal.size self) input_buffer →
  cells (PVAnal.bufsize self) count →
  count_in_range (PVAnal.inputLatency self) (PVAnal.size self) count →
  ∃ self', PVAnal_frame realfft_split input_buffer count self = Some self' ∧
    PVAnal_wf self' ∧
    PVAnal.size self' = PVAnal.size self ∧ PVAnal.olaps self' = PVAnal.olaps self ∧
    PVAnal.bufsize self' = PVAnal.bufsize self ∧ PVAnal.sr self' = PVAnal.sr self ∧
    PVAnal.count self' = count.
Proof.
  intros [] Hib Hcount Hrange.
  pose proof (usable_config_facts _ _ _ _ _ anal_config0) as Hcfg.
  unfold PVAnal_frame.
  set (size := PVAnal.size self) in *. set (hsize := PVAnal.hsize self) in *.
  set (hopsize := PVAnal.hopsize self) in *. set (olaps := PVAnal.olaps self) in *.
  set (overcount := PVAnal.overcount self) in *.
  set (inputLatency := PVAnal.inputLatency self) in *.
  (* the windowing loop *)
  destruct (for_loop_inv (λ _ fr, cells size fr) size
    (λ k fr, x ← rd input_buffer k; w ← rd (PVAnal.window self) k;
             wr fr ((k + hopsize * overcount) `rem` size)%Z (x * w)%R)
    (PVAnal.inframe self)) as (inframe & -> & Hinframe); [lia|done| |].
  { intros k fr Hk Hfr. do 2 load.
    assert (0 ≤ (k + hopsize * overcount) `rem` size < size)%Z
      by (apply Z.rem_bound_pos; nia).
    store. eauto. }
  simpl.
  (* the transform *)
  destruct (for_loop_inv (λ _ out, cells size out) size
    (λ k out, wr out k (realfft_split inframe size k))
    (PVAnal.outframe self)) as (outframe & -> & Houtframe); [lia|done| |].
  { intros k out Hk Hout. store. eauto. }
  simpl.
  (* unpacking *)
  load. do 2 store.
  destruct (for_loop_from_1_inv
    (λ _ '(re, im), cells hsize re ∧ cells hsize im) hsize
    (λ k '(re, im), a ← rd outframe k; re ← wr re k a;
                    b ← rd outframe (size - k); im ← wr im k b; Some (re, im))
    (<[Z.to_nat 0 := x]> (PVAnal.real self), <[Z.to_nat 0 := 0%R]> (PVAnal.imag self)))
    as ([real imag] & -> & Hreal & Himag); [lia|done| |].
  { intros k [re im] Hk [Hre Him]. load. store. load. store.
    eexists (_, _). split; [reflexivity|]. by split. }
  simpl.
  (* the bins *)
  destruct (for_loop_inv
    (λ _ '(lp, m, f), cells hsize lp ∧ table olaps hsize m ∧ table olaps hsize f)
    hsize
    (PVAnal_bin real imag overcount (PVAnal.scale self) (PVAnal.factor self))
    (PVAnal.lastPhase self, PVAnal.magn self, PVAnal.freq self))
    as ([[lastPhase magn] freq] & -> & HlastPhase & Hmagn & Hfreq); [lia|done| |].
  { intros k [[lp m] f] Hk (Hlp & Hm & Hf).
    destruct (PVAnal_bin_run real imag overcount (PVAnal.scale self)
      (PVAnal.factor self) olaps hsize k lp m f)
      as (? & ? & ? & ? & lp' & m' & f' & _ & _ & _ & _ & -> & ? & ? & ? & _);
      [done..|].
    by exists (lp', m', f'). }
  simpl.
  (* the shift of the input buffer *)
  destruct (for_loop_inv (λ _ buf, cells size buf) inputLatency
    (λ k buf, x ← rd buf (k + hopsize)%Z; wr buf k x) input_buffer)
    as (input_buffer' & -> & Hib'); [lia|done| |].
  { intros k buf Hk Hbuf. load. store. eauto. }
  simpl. eexists. split; [reflexivity|]. split; [|done].
  split; simpl; try done; [lia|].
  by apply next_overcount_range.
Qed.

Lemma count_in_range_wr lo size count count' i v :
  count_in_range lo size count → (lo ≤ v ≤ size - 1)%Z →
  wr count i v = Some count' → count_in_range lo size count'.
Proof.
  intros Hrange Hv Hw j c Hj. destruct (decide (j = i)) as [->|Hne].
  - rewrite (rd_wr_eq _ _ _ _ Hw) in Hj. by injection Hj as <-.
  - rewrite (rd_wr_ne _ _ _ _ _ Hw Hne) in Hj. eauto.
Qed.

Lemma PVAnal_sample_wf realfft_split input i self :
  PVAnal_wf self → cells (PVAnal.bufsize self) input →
  (0 ≤ i < PVAnal.bufsize self)%Z →
  ∃ self', PVAnal_sample realfft_split input i self = Some self' ∧
    PVAnal_wf self' ∧
    PVAnal.size self' = PVAnal.size self ∧ PVAnal.olaps self' = PVAnal.olaps self ∧
    PVAnal.bufsize self' = PVAnal.bufsize self ∧ PVAnal.sr self' = PVAnal.sr self.
Proof.
  intros Hwf Hinput Hi. pose proof Hwf as [].
  pose proof (usable_config_facts _ _ _ _ _ anal_config0) as Hcfg.
  unfold PVAnal_sample. load.
  assert (Hw1 : wr (PVAnal.input_buffer self) (PVAnal.incount self) x
                = Some (<[Z.to_nat (PVAnal.incount self) := x]> (PVAnal.input_buffer self)))
    by (apply wr_in_bounds; unfold cells in *; lia).
  assert (Hw2 : wr (PVAnal.count self) i (PVAnal.incount self)
                = Some (<[Z.to_nat i := PVAnal.incount self]> (PVAnal.count self)))
    by (apply wr_in_bounds; unfold cells in *; lia).
  rewrite Hw1. simpl. rewrite Hw2. simpl.
  assert (count_in_range (PVAnal.inputLatency self) (PVAnal.size self)
            (<[Z.to_nat i := PVAnal.incount self]> (PVAnal.count self)))
    by (eapply count_in_range_wr; [done| |done]; lia).
  destruct (Z.leb_spec (PVAnal.size self) (PVAnal.incount self + 1)) as [Hfull|Hroom].
  - destruct (PVAnal_frame_wf realfft_split
      (<[Z.to_nat (PVAnal.incount self) := x]> (PVAnal.input_buffer self))
      (<[Z.to_nat i := PVAnal.incount self]> (PVAnal.count self)) self)
      as (self' & -> & ? & ? & ? & ? & ? & _); [done|by apply cells_insert..|done|].
    by exists self'.
  - eexists. split; [reflexivity|]. split; [|done].
    split; simpl; try done; [lia|by apply cells_insert..].
Qed.

(** [PVAnal_process] returns on every block of [bufsize] samples and keeps
    the invariant. *)
Lemma PVAnal_process_wf realfft_split input self :
  PVAnal_wf self → cells (PVAnal.bufsize self) input →
  ∃ self', PVAnal_process realfft_split input self = Some self' ∧
    PVAnal_wf self' ∧
    PVAnal.size self' = PVAnal.size self ∧ PVAnal.olaps self' = PVAnal.olaps self ∧
    PVAnal.bufsize self' = PVAnal.bufsize self ∧ PVAnal.sr self' = PVAnal.sr self.
Proof.
  intros Hwf Hinput. unfold PVAnal_process.
  apply (for_loop_inv (λ _ s, PVAnal_wf s ∧
           PVAnal.size s = PVAnal.size self ∧ PVAnal.olaps s = PVAnal.olaps self ∧
           PVAnal.bufsize s = PVAnal.bufsize self ∧ PVAnal.sr s = PVAnal.sr self));
    [by destruct Hwf|done|].
  intros k s Hk (Hs & Hsize & Holaps & Hbuf & Hsr).
  destruct (PVAnal_sample_wf realfft_split input k s)
    as (s' & ? & ? & ? & ? & ? & ?); [done|by rewrite Hbuf|by rewrite Hbuf|].
  exists s'. split_and!; [done..| | | |]; congruence.
Qed.

Lemma PVAnal_run_wf realfft_split blocks : ∀ self,
  PVAnal_wf self → Forall (cells (PVAnal.bufsize self)) blocks →
  ∃ self', PVAnal_run realfft_split blocks self = Some self' ∧
    PVAnal_wf self' ∧
    PVAnal.size self' = PVAnal.size self ∧ PVAnal.olaps self' = PVAnal.olaps self ∧
    PVAnal.bufsize self' = PVAnal.bufsize self ∧ PVAnal.sr self' = PVAnal.sr self.
Proof.
  induction blocks as [|input blocks IH]; intros self Hwf Hblocks; simpl.
  - by exists self.
  - inversion Hblocks as [|? ? Hinput Hblocks']; subst.
    destruct (PVAnal_process_wf realfft_split input self)
      as (self1 & -> & Hwf1 & Hsize & Holaps & Hbuf & Hsr); [done..|].
    simpl. destruct (IH self1) as (self' & ? & ? & ? & ? & ? & ?);
      [done|by rewrite Hbuf|].
    exists self'. split_and!; [done..| | | |]; congruence.
Qed.

(** Reconfiguration establishes the invariant, with every published
    counter at [inputLatency]. *)
Lemma PVAnal_realloc_memories_wf gen_window self :
  (2 ≤ PVAnal.size self)%Z → (1 ≤ PVAnal.olaps self ≤ PVAnal.size self)%Z →
  (0 ≤ PVAnal.bufsize self)%Z → cells (PVAnal.bufsize self) (PVAnal.count self) →
  ∃ self', PVAnal_realloc_memories gen_window self = Some self' ∧
    PVAnal_wf self' ∧
    PVAnal.size self' = PVAnal.size self ∧ PVAnal.olaps self' = PVAnal.olaps self ∧
    PVAnal.bufsize self' = PVAnal.bufsize self ∧ PVAnal.sr self' = PVAnal.sr self ∧
    PVAnal.lastPhase self' = filled (PVAnal.hsize self') 0%R ∧
    ∀ i, (0 ≤ i < PVAnal.bufsize self)%Z →
      rd (PVAnal.count self') i = Some (PVAnal.inputLatency self').
Proof.
  intros Hsize Holaps Hbuf Hcount.
  assert (Hcfg : usable_config (PVAnal.size self) (PVAnal.olaps self)
            (PVAnal.size self `quot` 2) (PVAnal.size self `quot` PVAnal.olaps self)
            (PVAnal.size self - PVAnal.size self `quot` PVAnal.olaps self))
    by done.
  pose proof (usable_config_facts _ _ _ _ _ Hcfg) as Hfacts.
  unfold PVAnal_realloc_memories. rewrite !int_div_pos by lia. simpl.
  destruct (fill_loop (PVAnal.bufsize self) (PVAnal.count self)
    (PVAnal.size self - PVAnal.size self `quot` PVAnal.olaps self)%Z Hbuf Hcount)
    as (count' & -> & Hcells & Hfilled).
  simpl. eexists. split; [reflexivity|]. split; [|by simpl].
  split; simpl; try done; try lia;
    try (apply cells_filled; lia); try (apply cells_tabulate; lia);
    try (apply table_filled; lia).
  intros i c Hc. pose proof (rd_Some_bounds _ _ _ Hc) as Hi.
  rewrite Hfilled in Hc by (unfold cells in Hcells; lia).
  injection Hc as <-. lia.
Qed.

(** ** The synthesiser inside its buffers *)

(** One bin of the synthesis: it returns, and the phase it accumulates. *)
Lemma PVSynth_bin_run magn freq overcount scale factor olaps hsize k sumPhase real imag :
  table olaps hsize magn → table olaps hsize freq →
  cells hsize sumPhase → cells hsize real → cells hsize imag →
  (0 ≤ overcount < olaps)%Z → (0 ≤ k < hsize)%Z →
  ∃ mag f acc sumPhase' real' imag',
    rd2 magn overcount k = Some mag ∧ rd2 freq overcount k = Some f ∧
    rd sumPhase k = Some acc ∧
    PVSynth_bin magn freq overcount scale factor k (sumPhase, real, imag)
      = Some (sumPhase', real', imag') ∧
    cells hsize sumPhase' ∧ cells hsize real' ∧ cells hsize imag' ∧
    rd sumPhase' k = Some (acc + PVSynth_phase_increment scale factor k f)%R.
Proof.
  intros Hm Hf Hsp Hre Him Ho Hk.
  destruct (rd2_table _ _ _ _ _ Hm Ho Hk) as [mag Hmag].
  destruct (rd2_table _ _ _ _ _ Hf Ho Hk) as [f Hfreq].
  destruct (rd_cells _ _ _ Hsp Hk) as [acc Hacc].
  set (phase := (acc + PVSynth_phase_increment scale factor k f)%R).
  assert (Hw : wr sumPhase k phase = Some (<[Z.to_nat k := phase]> sumPhase))
    by (apply wr_in_bounds; unfold cells in Hsp; lia).
  pose proof (rd_wr_eq _ _ _ _ Hw) as Hphase.
  exists mag, f, acc. eexists _, _, _. split_and!; [done..| | | | |exact Hphase].
  - unfold PVSynth_bin. rewrite Hmag. simpl. rewrite Hfreq. simpl.
    rewrite Hacc. simpl. fold phase. rewrite Hw. simpl. rewrite Hphase. simpl.
    do 2 store. reflexivity.
  - by apply cells_insert.
  - by apply cells_insert.
  - by apply cells_insert.
Qed.

(** The overlap-add loop writes below [size] only. *)
Lemma PVSynth_accumulate_run size hopsize mod_ outframe window ampscl outputAccum :
  (0 < size)%Z → (0 ≤ hopsize)%Z → (0 ≤ mod_)%Z →
  cells size outframe → cells size window →
  cells (size + hopsize) outputAccum →
  ∃ outputAccum',
    PVSynth_accumulate size mod_ outframe window ampscl outputAccum
      = Some outputAccum' ∧
    cells (size + hopsize) outputAccum' ∧
    ∀ k, (size ≤ k)%Z → rd outputAccum' k = rd outputAccum k.
Proof.
  intros Hsize Hhop Hmod Hout Hwin Hacc. unfold PVSynth_accumulate.
  apply (for_loop_inv (λ n acc, cells (size + hopsize) acc ∧
           ∀ k, (n ≤ k)%Z → rd acc k = rd outputAccum k)); [lia|done|].
  intros n acc Hn [Hcells Hrest].
  assert (0 ≤ (n + mod_) `rem` size < size)%Z by (apply Z.rem_bound_pos; lia).
  destruct (rd_cells _ _ n Hcells) as [a Ha]; [lia|].
  destruct (rd_cells _ _ ((n + mod_) `rem` size)%Z Hout) as [o Ho]; [lia|].
  destruct (rd_cells _ _ n Hwin) as [w Hw']; [lia|].
  assert (Hw : wr acc n (a + o * w * ampscl)%R
               = Some (<[Z.to_nat n := (a + o * w * ampscl)%R]> acc))
    by (apply wr_in_bounds; unfold cells in Hcells; lia).
  eexists. split; [by rewrite Ha; simpl; rewrite Ho; simpl; rewrite Hw'|].
  split; [by apply cells_insert|].
  intros k Hk. rewrite (rd_wr_ne _ _ _ _ _ Hw) by lia. apply Hrest. lia.
Qed.

(** The copy fills the first [hopsize] cells of [output_buffer]. *)
Lemma PVSynth_copy_run size hopsize outputAccum output_buffer :
  (0 ≤ hopsize ≤ size)%Z →
  cells (size + hopsize) outputAccum → cells size output_buffer →
  ∃ output_buffer',
    PVSynth_copy hopsize outputAccum output_buffer = Some output_buffer' ∧
    cells size output_buffer' ∧
    ∀ k, (0 ≤ k < hopsize)%Z → rd output_buffer' k = rd outputAccum k.
Proof.
  intros Hhop Hacc Hbuf. unfold PVSynth_copy.
  apply (for_loop_inv (λ n buf, cells size buf ∧
           ∀ k, (0 ≤ k < n)%Z → rd buf k = rd outputAccum k)); [lia|split; [done|lia]|].
  intros n buf Hn [Hcells Hdone]. load.
  assert (Hw : wr buf n x = Some (<[Z.to_nat n := x]> buf))
    by (apply wr_in_bounds; unfold cells in Hcells; lia).
  eexists. split; [exact Hw|]. split; [by apply cells_insert|].
  intros k Hk. destruct (decide (k = n)) as [->|Hne].
  - by rewrite (rd_wr_eq _ _ _ _ Hw).
  - rewrite (rd_wr_ne _ _ _ _ _ Hw Hne). apply Hdone. lia.
Qed.

(** The shift moves every cell below [size] down by [hopsize] and writes
    below [size] only. *)
Lemma PVSynth_shift_run size hopsize outputAccum :
  (0 ≤ size)%Z → (0 ≤ hopsize)%Z →
  cells (size + hopsize) outputAccum →
  ∃ outputAccum',
    PVSynth_shift size hopsize outputAccum = Some outputAccum' ∧
    cells (size + hopsize) outputAccum' ∧
    (∀ k, (0 ≤ k < size)%Z → rd outputAccum' k = rd outputAccum (k + hopsize)) ∧
    ∀ k, (size ≤ k)%Z → rd outputAccum' k = rd outputAccum k.
Proof.
  intros Hsize Hhop Hacc. unfold PVSynth_shift.
  destruct (for_loop_inv (λ n acc, cells (size + hopsize) acc ∧
           (∀ k, (0 ≤ k < n)%Z → rd acc k = rd outputAccum (k + hopsize)) ∧
           ∀ k, (n ≤ k)%Z → rd acc k = rd outputAccum k) size
           (λ k acc, a ← rd acc (k + hopsize)%Z; wr acc k a) outputAccum)
    as (acc' & Hrun & ? & ? & ?); [lia|split_and!; [done|lia|done]| |by eauto].
  intros n acc Hn (Hcells & Hdone & Hrest).
  destruct (rd_cells _ _ (n + hopsize) Hcells) as [a Ha]; [lia|].
  assert (Hw : wr acc n a = Some (<[Z.to_nat n := a]> acc))
    by (apply wr_in_bounds; unfold cells in Hcells; lia).
  eexists. split; [by rewrite Ha|]. split_and!; [by apply cells_insert| |].
  - intros k Hk. destruct (decide (k = n)) as [->|Hne].
    + rewrite (rd_wr_eq _ _ _ _ Hw), <- Ha. apply Hrest. lia.
    + rewrite (rd_wr_ne _ _ _ _ _ Hw Hne). apply Hdone. lia.
  - intros k Hk. rewrite (rd_wr_ne _ _ _ _ _ Hw) by lia. apply Hrest. lia.
Qed.

Lemma PVSynth_frame_wf irealfft_split magn freq data self :
  PVSynth_wf self →
  table (PVSynth.olaps self) (PVSynth.hsize self) magn →
  table (PVSynth.olaps self) (PVSynth.hsize self) freq →
  cells (PVSynth.bufsize self) data →
  ∃ self', PVSynth_frame irealfft_split magn freq data self = Some self' ∧
    PVSynth_wf self' ∧
    PVSynth.size self' = PVSynth.size self ∧ PVSynth.olaps self' = PVSynth.olaps self ∧
    PVSynth.bufsize self' = PVSynth.bufsize self.
Proof.
  intros [] Hmagn Hfreq Hdata.
  pose proof (usable_config_facts _ _ _ _ _ synth_config0) as Hcfg.
  unfold PVSynth_frame.
  set (size := PVSynth.size self) in *. set (hsize := PVSynth.hsize self) in *.
  set (hopsize := PVSynth.hopsize self) in *. set (olaps := PVSynth.olaps self) in *.
  set (overcount := PVSynth.overcount self) in *.
  (* the bins *)
  destruct (for_loop_inv
    (λ _ '(sp, re, im), cells hsize sp ∧ cells hsize re ∧ cells hsize im) hsize
    (PVSynth_bin magn freq overcount (PVSynth.scale self) (PVSynth.factor self))
    (PVSynth.sumPhase self, PVSynth.real self, PVSynth.imag self))
    as ([[sumPhase real] imag] & -> & HsumPhase & Hreal & Himag); [lia|done| |].
  { intros k [[sp re] im] Hk (Hsp & Hre & Him).
    destruct (PVSynth_bin_run magn freq overcount (PVSynth.scale self)
      (PVSynth.factor self) olaps hsize k sp re im)
      as (? & ? & ? & sp' & re' & im' & _ & _ & _ & -> & ? & ? & ? & _); [done..|].
    by exists (sp', re', im'). }
  simpl.
  (* repacking *)
  load. do 2 store.
  destruct (for_loop_from_1_inv (λ _ fr, cells size fr) hsize
    (λ k fr, a ← rd real k; fr ← wr fr k a; b ← rd imag k; wr fr (size - k)%Z b)
    (<[Z.to_nat hsize := 0%R]> (<[Z.to_nat 0 := x]> (PVSynth.inframe self))))
    as (inframe & -> & Hinframe); [lia|done| |].
  { intros k fr Hk Hfr. do 2 load. do 2 store. eauto. }
  simpl.
  (* the inverse transform *)
  destruct (for_loop_inv (λ _ out, cells size out) size
    (λ k out, wr out k (irealfft_split inframe size k))
    (PVSynth.outframe self)) as (outframe & -> & Houtframe); [lia|done| |].
  { intros k out Hk Hout. store. eauto. }
  simpl.
  (* overlap-add, copy, shift *)
  destruct (PVSynth_accumulate_run size hopsize (hopsize * overcount) outframe
    (PVSynth.window self) (PVSynth.ampscl self) (PVSynth.outputAccum self))
    as (acc1 & -> & Hacc1 & Htop1); [lia|lia|nia|done..|].
  simpl.
  destruct (PVSynth_copy_run size hopsize acc1 (PVSynth.output_buffer self))
    as (output_buffer & -> & Hbuf & _); [lia|done..|].
  simpl.
  destruct (PVSynth_shift_run size hopsize acc1) as (acc2 & -> & Hacc2 & _ & Htop2);
    [lia|lia|done|].
  simpl. eexists. split; [reflexivity|]. split; [|done].
  split; simpl; try done; [by apply next_overcount_range|].
  intros k Hk. rewrite Htop2, Htop1 by lia. by apply synth_tail0.
Qed.

Lemma PVSynth_sample_wf irealfft_split input i self :
  PVSynth_wf self → PVStream_wf (PVSynth.bufsize self) input →
  PVStream.fftsize input = PVSynth.size self →
  PVStream.olaps input = PVSynth.olaps self →
  (0 ≤ i < PVSynth.bufsize self)%Z →
  ∃ self', PVSynth_sample irealfft_split input i self = Some self' ∧
    PVSynth_wf self' ∧
    PVSynth.size self' = PVSynth.size self ∧ PVSynth.olaps self' = PVSynth.olaps self ∧
    PVSynth.bufsize self' = PVSynth.bufsize self.
Proof.
  intros Hwf [] Hsize Holaps Hi. pose proof Hwf as [].
  pose proof (usable_config_facts _ _ _ _ _ synth_config0) as Hcfg.
  destruct synth_config0 as (_ & _ & Hhsize & Hhop & Hlat).
  rewrite Hsize, Holaps in *. rewrite <- Hhsize in *. rewrite <- Hhop in *.
  unfold PVSynth_sample, PVSynth_read_index.
  destruct (rd_cells _ _ i stream_count0 Hi) as [c Hc]. rewrite Hc. simpl.
  pose proof (stream_count_range0 _ _ Hc) as Hrange.
  destruct (rd_cells _ _ (c - PVSynth.inputLatency self) synth_output_buffer0)
    as [x ->]; [lia|].
  simpl. store.
  destruct (Z.leb_spec (PVSynth.size self - 1) c) as [Hedge|Hnot].
  - destruct (PVSynth_frame_wf irealfft_split (PVStream.magn input)
      (PVStream.freq input) (<[Z.to_nat i := x]> (PVSynth.data self)) self)
      as (self' & -> & ? & ? & ? & ?); [done..|].
    by exists self'.
  - eexists. split; [reflexivity|]. split; [|done]. by split.
Qed.

Lemma PVSynth_realloc_memories_wf gen_window self :
  (2 ≤ PVSynth.size self)%Z → (1 ≤ PVSynth.olaps self ≤ PVSynth.size self)%Z →
  (PVSynth.size self + PVSynth.size self `quot` PVSynth.olaps self ≤ INT_MAX)%Z →
  (0 ≤ PVSynth.bufsize self)%Z → cells (PVSynth.bufsize self) (PVSynth.data self) →
  ∃ self', PVSynth_realloc_memories gen_window self = Some self' ∧
    PVSynth_wf self' ∧
    PVSynth.size self' = PVSynth.size self ∧ PVSynth.olaps self' = PVSynth.olaps self ∧
    PVSynth.bufsize self' = PVSynth.bufsize self.
Proof.
  intros Hsize Holaps Hfits Hbuf Hdata.
  assert (Hcfg : usable_config (PVSynth.size self) (PVSynth.olaps self)
            (PVSynth.size self `quot` 2) (PVSynth.size self `quot` PVSynth.olaps self)
            (PVSynth.size self - PVSynth.size self `quot` PVSynth.olaps self))
    by done.
  pose proof (usable_config_facts _ _ _ _ _ Hcfg) as Hfacts.
  unfold PVSynth_realloc_memories. rewrite !int_div_pos by lia. simpl.
  rewrite wrap_int_id by (unfold in_int_range, INT_MIN, INT_MAX in *; lia).
  eexists. split; [reflexivity|]. split; [|by simpl].
  split; simpl; try done; try lia;
    try (apply cells_filled; lia); try (apply cells_tabulate; lia).
  intros k Hk. apply rd_filled. lia.
Qed.

(** [PVSynth_process] returns on every well-formed stream and keeps the
    invariant, whether or not it has to adapt to the stream first. *)
Lemma PVSynth_process_wf gen_window irealfft_split input self :
  PVSynth_wf self → PVStream_wf (PVSynth.bufsize self) input → PVStream_fits input →
  ∃ self', PVSynth_process gen_window irealfft_split input self = Some self' ∧
    PVSynth_wf self' ∧
    PVSynth.size self' = PVStream.fftsize input ∧
    PVSynth.olaps self' = PVStream.olaps input ∧
    PVSynth.bufsize self' = PVSynth.bufsize self.
Proof.
  intros Hwf Hin Hfits. unfold PVSynth_process.
  assert (∃ self0,
    (if bool_decide (PVSynth.size self ≠ PVStream.fftsize input
                     ∨ PVSynth.olaps self ≠ PVStream.olaps input)
     then PVSynth_realloc_memories gen_window
            (PVSynth_with_size_olaps self (PVStream.fftsize input) (PVStream.olaps input))
     else Some self) = Some self0 ∧
    PVSynth_wf self0 ∧ PVSynth.size self0 = PVStream.fftsize input ∧
    PVSynth.olaps self0 = PVStream.olaps input ∧
    PVSynth.bufsize self0 = PVSynth.bufsize self)
    as (self0 & -> & Hwf0 & Hsize0 & Holaps0 & Hbuf0).
  { case_bool_decide as Hdiff.
    - destruct Hin, Hwf.
      apply (PVSynth_realloc_memories_wf gen_window
               (PVSynth_with_size_olaps self (PVStream.fftsize input)
                  (PVStream.olaps input))); by simpl.
    - exists self. split_and!; [done..| | |done].
      + destruct (decide (PVSynth.size self = PVStream.fftsize input)); [done|].
        destruct Hdiff. by left.
      + destruct (decide (PVSynth.olaps self = PVStream.olaps input)); [done|].
        destruct Hdiff. by right. }
  simpl.
  destruct (for_loop_inv (λ _ s, PVSynth_wf s ∧
      PVSynth.size s = PVStream.fftsize input ∧
      PVSynth.olaps s = PVStream.olaps input ∧
      PVSynth.bufsize s = PVSynth.bufsize self) (PVSynth.bufsize self0)
      (PVSynth_sample irealfft_split input) self0)
    as (self' & ? & ? & ? & ? & ?); [by destruct Hwf0|done| |by exists self'].
  intros k s Hk (Hs & Hsize & Holaps & Hbuf).
  destruct (PVSynth_sample_wf irealfft_split input k s)
    as (s' & ? & ? & ? & ? & ?); [done|by rewrite Hbuf|done|done|lia|].
  exists s'. split_and!; [done..| | |]; congruence.
Qed.

Lemma PVSynth_run_wf gen_window irealfft_split inputs : ∀ self,
  PVSynth_wf self → Forall (PVStream_wf (PVSynth.bufsize self)) inputs →
  Forall PVStream_fits inputs →
  ∃ self', PVSynth_run gen_window irealfft_split inputs self = Some self' ∧
    PVSynth_wf self' ∧ PVSynth.bufsize self' = PVSynth.bufsize self.
Proof.
  induction inputs as [|input inputs IH]; intros self Hwf Hinputs Hfit; simpl.
  - by exists self.
  - inversion Hinputs as [|? ? Hinput Hinputs']; subst.
    inversion Hfit as [|? ? Hfits Hfit']; subst.
    destruct (PVSynth_process_wf gen_window irealfft_split input self)
      as (self1 & -> & Hwf1 & _ & _ & Hbuf); [done..|].
    simpl. destruct (IH self1) as (self' & ? & ? & ?); [done|by rewrite Hbuf|done|].
    exists self'. split_and!; [done..|]. congruence.
Qed.

(** ** The analyser on a bin without energy *)

(** C2, as amended.  For every bin [k] with [real[k] = 0] and [imag[k] = 0]
    at a frame boundary the analyser takes the phase to be
    [atan2(0,0) = 0], stores the magnitude 0 and the phase 0, and publishes
    [freq[overcount][k] = (delta + k * scale) * factor], where [delta] is
    the unwrapped value of [0 - lastPhase[k]]; no error is raised.  The
    published value is [k * sampleRate / size] when the phase of the bin in
    the previous frame was 0. *)
Theorem PVAnal_bin_without_energy (self : PVAnal.t) real imag k :
  PVAnal_wf self →
  cells (PVAnal.hsize self) real → cells (PVAnal.hsize self) imag →
  (0 ≤ k < PVAnal.hsize self)%Z →
  rd real k = Some 0%R → rd imag k = Some 0%R →
  MYATAN2 0 0 = 0%R ∧
  ∃ last delta lastPhase' magn' freq',
    rd (PVAnal.lastPhase self) k = Some last ∧
    unwrap (0 - last) = Some delta ∧
    PVAnal_bin real imag (PVAnal.overcount self) (PVAnal.scale self) (PVAnal.factor self)
      k (PVAnal.lastPhase self, PVAnal.magn self, PVAnal.freq self)
      = Some (lastPhase', magn', freq') ∧
    rd lastPhase' k = Some 0%R ∧
    rd2 magn' (PVAnal.overcount self) k = Some 0%R ∧
    rd2 freq' (PVAnal.overcount self) k
      = Some ((delta + IZR k * PVAnal.scale self) * PVAnal.factor self)%R ∧
    (last = 0%R →
     rd2 freq' (PVAnal.overcount self) k
       = Some (IZR k * PVAnal.sr self / IZR (PVAnal.size self))%R).
Proof.
  intros [] Hreal Himag Hk Hre Him. split; [apply MYATAN2_0_0|].
  pose proof (usable_config_facts _ _ _ _ _ anal_config0) as Hcfg.
  destruct (PVAnal_bin_run real imag (PVAnal.overcount self) (PVAnal.scale self)
    (PVAnal.factor self) (PVAnal.olaps self) (PVAnal.hsize self) k
    (PVAnal.lastPhase self) (PVAnal.magn self) (PVAnal.freq self))
    as (re & im & last & delta & lastPhase' & magn' & freq' &
        Hre' & Him' & Hlast & Hun & Hrun & _ & _ & _ & Hlp & Hm & Hf); [done..|].
  rewrite Hre in Hre'. rewrite Him in Him'.
  injection Hre' as <-. injection Him' as <-.
  rewrite MYATAN2_0_0 in Hun, Hlp.
  replace (0 * 0 + 0 * 0)%R with 0%R in Hm by lra. rewrite sqrt_0 in Hm.
  exists last, delta, lastPhase', magn', freq'. split_and!; [done..|].
  intros ->. rewrite Hf. f_equal.
  replace (0 - 0)%R with 0%R in Hun by lra.
  rewrite unwrap_id in Hun by (pose proof PI_RGT_0; lra).
  injection Hun as <-.
  unfold PVAnal_true_freq. rewrite anal_factor0, anal_scale0.
  pose proof TWOPI_pos.
  assert (IZR (PVAnal.hopsize self) ≠ 0%R) by (apply not_0_IZR; lia).
  assert (IZR (PVAnal.size self) ≠ 0%R) by (apply not_0_IZR; lia).
  field. split_and!; (done || lra).
Qed.

(** C2 as stated fails.  Take the analyser of the small configuration
    ([size = 4], [olaps = 2], [sampleRate = 4]) just after reconfiguration
    and let bin 1 hold the spectrum value [0 + 1i] in one frame, which
    leaves [lastPhase[1] = π/2], and [0 + 0i] in the next.  The frequency
    published for bin 1 in the second frame is [1/2], not
    [k * sampleRate / size = 1]. *)
Lemma PVAnal_bin_without_energy_counterexample :
  ∃ anal lastPhase1 magn1 freq1 lastPhase2 magn2 freq2,
    PVAnal_realloc_memories (λ _ _ _, 1%R) sample_anal = Some anal ∧
    PVAnal_bin [0; 0]%R [0; 1]%R 0 (PVAnal.scale anal) (PVAnal.factor anal) 1
      (PVAnal.lastPhase anal, PVAnal.magn anal, PVAnal.freq anal)
      = Some (lastPhase1, magn1, freq1) ∧
    rd [0; 0]%R 1 = Some 0%R ∧
    PVAnal_bin [0; 0]%R [0; 0]%R 0 (PVAnal.scale anal) (PVAnal.factor anal) 1
      (lastPhase1, magn1, freq1) = Some (lastPhase2, magn2, freq2) ∧
    rd2 freq2 0 1 = Some (1 / 2)%R ∧
    (1 / 2)%R ≠ (IZR 1 * PVAnal.sr anal / IZR (PVAnal.size anal))%R.
Proof.
  pose proof PI_RGT_0 as Hpi. pose proof TWOPI_pos as H2pi.
  eexists _, _, _, _, _, _, _. split_and!.
  - reflexivity.
  - unfold PVAnal_bin. simpl. rewrite MYATAN2_1_0.
    rewrite unwrap_id by lra. simpl. reflexivity.
  - reflexivity.
  - unfold PVAnal_bin. simpl. rewrite MYATAN2_0_0.
    rewrite unwrap_id by lra. simpl. reflexivity.
  - unfold rd2. simpl. unfold rd. simpl. f_equal.
    change (4 `quot` 2)%Z with 2%Z.
    unfold PVAnal_true_freq, TWOPI. field. lra.
  - simpl. lra.
Qed.

(** ** Analysis followed by synthesis *)

Lemma PVSynth_phase_increment_PVAnal_true_freq sr size hopsize k delta :
  (0 < sr)%R → (0 < size)%Z → (0 < hopsize)%Z →
  PVSynth_phase_increment (sr / IZR size) (IZR hopsize * TWOPI / sr) k
    (PVAnal_true_freq (TWOPI * IZR hopsize / IZR size) (sr / (IZR hopsize * TWOPI))
       k delta) = delta.
Proof.
  intros Hsr Hsize Hhop. unfold PVSynth_phase_increment, PVAnal_true_freq.
  pose proof TWOPI_pos.
  assert (IZR hopsize ≠ 0%R) by (apply not_0_IZR; lia).
  assert (IZR size ≠ 0%R) by (apply not_0_IZR; lia).
  field. split_and!; (done || lra).
Qed.

(** C3. For every [sampleRate > 0], all powers of two [size] and [olaps]
    with [hopsize = size / olaps > 0], every bin [k] and every real phase
    deviation [delta], the conversion of the synthesiser undoes the one of
    the analyser:
    [((delta + k·(2π·hopsize/size))·(sampleRate/(hopsize·2π)) − k·(sampleRate/size))·(hopsize·2π/sampleRate) = delta].
    Hence, when the bin loop of the synthesiser reads the frequency that the
    bin loop of the analyser has just published for bin [k], [sumPhase[k]]
    grows by the unwrapped phase deviation the analyser computed for that
    bin. *)
Theorem PVSynth_inverts_PVAnal gen_window (anal : PVAnal.t) (synth : PVSynth.t) :
  (0 < PVAnal.sr anal)%R → PVSynth.sr synth = PVAnal.sr anal →
  power_of_two (PVAnal.size anal) → power_of_two (PVAnal.olaps anal) →
  (0 < PVAnal.size anal `div` PVAnal.olaps anal)%Z →
  PVSynth.size synth = PVAnal.size anal → PVSynth.olaps synth = PVAnal.olaps anal →
  (0 ≤ PVAnal.bufsize anal)%Z → cells (PVAnal.bufsize anal) (PVAnal.count anal) →
  ∃ anal' synth',
    PVAnal_realloc_memories gen_window anal = Some anal' ∧
    PVSynth_realloc_memories gen_window synth = Some synth' ∧
    (∀ k delta,
       let sr := PVAnal.sr anal in
       let size := IZR (PVAnal.size anal) in
       let hopsize := IZR (PVAnal.size anal `div` PVAnal.olaps anal) in
       ((delta + IZR k * (2 * PI * hopsize / size)) * (sr / (hopsize * (2 * PI)))
        - IZR k * (sr / size)) * (hopsize * (2 * PI) / sr) = delta)%R ∧
    (∀ k delta,
       PVSynth_phase_increment (PVSynth.scale synth') (PVSynth.factor synth') k
         (PVAnal_true_freq (PVAnal.scale anal') (PVAnal.factor anal') k delta) = delta) ∧
    (∀ olaps hsize overcount k real imag lastPhase magn freq sumPhase re im,
       cells hsize real → cells hsize imag → cells hsize lastPhase →
       table olaps hsize magn → table olaps hsize freq →
       cells hsize sumPhase → cells hsize re → cells hsize im →
       (0 ≤ overcount < olaps)%Z → (0 ≤ k < hsize)%Z →
       ∃ x y last delta lastPhase' magn' freq' acc sumPhase' re' im',
         rd real k = Some x ∧ rd imag k = Some y ∧ rd lastPhase k = Some last ∧
         unwrap (MYATAN2 y x - last) = Some delta ∧
         PVAnal_bin real imag overcount (PVAnal.scale anal') (PVAnal.factor anal') k
           (lastPhase, magn, freq) = Some (lastPhase', magn', freq') ∧
         rd sumPhase k = Some acc ∧
         PVSynth_bin magn' freq' overcount (PVSynth.scale synth') (PVSynth.factor synth') k
           (sumPhase, re, im) = Some (sumPhase', re', im') ∧
         rd sumPhase' k = Some (acc + delta)%R).
Proof.
  intros Hsr Hsr' Hsize Holaps Hhop Hss Hso Hbuf Hcount.
  pose proof (power_of_two_pos _ Hsize) as Hsize0.
  pose proof (power_of_two_pos _ Holaps) as Holaps0.
  destruct (fill_loop (PVAnal.bufsize anal) (PVAnal.count anal)
    (PVAnal.size anal - PVAnal.size anal `quot` PVAnal.olaps anal)%Z Hbuf Hcount)
    as (count' & Hfill & _).
  eexists _, _. split; [|split].
  { unfold PVAnal_realloc_memories. rewrite !int_div_pos by lia. simpl.
    rewrite Hfill. simpl. reflexivity. }
  { unfold PVSynth_realloc_memories. rewrite Hss, Hso, !int_div_pos by lia. simpl.
    reflexivity. }
  simpl. rewrite Hsr', Z.quot_div_nonneg by lia.
  assert (Hinv : ∀ k delta,
    PVSynth_phase_increment (PVAnal.sr anal / IZR (PVAnal.size anal))
      (IZR (PVAnal.size anal `div` PVAnal.olaps anal) * TWOPI / PVAnal.sr anal) k
      (PVAnal_true_freq
         (TWOPI * IZR (PVAnal.size anal `div` PVAnal.olaps anal) / IZR (PVAnal.size anal))
         (PVAnal.sr anal / (IZR (PVAnal.size anal `div` PVAnal.olaps anal) * TWOPI))
         k delta) = delta).
  { intros k delta. by apply PVSynth_phase_increment_PVAnal_true_freq. }
  split_and!.
  - intros k delta. specialize (Hinv k delta).
    unfold PVSynth_phase_increment, PVAnal_true_freq, TWOPI in Hinv. exact Hinv.
  - exact Hinv.
  - intros olaps hsize overcount k real imag lastPhase magn freq sumPhase re im
      Hre Him Hlp Hm Hf Hsp Hre' Him' Ho Hk.
    destruct (PVAnal_bin_run real imag overcount
      (TWOPI * IZR (PVAnal.size anal `div` PVAnal.olaps anal) / IZR (PVAnal.size anal))
      (PVAnal.sr anal / (IZR (PVAnal.size anal `div` PVAnal.olaps anal) * TWOPI))
      olaps hsize k lastPhase magn freq)
      as (x & y & last & delta & lastPhase' & magn' & freq' &
          ? & ? & ? & ? & Hanal & _ & Hm' & Hf' & _ & _ & Hpub); [done..|].
    destruct (PVSynth_bin_run magn' freq' overcount
      (PVAnal.sr anal / IZR (PVAnal.size anal))
      (IZR (PVAnal.size anal `div` PVAnal.olaps anal) * TWOPI / PVAnal.sr anal)
      olaps hsize k sumPhase re im)
      as (mag & f & acc & sumPhase' & re' & im' &
          _ & Hread & ? & Hsynth & _ & _ & _ & Hsum); [done..|].
    rewrite Hpub in Hread. injection Hread as <-. rewrite Hinv in Hsum.
    exists x, y, last, delta, lastPhase', magn', freq', acc, sumPhase', re', im'.
    by split_and!.
Qed.

(** ** The published counter *)

(** The stream of a well-formed analyser is well formed. *)
Lemma PVAnal_pv_stream_wf self :
  PVAnal_wf self → PVStream_wf (PVAnal.bufsize self) (PVAnal_pv_stream self).
Proof.
  intros []. destruct anal_config0 as (? & ? & Hh & Hhop & Hlat).
  split; simpl; try done; rewrite <- ?Hh, <- ?Hhop, <- ?Hlat; done.
Qed.

(** C9, as amended.  In every configuration with [size >= 2] and
    [1 <= olaps <= size], hence in every legal one, every entry of the
    counter vector that the analyser publishes satisfies
    [inputLatency <= count[i] <= size - 1]:
    reconfiguration sets every entry to [inputLatency], and the bounds hold
    after any number of calls of [PVAnal_process], each of which returns,
    because [incount] goes back to [inputLatency] when it reaches [size].
    Consequently the index [count[i] - inputLatency] read by a synthesiser
    latched on the same size and overlaps lies in [0, hopsize), inside
    [output_buffer], the tests [count[i] == size - 1] and
    [count[i] >= size - 1] agree, and [PVSynth_process] returns on the
    analyser's stream when the [int] sum [size + hopsize] does not
    overflow. *)
Theorem PVAnal_count_in_range gen_window realfft_split irealfft_split (anal : PVAnal.t) :
  (2 ≤ PVAnal.size anal)%Z → (1 ≤ PVAnal.olaps anal ≤ PVAnal.size anal)%Z →
  (0 ≤ PVAnal.bufsize anal)%Z → cells (PVAnal.bufsize anal) (PVAnal.count anal) →
  ∃ anal0,
    PVAnal_realloc_memories gen_window anal = Some anal0 ∧
    (∀ i, (0 ≤ i < PVAnal.bufsize anal)%Z →
       rd (PVAnal.count anal0) i = Some (PVAnal.inputLatency anal0)) ∧
    ∀ blocks, Forall (cells (PVAnal.bufsize anal)) blocks →
      ∃ anal',
        PVAnal_run realfft_split blocks anal0 = Some anal' ∧
        (PVAnal.inputLatency anal' ≤ PVAnal.incount anal' < PVAnal.size anal')%Z ∧
        (∀ i, (0 ≤ i < PVAnal.bufsize anal)%Z →
           ∃ c, rd (PVAnal.count anal') i = Some c ∧
             (PVAnal.inputLatency anal' ≤ c ≤ PVAnal.size anal' - 1)%Z ∧
             (c =? PVAnal.size anal' - 1)%Z = (PVAnal.size anal' - 1 <=? c)%Z ∧
             ∀ synth, PVSynth_wf synth →
               PVSynth.size synth = PVAnal.size anal' →
               PVSynth.olaps synth = PVAnal.olaps anal' →
               (0 ≤ PVSynth_read_index synth c < PVSynth.hopsize synth)%Z ∧
               ∃ x, rd (PVSynth.output_buffer synth) (PVSynth_read_index synth c)
                    = Some x) ∧
        ∀ synth, PVSynth_wf synth → PVSynth.bufsize synth = PVAnal.bufsize anal →
          PVStream_fits (PVAnal_pv_stream anal') →
          ∃ synth', PVSynth_process gen_window irealfft_split
                      (PVAnal_pv_stream anal') synth = Some synth'.
Proof.
  intros Hsize Holaps Hbuf Hcount.
  destruct (PVAnal_realloc_memories_wf gen_window anal)
    as (anal0 & Hrealloc & Hwf0 & Hs0 & Ho0 & Hb0 & _ & _ & Hfilled); [done..|].
  exists anal0. split_and!; [done..|]. intros blocks Hblocks.
  destruct (PVAnal_run_wf realfft_split blocks anal0)
    as (anal' & Hrun & Hwf & Hs & Ho & Hb & _); [done|by rewrite Hb0|].
  exists anal'. split; [done|]. pose proof Hwf as [].
  split_and!; [lia..| |].
  - intros i Hi.
    destruct (rd_cells _ _ i anal_count0) as [c Hc]; [lia|].
    pose proof (anal_count_range0 _ _ Hc) as Hrange.
    exists c. split_and!; [done|lia..| |].
    + destruct (Z.eqb_spec c (PVAnal.size anal' - 1)),
        (Z.leb_spec (PVAnal.size anal' - 1) c); (done || lia).
    + intros synth [] Hss Hso. unfold PVSynth_read_index.
      pose proof (usable_config_facts _ _ _ _ _ synth_config0) as Hcfg.
      destruct synth_config0 as (_ & _ & _ & Hhop & Hlat).
      destruct anal_config0 as (_ & _ & _ & Hhop' & Hlat').
      assert (PVSynth.inputLatency synth = PVAnal.inputLatency anal') by congruence.
      split; [lia|]. apply (rd_cells _ _ _ synth_output_buffer0). lia.
  - intros synth Hsynth Hsb Hfits.
    destruct (PVSynth_process_wf gen_window irealfft_split (PVAnal_pv_stream anal') synth)
      as (synth' & ? & _); [done| |done|by exists synth'].
    rewrite Hsb, <- Hb0, <- Hb. by apply PVAnal_pv_stream_wf.
Qed.

(** C9 as stated fails against a configuration that the constructor
    accepts: [size = 2] and [olaps = 4] are powers of two, so nothing is
    snapped, but [hopsize = 2 / 4 = 0] and reconfiguration sets every
    counter to [inputLatency = size = 2], above [size - 1].  The index
    [count[i] - inputLatency = 0] is then not below [hopsize], and the two
    frame-edge tests disagree on every sample. *)
Lemma PVAnal_count_in_range_counterexample :
  ∃ self,
    PVAnal_new (λ _ _ _, 1%R) 2 4%R 2 4 2 = Some (self, []) ∧
    PVAnal.size self = 2%Z ∧ PVAnal.hopsize self = 0%Z ∧
    PVAnal.inputLatency self = 2%Z ∧
    rd (PVAnal.count self) 0 = Some 2%Z ∧
    ¬ (2 ≤ PVAnal.size self - 1)%Z ∧
    ¬ (2 - PVAnal.inputLatency self < PVAnal.hopsize self)%Z ∧
    (2 =? PVAnal.size self - 1)%Z ≠ (PVAnal.size self - 1 <=? 2)%Z.
Proof.
  eexists. split; [reflexivity|]. simpl. split_and!; try reflexivity; lia.
Qed.

(** There the analyser cannot take in a single sample: the write cursor
    is already past the end of [input_buffer]. *)
Lemma PVAnal_sample_no_room realfft_split input i self :
  cells (PVAnal.size self) (PVAnal.input_buffer self) →
  (PVAnal.size self ≤ PVAnal.incount self)%Z →
  PVAnal_sample realfft_split input i self = None.
Proof.
  intros Hbuf Hfull. unfold PVAnal_sample.
  destruct (rd input i) as [x|]; [|reflexivity]. simpl.
  assert (Hw : wr (PVAnal.input_buffer self) (PVAnal.incount self) x = None).
  { unfold wr. rewrite bool_decide_eq_false_2; [done|]. unfold cells in Hbuf. lia. }
  by rewrite Hw.
Qed.

(** ** The tail of the overlap-add accumulator *)

(** C8, as amended.  In every configuration with [size >= 2] and
    [1 <= olaps <= size], hence in every legal one, in which the [int] sum
    [size + hopsize] does not overflow, [outputAccum] has [size + hopsize]
    cells and its top [hopsize] cells, those from [size] to
    [size + hopsize - 1], are zero: this holds after reconfiguration and
    after any number of calls of [PVSynth_process] on streams with such a
    configuration, each of which returns.  The accumulate and shift
    loops leave every cell from [size] upwards as it was, and the copy loop
    does not write into [outputAccum] at all.  Consequently the shift
    [outputAccum[k] = outputAccum[k + hopsize]] for [k < size] leaves zeros
    in the cells from [size - hopsize] to [size - 1]. *)
Theorem PVSynth_outputAccum_tail gen_window irealfft_split (synth : PVSynth.t) :
  (2 ≤ PVSynth.size synth)%Z → (1 ≤ PVSynth.olaps synth ≤ PVSynth.size synth)%Z →
  (PVSynth.size synth + PVSynth.size synth `quot` PVSynth.olaps synth ≤ INT_MAX)%Z →
  (0 ≤ PVSynth.bufsize synth)%Z → cells (PVSynth.bufsize synth) (PVSynth.data synth) →
  ∃ synth0,
    PVSynth_realloc_memories gen_window synth = Some synth0 ∧
    cells (PVSynth.size synth0 + PVSynth.hopsize synth0) (PVSynth.outputAccum synth0) ∧
    tail_is_zero (PVSynth.size synth0) (PVSynth.hopsize synth0)
      (PVSynth.outputAccum synth0) ∧
    ∀ inputs, Forall (PVStream_wf (PVSynth.bufsize synth)) inputs →
      Forall PVStream_fits inputs →
      ∃ synth',
        PVSynth_run gen_window irealfft_split inputs synth0 = Some synth' ∧
        let size := PVSynth.size synth' in
        let hopsize := PVSynth.hopsize synth' in
        cells (size + hopsize) (PVSynth.outputAccum synth') ∧
        tail_is_zero size hopsize (PVSynth.outputAccum synth') ∧
        (∀ mod_ outframe window ampscl acc,
           (0 ≤ mod_)%Z → cells size outframe → cells size window →
           cells (size + hopsize) acc →
           ∃ acc', PVSynth_accumulate size mod_ outframe window ampscl acc = Some acc' ∧
                   ∀ k, (size ≤ k)%Z → rd acc' k = rd acc k) ∧
        (∀ acc, cells (size + hopsize) acc → tail_is_zero size hopsize acc →
           ∃ acc', PVSynth_shift size hopsize acc = Some acc' ∧
             (∀ k, (size ≤ k)%Z → rd acc' k = rd acc k) ∧
             (∀ k, (0 ≤ k < size - hopsize)%Z → rd acc' k = rd acc (k + hopsize)) ∧
             (∀ k, (size - hopsize ≤ k < size)%Z → rd acc' k = Some 0%R)).
Proof.
  intros Hsize Holaps Hfits Hbuf Hdata.
  destruct (PVSynth_realloc_memories_wf gen_window synth)
    as (synth0 & Hrealloc & Hwf0 & _ & _ & Hb0); [done..|].
  exists synth0. pose proof Hwf0 as []. split_and!; [done..|].
  intros inputs Hinputs Hfit.
  destruct (PVSynth_run_wf gen_window irealfft_split inputs synth0)
    as (synth' & Hrun & Hwf & _); [done|by rewrite Hb0|done|].
  exists synth'. split; [done|]. destruct Hwf.
  pose proof (usable_config_facts _ _ _ _ _ synth_config1) as Hcfg.
  simpl. split_and!; [done..| |].
  - intros mod_ outframe window ampscl acc Hmod Hout Hwin Hacc.
    destruct (PVSynth_accumulate_run (PVSynth.size synth') (PVSynth.hopsize synth')
      mod_ outframe window ampscl acc) as (acc' & ? & _ & ?); [lia..|done|done|done|].
    by exists acc'.
  - intros acc Hacc Htail.
    destruct (PVSynth_shift_run (PVSynth.size synth') (PVSynth.hopsize synth') acc)
      as (acc' & ? & _ & Hmoved & Hkept); [lia..|done|].
    exists acc'. split_and!; [done..| |].
    + intros k Hk. apply Hmoved. lia.
    + intros k Hk. rewrite Hmoved by lia. apply Htail. lia.
Qed.

(** ** The statements on the small configuration *)

Lemma count_in_range_Forall lo size count :
  Forall (λ c, lo ≤ c ≤ size - 1)%Z count → count_in_range lo size count.
Proof.
  intros Hall i c Hc. unfold rd in Hc. case_bool_decide; [|done].
  eapply (Forall_lookup_1 _ _ _ _ Hall); eauto.
Qed.

Lemma power_of_two_4 : power_of_two 4.
Proof. by exists 2%nat. Qed.

Lemma sample_tables :
  table 2 2 sample_magn_in ∧ table 2 2 sample_freq_in ∧ table 2 2 sample_table.
Proof. split_and!; (apply table_Forall; [reflexivity|by repeat constructor]). Qed.

Lemma sample_anal_running_wf : PVAnal_wf sample_anal_running.
Proof.
  split; simpl; try reflexivity; try lia.
  - unfold usable_config. split_and!; (reflexivity || lia).
  - apply table_Forall; [reflexivity|by repeat constructor].
  - apply table_Forall; [reflexivity|by repeat constructor].
  - apply count_in_range_Forall. repeat constructor; lia.
Qed.

Lemma PVAnal_bin_without_energy_sample :
  PVAnal_wf sample_anal_running ∧
  rd [0; 0]%R 1 = Some 0%R ∧
  ∃ delta freq',
    unwrap (0 - 1) = Some delta ∧
    rd2 freq' 1 1 = Some ((delta + IZR 1 * (TWOPI * 2 / 4)) * (4 / (2 * TWOPI)))%R.
Proof.
  split; [apply sample_anal_running_wf|]. split; [reflexivity|].
  destruct (PVAnal_bin_without_energy sample_anal_running [0; 0]%R [0; 0]%R 1)
    as (_ & last & delta & lastPhase' & magn' & freq' & Hlast & Hun & _ & _ & _ & Hf & _).
  - apply sample_anal_running_wf.
  - reflexivity.
  - reflexivity.
  - simpl. lia.
  - reflexivity.
  - reflexivity.
  - injection Hlast as <-. exists delta, freq'. split; [exact Hun|exact Hf].
Defined.

Lemma PVSynth_inverts_PVAnal_sample :
  (0 < PVAnal.sr sample_anal)%R ∧
  power_of_two (PVAnal.size sample_anal) ∧ power_of_two (PVAnal.olaps sample_anal) ∧
  (0 < PVAnal.size sample_anal `div` PVAnal.olaps sample_anal)%Z ∧
  ∃ anal' synth',
    PVAnal_realloc_memories (λ _ _ _, 1%R) sample_anal = Some anal' ∧
    PVSynth_realloc_memories (λ _ _ _, 1%R) sample_synth = Some synth' ∧
    ∀ k delta,
      PVSynth_phase_increment (PVSynth.scale synth') (PVSynth.factor synth') k
        (PVAnal_true_freq (PVAnal.scale anal') (PVAnal.factor anal') k delta) = delta.
Proof.
  assert (Hsr : (0 < PVAnal.sr sample_anal)%R) by (simpl; lra).
  assert (Hhop : (0 < PVAnal.size sample_anal `div` PVAnal.olaps sample_anal)%Z)
    by reflexivity.
  split_and!; [exact Hsr|apply power_of_two_4|apply power_of_two_2|exact Hhop|].
  destruct (PVSynth_inverts_PVAnal (λ _ _ _, 1%R) sample_anal sample_synth)
    as (anal' & synth' & Ha & Hs & _ & Hinv & _).
  - exact Hsr.
  - reflexivity.
  - apply power_of_two_4.
  - apply power_of_two_2.
  - exact Hhop.
  - reflexivity.
  - reflexivity.
  - simpl. lia.
  - reflexivity.
  - exists anal', synth'. split; [exact Ha|]. split; [exact Hs|exact Hinv].
Defined.

Lemma realloc_memories_configuration_sample :
  power_of_two 4 ∧ power_of_two 2 ∧ (2 * 2 ≤ 4)%Z ∧
  cells (PVAnal.bufsize sample_anal) (PVAnal.count sample_anal) ∧
  (∃ anal', PVAnal_realloc_memories (λ _ _ _, 1%R) sample_anal = Some anal' ∧
     PVAnal.hsize anal' = 2%Z ∧ PVAnal.hopsize anal' = 2%Z ∧
     PVAnal.inputLatency anal' = 2%Z ∧ PVAnal.incount anal' = 2%Z) ∧
  (∃ synth', PVSynth_realloc_memories (λ _ _ _, 1%R) sample_synth = Some synth' ∧
     PVSynth.hsize synth' = 2%Z ∧ PVSynth.hopsize synth' = 2%Z ∧
     PVSynth.inputLatency synth' = 2%Z).
Proof.
  split_and!; [apply power_of_two_4|apply power_of_two_2|lia|reflexivity|..];
    destruct (realloc_memories_configuration (λ _ _ _, 1%R) 4 2 sample_anal sample_synth)
      as [(anal' & Ha & _ & _ & Hh & Hhop & _ & Hlat & _ & Hinc & _)
          (synth' & Hs & _ & _ & Hh' & Hhop' & _ & Hlat' & _)];
    try apply power_of_two_4; try apply power_of_two_2; try reflexivity;
    try (simpl; lia).
  - exists anal'. rewrite Hinc, Hlat, Hhop, Hh. by split_and!.
  - exists synth'. rewrite Hlat', Hhop', Hh'. by split_and!.
Defined.

Lemma PVSynth_outputAccum_tail_sample :
  (2 ≤ PVSynth.size sample_synth)%Z ∧
  (1 ≤ PVSynth.olaps sample_synth ≤ PVSynth.size sample_synth)%Z ∧
  (PVSynth.size sample_synth + PVSynth.size sample_synth `quot` PVSynth.olaps sample_synth
   ≤ INT_MAX)%Z ∧
  cells (PVSynth.bufsize sample_synth) (PVSynth.data sample_synth) ∧
  ∃ synth0,
    PVSynth_realloc_memories (λ _ _ _, 1%R) sample_synth = Some synth0 ∧
    tail_is_zero (PVSynth.size synth0) (PVSynth.hopsize synth0)
      (PVSynth.outputAccum synth0).
Proof.
  assert (Hsize : (2 ≤ PVSynth.size sample_synth)%Z) by (simpl; lia).
  assert (Holaps : (1 ≤ PVSynth.olaps sample_synth ≤ PVSynth.size sample_synth)%Z)
    by (simpl; lia).
  assert (Hbuf : (0 ≤ PVSynth.bufsize sample_synth)%Z) by (simpl; lia).
  assert (Hfits : (PVSynth.size sample_synth
                   + PVSynth.size sample_synth `quot` PVSynth.olaps sample_synth
                   ≤ INT_MAX)%Z) by (by vm_compute).
  split; [exact Hsize|]. split; [exact Holaps|]. split; [exact Hfits|].
  split; [reflexivity|].
  destruct (PVSynth_outputAccum_tail (λ _ _ _, 1%R) (λ _ _ _, 0%R) sample_synth
              Hsize Holaps Hfits Hbuf eq_refl)
    as (synth0 & Hrealloc & _ & Htail & _).
  exists synth0. split; [exact Hrealloc|exact Htail].
Defined.

Lemma PVAnal_count_in_range_sample :
  (2 ≤ PVAnal.size sample_anal)%Z ∧
  (1 ≤ PVAnal.olaps sample_anal ≤ PVAnal.size sample_anal)%Z ∧
  cells (PVAnal.bufsize sample_anal) (PVAnal.count sample_anal) ∧
  ∃ anal0 anal',
    PVAnal_realloc_memories (λ _ _ _, 1%R) sample_anal = Some anal0 ∧
    PVAnal_run (λ _ _ _, 0%R) [[1; 0]; [0; 0]; [0; 1]]%R anal0 = Some anal' ∧
    ∃ c, rd (PVAnal.count anal') 1 = Some c ∧
         (PVAnal.inputLatency anal' ≤ c ≤ PVAnal.size anal' - 1)%Z.
Proof.
  assert (Hsize : (2 ≤ PVAnal.size sample_anal)%Z) by (simpl; lia).
  assert (Holaps : (1 ≤ PVAnal.olaps sample_anal ≤ PVAnal.size sample_anal)%Z)
    by (simpl; lia).
  assert (Hbuf : (0 ≤ PVAnal.bufsize sample_anal)%Z) by (simpl; lia).
  split; [exact Hsize|]. split; [exact Holaps|]. split; [reflexivity|].
  destruct (PVAnal_count_in_range (λ _ _ _, 1%R) (λ _ _ _, 0%R) (λ _ _ _, 0%R)
              sample_anal Hsize Holaps Hbuf eq_refl)
    as (anal0 & Hrealloc & _ & Hruns).
  destruct (Hruns [[1; 0]; [0; 0]; [0; 1]]%R) as (anal' & Hrun & _ & Hcount & _).
  { repeat constructor. }
  destruct (Hcount 1%Z) as (c & Hc & Hrange & _); [simpl; lia|].
  exists anal0, anal'. split; [exact Hrealloc|]. split; [exact Hrun|].
  exists c. split; [exact Hc|exact Hrange].
Defined.

(** ** Where the frames fall

    A transformer runs its frame body at the samples whose counter has
    reached [size - 1], on its own tables and the current slot, and then
    moves to the next slot; at every other sample the tables are left as
    they are.  In both cases the counter of the sample is republished. *)

Lemma PVTranspose_sample_edge fl transpo_at input i self c transpo magn' freq' :
  rd (PVStream.count input) i = Some c →
  (0 ≤ i < Z.of_nat (length (PVTranspose.count self)))%Z →
  (PVTranspose.size self - 1 ≤ c)%Z →
  transpo_at i = Some transpo →
  PVTranspose_frame fl transpo (PVStream.magn input) (PVStream.freq input)
    (PVTranspose.hsize self) (PVTranspose.overcount self)
    (PVTranspose.magn self, PVTranspose.freq self) = Some (magn', freq') →
  ∃ self', PVTranspose_sample fl transpo_at input i self = Some self' ∧
    PVTranspose.magn self' = magn' ∧ PVTranspose.freq self' = freq' ∧
    PVTranspose.overcount self'
      = next_overcount (PVTranspose.overcount self) (PVTranspose.olaps self) ∧
    rd (PVTranspose.count self') i = Some c.
Proof.
  intros Hc Hi Hedge Ht Hframe. unfold PVTranspose_sample.
  rewrite Hc. simpl. rewrite (wr_in_bounds _ _ _ Hi). simpl.
  destruct (Z.leb_spec (PVTranspose.size self - 1) c); [|lia].
  rewrite Ht. simpl. rewrite Hframe. simpl.
  eexists. split; [reflexivity|]. simpl. split_and!; [done..|].
  eapply rd_wr_eq. by apply wr_in_bounds.
Qed.

Lemma PVTranspose_sample_no_edge fl transpo_at input i self c :
  rd (PVStream.count input) i = Some c →
  (0 ≤ i < Z.of_nat (length (PVTranspose.count self)))%Z →
  (c < PVTranspose.size self - 1)%Z →
  ∃ self', PVTranspose_sample fl transpo_at input i self = Some self' ∧
    PVTranspose.magn self' = PVTranspose.magn self ∧
    PVTranspose.freq self' = PVTranspose.freq self ∧
    PVTranspose.overcount self' = PVTranspose.overcount self ∧
    rd (PVTranspose.count self') i = Some c.
Proof.
  intros Hc Hi Hno. unfold PVTranspose_sample.
  rewrite Hc. simpl. rewrite (wr_in_bounds _ _ _ Hi). simpl.
  destruct (Z.leb_spec (PVTranspose.size self - 1) c); [lia|].
  eexists. split; [reflexivity|]. simpl. split_and!; [done..|].
  eapply rd_wr_eq. by apply wr_in_bounds.
Qed.

Lemma PVVerb_sample_edge fl revtime damp input i self c l_magn' magn' freq' :
  rd (PVStream.count input) i = Some c →
  (0 ≤ i < Z.of_nat (length (PVVerb.count self)))%Z →
  (PVVerb.size self - 1 ≤ c)%Z →
  PVVerb_frame fl revtime damp (PVStream.magn input) (PVStream.freq input)
    (PVVerb.hsize self) (PVVerb.overcount self)
    (PVVerb.l_magn self, PVVerb.magn self, PVVerb.freq self)
    = Some (l_magn', magn', freq') →
  ∃ self', PVVerb_sample fl revtime damp input i self = Some self' ∧
    PVVerb.l_magn self' = l_magn' ∧
    PVVerb.magn self' = magn' ∧ PVVerb.freq self' = freq' ∧
    PVVerb.overcount self' = next_overcount (PVVerb.overcount self) (PVVerb.olaps self) ∧
    rd (PVVerb.count self') i = Some c.
Proof.
  intros Hc Hi Hedge Hframe. unfold PVVerb_sample.
  rewrite Hframe, Hc. simpl. rewrite (wr_in_bounds _ _ _ Hi). simpl.
  destruct (Z.leb_spec (PVVerb.size self - 1) c); [|lia].
  eexists. split; [reflexivity|]. simpl. split_and!; [done..|].
  eapply rd_wr_eq. by apply wr_in_bounds.
Qed.

Lemma PVVerb_sample_no_edge fl revtime damp input i self c :
  rd (PVStream.count input) i = Some c →
  (0 ≤ i < Z.of_nat (length (PVVerb.count self)))%Z →
  (c < PVVerb.size self - 1)%Z →
  ∃ self', PVVerb_sample fl revtime damp input i self = Some self' ∧
    PVVerb.l_magn self' = PVVerb.l_magn self ∧
    PVVerb.magn self' = PVVerb.magn self ∧ PVVerb.freq self' = PVVerb.freq self ∧
    PVVerb.overcount self' = PVVerb.overcount self ∧
    rd (PVVerb.count self') i = Some c.
Proof.
  intros Hc Hi Hno. unfold PVVerb_sample.
  rewrite Hc. simpl. rewrite (wr_in_bounds _ _ _ Hi). simpl.
  destruct (Z.leb_spec (PVVerb.size self - 1) c); [lia|].
  eexists. split; [reflexivity|]. simpl. split_and!; [done..|].
  eapply rd_wr_eq. by apply wr_in_bounds.
Qed.



(** * Further properties *)

(** ** More on arrays and loops *)

Lemma rd_tabulate {A} n (f : Z → A) k :
  (0 ≤ k < n)%Z → rd (tabulate n f) k = Some (f k).
Proof.
  intros Hk. unfold rd, tabulate. rewrite bool_decide_eq_true_2 by lia.
  rewrite list_lookup_fmap, lookup_seq_lt by lia. simpl. do 2 f_equal. lia.
Qed.

Lemma cells_ext {A} n (a b : list A) :
  cells n a → cells n b → (∀ k, (0 ≤ k < n)%Z → rd a k = rd b k) → a = b.
Proof.
  unfold cells. intros Ha Hb H. apply list_eq. intros i.
  destruct (decide (i < length a)%nat).
  - specialize (H (Z.of_nat i)). unfold rd in H.
    rewrite bool_decide_eq_true_2 in H by lia. rewrite Nat2Z.id in H. apply H. lia.
  - by rewrite !lookup_ge_None_2 by lia.
Qed.

(** A loop that stores [f k] in cell [k]. *)
Lemma store_loop {A} n (f : Z → A) a :
  (0 ≤ n)%Z → cells n a →
  ∃ a', for_loop n (λ k out, wr out k (f k)) a = Some a' ∧ cells n a' ∧
        ∀ k, (0 ≤ k < n)%Z → rd a' k = Some (f k).
Proof.
  intros Hn Ha.
  destruct (for_loop_inv
    (λ m out, cells n out ∧ ∀ k, (0 ≤ k < m)%Z → rd out k = Some (f k))
    n (λ k out, wr out k (f k)) a) as (a' & Hrun & Hc & Hv); [done| | |].
  - split; [done|]. intros; lia.
  - intros k s Hk [Hs Hv].
    assert (Hw : wr s k (f k) = Some (<[Z.to_nat k := f k]> s))
      by (apply wr_in_bounds; unfold cells in Hs; lia).
    eexists. split; [exact Hw|]. split; [by apply cells_insert|].
    intros j Hj. destruct (decide (j = k)) as [->|Hne].
    + by eapply rd_wr_eq.
    + rewrite (rd_wr_ne _ _ _ _ _ Hw Hne). apply Hv. lia.
  - by exists a'.
Qed.

(** A loop whose first round fails. *)
Lemma for_loop_fails_at_0 {St} n (body : Z → St → option St) s :
  (1 ≤ n)%Z → body 0%Z s = None → for_loop n body s = None.
Proof.
  intros Hn H0. unfold for_loop.
  assert (Hm : ∀ m, for_upto (S m) body s = None).
  { induction m as [|m IH]; [exact H0|].
    change (for_upto (S (S m)) body s)
      with (for_upto (S m) body s ≫= body (Z.of_nat (S m))).
    by rewrite IH. }
  destruct (Z.to_nat n) eqn:E; [lia|]. apply Hm.
Qed.

(** Two loop bodies that agree on the states that occur give the same
    result. *)
Lemma for_loop_ext {St} n (body body' : Z → St → option St) s :
  (∀ k s, (0 ≤ k < n)%Z → body k s = body' k s) →
  for_loop n body s = for_loop n body' s.
Proof.
  intros H. unfold for_loop.
  assert (Hm : ∀ m, (m ≤ Z.to_nat n)%nat → for_upto m body s = for_upto m body' s).
  { induction m as [|m IH]; intros Hle; [done|]. simpl. rewrite IH by lia.
    destruct (for_upto m body' s) as [s'|]; [|done]. simpl. apply H. lia. }
  by apply Hm.
Qed.

Lemma mod_window_inj size a b :
  (0 < size)%Z → (a `mod` size = b `mod` size)%Z → (- size < a - b < size)%Z → a = b.
Proof.
  intros Hs Hm Hab.
  pose proof (Z.div_mod a size ltac:(lia)). pose proof (Z.div_mod b size ltac:(lia)).
  assert (Hd : (a - b = size * (a `div` size - b `div` size))%Z) by lia.
  destruct (Z.lt_trichotomy (a `div` size - b `div` size) 0) as [?|[Hq|?]]; [nia| |nia].
  rewrite Hq in Hd. lia.
Qed.

Lemma mod_succ_inside hop a :
  (0 < hop)%Z → (a `mod` hop + 1 < hop)%Z →
  ((a + 1) `mod` hop = a `mod` hop + 1 ∧ (a + 1) `div` hop = a `div` hop)%Z.
Proof.
  intros Hh Hr. pose proof (Z.div_mod a hop ltac:(lia)).
  pose proof (Z.mod_pos_bound a hop Hh).
  assert ((a + 1) `div` hop = a `div` hop)%Z as Hq.
  { symmetry. apply (Z.div_unique _ _ _ (a `mod` hop + 1)); lia. }
  split; [|done].
  symmetry. apply (Z.mod_unique _ _ (a `div` hop)); lia.
Qed.

Lemma mod_succ_wrap hop a :
  (0 < hop)%Z → (a `mod` hop + 1 = hop)%Z →
  ((a + 1) `mod` hop = 0 ∧ (a + 1) `div` hop = a `div` hop + 1)%Z.
Proof.
  intros Hh Hr. pose proof (Z.div_mod a hop ltac:(lia)).
  split.
  - symmetry. apply (Z.mod_unique _ _ (a `div` hop + 1)); lia.
  - symmetry. apply (Z.div_unique _ _ _ 0); lia.
Qed.

Lemma next_overcount_mod olaps a :
  (0 < olaps)%Z →
  next_overcount (a `mod` olaps) olaps = ((a + 1) `mod` olaps)%Z.
Proof.
  intros Ho. unfold next_overcount.
  pose proof (Z.mod_pos_bound a olaps Ho).
  destruct (Z.leb_spec olaps (a `mod` olaps + 1)).
  - symmetry. apply (mod_succ_wrap olaps a); lia.
  - symmetry. apply (mod_succ_inside olaps a); lia.
Qed.

(** ** What a frame of the analyser computes *)

(** The windowing loop: cell [(k + mod) % size] of the frame receives
    sample [k] of the input buffer times [window[k]]; no cell is written
    twice. *)
Lemma PVAnal_window_run size mod_ input_buffer window inframe :
  (0 < size)%Z → (0 ≤ mod_)%Z →
  cells size input_buffer → cells size window → cells size inframe →
  ∃ inframe',
    for_loop size (λ k fr, x ← rd input_buffer k; w ← rd window k;
                    wr fr ((k + mod_) `rem` size)%Z (x * w)%R) inframe
      = Some inframe' ∧
    cells size inframe' ∧
    ∀ k, (0 ≤ k < size)%Z → ∃ x w,
      rd input_buffer k = Some x ∧ rd window k = Some w ∧
      rd inframe' ((k + mod_) `rem` size) = Some (x * w)%R.
Proof.
  intros Hs Hmod Hib Hwin Hfr.
  destruct (for_loop_inv
    (λ n fr, cells size fr ∧
       ∀ k, (0 ≤ k < n)%Z → ∃ x w,
         rd input_buffer k = Some x ∧ rd window k = Some w ∧
         rd fr ((k + mod_) `rem` size) = Some (x * w)%R)
    size
    (λ k fr, x ← rd input_buffer k; w ← rd window k;
             wr fr ((k + mod_) `rem` size)%Z (x * w)%R) inframe)
    as (inframe' & Hrun & Hc & Hv); [lia| | |].
  - split; [done|]. intros; lia.
  - intros n fr Hn [Hc Hv].
    destruct (rd_cells _ _ n Hib Hn) as [x Hx].
    destruct (rd_cells _ _ n Hwin Hn) as [w Hw].
    assert (Hb : (0 ≤ (n + mod_) `rem` size < size)%Z) by (apply Z.rem_bound_pos; lia).
    assert (Hwr : wr fr ((n + mod_) `rem` size) (x * w)%R
                  = Some (<[Z.to_nat ((n + mod_) `rem` size) := (x * w)%R]> fr))
      by (apply wr_in_bounds; unfold cells in Hc; lia).
    eexists. rewrite Hx. simpl. rewrite Hw. simpl. split; [exact Hwr|].
    split; [by apply cells_insert|].
    intros k Hk. destruct (decide (k = n)) as [->|Hne].
    + exists x, w. split_and!; [done..|]. by eapply rd_wr_eq.
    + destruct (Hv k) as (x' & w' & ? & ? & Hr); [lia|].
      exists x', w'. split_and!; [done..|].
      rewrite (rd_wr_ne _ _ _ _ _ Hwr); [done|].
      rewrite !Z.rem_mod_nonneg by lia. intros Heq.
      apply Hne. apply (mod_window_inj size) in Heq; lia.
  - by exists inframe'.
Qed.

(** The unpacking of the transform into [real] and [imag]. *)
Lemma PVAnal_unpack_run size hsize outframe real imag o0 :
  (1 ≤ hsize < size)%Z →
  cells size outframe → cells hsize real → cells hsize imag →
  rd outframe 0 = Some o0 →
  ∃ real' imag',
    for_loop_from_1 hsize (λ k '(re, im),
        a ← rd outframe k; re ← wr re k a;
        b ← rd outframe (size - k); im ← wr im k b; Some (re, im))
      (<[Z.to_nat 0 := o0]> real, <[Z.to_nat 0 := 0%R]> imag) = Some (real', imag') ∧
    cells hsize real' ∧ cells hsize imag' ∧
    rd real' 0 = Some o0 ∧ rd imag' 0 = Some 0%R ∧
    ∀ k, (1 ≤ k < hsize)%Z →
      rd real' k = rd outframe k ∧ rd imag' k = rd outframe (size - k).
Proof.
  intros Hh Hout Hre Him Ho0.
  assert (Hw0 : wr real 0 o0 = Some (<[Z.to_nat 0 := o0]> real))
    by (apply wr_in_bounds; unfold cells in Hre; lia).
  assert (Hw1 : wr imag 0 0%R = Some (<[Z.to_nat 0 := 0%R]> imag))
    by (apply wr_in_bounds; unfold cells in Him; lia).
  destruct (for_loop_from_1_inv
    (λ n '(re, im), cells hsize re ∧ cells hsize im ∧
       rd re 0 = Some o0 ∧ rd im 0 = Some 0%R ∧
       ∀ k, (1 ≤ k < n)%Z → rd re k = rd outframe k ∧ rd im k = rd outframe (size - k))
    hsize
    (λ k '(re, im), a ← rd outframe k; re ← wr re k a;
                    b ← rd outframe (size - k); im ← wr im k b; Some (re, im))
    (<[Z.to_nat 0 := o0]> real, <[Z.to_nat 0 := 0%R]> imag))
    as ([real' imag'] & Hrun & H); [lia| | |].
  - split_and!; [by apply cells_insert..| | |intros; lia].
    + by eapply rd_wr_eq.
    + by eapply rd_wr_eq.
  - intros n [re im] Hn (Hcre & Hcim & Hre0 & Him0 & Hv).
    destruct (rd_cells _ _ n Hout) as [a Ha]; [lia|].
    destruct (rd_cells _ _ (size - n) Hout) as [b Hb]; [lia|].
    assert (Hwa : wr re n a = Some (<[Z.to_nat n := a]> re))
      by (apply wr_in_bounds; unfold cells in Hcre; lia).
    assert (Hwb : wr im n b = Some (<[Z.to_nat n := b]> im))
      by (apply wr_in_bounds; unfold cells in Hcim; lia).
    exists (<[Z.to_nat n := a]> re, <[Z.to_nat n := b]> im).
    rewrite Ha. simpl. rewrite Hwa. simpl. rewrite Hb. simpl. rewrite Hwb. simpl.
    split; [done|]. split_and!; [by apply cells_insert..| | |].
    + rewrite (rd_wr_ne _ _ _ _ _ Hwa); [done|lia].
    + rewrite (rd_wr_ne _ _ _ _ _ Hwb); [done|lia].
    + intros k Hk. destruct (decide (k = n)) as [->|Hne].
      * rewrite (rd_wr_eq _ _ _ _ Hwa), (rd_wr_eq _ _ _ _ Hwb). by rewrite Ha, Hb.
      * rewrite (rd_wr_ne _ _ _ _ _ Hwa Hne), (rd_wr_ne _ _ _ _ _ Hwb Hne).
        apply Hv. lia.
  - exists real', imag'. by destruct H as (? & ? & ? & ? & ?).
Qed.

(** One bin of the analysis, with what it leaves untouched. *)
Lemma PVAnal_bin_step real imag overcount scale factor olaps hsize k lastPhase magn freq :
  cells hsize real → cells hsize imag → cells hsize lastPhase →
  table olaps hsize magn → table olaps hsize freq →
  (0 ≤ overcount < olaps)%Z → (0 ≤ k < hsize)%Z →
  ∃ re im last delta lastPhase' magn' freq',
    rd real k = Some re ∧ rd imag k = Some im ∧ rd lastPhase k = Some last ∧
    unwrap (MYATAN2 im re - last) = Some delta ∧
    PVAnal_bin real imag overcount scale factor k (lastPhase, magn, freq)
      = Some (lastPhase', magn', freq') ∧
    cells hsize lastPhase' ∧ table olaps hsize magn' ∧ table olaps hsize freq' ∧
    rd lastPhase' k = Some (MYATAN2 im re) ∧
    rd2 magn' overcount k = Some (sqrt (re * re + im * im)) ∧
    rd2 freq' overcount k = Some (PVAnal_true_freq scale factor k delta) ∧
    (∀ j, j ≠ k → rd lastPhase' j = rd lastPhase j) ∧
    (∀ i' k', (i', k') ≠ (overcount, k) → rd2 magn' i' k' = rd2 magn i' k') ∧
    (∀ i' k', (i', k') ≠ (overcount, k) → rd2 freq' i' k' = rd2 freq i' k').
Proof.
  intros Hre Him Hlp Hm Hf Ho Hk.
  destruct (rd_cells _ _ _ Hre Hk) as [re Hrd_re].
  destruct (rd_cells _ _ _ Him Hk) as [im Hrd_im].
  destruct (rd_cells _ _ _ Hlp Hk) as [last Hrd_last].
  destruct (unwrap_exits (MYATAN2 im re - last)) as (delta & Hun & _).
  destruct (wr2_table _ _ _ _ _ (sqrt (re * re + im * im)) Hm Ho Hk)
    as (magn' & Hwm & Hm' & Hrm & Hom).
  destruct (wr2_table _ _ _ _ _ (PVAnal_true_freq scale factor k delta) Hf Ho Hk)
    as (freq' & Hwf & Hf' & Hrf & Hof).
  assert (Hw : wr lastPhase k (MYATAN2 im re)
               = Some (<[Z.to_nat k := MYATAN2 im re]> lastPhase))
    by (apply wr_in_bounds; unfold cells in Hlp; lia).
  exists re, im, last, delta, (<[Z.to_nat k := MYATAN2 im re]> lastPhase), magn', freq'.
  split_and!; try done.
  - unfold PVAnal_bin. rewrite Hrd_re. simpl. rewrite Hrd_im. simpl.
    rewrite Hrd_last. simpl. rewrite Hw. simpl. rewrite Hun. simpl.
    rewrite Hwm. simpl. by rewrite Hwf.
  - by apply cells_insert.
  - by eapply rd_wr_eq.
  - intros j Hj. by eapply rd_wr_ne.
Qed.

(** The loop over the bins: what it stores in the current slot and in
    [lastPhase], and that the other slots are left alone. *)
Lemma PVAnal_bins_run real imag overcount scale factor olaps hsize lastPhase magn freq :
  cells hsize real → cells hsize imag → cells hsize lastPhase →
  table olaps hsize magn → table olaps hsize freq →
  (0 ≤ overcount < olaps)%Z → (0 ≤ hsize)%Z →
  ∃ lastPhase' magn' freq',
    for_loop hsize (PVAnal_bin real imag overcount scale factor) (lastPhase, magn, freq)
      = Some (lastPhase', magn', freq') ∧
    cells hsize lastPhase' ∧ table olaps hsize magn' ∧ table olaps hsize freq' ∧
    (∀ k, (0 ≤ k < hsize)%Z → ∃ re im last delta,
       rd real k = Some re ∧ rd imag k = Some im ∧ rd lastPhase k = Some last ∧
       unwrap (MYATAN2 im re - last) = Some delta ∧
       rd lastPhase' k = Some (MYATAN2 im re) ∧
       rd2 magn' overcount k = Some (sqrt (re * re + im * im)) ∧
       rd2 freq' overcount k = Some (PVAnal_true_freq scale factor k delta)) ∧
    (∀ i k, i ≠ overcount →
       rd2 magn' i k = rd2 magn i k ∧ rd2 freq' i k = rd2 freq i k).
Proof.
  intros Hre Him Hlp Hm Hf Ho Hh.
  destruct (for_loop_inv
    (λ n '(lp, m, f),
       cells hsize lp ∧ table olaps hsize m ∧ table olaps hsize f ∧
       (∀ k, (0 ≤ k < n)%Z → ∃ re im last delta,
          rd real k = Some re ∧ rd imag k = Some im ∧ rd lastPhase k = Some last ∧
          unwrap (MYATAN2 im re - last) = Some delta ∧
          rd lp k = Some (MYATAN2 im re) ∧
          rd2 m overcount k = Some (sqrt (re * re + im * im)) ∧
          rd2 f overcount k = Some (PVAnal_true_freq scale factor k delta)) ∧
       (∀ k, (n ≤ k)%Z → rd lp k = rd lastPhase k) ∧
       (∀ i k, i ≠ overcount → rd2 m i k = rd2 magn i k ∧ rd2 f i k = rd2 freq i k))
    hsize (PVAnal_bin real imag overcount scale factor) (lastPhase, magn, freq))
    as ([[lastPhase' magn'] freq'] & Hrun & H); [done| | |].
  - split_and!; [done..|intros; lia|done|done].
  - intros n [[lp m] f] Hn (Hclp & Htm & Htf & Hdone & Hrest & Hother).
    destruct (PVAnal_bin_step real imag overcount scale factor olaps hsize n lp m f)
      as (re & im & last & delta & lp' & m' & f' & Hre' & Him' & Hlast & Hun & Hbin &
          ? & ? & ? & Hlp' & Hm' & Hf' & Holp & Hom & Hof); [done..|].
    exists (lp', m', f'). split; [done|]. split_and!; [done..| | |].
    + intros k Hk. destruct (decide (k = n)) as [->|Hne].
      * exists re, im, last, delta. split_and!; try done.
        by rewrite <- Hrest by lia.
      * destruct (Hdone k) as (re' & im' & last' & delta' & ? & ? & ? & ? & ? & ? & ?);
          [lia|].
        exists re', im', last', delta'. split_and!; try done.
        -- by rewrite Holp.
        -- rewrite Hom; [done|]. intros [= ?]. done.
        -- rewrite Hof; [done|]. intros [= ?]. done.
    + intros k Hk. rewrite Holp by lia. apply Hrest. lia.
    + intros i k Hi. destruct (Hother i k Hi) as [<- <-].
      split; [apply Hom|apply Hof]; intros [= ? ?]; done.
  - exists lastPhase', magn', freq'. by destruct H as (? & ? & ? & ? & _ & ?).
Qed.

(** What [PVAnal_frame] leaves in every field of the analyser. *)
Lemma PVAnal_frame_run realfft_split input_buffer count self :
  PVAnal_wf self →
  cells (PVAnal.size self) input_buffer →
  cells (PVAnal.bufsize self) count →
  count_in_range (PVAnal.inputLatency self) (PVAnal.size self) count →
  ∃ self', PVAnal_frame realfft_split input_buffer count self = Some self' ∧
    PVAnal_wf self' ∧ PVAnal_same_config self self' ∧
    PVAnal.count self' = count ∧
    PVAnal_framed realfft_split input_buffer self self'.
Proof.
  intros [] Hib Hcount Hrange.
  pose proof (usable_config_facts _ _ _ _ _ anal_config0) as Hcfg.
  unfold PVAnal_frame.
  set (size := PVAnal.size self) in *. set (hsize := PVAnal.hsize self) in *.
  set (hopsize := PVAnal.hopsize self) in *. set (olaps := PVAnal.olaps self) in *.
  set (overcount := PVAnal.overcount self) in *.
  set (inputLatency := PVAnal.inputLatency self) in *.
  destruct (PVAnal_window_run size (hopsize * overcount) input_buffer
    (PVAnal.window self) (PVAnal.inframe self))
    as (inframe & -> & Hinframe & Hwindowed); [lia|nia|done..|].
  simpl.
  destruct (store_loop size (realfft_split inframe size) (PVAnal.outframe self))
    as (outframe & -> & Houtframe & Hout); [lia|done|].
  simpl.
  rewrite (Hout 0%Z) by lia. simpl.
  rewrite (wr_in_bounds (PVAnal.real self) 0%Z) by (unfold cells in *; lia). simpl.
  rewrite (wr_in_bounds (PVAnal.imag self) 0%Z) by (unfold cells in *; lia). simpl.
  destruct (PVAnal_unpack_run size hsize outframe (PVAnal.real self) (PVAnal.imag self)
    (realfft_split inframe size 0%Z))
    as (real & imag & -> & Hreal & Himag & Hre0 & Him0 & Hunpacked);
    [lia|done..|by apply Hout; lia|].
  simpl.
  destruct (PVAnal_bins_run real imag overcount (PVAnal.scale self) (PVAnal.factor self)
    olaps hsize (PVAnal.lastPhase self) (PVAnal.magn self) (PVAnal.freq self))
    as (lastPhase & magn & freq & -> & HlastPhase & Hmagn & Hfreq & Hbins & Hother);
    [done..|lia|].
  simpl.
  destruct (PVSynth_shift_run inputLatency hopsize input_buffer)
    as (input_buffer' & Hshift & Hib' & Hshifted & Hkept);
    [lia|lia|by replace (inputLatency + hopsize)%Z with size by lia|].
  unfold PVSynth_shift in Hshift. rewrite Hshift. simpl.
  replace (inputLatency + hopsize)%Z with size in Hib' by lia.
  eexists. split; [reflexivity|]. unfold PVAnal_framed. simpl.
  split_and!; try done.
  - split; simpl; try done; [lia|by apply next_overcount_range].
  - intros k Hk. destruct (Hbins k Hk)
      as (re & im & last & delta & Hre & Him & Hlast & Hun & Hlp & Hm & Hf).
    assert (re = realfft_split inframe size k) as ->.
    { destruct (decide (k = 0%Z)) as [->|Hne]; [congruence|].
      destruct (Hunpacked k) as [Hr _]; [lia|]. rewrite Hr, Hout in Hre by lia.
      congruence. }
    assert (im = if bool_decide (k = 0%Z) then 0%R
                 else realfft_split inframe size (size - k)%Z) as ->.
    { case_bool_decide as Hk0; [subst k; congruence|].
      destruct (Hunpacked k) as [_ Hi]; [lia|]. rewrite Hi, Hout in Him by lia.
      congruence. }
    by exists last, delta.
Qed.

(** One sample of the analyser: the counter is published, the sample is
    stored, and a frame is computed when the buffer is full. *)
Lemma PVAnal_sample_run realfft_split input i self :
  PVAnal_wf self → cells (PVAnal.bufsize self) input →
  (0 ≤ i < PVAnal.bufsize self)%Z →
  ∃ x self', rd input i = Some x ∧
    PVAnal_sample realfft_split input i self = Some self' ∧
    PVAnal_wf self' ∧ PVAnal_same_config self self' ∧
    PVAnal.count self' = <[Z.to_nat i := PVAnal.incount self]> (PVAnal.count self) ∧
    (((PVAnal.incount self + 1 < PVAnal.size self)%Z ∧
      PVAnal.incount self' = (PVAnal.incount self + 1)%Z ∧
      PVAnal.overcount self' = PVAnal.overcount self ∧
      PVAnal.input_buffer self'
        = <[Z.to_nat (PVAnal.incount self) := x]> (PVAnal.input_buffer self) ∧
      PVAnal.inframe self' = PVAnal.inframe self ∧
      PVAnal.lastPhase self' = PVAnal.lastPhase self ∧
      PVAnal.magn self' = PVAnal.magn self ∧ PVAnal.freq self' = PVAnal.freq self)
     ∨ ((PVAnal.incount self + 1 = PVAnal.size self)%Z ∧
        PVAnal_framed realfft_split
          (<[Z.to_nat (PVAnal.incount self) := x]> (PVAnal.input_buffer self))
          self self')).
Proof.
  intros Hwf Hinput Hi. pose proof Hwf as [].
  pose proof (usable_config_facts _ _ _ _ _ anal_config0) as Hcfg.
  destruct (rd_cells _ _ i Hinput Hi) as [x Hx]. exists x.
  unfold PVAnal_sample. rewrite Hx. simpl.
  assert (Hw1 : wr (PVAnal.input_buffer self) (PVAnal.incount self) x
                = Some (<[Z.to_nat (PVAnal.incount self) := x]> (PVAnal.input_buffer self)))
    by (apply wr_in_bounds; unfold cells in *; lia).
  assert (Hw2 : wr (PVAnal.count self) i (PVAnal.incount self)
                = Some (<[Z.to_nat i := PVAnal.incount self]> (PVAnal.count self)))
    by (apply wr_in_bounds; unfold cells in *; lia).
  rewrite Hw1. simpl. rewrite Hw2. simpl.
  assert (count_in_range (PVAnal.inputLatency self) (PVAnal.size self)
            (<[Z.to_nat i := PVAnal.incount self]> (PVAnal.count self)))
    by (eapply count_in_range_wr; [done| |done]; lia).
  destruct (Z.leb_spec (PVAnal.size self) (PVAnal.incount self + 1)) as [Hfull|Hroom].
  - destruct (PVAnal_frame_run realfft_split
      (<[Z.to_nat (PVAnal.incount self) := x]> (PVAnal.input_buffer self))
      (<[Z.to_nat i := PVAnal.incount self]> (PVAnal.count self)) self)
      as (self' & Hframe & ? & ? & ? & ?); [done|by apply cells_insert..|done|].
    exists self'. split_and!; try done. right. split; [lia|done].
  - eexists. split; [done|]. split; [reflexivity|]. simpl.
    split_and!; try done.
    + split; simpl; try done; [lia|by apply cells_insert..].
    + left. split_and!; (done || lia).
Qed.

Lemma PVAnal_same_config_refl self : PVAnal_same_config self self.
Proof. by repeat split. Qed.

Lemma PVAnal_same_config_trans a b c :
  PVAnal_same_config a b → PVAnal_same_config b c → PVAnal_same_config a c.
Proof.
  unfold PVAnal_same_config.
  intros (? & ? & ? & ? & ? & ? & ? & ? & ? & ? & ?) (? & ? & ? & ? & ? & ? & ? & ? & ? & ? & ?).
  split_and!; congruence.
Qed.

(** ** The counter of the analyser in closed form *)

(** X1: over a block, the analyser publishes the counter
    [inputLatency + (incount - inputLatency + i) mod hopsize] at sample
    [i]; it leaves [incount] at the value that continues this sequence
    into the next block, and it has advanced the overlap slot once for
    every [hopsize] samples, modulo [olaps]. *)
Theorem PVAnal_process_counter realfft_split input self :
  PVAnal_wf self → cells (PVAnal.bufsize self) input →
  ∃ self', PVAnal_process realfft_split input self = Some self' ∧
    (∀ i, (0 ≤ i < PVAnal.bufsize self)%Z →
       rd (PVAnal.count self') i
       = Some (PVAnal.inputLatency self
               + (PVAnal.incount self - PVAnal.inputLatency self + i)
                   `mod` PVAnal.hopsize self)%Z) ∧
    PVAnal.incount self'
    = (PVAnal.inputLatency self
       + (PVAnal.incount self - PVAnal.inputLatency self + PVAnal.bufsize self)
           `mod` PVAnal.hopsize self)%Z ∧
    PVAnal.overcount self'
    = ((PVAnal.overcount self
        + (PVAnal.incount self - PVAnal.inputLatency self + PVAnal.bufsize self)
            `div` PVAnal.hopsize self) `mod` PVAnal.olaps self)%Z.
Proof.
  intros Hwf Hinput. pose proof Hwf as [].
  pose proof (usable_config_facts _ _ _ _ _ anal_config0) as Hcfg.
  set (L := PVAnal.inputLatency self) in *. set (hop := PVAnal.hopsize self) in *.
  set (x0 := (PVAnal.incount self - L)%Z).
  set (olaps := PVAnal.olaps self) in *. set (oc0 := PVAnal.overcount self) in *.
  unfold PVAnal_process.
  destruct (for_loop_inv
    (λ i s, PVAnal_wf s ∧ PVAnal_same_config self s ∧
       PVAnal.incount s = (L + (x0 + i) `mod` hop)%Z ∧
       PVAnal.overcount s = ((oc0 + (x0 + i) `div` hop) `mod` olaps)%Z ∧
       ∀ j, (0 ≤ j < i)%Z → rd (PVAnal.count s) j = Some (L + (x0 + j) `mod` hop)%Z)
    (PVAnal.bufsize self) (PVAnal_sample realfft_split input) self)
    as (self' & Hrun & _ & _ & Hin & Hov & Hcount); [done| | |].
  - split_and!; [done|apply PVAnal_same_config_refl| | |intros; lia].
    + rewrite Z.add_0_r, Z.mod_small by (unfold x0; lia). unfold x0. lia.
    + rewrite Z.add_0_r, Z.div_small by (unfold x0; lia).
      rewrite Z.add_0_r, Z.mod_small by lia. done.
  - intros i s Hi (Hs & Hsame & Hin & Hov & Hcount).
    pose proof Hsame as (Hbuf & _ & Hsize & Holaps & _ & Hhop & _ & HL & _).
    destruct (PVAnal_sample_run realfft_split input i s)
      as (x & s' & _ & Hsample & Hs' & Hsame' & Hc' & Hcase);
      [done|by rewrite Hbuf..|].
    exists s'. split; [done|].
    assert (Hw : wr (PVAnal.count s) i (PVAnal.incount s) = Some (PVAnal.count s')).
    { rewrite Hc'. apply wr_in_bounds. destruct Hs. unfold cells in *. lia. }
    assert (Hpos : (0 ≤ x0 + i)%Z) by (unfold x0; lia).
    pose proof (Z.mod_pos_bound (x0 + i) hop ltac:(lia)) as Hmod.
    assert (Hcount' : ∀ j, (0 ≤ j < i + 1)%Z →
              rd (PVAnal.count s') j = Some (L + (x0 + j) `mod` hop)%Z).
    { intros j Hj. destruct (decide (j = i)) as [->|Hne].
      - rewrite (rd_wr_eq _ _ _ _ Hw). by rewrite Hin.
      - rewrite (rd_wr_ne _ _ _ _ _ Hw Hne). apply Hcount. lia. }
    split_and!; [done|by eapply PVAnal_same_config_trans| | |done].
    + destruct Hcase as [(Hroom & -> & _)|[Hfull (Hin' & _)]].
      * rewrite Hin. replace (x0 + (i + 1))%Z with (x0 + i + 1)%Z by lia.
        destruct (mod_succ_inside hop (x0 + i)) as [-> _]; lia.
      * rewrite Hin', HL. replace (x0 + (i + 1))%Z with (x0 + i + 1)%Z by lia.
        destruct (mod_succ_wrap hop (x0 + i)) as [-> _]; lia.
    + destruct Hcase as [(Hroom & _ & -> & _)|[Hfull (_ & Hov' & _)]].
      * rewrite Hov. replace (x0 + (i + 1))%Z with (x0 + i + 1)%Z by lia.
        destruct (mod_succ_inside hop (x0 + i)) as [_ ->]; [lia..|done].
      * rewrite Hov', Hov, Holaps. fold olaps.
        rewrite next_overcount_mod by lia.
        replace (x0 + (i + 1))%Z with (x0 + i + 1)%Z by lia.
        destruct (mod_succ_wrap hop (x0 + i)) as [_ ->]; [lia..|].
        f_equal. lia.
  - exists self'. split_and!; done.
Qed.

Lemma PVAnal_process_counter_sample :
  PVAnal_wf sample_anal_running ∧ cells 2 [1; 0]%R ∧
  ∃ self', PVAnal_process (λ _ _ _, 0%R) [1; 0]%R sample_anal_running = Some self' ∧
    rd (PVAnal.count self') 0 = Some 3%Z ∧ rd (PVAnal.count self') 1 = Some 2%Z ∧
    PVAnal.incount self' = 3%Z ∧ PVAnal.overcount self' = 0%Z.
Proof.
  split; [apply sample_anal_running_wf|]. split; [reflexivity|].
  destruct (PVAnal_process_counter (λ _ _ _, 0%R) [1; 0]%R sample_anal_running
    sample_anal_running_wf eq_refl) as (self' & Hrun & Hcount & Hin & Hov).
  exists self'. split; [exact Hrun|].
  rewrite (Hcount 0%Z), (Hcount 1%Z) by (simpl; lia).
  split; [reflexivity|]. split; [reflexivity|]. split; [exact Hin|exact Hov].
Defined.

(** ** The sliding window of the analyser *)

Lemma sample_at_app_l signal l t :
  (t < Z.of_nat (length signal))%Z → sample_at (signal ++ l) t = sample_at signal t.
Proof.
  intros Ht. unfold sample_at, rd. case_bool_decide; [|done].
  by rewrite lookup_app_l by lia.
Qed.

Lemma sample_at_snoc signal x :
  sample_at (signal ++ [x]) (Z.of_nat (length signal)) = x.
Proof.
  unfold sample_at, rd. rewrite bool_decide_eq_true_2 by lia.
  rewrite Nat2Z.id, lookup_app_r by lia. by rewrite Nat.sub_diag.
Qed.

Lemma prev_next_overcount overcount olaps :
  (0 ≤ overcount < olaps)%Z →
  ((next_overcount overcount olaps + olaps - 1) `mod` olaps = overcount)%Z.
Proof.
  intros Ho. unfold next_overcount. destruct (Z.leb_spec olaps (overcount + 1)).
  - rewrite Z.mod_small by lia. lia.
  - replace (overcount + 1 + olaps - 1)%Z with (overcount + 1 * olaps)%Z by lia.
    rewrite Z.mod_add by lia. apply Z.mod_small. lia.
Qed.

(** One more sample keeps the window. *)
Lemma PVAnal_sample_holds realfft_split input i self signal :
  PVAnal_wf self → cells (PVAnal.bufsize self) input →
  (0 ≤ i < PVAnal.bufsize self)%Z →
  PVAnal_holds signal self →
  ∃ x self', rd input i = Some x ∧
    PVAnal_sample realfft_split input i self = Some self' ∧
    PVAnal_wf self' ∧ PVAnal_same_config self self' ∧
    PVAnal_holds (signal ++ [x]) self'.
Proof.
  intros Hwf Hinput Hi [Hbuf Hfr]. pose proof Hwf as [].
  pose proof (usable_config_facts _ _ _ _ _ anal_config0) as Hcfg.
  destruct (PVAnal_sample_run realfft_split input i self)
    as (x & self' & Hx & Hsample & Hwf' & Hsame & _ & Hcase); [done..|].
  exists x, self'. split_and!; [done..|].
  pose proof Hsame as (_ & _ & Hsize & Holaps & _ & Hhop & _ & HL & _ & _ & Hwin).
  assert (Hw : wr (PVAnal.input_buffer self) (PVAnal.incount self) x
               = Some (<[Z.to_nat (PVAnal.incount self) := x]> (PVAnal.input_buffer self)))
    by (apply wr_in_bounds; unfold cells in *; lia).
  set (n := Z.of_nat (length signal)) in *.
  assert (Hn : Z.of_nat (length (signal ++ [x])) = (n + 1)%Z)
    by (rewrite length_app; simpl; lia).
  assert (Hfull : ∀ j, (0 ≤ j < PVAnal.incount self + 1)%Z →
            rd (<[Z.to_nat (PVAnal.incount self) := x]> (PVAnal.input_buffer self)) j
            = Some (sample_at (signal ++ [x]) (n + 1 - (PVAnal.incount self + 1) + j))).
  { intros j Hj. destruct (decide (j = PVAnal.incount self)) as [->|Hne].
    - rewrite (rd_wr_eq _ _ _ _ Hw). f_equal.
      replace (n + 1 - (PVAnal.incount self + 1) + PVAnal.incount self)%Z with n by lia.
      symmetry. apply sample_at_snoc.
    - rewrite (rd_wr_ne _ _ _ _ _ Hw Hne), Hbuf by lia. f_equal.
      rewrite sample_at_app_l by (fold n; lia). f_equal. lia. }
  unfold PVAnal_holds. rewrite Hn. simpl.
  destruct Hcase as [(Hroom & Hin & Hov & Hib & Hinfr & _)|
                     [Hedge (Hin & Hov & Hwindowed & Hshifted & _)]].
  - rewrite Hin, Hib, Hinfr, Hov, Hsize, Holaps, Hhop, HL, Hwin. split; [done|].
    intros Ht k Hk.
    destruct (Hfr ltac:(lia) k Hk) as (w & ? & Hr). exists w. split; [done|].
    replace (n + 1 - (PVAnal.incount self + 1 - PVAnal.inputLatency self))%Z
      with (n - (PVAnal.incount self - PVAnal.inputLatency self))%Z by lia.
    rewrite Hr. do 2 f_equal. symmetry. apply sample_at_app_l. fold n. lia.
  - rewrite Hin, Hov, Hsize, Holaps, Hhop, HL, Hwin. split.
    + intros j Hj. rewrite Hshifted, Hfull by lia. do 2 f_equal. lia.
    + intros _ k Hk. rewrite prev_next_overcount by done.
      destruct (Hwindowed k Hk) as (x' & w & Hx' & ? & ->). exists w. split; [done|].
      rewrite Hfull in Hx' by lia. injection Hx' as <-. do 3 f_equal. lia.
Qed.

(** A whole block keeps the window. *)
Lemma PVAnal_process_holds realfft_split input self signal :
  PVAnal_wf self → cells (PVAnal.bufsize self) input →
  PVAnal_holds signal self →
  ∃ self', PVAnal_process realfft_split input self = Some self' ∧
    PVAnal_wf self' ∧ PVAnal_same_config self self' ∧
    PVAnal_holds (signal ++ input) self'.
Proof.
  intros Hwf Hinput Hholds. unfold PVAnal_process.
  destruct (for_loop_inv
    (λ i s, PVAnal_wf s ∧ PVAnal_same_config self s ∧
            PVAnal_holds (signal ++ take (Z.to_nat i) input) s)
    (PVAnal.bufsize self) (PVAnal_sample realfft_split input) self)
    as (self' & Hrun & Hwf' & Hsame & Hholds'); [by destruct Hwf| | |].
  - split_and!; [done|apply PVAnal_same_config_refl|].
    simpl. by rewrite app_nil_r.
  - intros i s Hi (Hs & Hsame & Hh).
    pose proof Hsame as (Hbuf & _).
    destruct (PVAnal_sample_holds realfft_split input i s
                (signal ++ take (Z.to_nat i) input) Hs)
      as (x & s' & Hx & Hsample & Hs' & Hsame' & Hh'); [by rewrite Hbuf..|done|].
    exists s'. split; [done|]. split_and!; [done|by eapply PVAnal_same_config_trans|].
    replace (Z.to_nat (i + 1)) with (S (Z.to_nat i)) by lia.
    unfold rd in Hx. rewrite bool_decide_eq_true_2 in Hx by lia.
    rewrite (take_S_r _ _ _ Hx), app_assoc. done.
  - exists self'. split_and!; [done..|].
    rewrite firstn_all2 in Hholds'; [done|]. unfold cells in Hinput. lia.
Qed.

Lemma PVAnal_run_holds realfft_split blocks : ∀ self signal,
  PVAnal_wf self → Forall (cells (PVAnal.bufsize self)) blocks →
  PVAnal_holds signal self →
  ∃ self', PVAnal_run realfft_split blocks self = Some self' ∧
    PVAnal_wf self' ∧ PVAnal_same_config self self' ∧
    PVAnal_holds (signal ++ concat blocks) self'.
Proof.
  induction blocks as [|input blocks IH]; intros self signal Hwf Hblocks Hholds; simpl.
  - exists self. rewrite app_nil_r. split_and!; [done..|apply PVAnal_same_config_refl|done].
  - inversion Hblocks as [|? ? Hinput Hblocks']; subst.
    destruct (PVAnal_process_holds realfft_split input self signal)
      as (self1 & -> & Hwf1 & Hsame1 & Hholds1); [done..|].
    simpl. pose proof Hsame1 as (Hbuf & _).
    destruct (IH self1 (signal ++ input)) as (self' & ? & ? & ? & ?);
      [done|by rewrite Hbuf|done|].
    exists self'. rewrite app_assoc.
    split_and!; [done..|by eapply PVAnal_same_config_trans|done].
Qed.

(** What reconfiguration leaves in every field. *)
Lemma PVAnal_realloc_memories_fresh gen_window self :
  (2 ≤ PVAnal.size self)%Z → (1 ≤ PVAnal.olaps self ≤ PVAnal.size self)%Z →
  (0 ≤ PVAnal.bufsize self)%Z → cells (PVAnal.bufsize self) (PVAnal.count self) →
  ∃ self', PVAnal_realloc_memories gen_window self = Some self' ∧
    PVAnal_wf self' ∧
    PVAnal.size self' = PVAnal.size self ∧ PVAnal.olaps self' = PVAnal.olaps self ∧
    PVAnal.bufsize self' = PVAnal.bufsize self ∧ PVAnal.sr self' = PVAnal.sr self ∧
    PVAnal.wintype self' = PVAnal.wintype self ∧
    PVAnal.incount self' = PVAnal.inputLatency self' ∧
    PVAnal.overcount self' = 0%Z ∧
    PVAnal.input_buffer self' = filled (PVAnal.size self) 0%R ∧
    PVAnal.lastPhase self' = filled (PVAnal.hsize self') 0%R ∧
    PVAnal.window self'
      = tabulate (PVAnal.size self) (gen_window (PVAnal.size self) (PVAnal.wintype self)) ∧
    PVAnal.magn self' = filled (PVAnal.olaps self) (filled (PVAnal.hsize self') 0%R) ∧
    PVAnal.freq self' = filled (PVAnal.olaps self) (filled (PVAnal.hsize self') 0%R) ∧
    ∀ i, (0 ≤ i < PVAnal.bufsize self)%Z →
      rd (PVAnal.count self') i = Some (PVAnal.inputLatency self').
Proof.
  intros Hsize Holaps Hbuf Hcount.
  destruct (PVAnal_realloc_memories_wf gen_window self)
    as (self' & Hrun & Hwf & ? & ? & ? & ? & ? & ?); [done..|].
  exists self'. split_and!; try done.
  all: revert Hrun; unfold PVAnal_realloc_memories;
    destruct (int_div _ 2) as [hsize|]; [simpl|done];
    destruct (int_div _ _) as [hopsize|]; [simpl|done];
    destruct (for_loop _ _ _) as [count'|]; [simpl|done];
    by intros [= <-].
Qed.

(** X2: started from a reconfiguration and fed the blocks of a signal,
    the analyser keeps the most recent [incount] samples at the start of
    its input buffer (the signal counts as silent before its first
    sample); and once [hopsize] samples have come in, the frame handed to
    the transform holds the [size] samples that ended at the last frame
    edge [t], sample [k] multiplied by [window[k]] and stored at
    [(k + hopsize * slot) % size], where [slot] is the overlap slot of that
    frame. *)
Theorem PVAnal_run_window gen_window realfft_split (anal : PVAnal.t) blocks :
  (2 ≤ PVAnal.size anal)%Z → (1 ≤ PVAnal.olaps anal ≤ PVAnal.size anal)%Z →
  (0 ≤ PVAnal.bufsize anal)%Z → cells (PVAnal.bufsize anal) (PVAnal.count anal) →
  Forall (cells (PVAnal.bufsize anal)) blocks →
  ∃ anal0 anal' n t,
    PVAnal_realloc_memories gen_window anal = Some anal0 ∧
    PVAnal_run realfft_split blocks anal0 = Some anal' ∧
    n = Z.of_nat (length (concat blocks)) ∧
    t = (n - (PVAnal.incount anal' - PVAnal.inputLatency anal0))%Z ∧
    (∀ j, (0 ≤ j < PVAnal.incount anal')%Z →
       rd (PVAnal.input_buffer anal') j
       = Some (sample_at (concat blocks) (n - PVAnal.incount anal' + j))) ∧
    ((PVAnal.hopsize anal0 ≤ t)%Z →
     ∀ k, (0 ≤ k < PVAnal.size anal)%Z →
       rd (PVAnal.inframe anal')
          ((k + PVAnal.hopsize anal0
                * ((PVAnal.overcount anal' + PVAnal.olaps anal - 1)
                     `mod` PVAnal.olaps anal))
           `rem` PVAnal.size anal)
       = Some (sample_at (concat blocks) (t - PVAnal.size anal + k)
               * gen_window (PVAnal.size anal) (PVAnal.wintype anal) k)%R).
Proof.
  intros Hsize Holaps Hbuf Hcount Hblocks.
  destruct (PVAnal_realloc_memories_fresh gen_window anal)
    as (anal0 & Hre & Hwf0 & Hsize0 & Holaps0 & Hbuf0 & _ & _ & Hin0 & _ & Hib0 & _ &
        Hwin0 & _); [done..|].
  pose proof Hwf0 as [].
  pose proof (usable_config_facts _ _ _ _ _ anal_config0) as Hcfg.
  destruct (PVAnal_run_holds realfft_split blocks anal0 [])
    as (anal' & Hrun & Hwf' & Hsame & [Hrecent Hframe]);
    [done|by rewrite Hbuf0| |].
  { split; simpl.
    - intros j Hj. rewrite Hib0, rd_filled by lia. f_equal.
      unfold sample_at, rd. case_bool_decide; [|done]. by rewrite lookup_nil.
    - intros Ht. lia. }
  simpl in Hrecent, Hframe.
  pose proof Hsame as (_ & _ & Hsize' & Holaps' & _ & Hhop' & _ & HL' & _ & _ & Hwin').
  exists anal0, anal', (Z.of_nat (length (concat blocks))),
    (Z.of_nat (length (concat blocks))
     - (PVAnal.incount anal' - PVAnal.inputLatency anal0))%Z.
  split_and!; [done..| |].
  - intros j Hj. by apply Hrecent.
  - intros Ht k Hk. rewrite HL', Hhop', Hsize', Holaps', Hsize0, Holaps0 in Hframe.
    destruct (Hframe Ht k Hk) as (w & Hw & ->). do 2 f_equal.
    rewrite Hwin', Hwin0, rd_tabulate in Hw by lia. congruence.
Qed.

Lemma PVAnal_run_window_sample :
  (2 ≤ PVAnal.size sample_anal)%Z ∧
  (1 ≤ PVAnal.olaps sample_anal ≤ PVAnal.size sample_anal)%Z ∧
  (0 ≤ PVAnal.bufsize sample_anal)%Z ∧
  cells (PVAnal.bufsize sample_anal) (PVAnal.count sample_anal) ∧
  Forall (cells (PVAnal.bufsize sample_anal)) [[1; 2]; [3; 4]; [5; 6]]%R ∧
  ∃ anal0 anal' n t,
    PVAnal_realloc_memories (λ _ _ _, 1%R) sample_anal = Some anal0 ∧
    PVAnal_run (λ _ _ _, 0%R) [[1; 2]; [3; 4]; [5; 6]]%R anal0 = Some anal' ∧
    n = 6%Z ∧ t = (n - (PVAnal.incount anal' - PVAnal.inputLatency anal0))%Z ∧
    ∀ j, (0 ≤ j < PVAnal.incount anal')%Z →
      rd (PVAnal.input_buffer anal') j
      = Some (sample_at [1; 2; 3; 4; 5; 6]%R (n - PVAnal.incount anal' + j)).
Proof.
  assert (H1 : (2 ≤ PVAnal.size sample_anal)%Z) by (simpl; lia).
  assert (H2 : (1 ≤ PVAnal.olaps sample_anal ≤ PVAnal.size sample_anal)%Z)
    by (simpl; lia).
  assert (H3 : (0 ≤ PVAnal.bufsize sample_anal)%Z) by (simpl; lia).
  assert (H4 : cells (PVAnal.bufsize sample_anal) (PVAnal.count sample_anal))
    by reflexivity.
  assert (H5 : Forall (cells (PVAnal.bufsize sample_anal)) [[1; 2]; [3; 4]; [5; 6]]%R)
    by (repeat constructor).
  split_and!; [done..|].
  destruct (PVAnal_run_window (λ _ _ _, 1%R) (λ _ _ _, 0%R) sample_anal
    [[1; 2]; [3; 4]; [5; 6]]%R H1 H2 H3 H4 H5)
    as (anal0 & anal' & n & t & Hre & Hrun & Hn & Ht & Hrecent & _).
  exists anal0, anal', n, t. split_and!; [exact Hre|exact Hrun|exact Hn|exact Ht|].
  exact Hrecent.
Defined.

(** ** Silence *)

Lemma rd2_table_bounds olaps hsize t i k v :
  table olaps hsize t → rd2 t i k = Some v → (0 ≤ i < olaps)%Z ∧ (0 ≤ k < hsize)%Z.
Proof.
  intros [Hc Hrows] (row & Hrow & Hv)%rd2_Some_inv.
  pose proof (rd_Some_bounds _ _ _ Hrow). pose proof (rd_Some_bounds _ _ _ Hv).
  specialize (Hrows _ _ Hrow). unfold cells in *. lia.
Qed.

Lemma rotation_onto size mod_ j :
  (0 < size)%Z → (0 ≤ mod_)%Z → (0 ≤ j < size)%Z →
  ∃ k, (0 ≤ k < size)%Z ∧ ((k + mod_) `rem` size = j)%Z.
Proof.
  intros Hs Hm Hj. exists ((j - mod_) `mod` size)%Z.
  pose proof (Z.mod_pos_bound (j - mod_) size Hs). split; [lia|].
  rewrite Z.rem_mod_nonneg by lia.
  rewrite Zplus_mod_idemp_l. replace (j - mod_ + mod_)%Z with j by lia.
  apply Z.mod_small. lia.
Qed.

Lemma all_zero_filled n : all_zero (filled n 0%R).
Proof. intros j v Hv. by eapply rd_filled_inv. Qed.

Lemma all_zero2_filled olaps hsize : all_zero2 (filled olaps (filled hsize 0%R)).
Proof.
  intros i k v (row & Hrow & Hv)%rd2_Some_inv.
  apply rd_filled_inv in Hrow as ->. by eapply rd_filled_inv.
Qed.

Lemma all_zero_insert a i : all_zero a → all_zero (<[i := 0%R]> a).
Proof.
  intros Ha j v Hv. unfold rd in Hv. case_bool_decide; [|done].
  destruct (decide (i = Z.to_nat j)) as [->|Hne].
  - apply list_lookup_insert_Some in Hv as [(_ & ? & _)|[? _]]; done.
  - rewrite list_lookup_insert_ne in Hv by done.
    apply (Ha j). unfold rd. by rewrite bool_decide_eq_true_2.
Qed.

(** One sample of silence keeps the analyser silent. *)
Lemma PVAnal_sample_silent realfft_split input i self :
  zero_to_zero realfft_split →
  PVAnal_wf self → cells (PVAnal.bufsize self) input → all_zero input →
  (0 ≤ i < PVAnal.bufsize self)%Z →
  PVAnal_silent self →
  ∃ self', PVAnal_sample realfft_split input i self = Some self' ∧
    PVAnal_wf self' ∧ PVAnal_same_config self self' ∧ PVAnal_silent self'.
Proof.
  intros Hrf Hwf Hinput Hzero Hi (Hib & Hlp & Hm & Hf). pose proof Hwf as [].
  pose proof (usable_config_facts _ _ _ _ _ anal_config0) as Hcfg.
  destruct (PVAnal_sample_run realfft_split input i self)
    as (x & self' & Hx & Hsample & Hwf' & Hsame & _ & Hcase); [done..|].
  apply Hzero in Hx as ->.
  exists self'. split_and!; [done..|].
  pose proof Hsame as (_ & Hsr & Hsize & Holaps & Hhsize & Hhop & _ & HL & _).
  unfold PVAnal_silent. rewrite Hsr, Hsize.
  destruct Hcase as [(_ & _ & _ & -> & _ & -> & -> & ->)|
                     [_ (_ & _ & Hwindowed & Hshifted & Hkept & Hbins & Hother)]].
  { split_and!; [by apply all_zero_insert|done..]. }
  pose proof (all_zero_insert _ (Z.to_nat (PVAnal.incount self)) Hib) as Hib1.
  pose proof Hwf' as [? ? ? ? ? ? Hcinframe ? ? ? ? Hclp Htm Htf ? ? ?].
  rewrite Hsize, Hhsize, Holaps in *.
  assert (Hinframe : all_zero (PVAnal.inframe self')).
  { intros j v Hv. pose proof (rd_Some_bounds _ _ _ Hv) as Hj.
    destruct (rotation_onto (PVAnal.size self)
      (PVAnal.hopsize self * PVAnal.overcount self) j) as (k & Hk & Hkj);
      [lia|nia|unfold cells in Hcinframe; lia|].
    destruct (Hwindowed k Hk) as (x & w & Hx & _ & Hr).
    rewrite Hkj, Hv in Hr. injection Hr as ->.
    apply Hib1 in Hx as ->. lra. }
  assert (Hbin : ∀ k, (0 ≤ k < PVAnal.hsize self)%Z →
            rd (PVAnal.lastPhase self') k = Some 0%R ∧
            rd2 (PVAnal.magn self') (PVAnal.overcount self) k = Some 0%R ∧
            rd2 (PVAnal.freq self') (PVAnal.overcount self) k
              = Some (IZR k * PVAnal.sr self / IZR (PVAnal.size self))%R).
  { intros k Hk. destruct (Hbins k Hk) as (last & delta & Hlast & Hun & Hlp' & Hm' & Hf').
    simpl in Hun, Hlp', Hm'.
    rewrite (Hrf _ _ k Hinframe) in Hun, Hlp', Hm'.
    assert (Him : (if bool_decide (k = 0%Z) then 0%R
                   else realfft_split (PVAnal.inframe self') (PVAnal.size self)
                          (PVAnal.size self - k)%Z) = 0%R)
      by (case_bool_decide; [done|by apply Hrf]).
    rewrite Him in Hun, Hlp', Hm'. apply Hlp in Hlast as ->.
    rewrite MYATAN2_0_0 in Hun, Hlp'.
    replace (0 - 0)%R with 0%R in Hun by lra.
    rewrite unwrap_id in Hun by (pose proof PI_RGT_0; lra). injection Hun as <-.
    replace (0 * 0 + 0 * 0)%R with 0%R in Hm' by lra. rewrite sqrt_0 in Hm'.
    split_and!; [done..|]. rewrite Hf'. f_equal.
    unfold PVAnal_true_freq. rewrite anal_factor0, anal_scale0.
    assert (IZR (PVAnal.hopsize self) ≠ 0%R) by (apply not_0_IZR; lia).
    assert (IZR (PVAnal.size self) ≠ 0%R) by (apply not_0_IZR; lia).
    pose proof TWOPI_pos. field. split_and!; (done || lra). }
  split_and!.
  - intros j v Hv. destruct (Z.lt_ge_cases j (PVAnal.inputLatency self)).
    + pose proof (rd_Some_bounds _ _ _ Hv). rewrite Hshifted in Hv by lia.
      by apply Hib1 in Hv.
    + rewrite Hkept in Hv by lia. by apply Hib1 in Hv.
  - intros k v Hv. pose proof (rd_Some_bounds _ _ _ Hv).
    destruct (Hbin k) as (Hk & _); [unfold cells in Hclp; lia|]. congruence.
  - intros o k v Hv. destruct (rd2_table_bounds _ _ _ _ _ _ Htm Hv) as [_ Hk].
    destruct (decide (o = PVAnal.overcount self)) as [->|Hne].
    + destruct (Hbin k Hk) as (_ & Hk' & _). congruence.
    + destruct (Hother o k Hne) as [Ho _]. rewrite Ho in Hv. by eapply Hm.
  - intros o k v Hv. destruct (rd2_table_bounds _ _ _ _ _ _ Htf Hv) as [_ Hk].
    destruct (decide (o = PVAnal.overcount self)) as [->|Hne].
    + destruct (Hbin k Hk) as (_ & _ & Hk'). right. congruence.
    + destruct (Hother o k Hne) as [_ Ho]. rewrite Ho in Hv. by eapply Hf.
Qed.

Lemma PVAnal_process_silent realfft_split input self :
  zero_to_zero realfft_split →
  PVAnal_wf self → cells (PVAnal.bufsize self) input → all_zero input →
  PVAnal_silent self →
  ∃ self', PVAnal_process realfft_split input self = Some self' ∧
    PVAnal_wf self' ∧ PVAnal_same_config self self' ∧ PVAnal_silent self'.
Proof.
  intros Hrf Hwf Hinput Hzero Hsilent. unfold PVAnal_process.
  apply (for_loop_inv
    (λ _ s, PVAnal_wf s ∧ PVAnal_same_config self s ∧ PVAnal_silent s));
    [by destruct Hwf| |].
  - split_and!; [done|apply PVAnal_same_config_refl|done].
  - intros i s Hi (Hs & Hsame & Hsil). pose proof Hsame as (Hbuf & _).
    destruct (PVAnal_sample_silent realfft_split input i s)
      as (s' & ? & ? & ? & ?); [done..|by rewrite Hbuf|done|by rewrite Hbuf|done|].
    exists s'. split_and!; [done..|by eapply PVAnal_same_config_trans|done].
Qed.

(** ** What a frame of the synthesiser computes *)

Lemma PVSynth_same_config_refl self : PVSynth_same_config self self.
Proof. by repeat split. Qed.

Lemma PVSynth_same_config_trans a b c :
  PVSynth_same_config a b → PVSynth_same_config b c → PVSynth_same_config a c.
Proof.
  unfold PVSynth_same_config.
  intros (? & ? & ? & ? & ? & ? & ? & ? & ? & ? & ? & ?)
         (? & ? & ? & ? & ? & ? & ? & ? & ? & ? & ? & ?).
  split_and!; congruence.
Qed.

(** One bin of the synthesis, with what it leaves untouched. *)
Lemma PVSynth_bin_step magn freq overcount scale factor olaps hsize k sumPhase real imag :
  table olaps hsize magn → table olaps hsize freq →
  cells hsize sumPhase → cells hsize real → cells hsize imag →
  (0 ≤ overcount < olaps)%Z → (0 ≤ k < hsize)%Z →
  ∃ mag f acc sumPhase' real' imag',
    rd2 magn overcount k = Some mag ∧ rd2 freq overcount k = Some f ∧
    rd sumPhase k = Some acc ∧
    PVSynth_bin magn freq overcount scale factor k (sumPhase, real, imag)
      = Some (sumPhase', real', imag') ∧
    cells hsize sumPhase' ∧ cells hsize real' ∧ cells hsize imag' ∧
    rd sumPhase' k = Some (acc + PVSynth_phase_increment scale factor k f)%R ∧
    rd real' k = Some (mag * cos (acc + PVSynth_phase_increment scale factor k f))%R ∧
    rd imag' k = Some (mag * sin (acc + PVSynth_phase_increment scale factor k f))%R ∧
    (∀ j, j ≠ k → rd sumPhase' j = rd sumPhase j ∧ rd real' j = rd real j ∧
                  rd imag' j = rd imag j).
Proof.
  intros Hm Hf Hsp Hre Him Ho Hk.
  destruct (rd2_table _ _ _ _ _ Hm Ho Hk) as [mag Hmag].
  destruct (rd2_table _ _ _ _ _ Hf Ho Hk) as [f Hfr].
  destruct (rd_cells _ _ _ Hsp Hk) as [acc Hacc].
  set (phase := (acc + PVSynth_phase_increment scale factor k f)%R).
  assert (Hw1 : wr sumPhase k phase = Some (<[Z.to_nat k := phase]> sumPhase))
    by (apply wr_in_bounds; unfold cells in Hsp; lia).
  assert (Hw2 : wr real k (mag * cos phase)%R
                = Some (<[Z.to_nat k := (mag * cos phase)%R]> real))
    by (apply wr_in_bounds; unfold cells in Hre; lia).
  assert (Hw3 : wr imag k (mag * sin phase)%R
                = Some (<[Z.to_nat k := (mag * sin phase)%R]> imag))
    by (apply wr_in_bounds; unfold cells in Him; lia).
  exists mag, f, acc, (<[Z.to_nat k := phase]> sumPhase),
    (<[Z.to_nat k := (mag * cos phase)%R]> real),
    (<[Z.to_nat k := (mag * sin phase)%R]> imag).
  split_and!; try done.
  - unfold PVSynth_bin. rewrite Hmag. simpl. rewrite Hfr. simpl. rewrite Hacc. simpl.
    fold phase. rewrite Hw1. simpl. rewrite (rd_wr_eq _ _ _ _ Hw1). simpl.
    rewrite Hw2. simpl. by rewrite Hw3.
  - by apply cells_insert.
  - by apply cells_insert.
  - by apply cells_insert.
  - by eapply rd_wr_eq.
  - by eapply rd_wr_eq.
  - by eapply rd_wr_eq.
  - intros j Hj. split_and!; by eapply rd_wr_ne.
Qed.

Lemma PVSynth_bins_run magn freq overcount scale factor olaps hsize sumPhase real imag :
  table olaps hsize magn → table olaps hsize freq →
  cells hsize sumPhase → cells hsize real → cells hsize imag →
  (0 ≤ overcount < olaps)%Z → (0 ≤ hsize)%Z →
  ∃ sumPhase' real' imag',
    for_loop hsize (PVSynth_bin magn freq overcount scale factor) (sumPhase, real, imag)
      = Some (sumPhase', real', imag') ∧
    cells hsize sumPhase' ∧ cells hsize real' ∧ cells hsize imag' ∧
    ∀ k, (0 ≤ k < hsize)%Z → ∃ mag f acc,
      rd2 magn overcount k = Some mag ∧ rd2 freq overcount k = Some f ∧
      rd sumPhase k = Some acc ∧
      rd sumPhase' k = Some (acc + PVSynth_phase_increment scale factor k f)%R ∧
      rd real' k = Some (mag * cos (acc + PVSynth_phase_increment scale factor k f))%R ∧
      rd imag' k = Some (mag * sin (acc + PVSynth_phase_increment scale factor k f))%R.
Proof.
  intros Hm Hf Hsp Hre Him Ho Hh.
  destruct (for_loop_inv
    (λ n '(sp, re, im),
       cells hsize sp ∧ cells hsize re ∧ cells hsize im ∧
       (∀ k, (0 ≤ k < n)%Z → ∃ mag f acc,
          rd2 magn overcount k = Some mag ∧ rd2 freq overcount k = Some f ∧
          rd sumPhase k = Some acc ∧
          rd sp k = Some (acc + PVSynth_phase_increment scale factor k f)%R ∧
          rd re k = Some (mag * cos (acc + PVSynth_phase_increment scale factor k f))%R ∧
          rd im k = Some (mag * sin (acc + PVSynth_phase_increment scale factor k f))%R) ∧
       (∀ k, (n ≤ k)%Z → rd sp k = rd sumPhase k))
    hsize (PVSynth_bin magn freq overcount scale factor) (sumPhase, real, imag))
    as ([[sumPhase' real'] imag'] & Hrun & H); [done| | |].
  - split_and!; [done..|intros; lia|done].
  - intros n [[sp re] im] Hn (Hcsp & Hcre & Hcim & Hdone & Hrest).
    destruct (PVSynth_bin_step magn freq overcount scale factor olaps hsize n sp re im)
      as (mag & f & acc & sp' & re' & im' & Hmag & Hfr & Hacc & Hbin &
          ? & ? & ? & Hsp' & Hre' & Him' & Hothers); [done..|].
    exists (sp', re', im'). split; [done|]. split_and!; [done..| |].
    + intros k Hk. destruct (decide (k = n)) as [->|Hne].
      * exists mag, f, acc. split_and!; try done. by rewrite <- Hrest by lia.
      * destruct (Hdone k) as (mag' & f' & acc' & ? & ? & ? & ? & ? & ?); [lia|].
        destruct (Hothers k Hne) as (-> & -> & ->).
        by exists mag', f', acc'.
    + intros k Hk. destruct (Hothers k) as (-> & _); [lia|]. apply Hrest. lia.
  - exists sumPhase', real', imag'. by destruct H as (? & ? & ? & ? & _).
Qed.

(** The packing of [real] and [imag] into the frame handed to the inverse
    transform. *)
Lemma PVSynth_pack_run size hsize real imag inframe r0 :
  (1 ≤ hsize)%Z → (2 * hsize ≤ size)%Z →
  cells hsize real → cells hsize imag → cells size inframe →
  rd real 0 = Some r0 →
  ∃ inframe',
    for_loop_from_1 hsize (λ k fr,
        a ← rd real k; fr ← wr fr k a; b ← rd imag k; wr fr (size - k) b)
      (<[Z.to_nat hsize := 0%R]> (<[Z.to_nat 0 := r0]> inframe))
      = Some inframe' ∧
    cells size inframe' ∧
    rd inframe' 0 = Some r0 ∧ rd inframe' hsize = Some 0%R ∧
    (∀ k, (1 ≤ k < hsize)%Z →
       rd inframe' k = rd real k ∧ rd inframe' (size - k) = rd imag k) ∧
    (∀ j, (hsize < j ≤ size - hsize)%Z → rd inframe' j = rd inframe j).
Proof.
  intros Hh Hs Hre Him Hfr Hr0.
  assert (Hw0 : wr inframe 0 r0 = Some (<[Z.to_nat 0 := r0]> inframe))
    by (apply wr_in_bounds; unfold cells in Hfr; lia).
  pose proof (cells_insert size inframe (Z.to_nat 0) r0 Hfr) as Hc0.
  assert (Hw1 : wr (<[Z.to_nat 0 := r0]> inframe) hsize 0%R
                = Some (<[Z.to_nat hsize := 0%R]> (<[Z.to_nat 0 := r0]> inframe)))
    by (apply wr_in_bounds; unfold cells in Hc0; lia).
  destruct (for_loop_from_1_inv
    (λ n fr, cells size fr ∧ rd fr 0 = Some r0 ∧ rd fr hsize = Some 0%R ∧
       (∀ k, (1 ≤ k < n)%Z → rd fr k = rd real k ∧ rd fr (size - k) = rd imag k) ∧
       (∀ j, (hsize < j ≤ size - hsize)%Z → rd fr j = rd inframe j))
    hsize
    (λ k fr, a ← rd real k; fr ← wr fr k a; b ← rd imag k; wr fr (size - k) b)
    (<[Z.to_nat hsize := 0%R]> (<[Z.to_nat 0 := r0]> inframe)))
    as (inframe' & Hrun & H); [lia| | |].
  - split_and!.
    + by apply cells_insert.
    + rewrite (rd_wr_ne _ _ _ _ _ Hw1) by lia. by eapply rd_wr_eq.
    + by eapply rd_wr_eq.
    + intros; lia.
    + intros j Hj. rewrite (rd_wr_ne _ _ _ _ _ Hw1), (rd_wr_ne _ _ _ _ _ Hw0) by lia.
      done.
  - intros n fr Hn (Hc & H0 & Hhs & Hdone & Hrest).
    destruct (rd_cells _ _ n Hre) as [a Ha]; [lia|].
    destruct (rd_cells _ _ n Him) as [b Hb]; [lia|].
    assert (Hwa : wr fr n a = Some (<[Z.to_nat n := a]> fr))
      by (apply wr_in_bounds; unfold cells in Hc; lia).
    pose proof (cells_insert size fr (Z.to_nat n) a Hc) as Hca.
    assert (Hwb : wr (<[Z.to_nat n := a]> fr) (size - n) b
                  = Some (<[Z.to_nat (size - n) := b]> (<[Z.to_nat n := a]> fr)))
      by (apply wr_in_bounds; unfold cells in Hca; lia).
    eexists. rewrite Ha. simpl. rewrite Hwa. simpl. rewrite Hb. simpl.
    split; [exact Hwb|]. split_and!.
    + by apply cells_insert.
    + by rewrite (rd_wr_ne _ _ _ _ _ Hwb), (rd_wr_ne _ _ _ _ _ Hwa) by lia.
    + by rewrite (rd_wr_ne _ _ _ _ _ Hwb), (rd_wr_ne _ _ _ _ _ Hwa) by lia.
    + intros k Hk. destruct (decide (k = n)) as [->|Hne].
      * rewrite (rd_wr_ne _ _ _ _ _ Hwb) by lia.
        rewrite (rd_wr_eq _ _ _ _ Hwa), (rd_wr_eq _ _ _ _ Hwb). by rewrite Ha, Hb.
      * rewrite !(rd_wr_ne _ _ _ _ _ Hwb), !(rd_wr_ne _ _ _ _ _ Hwa) by lia.
        apply Hdone. lia.
    + intros j Hj.
      rewrite (rd_wr_ne _ _ _ _ _ Hwb), (rd_wr_ne _ _ _ _ _ Hwa) by lia. by apply Hrest.
  - exists inframe'. by destruct H as (? & ? & ? & ? & ?).
Qed.

(** The overlap-add loop, cell by cell. *)
Lemma PVSynth_accumulate_values size hopsize mod_ outframe window ampscl outputAccum :
  (0 < size)%Z → (0 ≤ hopsize)%Z → (0 ≤ mod_)%Z →
  cells size outframe → cells size window →
  cells (size + hopsize) outputAccum →
  ∃ outputAccum',
    PVSynth_accumulate size mod_ outframe window ampscl outputAccum
      = Some outputAccum' ∧
    cells (size + hopsize) outputAccum' ∧
    (∀ k, (0 ≤ k < size)%Z → ∃ a o w,
       rd outputAccum k = Some a ∧ rd outframe ((k + mod_) `rem` size) = Some o ∧
       rd window k = Some w ∧
       rd outputAccum' k = Some (a + o * w * ampscl)%R) ∧
    ∀ k, (size ≤ k)%Z → rd outputAccum' k = rd outputAccum k.
Proof.
  intros Hs Hh Hmod Hout Hwin Hacc. unfold PVSynth_accumulate.
  destruct (for_loop_inv
    (λ n acc, cells (size + hopsize) acc ∧
       (∀ k, (0 ≤ k < n)%Z → ∃ a o w,
          rd outputAccum k = Some a ∧ rd outframe ((k + mod_) `rem` size) = Some o ∧
          rd window k = Some w ∧ rd acc k = Some (a + o * w * ampscl)%R) ∧
       ∀ k, (n ≤ k)%Z → rd acc k = rd outputAccum k)
    size
    (λ k acc, a ← rd acc k; o ← rd outframe ((k + mod_) `rem` size)%Z;
              w ← rd window k; wr acc k (a + o * w * ampscl)%R) outputAccum)
    as (acc' & Hrun & H); [lia| | |].
  - split_and!; [done|intros; lia|done].
  - intros n acc Hn (Hc & Hdone & Hrest).
    destruct (rd_cells _ _ n Hacc) as [a Ha]; [lia|].
    assert (Hb : (0 ≤ (n + mod_) `rem` size < size)%Z) by (apply Z.rem_bound_pos; lia).
    destruct (rd_cells _ _ _ Hout Hb) as [o Ho].
    destruct (rd_cells _ _ n Hwin Hn) as [w Hw].
    assert (Hwr : wr acc n (a + o * w * ampscl)%R
                  = Some (<[Z.to_nat n := (a + o * w * ampscl)%R]> acc))
      by (apply wr_in_bounds; unfold cells in Hc; lia).
    eexists. rewrite Hrest, Ha by lia. simpl. rewrite Ho. simpl. rewrite Hw. simpl.
    split; [exact Hwr|]. split_and!; [by apply cells_insert| |].
    + intros k Hk. destruct (decide (k = n)) as [->|Hne].
      * exists a, o, w. split_and!; [done..|]. by eapply rd_wr_eq.
      * destruct (Hdone k) as (a' & o' & w' & ? & ? & ? & ?); [lia|].
        exists a', o', w'. split_and!; [done..|].
        by rewrite (rd_wr_ne _ _ _ _ _ Hwr Hne).
    + intros k Hk. rewrite (rd_wr_ne _ _ _ _ _ Hwr) by lia. apply Hrest. lia.
  - exists acc'. by destruct H as (? & ? & ?).
Qed.

(** The copy to the output buffer, cell by cell. *)
Lemma PVSynth_copy_values size hopsize outputAccum output_buffer :
  (0 ≤ hopsize ≤ size)%Z →
  cells (size + hopsize) outputAccum → cells size output_buffer →
  ∃ output_buffer',
    PVSynth_copy hopsize outputAccum output_buffer = Some output_buffer' ∧
    cells size output_buffer' ∧
    (∀ k, (0 ≤ k < hopsize)%Z → rd output_buffer' k = rd outputAccum k) ∧
    ∀ k, (hopsize ≤ k)%Z → rd output_buffer' k = rd output_buffer k.
Proof.
  intros Hh Hacc Hbuf. unfold PVSynth_copy.
  destruct (for_loop_inv
    (λ n buf, cells size buf ∧
       (∀ k, (0 ≤ k < n)%Z → rd buf k = rd outputAccum k) ∧
       ∀ k, (n ≤ k)%Z → rd buf k = rd output_buffer k)
    hopsize (λ k buf, a ← rd outputAccum k; wr buf k a) output_buffer)
    as (buf' & Hrun & H); [lia| | |].
  - split_and!; [done|intros; lia|done].
  - intros n buf Hn (Hc & Hdone & Hrest).
    destruct (rd_cells _ _ n Hacc) as [a Ha]; [lia|].
    assert (Hwr : wr buf n a = Some (<[Z.to_nat n := a]> buf))
      by (apply wr_in_bounds; unfold cells in Hc; lia).
    eexists. rewrite Ha. simpl. split; [exact Hwr|].
    split_and!; [by apply cells_insert| |].
    + intros k Hk. destruct (decide (k = n)) as [->|Hne].
      * rewrite (rd_wr_eq _ _ _ _ Hwr). done.
      * rewrite (rd_wr_ne _ _ _ _ _ Hwr Hne). apply Hdone. lia.
    + intros k Hk. rewrite (rd_wr_ne _ _ _ _ _ Hwr) by lia. apply Hrest. lia.
  - exists buf'. by destruct H as (? & ? & ?).
Qed.

Lemma usable_config_hsize size olaps hsize hopsize inputLatency :
  usable_config size olaps hsize hopsize inputLatency → (2 * hsize ≤ size)%Z.
Proof.
  intros (Hs & _ & -> & _). rewrite Z.quot_div_nonneg by lia.
  apply Z.mul_div_le. lia.
Qed.

(** What [PVSynth_frame] leaves in every field of the synthesiser. *)
Lemma PVSynth_frame_run irealfft_split magn freq data self :
  PVSynth_wf self →
  table (PVSynth.olaps self) (PVSynth.hsize self) magn →
  table (PVSynth.olaps self) (PVSynth.hsize self) freq →
  cells (PVSynth.bufsize self) data →
  ∃ self', PVSynth_frame irealfft_split magn freq data self = Some self' ∧
    PVSynth_wf self' ∧ PVSynth_same_config self self' ∧
    PVSynth.data self' = data ∧
    PVSynth_framed irealfft_split magn freq self self'.
Proof.
  intros [] Hmagn Hfreq Hdata.
  pose proof (usable_config_facts _ _ _ _ _ synth_config0) as Hcfg.
  pose proof (usable_config_hsize _ _ _ _ _ synth_config0) as Hhs.
  unfold PVSynth_frame, PVSynth_framed.
  set (size := PVSynth.size self) in *. set (hsize := PVSynth.hsize self) in *.
  set (hopsize := PVSynth.hopsize self) in *. set (olaps := PVSynth.olaps self) in *.
  set (overcount := PVSynth.overcount self) in *.
  destruct (PVSynth_bins_run magn freq overcount (PVSynth.scale self)
    (PVSynth.factor self) olaps hsize (PVSynth.sumPhase self) (PVSynth.real self)
    (PVSynth.imag self))
    as (sumPhase & real & imag & -> & HsumPhase & Hreal & Himag & Hbins); [done..|lia|].
  simpl.
  destruct (rd_cells _ _ 0%Z Hreal) as [r0 Hr0]; [lia|]. rewrite Hr0. simpl.
  rewrite (wr_in_bounds (PVSynth.inframe self) 0%Z) by (unfold cells in *; lia). simpl.
  pose proof (cells_insert size (PVSynth.inframe self) (Z.to_nat 0) r0 synth_inframe0)
    as Hc0.
  rewrite (wr_in_bounds _ hsize) by (unfold cells in Hc0; lia). simpl.
  destruct (PVSynth_pack_run size hsize real imag (PVSynth.inframe self) r0)
    as (inframe & -> & Hinframe & Hfr0 & Hfrh & Hpacked & Hfrrest); [lia|done..|].
  simpl.
  destruct (store_loop size (irealfft_split inframe size) (PVSynth.outframe self))
    as (outframe & -> & Houtframe & Hout); [lia|done|].
  simpl.
  destruct (PVSynth_accumulate_values size hopsize (hopsize * overcount) outframe
    (PVSynth.window self) (PVSynth.ampscl self) (PVSynth.outputAccum self))
    as (acc1 & -> & Hacc1 & Hadded & Hacc1_tail); [lia|lia|nia|done..|].
  simpl.
  destruct (PVSynth_copy_values size hopsize acc1 (PVSynth.output_buffer self))
    as (output_buffer & -> & Houtput_buffer & Hcopied & Hbuf_rest); [lia|done..|].
  simpl.
  destruct (PVSynth_shift_run size hopsize acc1)
    as (acc2 & -> & Hacc2 & Hshifted & Hacc2_tail); [lia|lia|done|].
  simpl. eexists. split; [reflexivity|]. simpl.
  assert (Htail2 : ∀ k, (size - hopsize ≤ k < size + hopsize)%Z → rd acc2 k = Some 0%R).
  { intros k Hk. destruct (Z.lt_ge_cases k size).
    - rewrite Hshifted, Hacc1_tail by lia. apply synth_tail0. lia.
    - rewrite Hacc2_tail, Hacc1_tail by lia. apply synth_tail0. lia. }
  assert (Hrot : ∀ k, (0 ≤ k)%Z →
            (0 ≤ (k + hopsize * overcount) `rem` size < size)%Z)
    by (intros k Hk; apply Z.rem_bound_pos; nia).
  split_and!; try done.
  - split; simpl; try done; [by apply next_overcount_range|].
    intros k Hk. apply Htail2. lia.
  - by rewrite Hr0.
  - intros k Hk. destruct (Hadded k) as (a & o & w & Ha & Ho & Hw & Hr); [lia|].
    exists a, w. split_and!; [done..|]. rewrite Hcopied, Hr by lia.
    rewrite Hout in Ho by (apply Hrot; lia). by injection Ho as <-.
  - intros k Hk. destruct (Hadded (k + hopsize)%Z) as (a & o & w & Ha & Ho & Hw & Hr);
      [lia|].
    exists a, w. split_and!; [done..|]. rewrite Hshifted, Hr by lia.
    rewrite Hout in Ho by (apply Hrot; lia). by injection Ho as <-.
Qed.

(** One sample of the synthesiser: a sample is emitted from the output
    buffer, then a frame is computed if the counter marks a frame edge. *)
Lemma PVSynth_sample_run irealfft_split input i self :
  PVSynth_wf self → PVStream_wf (PVSynth.bufsize self) input →
  PVStream.fftsize input = PVSynth.size self →
  PVStream.olaps input = PVSynth.olaps self →
  (0 ≤ i < PVSynth.bufsize self)%Z →
  ∃ c x self', rd (PVStream.count input) i = Some c ∧
    rd (PVSynth.output_buffer self) (c - PVSynth.inputLatency self) = Some x ∧
    PVSynth_sample irealfft_split input i self = Some self' ∧
    PVSynth_wf self' ∧ PVSynth_same_config self self' ∧
    PVSynth.data self' = <[Z.to_nat i := x]> (PVSynth.data self) ∧
    (((c < PVSynth.size self - 1)%Z ∧
      PVSynth.overcount self' = PVSynth.overcount self ∧
      PVSynth.output_buffer self' = PVSynth.output_buffer self ∧
      PVSynth.outputAccum self' = PVSynth.outputAccum self ∧
      PVSynth.inframe self' = PVSynth.inframe self ∧
      PVSynth.sumPhase self' = PVSynth.sumPhase self)
     ∨ ((PVSynth.size self - 1 ≤ c)%Z ∧
        PVSynth_framed irealfft_split (PVStream.magn input) (PVStream.freq input)
          self self')).
Proof.
  intros Hwf [] Hsize Holaps Hi. pose proof Hwf as [].
  pose proof (usable_config_facts _ _ _ _ _ synth_config0) as Hcfg.
  pose proof synth_config0 as (_ & _ & Hhsize & Hhop & HL).
  destruct (rd_cells _ _ i stream_count0 Hi) as [c Hc].
  pose proof (stream_count_range0 _ _ Hc) as Hrange.
  rewrite Hsize, Holaps, <- Hhop in Hrange.
  destruct (rd_cells _ _ (c - PVSynth.inputLatency self)%Z synth_output_buffer0)
    as [x Hx]; [lia|].
  exists c, x. unfold PVSynth_sample, PVSynth_read_index. rewrite Hc. simpl.
  rewrite Hx. simpl.
  rewrite (wr_in_bounds (PVSynth.data self)) by (unfold cells in *; lia). simpl.
  rewrite Hsize, Holaps, <- Hhsize in stream_magn0, stream_freq0.
  destruct (Z.leb_spec (PVSynth.size self - 1) c) as [Hedge|Hno].
  - destruct (PVSynth_frame_run irealfft_split (PVStream.magn input)
      (PVStream.freq input) (<[Z.to_nat i := x]> (PVSynth.data self)) self)
      as (self' & -> & ? & ? & ? & ?); [done..|by apply cells_insert|].
    exists self'. split_and!; try done. by right.
  - eexists. split_and!; try done.
    + split; simpl; try done. by apply cells_insert.
    + left. by split_and!.
Qed.

(** ** The small configuration, continued *)

Lemma sample_synth_running_wf : PVSynth_wf sample_synth_running.
Proof.
  split; simpl; try reflexivity; try lia.
  - unfold usable_config. split_and!; (reflexivity || lia).
  - intros k Hk. assert (k = 4 ∨ k = 5)%Z as [-> | ->] by lia; reflexivity.
Qed.

Lemma all_zero_Forall a : Forall (λ v, v = 0%R) a → all_zero a.
Proof.
  intros Ha j v Hv. unfold rd in Hv. case_bool_decide; [|done].
  by eapply (Forall_lookup_1 _ _ _ _ Ha).
Qed.

Lemma all_zero2_Forall t : Forall (Forall (λ v, v = 0%R)) t → all_zero2 t.
Proof.
  intros Ht i k v (row & Hrow & Hv)%rd2_Some_inv.
  unfold rd in Hrow. case_bool_decide; [|done].
  eapply all_zero_Forall; [|done]. by eapply (Forall_lookup_1 _ _ _ _ Ht).
Qed.

Lemma sample_synth_running_silent : PVSynth_silent sample_synth_running.
Proof. split_and!; apply all_zero_Forall; by repeat constructor. Qed.

Lemma sample_stream_wf : PVStream_wf 2 sample_stream.
Proof.
  destruct sample_tables as (? & ? & _).
  split; simpl; try done; try lia.
  apply count_in_range_Forall. change (4 `quot` 2)%Z with 2%Z.
  repeat (apply Forall_cons; [lia|]). apply Forall_nil.
Qed.

Lemma sample_silent_stream_wf : PVStream_wf 2 sample_silent_stream.
Proof.
  destruct sample_tables as (_ & ? & _).
  split; simpl; try done; try lia.
  - apply table_Forall; [reflexivity|by repeat constructor].
  - apply count_in_range_Forall. change (4 `quot` 2)%Z with 2%Z.
    repeat (apply Forall_cons; [lia|]). apply Forall_nil.
Qed.

(** ** The overlap-add step *)

(** X3: a frame of the synthesiser adds the inverse transform, windowed,
    rotated back by the slot and scaled by [ampscl], onto the accumulator;
    the first [hopsize] sums go to the output buffer, the others move down
    by [hopsize] cells, and the cells from [size - hopsize] on are zero
    again. *)
Theorem PVSynth_frame_overlap_add irealfft_split magn freq data self :
  PVSynth_wf self →
  table (PVSynth.olaps self) (PVSynth.hsize self) magn →
  table (PVSynth.olaps self) (PVSynth.hsize self) freq →
  cells (PVSynth.bufsize self) data →
  ∃ self', PVSynth_frame irealfft_split magn freq data self = Some self' ∧
    (∀ k, (0 ≤ k < PVSynth.hopsize self)%Z → ∃ a w,
       rd (PVSynth.outputAccum self) k = Some a ∧ rd (PVSynth.window self) k = Some w ∧
       rd (PVSynth.output_buffer self') k
       = Some (a + irealfft_split (PVSynth.inframe self') (PVSynth.size self)
                     ((k + PVSynth.hopsize self * PVSynth.overcount self)
                        `rem` PVSynth.size self)%Z
                   * w * PVSynth.ampscl self)%R) ∧
    (∀ k, (0 ≤ k < PVSynth.size self - PVSynth.hopsize self)%Z → ∃ a w,
       rd (PVSynth.outputAccum self) (k + PVSynth.hopsize self) = Some a ∧
       rd (PVSynth.window self) (k + PVSynth.hopsize self) = Some w ∧
       rd (PVSynth.outputAccum self') k
       = Some (a + irealfft_split (PVSynth.inframe self') (PVSynth.size self)
                     ((k + PVSynth.hopsize self
                       + PVSynth.hopsize self * PVSynth.overcount self)
                        `rem` PVSynth.size self)%Z
                   * w * PVSynth.ampscl self)%R) ∧
    (∀ k, (PVSynth.size self - PVSynth.hopsize self ≤ k
           < PVSynth.size self + PVSynth.hopsize self)%Z →
       rd (PVSynth.outputAccum self') k = Some 0%R) ∧
    PVSynth.overcount self'
    = next_overcount (PVSynth.overcount self) (PVSynth.olaps self).
Proof.
  intros Hwf Hmagn Hfreq Hdata.
  destruct (PVSynth_frame_run irealfft_split magn freq data self)
    as (self' & Hrun & _ & _ & _ & Hov & _ & _ & _ & _ & _ & _ & Hout & _ & Hacc & Htail);
    [done..|].
  exists self'. split_and!; done.
Qed.

Lemma PVSynth_frame_overlap_add_sample :
  PVSynth_wf sample_synth_running ∧
  table 2 2 sample_magn_in ∧ table 2 2 sample_freq_in ∧ cells 2 [0; 0]%R ∧
  ∃ self',
    PVSynth_frame (λ _ _ _, 1%R) sample_magn_in sample_freq_in [0; 0]%R
      sample_synth_running = Some self' ∧
    rd (PVSynth.outputAccum self') 2 = Some 0%R ∧
    PVSynth.overcount self' = 0%Z.
Proof.
  destruct sample_tables as (Hm & Hf & _).
  split; [apply sample_synth_running_wf|]. split; [exact Hm|]. split; [exact Hf|].
  split; [reflexivity|].
  destruct (PVSynth_frame_overlap_add (λ _ _ _, 1%R) sample_magn_in sample_freq_in
    [0; 0]%R sample_synth_running sample_synth_running_wf Hm Hf eq_refl)
    as (self' & Hrun & _ & _ & Htail & Hov).
  exists self'. split; [exact Hrun|]. split; [|exact Hov].
  apply Htail. simpl. lia.
Defined.

(** ** Silence through the synthesiser *)

Lemma PVSynth_realloc_memories_fresh gen_window self :
  (2 ≤ PVSynth.size self)%Z → (1 ≤ PVSynth.olaps self ≤ PVSynth.size self)%Z →
  (PVSynth.size self + PVSynth.size self `quot` PVSynth.olaps self ≤ INT_MAX)%Z →
  (0 ≤ PVSynth.bufsize self)%Z → cells (PVSynth.bufsize self) (PVSynth.data self) →
  ∃ self', PVSynth_realloc_memories gen_window self = Some self' ∧
    PVSynth_wf self' ∧
    PVSynth.size self' = PVSynth.size self ∧ PVSynth.olaps self' = PVSynth.olaps self ∧
    PVSynth.bufsize self' = PVSynth.bufsize self ∧
    PVSynth.data self' = PVSynth.data self ∧
    PVSynth.overcount self' = 0%Z ∧
    PVSynth.output_buffer self' = filled (PVSynth.size self) 0%R ∧
    PVSynth.outputAccum self'
      = filled (PVSynth.size self + PVSynth.hopsize self') 0%R ∧
    PVSynth.inframe self' = filled (PVSynth.size self) 0%R ∧
    PVSynth.sumPhase self' = filled (PVSynth.hsize self') 0%R.
Proof.
  intros Hsize Holaps Hfits Hbuf Hdata.
  destruct (PVSynth_realloc_memories_wf gen_window self)
    as (self' & Hrun & Hwf & ? & ? & ?); [done..|].
  exists self'. split_and!; try done.
  all: revert Hrun; unfold PVSynth_realloc_memories;
    rewrite !int_div_pos by lia; simpl;
    rewrite wrap_int_id by (unfold in_int_range, INT_MIN, INT_MAX in *;
      pose proof (Z.quot_pos (PVSynth.size self) (PVSynth.olaps self)); lia);
    by intros [= <-].
Qed.

(** One sample on a stream without energy keeps the synthesiser silent. *)
Lemma PVSynth_sample_silent irealfft_split input i self :
  zero_to_zero irealfft_split →
  PVSynth_wf self → PVStream_wf (PVSynth.bufsize self) input →
  PVStream.fftsize input = PVSynth.size self →
  PVStream.olaps input = PVSynth.olaps self →
  all_zero2 (PVStream.magn input) →
  (0 ≤ i < PVSynth.bufsize self)%Z →
  PVSynth_silent self →
  ∃ self', PVSynth_sample irealfft_split input i self = Some self' ∧
    PVSynth_wf self' ∧ PVSynth_same_config self self' ∧ PVSynth_silent self' ∧
    PVSynth.data self' = <[Z.to_nat i := 0%R]> (PVSynth.data self).
Proof.
  intros Hirf Hwf Hinput Hsize Holaps Hzero Hi (Hbuf & Hacc & Hfr).
  destruct (PVSynth_sample_run irealfft_split input i self)
    as (c & x & self' & _ & Hx & Hsample & Hwf' & Hsame & Hdata & Hcase); [done..|].
  apply Hbuf in Hx as ->.
  exists self'. split_and!; [done..| |done].
  unfold PVSynth_silent.
  destruct Hcase as [(_ & _ & -> & -> & -> & _)|
    [_ (_ & Hbins & Hfr0 & Hfrh & Hpacked & Hfrrest & _ & Hout & Hbuf_rest & Hadded & Htail)]].
  { by split_and!. }
  pose proof Hwf as [].
  pose proof (usable_config_facts _ _ _ _ _ synth_config0) as Hcfg.
  pose proof (usable_config_hsize _ _ _ _ _ synth_config0) as Hhs.
  pose proof Hsame as (_ & _ & Hsize' & Hhsize' & _ & Hhop' & _).
  pose proof Hwf' as [_ _ Hcbuf Hcacc _ Hcfr _ _ _ _ _ _ _].
  rewrite Hsize', ?Hhop' in Hcbuf, Hcacc, Hcfr.
  assert (Hre : ∀ k, (0 ≤ k < PVSynth.hsize self)%Z →
            rd (PVSynth.real self') k = Some 0%R ∧ rd (PVSynth.imag self') k = Some 0%R).
  { intros k Hk. destruct (Hbins k Hk) as (mag & f & acc & Hmag & _ & _ & _ & -> & ->).
    apply Hzero in Hmag as ->. split; f_equal; lra. }
  assert (Hfr' : all_zero (PVSynth.inframe self')).
  { intros j v Hv. pose proof (rd_Some_bounds _ _ _ Hv) as Hj.
    unfold cells in Hcfr.
    destruct (decide (j = 0%Z)) as [->|?].
    { rewrite Hfr0 in Hv. destruct (Hre 0%Z) as [Hr _]; [lia|]. congruence. }
    destruct (decide (j = PVSynth.hsize self)) as [->|?]; [congruence|].
    destruct (Z.lt_ge_cases j (PVSynth.hsize self)).
    { destruct (Hpacked j) as [Hp _]; [lia|]. rewrite Hp in Hv.
      destruct (Hre j) as [Hr _]; [lia|]. congruence. }
    destruct (Z.le_gt_cases j (PVSynth.size self - PVSynth.hsize self)).
    { rewrite Hfrrest in Hv by lia. by apply Hfr in Hv. }
    destruct (Hpacked (PVSynth.size self - j)%Z) as [_ Hp]; [lia|].
    replace (PVSynth.size self - (PVSynth.size self - j))%Z with j in Hp by lia.
    rewrite Hp in Hv. destruct (Hre (PVSynth.size self - j)%Z) as [_ Hr]; [lia|].
    congruence. }
  split_and!; [| |done].
  - intros k v Hv. pose proof (rd_Some_bounds _ _ _ Hv) as Hk.
    destruct (Z.lt_ge_cases k (PVSynth.hopsize self)).
    + destruct (Hout k) as (a & w & Ha & _ & Hr); [lia|].
      rewrite Hr in Hv. injection Hv as <-. apply Hacc in Ha as ->.
      rewrite (Hirf _ _ _ Hfr'). lra.
    + rewrite Hbuf_rest in Hv by lia. by apply Hbuf in Hv.
  - intros k v Hv. pose proof (rd_Some_bounds _ _ _ Hv) as Hk.
    unfold cells in Hcacc.
    destruct (Z.lt_ge_cases k (PVSynth.size self - PVSynth.hopsize self)).
    + destruct (Hadded k) as (a & w & Ha & _ & Hr); [lia|].
      rewrite Hr in Hv. injection Hv as <-. apply Hacc in Ha as ->.
      rewrite (Hirf _ _ _ Hfr'). lra.
    + rewrite Htail in Hv by lia. congruence.
Qed.

(** X4: a synthesiser that has been silent so far and reads a stream whose
    magnitudes are all zero, and whose [size + hopsize] is in the range of
    [int], emits a block of zeros and stays silent, whatever frequencies
    the stream carries, provided the inverse transform maps the zero
    spectrum to the zero frame. *)
Theorem PVSynth_process_silence gen_window irealfft_split input self :
  zero_to_zero irealfft_split →
  PVSynth_wf self → PVStream_wf (PVSynth.bufsize self) input → PVStream_fits input →
  all_zero2 (PVStream.magn input) →
  PVSynth_silent self →
  ∃ self', PVSynth_process gen_window irealfft_split input self = Some self' ∧
    PVSynth_wf self' ∧ PVSynth_silent self' ∧
    ∀ i, (0 ≤ i < PVSynth.bufsize self)%Z → rd (PVSynth.data self') i = Some 0%R.
Proof.
  intros Hirf Hwf Hinput Hfits Hzero Hsilent. unfold PVSynth_process.
  assert (∃ self0,
    (if bool_decide (PVSynth.size self ≠ PVStream.fftsize input
                     ∨ PVSynth.olaps self ≠ PVStream.olaps input)
     then PVSynth_realloc_memories gen_window
            (PVSynth_with_size_olaps self (PVStream.fftsize input) (PVStream.olaps input))
     else Some self) = Some self0 ∧
    PVSynth_wf self0 ∧ PVSynth_silent self0 ∧
    PVSynth.size self0 = PVStream.fftsize input ∧
    PVSynth.olaps self0 = PVStream.olaps input ∧
    PVSynth.bufsize self0 = PVSynth.bufsize self) as (self0 & -> & Hwf0 & Hsil0 & Hs0 & Ho0 & Hb0).
  { case_bool_decide as Hne.
    - destruct (PVSynth_realloc_memories_fresh gen_window
        (PVSynth_with_size_olaps self (PVStream.fftsize input) (PVStream.olaps input)))
        as (self0 & Hre & ? & ? & ? & ? & _ & _ & Hob & Hoa & Hfr & _);
        [by destruct Hinput, Hwf..|].
      exists self0. split_and!; try done.
      split_and!; rewrite ?Hob, ?Hoa, ?Hfr; apply all_zero_filled.
    - exists self. split_and!; try done.
      + destruct (decide (PVSynth.size self = PVStream.fftsize input)); [done|].
        exfalso. apply Hne. by left.
      + destruct (decide (PVSynth.olaps self = PVStream.olaps input)); [done|].
        exfalso. apply Hne. by right. }
  simpl. rewrite Hb0. rewrite <- Hb0 in Hinput.
  destruct (for_loop_inv
    (λ i s, PVSynth_wf s ∧ PVSynth_same_config self0 s ∧ PVSynth_silent s ∧
            ∀ j, (0 ≤ j < i)%Z → rd (PVSynth.data s) j = Some 0%R)
    (PVSynth.bufsize self) (PVSynth_sample irealfft_split input) self0)
    as (self' & Hrun & Hwf' & _ & Hsil' & Hdata'); [by destruct Hwf| | |].
  - split_and!; [done|apply PVSynth_same_config_refl|done|intros; lia].
  - intros i s Hi (Hs & Hsame & Hsil & Hdata).
    pose proof Hsame as (Hbuf & _ & Hsize & _ & Holaps & _).
    destruct (PVSynth_sample_silent irealfft_split input i s)
      as (s' & ? & Hs' & ? & ? & Hd); [done|done|by rewrite Hbuf|congruence..|done| |done|].
    { rewrite Hbuf. lia. }
    exists s'. split; [done|].
    split_and!; [done|by eapply PVSynth_same_config_trans|done|].
    intros j Hj.
    assert (Hw : wr (PVSynth.data s) i 0%R = Some (PVSynth.data s')).
    { rewrite Hd. apply wr_in_bounds. destruct Hs. unfold cells in *. lia. }
    destruct (decide (j = i)) as [->|Hne].
    + by eapply rd_wr_eq.
    + rewrite (rd_wr_ne _ _ _ _ _ Hw Hne). apply Hdata. lia.
  - exists self'. split_and!; done.
Qed.

Lemma PVSynth_process_silence_sample :
  zero_to_zero (λ _ _ _, 0%R) ∧
  PVSynth_wf sample_synth_running ∧
  PVStream_wf (PVSynth.bufsize sample_synth_running) sample_silent_stream ∧
  PVStream_fits sample_silent_stream ∧
  all_zero2 (PVStream.magn sample_silent_stream) ∧
  PVSynth_silent sample_synth_running ∧
  ∃ self',
    PVSynth_process (λ _ _ _, 1%R) (λ _ _ _, 0%R) sample_silent_stream
      sample_synth_running = Some self' ∧
    rd (PVSynth.data self') 0 = Some 0%R ∧ rd (PVSynth.data self') 1 = Some 0%R.
Proof.
  assert (H1 : zero_to_zero (λ _ _ _, 0%R)) by (intros ? ? ? ?; reflexivity).
  assert (H2 : all_zero2 (PVStream.magn sample_silent_stream))
    by (apply all_zero2_Forall; repeat constructor).
  assert (H3 : PVStream_fits sample_silent_stream) by (by vm_compute).
  split; [exact H1|]. split; [apply sample_synth_running_wf|].
  split; [apply sample_silent_stream_wf|]. split; [exact H3|]. split; [exact H2|].
  split; [apply sample_synth_running_silent|].
  destruct (PVSynth_process_silence (λ _ _ _, 1%R) (λ _ _ _, 0%R) sample_silent_stream
    sample_synth_running H1 sample_synth_running_wf sample_silent_stream_wf H3 H2
    sample_synth_running_silent) as (self' & Hrun & _ & _ & Hdata).
  exists self'. split; [exact Hrun|].
  split; apply Hdata; simpl; lia.
Defined.

(** ** Silence through the analyser *)

Lemma PVAnal_run_silent realfft_split blocks : ∀ self,
  zero_to_zero realfft_split →
  PVAnal_wf self →
  Forall (λ input, cells (PVAnal.bufsize self) input ∧ all_zero input) blocks →
  PVAnal_silent self →
  ∃ self', PVAnal_run realfft_split blocks self = Some self' ∧
    PVAnal_wf self' ∧ PVAnal_same_config self self' ∧ PVAnal_silent self'.
Proof.
  induction blocks as [|input blocks IH]; intros self Hrf Hwf Hblocks Hsilent; simpl.
  - exists self. split_and!; [done..|apply PVAnal_same_config_refl|done].
  - inversion Hblocks as [|? ? [Hinput Hzero] Hblocks']; subst.
    destruct (PVAnal_process_silent realfft_split input self)
      as (self1 & -> & Hwf1 & Hsame1 & Hsilent1); [done..|].
    simpl. pose proof Hsame1 as (Hbuf & _).
    destruct (IH self1) as (self' & ? & ? & ? & ?); [done..|by rewrite Hbuf|done|].
    exists self'. split_and!; [done..|by eapply PVAnal_same_config_trans|done].
Qed.

(** X5: an analyser that is reconfigured and then fed blocks of zeros
    publishes the magnitude 0 in every bin of every slot, and as frequency
    either 0, in a slot it has not written yet, or the centre frequency
    [k * sr / size] of the bin, provided the transform maps the zero frame
    to the zero spectrum. *)
Theorem PVAnal_run_silence gen_window realfft_split (anal : PVAnal.t) blocks :
  (2 ≤ PVAnal.size anal)%Z → (1 ≤ PVAnal.olaps anal ≤ PVAnal.size anal)%Z →
  (0 ≤ PVAnal.bufsize anal)%Z → cells (PVAnal.bufsize anal) (PVAnal.count anal) →
  zero_to_zero realfft_split →
  Forall (λ input, cells (PVAnal.bufsize anal) input ∧ all_zero input) blocks →
  ∃ anal0 anal',
    PVAnal_realloc_memories gen_window anal = Some anal0 ∧
    PVAnal_run realfft_split blocks anal0 = Some anal' ∧
    all_zero2 (PVStream.magn (PVAnal_pv_stream anal')) ∧
    ∀ i k, (0 ≤ i < PVAnal.olaps anal)%Z → (0 ≤ k < PVAnal.size anal `quot` 2)%Z →
      rd2 (PVAnal.magn anal') i k = Some 0%R ∧
      (rd2 (PVAnal.freq anal') i k = Some 0%R ∨
       rd2 (PVAnal.freq anal') i k
       = Some (IZR k * PVAnal.sr anal / IZR (PVAnal.size anal))%R).
Proof.
  intros Hsize Holaps Hbuf Hcount Hrf Hblocks.
  destruct (PVAnal_realloc_memories_fresh gen_window anal)
    as (anal0 & Hre & Hwf0 & Hsize0 & Holaps0 & Hbuf0 & Hsr0 & _ & _ & _ & Hib0 & Hlp0 &
        _ & Hm0 & Hf0 & _); [done..|].
  destruct (PVAnal_run_silent realfft_split blocks anal0)
    as (anal' & Hrun & Hwf' & Hsame & (_ & _ & Hm' & Hf')); [done..|by rewrite Hbuf0| |].
  { split_and!.
    - rewrite Hib0. apply all_zero_filled.
    - rewrite Hlp0. apply all_zero_filled.
    - rewrite Hm0. apply all_zero2_filled.
    - intros i k v Hv. left. rewrite Hf0 in Hv. by eapply all_zero2_filled. }
  exists anal0, anal'. split_and!; [done..|].
  pose proof Hsame as (_ & Hsr' & Hsize' & Holaps' & Hhsize' & _).
  pose proof Hwf' as [Hcfg _ _ _ _ _ _ _ _ _ _ _ Htm Htf _ _ _].
  destruct Hcfg as (_ & _ & Hhs & _).
  rewrite Hsize', Holaps', Hsize0, Holaps0 in *.
  intros i k Hi Hk.
  destruct (rd2_table _ _ _ i k Htm) as [m Hm]; [lia..|].
  destruct (rd2_table _ _ _ i k Htf) as [f Hf]; [lia..|].
  rewrite Hm, Hf. pose proof (Hm' _ _ _ Hm) as ->.
  split; [done|]. rewrite Hsr', Hsr0 in Hf'.
  destruct (Hf' _ _ _ Hf) as [-> | ->]; [by left|by right].
Qed.

Lemma PVAnal_run_silence_sample :
  (2 ≤ PVAnal.size sample_anal)%Z ∧
  (1 ≤ PVAnal.olaps sample_anal ≤ PVAnal.size sample_anal)%Z ∧
  (0 ≤ PVAnal.bufsize sample_anal)%Z ∧
  cells (PVAnal.bufsize sample_anal) (PVAnal.count sample_anal) ∧
  zero_to_zero (λ _ _ _, 0%R) ∧
  Forall (λ input, cells (PVAnal.bufsize sample_anal) input ∧ all_zero input)
    [[0; 0]; [0; 0]]%R ∧
  ∃ anal0 anal',
    PVAnal_realloc_memories (λ _ _ _, 1%R) sample_anal = Some anal0 ∧
    PVAnal_run (λ _ _ _, 0%R) [[0; 0]; [0; 0]]%R anal0 = Some anal' ∧
    rd2 (PVAnal.magn anal') 0 1 = Some 0%R.
Proof.
  assert (H1 : (2 ≤ PVAnal.size sample_anal)%Z) by (simpl; lia).
  assert (H2 : (1 ≤ PVAnal.olaps sample_anal ≤ PVAnal.size sample_anal)%Z)
    by (simpl; lia).
  assert (H3 : (0 ≤ PVAnal.bufsize sample_anal)%Z) by (simpl; lia).
  assert (H4 : cells (PVAnal.bufsize sample_anal) (PVAnal.count sample_anal))
    by reflexivity.
  assert (H5 : zero_to_zero (λ _ _ _, 0%R)) by (intros ? ? ? ?; reflexivity).
  assert (H6 : Forall (λ input, cells (PVAnal.bufsize sample_anal) input ∧ all_zero input)
                 [[0; 0]; [0; 0]]%R).
  { repeat (apply Forall_cons;
      [split; [reflexivity|apply all_zero_Forall; by repeat constructor]|]).
    apply Forall_nil. }
  split_and!; [done..|].
  destruct (PVAnal_run_silence (λ _ _ _, 1%R) (λ _ _ _, 0%R) sample_anal
    [[0; 0]; [0; 0]]%R H1 H2 H3 H4 H5 H6) as (anal0 & anal' & Hre & Hrun & _ & Hbins).
  exists anal0, anal'. split; [exact Hre|]. split; [exact Hrun|].
  apply (Hbins 0%Z 1%Z); simpl; [lia|]. change (4 `quot` 2)%Z with 2%Z. lia.
Defined.

(** ** Frame edges and the overlap slot *)

Lemma frame_edges_snoc size l c :
  frame_edges size (l ++ [c])
  = (frame_edges size l + (if bool_decide (size - 1 ≤ c)%Z then 1 else 0))%nat.
Proof.
  unfold frame_edges. rewrite list.filter_app, length_app. f_equal.
  rewrite filter_cons, filter_nil.
  case_decide; case_bool_decide; done.
Qed.

Lemma advance_overcount_S olaps n overcount :
  advance_overcount olaps (n + 1) overcount
  = next_overcount (advance_overcount olaps n overcount) olaps.
Proof. unfold advance_overcount. by rewrite Nat.add_1_r. Qed.

Lemma advance_overcount_range olaps n overcount :
  (0 ≤ overcount < olaps)%Z → (0 ≤ advance_overcount olaps n overcount < olaps)%Z.
Proof.
  intros Ho. induction n as [|n IH]; [done|].
  change (advance_overcount olaps (S n) overcount)
    with (next_overcount (advance_overcount olaps n overcount) olaps).
  by apply next_overcount_range.
Qed.

Lemma take_succ_rd {A} (l : list A) i x :
  (0 ≤ i)%Z → rd l i = Some x →
  take (Z.to_nat (i + 1)) l = take (Z.to_nat i) l ++ [x].
Proof.
  intros Hi Hx. unfold rd in Hx. rewrite bool_decide_eq_true_2 in Hx by done.
  replace (Z.to_nat (i + 1)) with (S (Z.to_nat i)) by lia. by apply take_S_r.
Qed.

Lemma take_insert_same {A} (l : list A) i x :
  (0 ≤ i < Z.of_nat (length l))%Z →
  take (Z.to_nat (i + 1)) (<[Z.to_nat i := x]> l) = take (Z.to_nat i) l ++ [x].
Proof.
  intros Hi. rewrite (take_succ_rd _ i x); [|lia|].
  - by rewrite take_insert_ge by lia.
  - eapply rd_wr_eq. by apply wr_in_bounds.
Qed.

(** A loop whose two bodies agree on the states that satisfy an invariant
    of the first. *)
Lemma for_loop_ext_inv {St} (P : St → Prop) n (body body' : Z → St → option St) s :
  P s →
  (∀ k s, (0 ≤ k < n)%Z → P s → body k s = body' k s) →
  (∀ k s s', (0 ≤ k < n)%Z → P s → body k s = Some s' → P s') →
  for_loop n body s = for_loop n body' s.
Proof.
  intros Hs Heq Hkeep. unfold for_loop.
  assert (Hm : ∀ m, (m ≤ Z.to_nat n)%nat →
            for_upto m body s = for_upto m body' s ∧
            ∀ s', for_upto m body s = Some s' → P s').
  { induction m as [|m IH]; intros Hle.
    - split; [done|]. by intros s' [= <-].
    - destruct IH as [IH1 IH2]; [lia|]. simpl. rewrite <- IH1.
      destruct (for_upto m body s) as [s1|]; [|done]. simpl.
      split; [apply Heq; [lia|by apply IH2]|].
      intros s' Hs'. eapply Hkeep; [|by apply IH2|done]. lia. }
  by apply Hm.
Qed.

(** ** PVGate over whole blocks *)

Lemma PVGate_realloc_memories_wf self size olaps :
  (2 ≤ size)%Z → (1 ≤ olaps ≤ size)%Z →
  (0 ≤ PVGate.bufsize self)%Z → cells (PVGate.bufsize self) (PVGate.count self) →
  ∃ self', PVGate_realloc_memories self size olaps = Some self' ∧
    PVGate_wf self' ∧
    PVGate.size self' = size ∧ PVGate.olaps self' = olaps ∧
    PVGate.bufsize self' = PVGate.bufsize self ∧
    PVGate.overcount self' = 0%Z ∧
    PVGate.magn self' = filled olaps (filled (PVGate.hsize self') 0%R) ∧
    PVGate.freq self' = filled olaps (filled (PVGate.hsize self') 0%R) ∧
    ∀ i, (0 ≤ i < PVGate.bufsize self)%Z →
      rd (PVGate.count self') i = Some (size - PVGate.hopsize self')%Z.
Proof.
  intros Hsize Holaps Hbuf Hcount.
  assert (Hcfg : usable_config size olaps (size `quot` 2) (size `quot` olaps)
                   (size - size `quot` olaps)) by done.
  pose proof (usable_config_facts _ _ _ _ _ Hcfg) as Hfacts.
  unfold PVGate_realloc_memories. rewrite !int_div_pos by lia. simpl.
  destruct (fill_loop (PVGate.bufsize self) (PVGate.count self)
    (size - size `quot` olaps)%Z Hbuf Hcount) as (count' & -> & Hcells & Hfilled).
  simpl. eexists. split; [reflexivity|]. simpl. split_and!; try done.
  split; simpl; try done; try lia; apply table_filled; lia.
Qed.

Lemma PVGate_adapt_run input self :
  PVGate_wf self → PVStream_wf (PVGate.bufsize self) input →
  ∃ self0, PVGate_adapt input self = Some self0 ∧ PVGate_wf self0 ∧
    PVGate.size self0 = PVStream.fftsize input ∧
    PVGate.olaps self0 = PVStream.olaps input ∧
    PVGate.bufsize self0 = PVGate.bufsize self ∧
    PVGate.overcount self0
    = slot_after_adapt (PVGate.size self) (PVGate.olaps self) (PVGate.overcount self) input.
Proof.
  intros Hwf Hinput. unfold PVGate_adapt, slot_after_adapt. case_bool_decide as Hne.
  - destruct (PVGate_realloc_memories_wf self (PVStream.fftsize input)
      (PVStream.olaps input)) as (self0 & ? & ? & ? & ? & ? & ? & _);
      [by destruct Hinput, Hwf..|].
    by exists self0.
  - exists self. split_and!; try done.
    + destruct (decide (PVGate.size self = PVStream.fftsize input)); [done|].
      exfalso. apply Hne. by left.
    + destruct (decide (PVGate.olaps self = PVStream.olaps input)); [done|].
      exfalso. apply Hne. by right.
Qed.

Lemma PVGate_sample_at_const thresh damp input i self :
  PVGate_sample_at (λ _, Some thresh) (λ _, Some damp) input i self
  = PVGate_sample thresh damp input i self.
Proof. reflexivity. Qed.

(** One sample of the gate. *)
Lemma PVGate_sample_at_run thresh_at damp_at input i self thresh damp :
  PVGate_wf self → PVStream_wf (PVGate.bufsize self) input →
  PVStream.fftsize input = PVGate.size self →
  PVStream.olaps input = PVGate.olaps self →
  (0 ≤ i < PVGate.bufsize self)%Z →
  thresh_at i = Some thresh → damp_at i = Some damp →
  ∃ c self', rd (PVStream.count input) i = Some c ∧
    PVGate_sample_at thresh_at damp_at input i self = Some self' ∧
    PVGate_wf self' ∧
    PVGate.size self' = PVGate.size self ∧ PVGate.olaps self' = PVGate.olaps self ∧
    PVGate.bufsize self' = PVGate.bufsize self ∧
    PVGate.count self' = <[Z.to_nat i := c]> (PVGate.count self) ∧
    PVGate.overcount self'
    = (if bool_decide (PVGate.size self - 1 ≤ c)%Z
       then next_overcount (PVGate.overcount self) (PVGate.olaps self)
       else PVGate.overcount self).
Proof.
  intros Hwf [] Hsize Holaps Hi Hthresh Hdamp. pose proof Hwf as [].
  pose proof (usable_config_facts _ _ _ _ _ gate_config0) as Hcfg.
  pose proof gate_config0 as (_ & _ & Hhsize & _).
  destruct (rd_cells _ _ i stream_count0 Hi) as [c Hc].
  exists c. unfold PVGate_sample_at. rewrite Hc. simpl.
  rewrite (wr_in_bounds (PVGate.count self)) by (unfold cells in *; lia). simpl.
  rewrite Hsize, Holaps, <- Hhsize in stream_magn0, stream_freq0.
  destruct (Z.leb_spec (PVGate.size self - 1) c) as [Hedge|Hno].
  - rewrite Hthresh, Hdamp. simpl.
    destruct (PVGate_frame_run thresh damp (PVGate.olaps self) (PVGate.hsize self)
      (PVGate.overcount self) (PVStream.magn input) (PVStream.freq input)
      (PVGate.magn self) (PVGate.freq self))
      as (magn' & freq' & -> & ? & ? & _); [done..|lia|].
    simpl. eexists. split_and!; try done.
    + split; simpl; try done; [by apply next_overcount_range|by apply cells_insert].
    + simpl. by rewrite bool_decide_eq_true_2.
  - eexists. split_and!; try done.
    + split; simpl; try done. by apply cells_insert.
    + simpl. by rewrite bool_decide_eq_false_2 by lia.
Qed.

(** The loop over the samples of a block, for any of the four variants. *)
Lemma PVGate_loop_run thresh_at damp_at input self :
  PVGate_wf self → PVStream_wf (PVGate.bufsize self) input →
  PVStream.fftsize input = PVGate.size self →
  PVStream.olaps input = PVGate.olaps self →
  (∀ i, (0 ≤ i < PVGate.bufsize self)%Z → ∃ thresh, thresh_at i = Some thresh) →
  (∀ i, (0 ≤ i < PVGate.bufsize self)%Z → ∃ damp, damp_at i = Some damp) →
  ∃ self', for_loop (PVGate.bufsize self)
             (PVGate_sample_at thresh_at damp_at input) self = Some self' ∧
    PVGate_wf self' ∧
    PVGate.size self' = PVGate.size self ∧ PVGate.olaps self' = PVGate.olaps self ∧
    PVGate.bufsize self' = PVGate.bufsize self ∧
    PVGate.count self' = PVStream.count input ∧
    PVGate.overcount self'
    = advance_overcount (PVGate.olaps self)
        (frame_edges (PVGate.size self) (PVStream.count input)) (PVGate.overcount self).
Proof.
  intros Hwf Hinput Hsize Holaps Hthresh Hdamp.
  destruct (for_loop_inv
    (λ i s, PVGate_wf s ∧
       PVGate.size s = PVGate.size self ∧ PVGate.olaps s = PVGate.olaps self ∧
       PVGate.bufsize s = PVGate.bufsize self ∧
       take (Z.to_nat i) (PVGate.count s) = take (Z.to_nat i) (PVStream.count input) ∧
       PVGate.overcount s
       = advance_overcount (PVGate.olaps self)
           (frame_edges (PVGate.size self) (take (Z.to_nat i) (PVStream.count input)))
           (PVGate.overcount self))
    (PVGate.bufsize self) (PVGate_sample_at thresh_at damp_at input) self)
    as (self' & Hrun & Hwf' & Hs' & Ho' & Hb' & Hcount & Hov); [by destruct Hwf|done| |].
  - intros i s Hi (Hs & Hsz & Hol & Hbuf & Hcount & Hov).
    destruct (Hthresh i Hi) as [thresh Ht]. destruct (Hdamp i Hi) as [damp Hd].
    destruct (PVGate_sample_at_run thresh_at damp_at input i s thresh damp)
      as (c & s' & Hc & Hsample & Hs' & Hsz' & Hol' & Hbuf' & Hcount' & Hov');
      [done|by rewrite Hbuf|congruence..|by rewrite Hbuf|done|done|].
    exists s'. split; [done|]. split_and!; [done|congruence..| |].
    + rewrite Hcount', take_insert_same by (destruct Hs; unfold cells in *; lia).
      rewrite (take_succ_rd _ i c) by (done || lia). by rewrite Hcount.
    + rewrite (take_succ_rd _ i c) by (done || lia).
      rewrite frame_edges_snoc, Hov', Hov, Hsz, Hol.
      destruct (bool_decide (PVGate.size self - 1 ≤ c)%Z);
        [by rewrite advance_overcount_S|by rewrite Nat.add_0_r].
  - exists self'. split_and!; try done.
    + destruct Hwf', Hinput. unfold cells in *.
      rewrite !firstn_all2 in Hcount by lia. done.
    + destruct Hinput. unfold cells in *. rewrite firstn_all2 in Hov by lia. done.
Qed.

Lemma PVGate_pv_stream_wf self :
  PVGate_wf self →
  count_in_range (PVGate.size self - PVGate.hopsize self) (PVGate.size self)
    (PVGate.count self) →
  PVStream_wf (PVGate.bufsize self) (PVGate_pv_stream self).
Proof.
  intros [] Hrange. destruct gate_config0 as (? & ? & Hhsize & Hhop & _).
  split; simpl; try done; by rewrite <- ?Hhsize, <- ?Hhop.
Qed.

(** A block of the gate, whatever the parameters are read from: the
    re-latch, then the loop over the samples. *)
Lemma PVGate_adapt_loop_run thresh_at damp_at input self :
  PVGate_wf self → PVStream_wf (PVGate.bufsize self) input →
  (∀ i, (0 ≤ i < PVGate.bufsize self)%Z → ∃ thresh, thresh_at i = Some thresh) →
  (∀ i, (0 ≤ i < PVGate.bufsize self)%Z → ∃ damp, damp_at i = Some damp) →
  ∃ self', (self0 ← PVGate_adapt input self;
            for_loop (PVGate.bufsize self0)
              (PVGate_sample_at thresh_at damp_at input) self0) = Some self' ∧
    PVGate_wf self' ∧
    PVGate.size self' = PVStream.fftsize input ∧
    PVGate.olaps self' = PVStream.olaps input ∧
    PVGate.bufsize self' = PVGate.bufsize self ∧
    PVGate.count self' = PVStream.count input ∧
    PVGate.overcount self'
    = advance_overcount (PVStream.olaps input)
        (frame_edges (PVStream.fftsize input) (PVStream.count input))
        (slot_after_adapt (PVGate.size self) (PVGate.olaps self)
           (PVGate.overcount self) input) ∧
    PVStream_wf (PVGate.bufsize self) (PVGate_pv_stream self').
Proof.
  intros Hwf Hinput Hthresh Hdamp.
  destruct (PVGate_adapt_run input self) as (self0 & -> & Hwf0 & Hs0 & Ho0 & Hb0 & Hov0);
    [done..|].
  simpl. rewrite <- Hb0 in Hinput, Hthresh, Hdamp.
  destruct (PVGate_loop_run thresh_at damp_at input self0)
    as (self' & -> & Hwf' & Hs' & Ho' & Hb' & Hc' & Hov'); [done..|].
  exists self'. rewrite Hs0, Ho0, Hov0 in *. split_and!; try done; [congruence|].
  rewrite <- Hb0, <- Hb'. apply PVGate_pv_stream_wf; [done|].
  destruct Hwf' as [(_ & _ & _ & -> & _) _ _ _ _ _]. rewrite Hc', Hs', Ho'.
  by destruct Hinput.
Qed.

(** X6: on a well-formed stream [PVGate_process_ii] returns, whatever the
    threshold and the damping factor; it takes over the size and the
    overlaps of the stream, republishes the counter of the stream
    unchanged, advances its slot once for every frame edge of the block
    (from 0 if it had to re-latch), and what it publishes is again a
    well-formed stream, so that another consumer can read it. *)
Theorem PVGate_process_ii_stream thresh damp input self :
  PVGate_wf self → PVStream_wf (PVGate.bufsize self) input →
  ∃ self', PVGate_process_ii thresh damp input self = Some self' ∧
    PVGate_wf self' ∧
    PVGate.size self' = PVStream.fftsize input ∧
    PVGate.olaps self' = PVStream.olaps input ∧
    PVGate.bufsize self' = PVGate.bufsize self ∧
    PVGate.count self' = PVStream.count input ∧
    PVGate.overcount self'
    = advance_overcount (PVStream.olaps input)
        (frame_edges (PVStream.fftsize input) (PVStream.count input))
        (slot_after_adapt (PVGate.size self) (PVGate.olaps self)
           (PVGate.overcount self) input) ∧
    PVStream_wf (PVGate.bufsize self) (PVGate_pv_stream self').
Proof.
  intros Hwf Hinput.
  apply (PVGate_adapt_loop_run (λ _, Some (PVGate_thresh thresh)) (λ _, Some damp));
    eauto.
Qed.

Lemma sample_gate_wf : PVGate_wf sample_gate.
Proof.
  destruct sample_tables as (_ & _ & ?).
  split; simpl; try done; try lia;
    unfold usable_config; split_and!; (reflexivity || lia).
Qed.

Lemma PVGate_process_ii_stream_sample :
  PVGate_wf sample_gate ∧ PVStream_wf (PVGate.bufsize sample_gate) sample_stream ∧
  ∃ self', PVGate_process_ii (-20) 0 sample_stream sample_gate = Some self' ∧
    PVGate.count self' = [3; 2]%Z ∧ PVGate.overcount self' = 0%Z.
Proof.
  split; [apply sample_gate_wf|]. split; [apply sample_stream_wf|].
  destruct (PVGate_process_ii_stream (-20) 0 sample_stream sample_gate
    sample_gate_wf sample_stream_wf) as (self' & Hrun & _ & _ & _ & _ & Hcount & Hov & _).
  exists self'. split; [exact Hrun|]. split; [exact Hcount|]. exact Hov.
Defined.

Lemma PVGate_adapt_Some input self self0 :
  PVGate_adapt input self = Some self0 →
  PVGate.bufsize self0 = PVGate.bufsize self ∧
  PVGate.size self0 = PVStream.fftsize input.
Proof.
  unfold PVGate_adapt. case_bool_decide as Hne.
  - unfold PVGate_realloc_memories.
    destruct (int_div _ 2) as [hsize|]; [simpl|done].
    destruct (int_div _ _) as [hopsize|]; [simpl|done].
    destruct (for_loop _ _ _) as [count'|]; [simpl|done].
    by intros [= <-].
  - intros [= <-]. split; [done|].
    destruct (decide (PVGate.size self = PVStream.fftsize input)); [done|].
    exfalso. apply Hne. by left.
Qed.

Lemma PVGate_sample_at_size thresh_at damp_at input i self self' :
  PVGate_sample_at thresh_at damp_at input i self = Some self' →
  PVGate.size self' = PVGate.size self.
Proof.
  unfold PVGate_sample_at.
  destruct (rd _ i) as [c|]; [cbn -[PVGate_frame]|done].
  destruct (wr _ i c) as [count|]; [cbn -[PVGate_frame]|done].
  destruct (_ <=? _)%Z; [|by intros [= <-]].
  destruct (thresh_at i) as [thresh|]; [cbn -[PVGate_frame]|done].
  destruct (damp_at i) as [damp|]; [cbn -[PVGate_frame]|done].
  destruct (PVGate_frame _ _ _ _ _ _ _) as [[magn freq]|]; [simpl|done].
  by intros [= <-].
Qed.

(** Two pairs of parameter sources that agree at the frame edges of the
    block give the same loop over the samples. *)
Lemma PVGate_loop_at_edges thresh_at damp_at thresh_at' damp_at' input self :
  PVGate.size self = PVStream.fftsize input →
  (∀ i c, rd (PVStream.count input) i = Some c → (PVStream.fftsize input - 1 ≤ c)%Z →
     thresh_at i = thresh_at' i ∧ damp_at i = damp_at' i) →
  for_loop (PVGate.bufsize self) (PVGate_sample_at thresh_at damp_at input) self
  = for_loop (PVGate.bufsize self) (PVGate_sample_at thresh_at' damp_at' input) self.
Proof.
  intros Hsize Hedges.
  apply (for_loop_ext_inv (λ s, PVGate.size s = PVStream.fftsize input)); [done| |].
  - intros k s Hk Hs. unfold PVGate_sample_at.
    destruct (rd _ k) as [c|] eqn:Hc; [cbn -[PVGate_frame]|done].
    destruct (wr _ k c) as [count|]; [cbn -[PVGate_frame]|done].
    destruct (Z.leb_spec (PVGate.size s - 1) c) as [Hedge|]; [|done].
    destruct (Hedges k c Hc) as [-> ->]; [lia|done].
  - intros k s s' _ Hs Hsample. apply PVGate_sample_at_size in Hsample. congruence.
Qed.

(** X7: the audio-rate variants of the gate read their parameter blocks
    only at the samples where a frame edge falls: when the blocks hold
    [thresh] and [damp] at those samples, whatever they hold elsewhere,
    [PVGate_process_ai], [PVGate_process_ia] and [PVGate_process_aa]
    compute what [PVGate_process_ii] computes for [thresh] and [damp],
    including the cases in which they fail. *)
Theorem PVGate_process_at_edges thresh damp rvt dmp input self :
  (∀ i c, rd (PVStream.count input) i = Some c → (PVStream.fftsize input - 1 ≤ c)%Z →
     rd rvt i = Some thresh ∧ rd dmp i = Some damp) →
  PVGate_process_ai rvt damp input self = PVGate_process_ii thresh damp input self ∧
  PVGate_process_ia thresh dmp input self = PVGate_process_ii thresh damp input self ∧
  PVGate_process_aa rvt dmp input self = PVGate_process_ii thresh damp input self.
Proof.
  intros Hedges.
  change (PVGate_process_ii thresh damp input self)
    with (self0 ← PVGate_adapt input self;
          for_loop (PVGate.bufsize self0)
            (PVGate_sample_at (λ _, Some (PVGate_thresh thresh)) (λ _, Some damp) input)
            self0).
  unfold PVGate_process_ai, PVGate_process_ia, PVGate_process_aa.
  destruct (PVGate_adapt input self) as [self0|] eqn:Hadapt; [simpl|done].
  apply PVGate_adapt_Some in Hadapt as [_ Hsize].
  split_and!; apply PVGate_loop_at_edges; try done; intros i c Hc Hedge;
    destruct (Hedges i c Hc Hedge) as [Hr Hd]; by rewrite ?Hr, ?Hd.
Qed.

Lemma PVGate_process_at_edges_sample :
  (∀ i c, rd (PVStream.count sample_stream) i = Some c →
     (PVStream.fftsize sample_stream - 1 ≤ c)%Z →
     rd [-20; 7]%R i = Some (-20)%R ∧ rd [0; 7]%R i = Some 0%R) ∧
  PVGate_process_aa [-20; 7]%R [0; 7]%R sample_stream sample_gate
  = PVGate_process_ii (-20) 0 sample_stream sample_gate.
Proof.
  assert (H : ∀ i c, rd (PVStream.count sample_stream) i = Some c →
                (PVStream.fftsize sample_stream - 1 ≤ c)%Z →
                rd [-20; 7]%R i = Some (-20)%R ∧ rd [0; 7]%R i = Some 0%R).
  { simpl. intros i c Hc Hedge. pose proof (rd_Some_bounds _ _ _ Hc) as Hi. simpl in Hi.
    assert (i = 0 ∨ i = 1)%Z as [-> | ->] by lia; [by split|].
    injection Hc as <-. lia. }
  split; [exact H|].
  exact (proj2 (proj2 (PVGate_process_at_edges (-20) 0 [-20; 7]%R [0; 7]%R
                         sample_stream sample_gate H))).
Defined.

(** ** PVVerb over whole blocks *)

Lemma PVVerb_realloc_memories_wf self size olaps :
  (2 ≤ size)%Z → (1 ≤ olaps ≤ size)%Z →
  (0 ≤ PVVerb.bufsize self)%Z → cells (PVVerb.bufsize self) (PVVerb.count self) →
  ∃ self', PVVerb_realloc_memories self size olaps = Some self' ∧
    PVVerb_wf self' ∧
    PVVerb.size self' = size ∧ PVVerb.olaps self' = olaps ∧
    PVVerb.bufsize self' = PVVerb.bufsize self ∧
    PVVerb.overcount self' = 0%Z ∧
    PVVerb.l_magn self' = filled (PVVerb.hsize self') 0%R ∧
    PVVerb.magn self' = filled olaps (filled (PVVerb.hsize self') 0%R) ∧
    PVVerb.freq self' = filled olaps (filled (PVVerb.hsize self') 0%R) ∧
    ∀ i, (0 ≤ i < PVVerb.bufsize self)%Z →
      rd (PVVerb.count self') i = Some (size - PVVerb.hopsize self')%Z.
Proof.
  intros Hsize Holaps Hbuf Hcount.
  assert (Hcfg : usable_config size olaps (size `quot` 2) (size `quot` olaps)
                   (size - size `quot` olaps)) by done.
  pose proof (usable_config_facts _ _ _ _ _ Hcfg) as Hfacts.
  unfold PVVerb_realloc_memories. rewrite !int_div_pos by lia. simpl.
  destruct (fill_loop (PVVerb.bufsize self) (PVVerb.count self)
    (size - size `quot` olaps)%Z Hbuf Hcount) as (count' & -> & Hcells & Hfilled).
  simpl. eexists. split; [reflexivity|]. simpl. split_and!; try done.
  split; simpl; try done; try lia; [apply cells_filled; lia|apply table_filled; lia..].
Qed.

Lemma PVVerb_adapt_run input self :
  PVVerb_wf self → PVStream_wf (PVVerb.bufsize self) input →
  ∃ self0, PVVerb_adapt input self = Some self0 ∧ PVVerb_wf self0 ∧
    PVVerb.size self0 = PVStream.fftsize input ∧
    PVVerb.olaps self0 = PVStream.olaps input ∧
    PVVerb.bufsize self0 = PVVerb.bufsize self ∧
    PVVerb.overcount self0
    = slot_after_adapt (PVVerb.size self) (PVVerb.olaps self) (PVVerb.overcount self) input.
Proof.
  intros Hwf Hinput. unfold PVVerb_adapt, slot_after_adapt. case_bool_decide as Hne.
  - destruct (PVVerb_realloc_memories_wf self (PVStream.fftsize input)
      (PVStream.olaps input)) as (self0 & ? & ? & ? & ? & ? & ? & _);
      [by destruct Hinput, Hwf..|].
    by exists self0.
  - exists self. split_and!; try done.
    + destruct (decide (PVVerb.size self = PVStream.fftsize input)); [done|].
      exfalso. apply Hne. by left.
    + destruct (decide (PVVerb.olaps self = PVStream.olaps input)); [done|].
      exfalso. apply Hne. by right.
Qed.

(** One sample of the reverberator. *)
Lemma PVVerb_sample_at_run fl revtime_at damp_at input i self revtime damp :
  PVVerb_wf self → PVStream_wf (PVVerb.bufsize self) input →
  PVStream.fftsize input = PVVerb.size self →
  PVStream.olaps input = PVVerb.olaps self →
  (0 ≤ i < PVVerb.bufsize self)%Z →
  revtime_at i = Some revtime → damp_at i = Some damp →
  ∃ c self', rd (PVStream.count input) i = Some c ∧
    PVVerb_sample_at fl revtime_at damp_at input i self = Some self' ∧
    PVVerb_wf self' ∧
    PVVerb.size self' = PVVerb.size self ∧ PVVerb.olaps self' = PVVerb.olaps self ∧
    PVVerb.bufsize self' = PVVerb.bufsize self ∧
    PVVerb.count self' = <[Z.to_nat i := c]> (PVVerb.count self) ∧
    PVVerb.overcount self'
    = (if bool_decide (PVVerb.size self - 1 ≤ c)%Z
       then next_overcount (PVVerb.overcount self) (PVVerb.olaps self)
       else PVVerb.overcount self).
Proof.
  intros Hwf [] Hsize Holaps Hi Hrevtime Hdamp. pose proof Hwf as [].
  pose proof (usable_config_facts _ _ _ _ _ verb_config0) as Hcfg.
  pose proof verb_config0 as (_ & _ & Hhsize & _).
  destruct (rd_cells _ _ i stream_count0 Hi) as [c Hc].
  exists c. unfold PVVerb_sample_at. rewrite Hc. cbn -[PVVerb_frame].
  rewrite (wr_in_bounds (PVVerb.count self)) by (unfold cells in *; lia).
  cbn -[PVVerb_frame].
  rewrite Hsize, Holaps, <- Hhsize in stream_magn0, stream_freq0.
  destruct (Z.leb_spec (PVVerb.size self - 1) c) as [Hedge|Hno].
  - rewrite Hrevtime, Hdamp. cbn -[PVVerb_frame].
    destruct (PVVerb_frame_run fl revtime damp (PVVerb.olaps self) (PVVerb.hsize self)
      (PVVerb.overcount self) (PVStream.magn input) (PVStream.freq input)
      (PVVerb.l_magn self) (PVVerb.magn self) (PVVerb.freq self))
      as (l_magn' & magn' & freq' & -> & ? & ? & ? & _); [done..|lia|].
    simpl. eexists. split_and!; try done.
    + split; simpl; try done; [by apply next_overcount_range|by apply cells_insert].
    + simpl. by rewrite bool_decide_eq_true_2.
  - eexists. split_and!; try done.
    + split; simpl; try done. by apply cells_insert.
    + simpl. by rewrite bool_decide_eq_false_2 by lia.
Qed.

(** The loop over the samples of a block, for any of the four variants. *)
Lemma PVVerb_loop_run fl revtime_at damp_at input self :
  PVVerb_wf self → PVStream_wf (PVVerb.bufsize self) input →
  PVStream.fftsize input = PVVerb.size self →
  PVStream.olaps input = PVVerb.olaps self →
  (∀ i, (0 ≤ i < PVVerb.bufsize self)%Z → ∃ revtime, revtime_at i = Some revtime) →
  (∀ i, (0 ≤ i < PVVerb.bufsize self)%Z → ∃ damp, damp_at i = Some damp) →
  ∃ self', for_loop (PVVerb.bufsize self)
             (PVVerb_sample_at fl revtime_at damp_at input) self = Some self' ∧
    PVVerb_wf self' ∧
    PVVerb.size self' = PVVerb.size self ∧ PVVerb.olaps self' = PVVerb.olaps self ∧
    PVVerb.bufsize self' = PVVerb.bufsize self ∧
    PVVerb.count self' = PVStream.count input ∧
    PVVerb.overcount self'
    = advance_overcount (PVVerb.olaps self)
        (frame_edges (PVVerb.size self) (PVStream.count input)) (PVVerb.overcount self).
Proof.
  intros Hwf Hinput Hsize Holaps Hrevtime Hdamp.
  destruct (for_loop_inv
    (λ i s, PVVerb_wf s ∧
       PVVerb.size s = PVVerb.size self ∧ PVVerb.olaps s = PVVerb.olaps self ∧
       PVVerb.bufsize s = PVVerb.bufsize self ∧
       take (Z.to_nat i) (PVVerb.count s) = take (Z.to_nat i) (PVStream.count input) ∧
       PVVerb.overcount s
       = advance_overcount (PVVerb.olaps self)
           (frame_edges (PVVerb.size self) (take (Z.to_nat i) (PVStream.count input)))
           (PVVerb.overcount self))
    (PVVerb.bufsize self) (PVVerb_sample_at fl revtime_at damp_at input) self)
    as (self' & Hrun & Hwf' & Hs' & Ho' & Hb' & Hcount & Hov); [by destruct Hwf|done| |].
  - intros i s Hi (Hs & Hsz & Hol & Hbuf & Hcount & Hov).
    destruct (Hrevtime i Hi) as [revtime Ht]. destruct (Hdamp i Hi) as [damp Hd].
    destruct (PVVerb_sample_at_run fl revtime_at damp_at input i s revtime damp)
      as (c & s' & Hc & Hsample & Hs' & Hsz' & Hol' & Hbuf' & Hcount' & Hov');
      [done|by rewrite Hbuf|congruence..|by rewrite Hbuf|done|done|].
    exists s'. split; [done|]. split_and!; [done|congruence..| |].
    + rewrite Hcount', take_insert_same by (destruct Hs; unfold cells in *; lia).
      rewrite (take_succ_rd _ i c) by (done || lia). by rewrite Hcount.
    + rewrite (take_succ_rd _ i c) by (done || lia).
      rewrite frame_edges_snoc, Hov', Hov, Hsz, Hol.
      destruct (bool_decide (PVVerb.size self - 1 ≤ c)%Z);
        [by rewrite advance_overcount_S|by rewrite Nat.add_0_r].
  - exists self'. split_and!; try done.
    + destruct Hwf', Hinput. unfold cells in *.
      rewrite !firstn_all2 in Hcount by lia. done.
    + destruct Hinput. unfold cells in *. rewrite firstn_all2 in Hov by lia. done.
Qed.

Lemma PVVerb_pv_stream_wf self :
  PVVerb_wf self →
  count_in_range (PVVerb.size self - PVVerb.hopsize self) (PVVerb.size self)
    (PVVerb.count self) →
  PVStream_wf (PVVerb.bufsize self) (PVVerb_pv_stream self).
Proof.
  intros [] Hrange. destruct verb_config0 as (? & ? & Hhsize & Hhop & _).
  split; simpl; try done; by rewrite <- ?Hhsize, <- ?Hhop.
Qed.

(** A block of the reverberator, whatever the parameters are read from. *)
Lemma PVVerb_adapt_loop_run fl revtime_at damp_at input self :
  PVVerb_wf self → PVStream_wf (PVVerb.bufsize self) input →
  (∀ i, (0 ≤ i < PVVerb.bufsize self)%Z → ∃ revtime, revtime_at i = Some revtime) →
  (∀ i, (0 ≤ i < PVVerb.bufsize self)%Z → ∃ damp, damp_at i = Some damp) →
  ∃ self', (self0 ← PVVerb_adapt input self;
            for_loop (PVVerb.bufsize self0)
              (PVVerb_sample_at fl revtime_at damp_at input) self0) = Some self' ∧
    PVVerb_wf self' ∧
    PVVerb.size self' = PVStream.fftsize input ∧
    PVVerb.olaps self' = PVStream.olaps input ∧
    PVVerb.bufsize self' = PVVerb.bufsize self ∧
    PVVerb.count self' = PVStream.count input ∧
    PVVerb.overcount self'
    = advance_overcount (PVStream.olaps input)
        (frame_edges (PVStream.fftsize input) (PVStream.count input))
        (slot_after_adapt (PVVerb.size self) (PVVerb.olaps self)
           (PVVerb.overcount self) input) ∧
    PVStream_wf (PVVerb.bufsize self) (PVVerb_pv_stream self').
Proof.
  intros Hwf Hinput Hrevtime Hdamp.
  destruct (PVVerb_adapt_run input self) as (self0 & -> & Hwf0 & Hs0 & Ho0 & Hb0 & Hov0);
    [done..|].
  simpl. rewrite <- Hb0 in Hinput, Hrevtime, Hdamp.
  destruct (PVVerb_loop_run fl revtime_at damp_at input self0)
    as (self' & -> & Hwf' & Hs' & Ho' & Hb' & Hc' & Hov'); [done..|].
  exists self'. rewrite Hs0, Ho0, Hov0 in *. split_and!; try done; [congruence|].
  rewrite <- Hb0, <- Hb'. apply PVVerb_pv_stream_wf; [done|].
  destruct Hwf' as [(_ & _ & _ & -> & _) _ _ _ _ _ _]. rewrite Hc', Hs', Ho'.
  by destruct Hinput.
Qed.

(** X8: on a well-formed stream [PVVerb_process_ii] returns, whatever the
    reverberation time and the damping; it takes over the size and the
    overlaps of the stream, republishes the counter of the stream
    unchanged, advances its slot once for every frame edge of the block
    (from 0 if it had to re-latch), and what it publishes is again a
    well-formed stream. *)
Theorem PVVerb_process_ii_stream fl revtime damp input self :
  PVVerb_wf self → PVStream_wf (PVVerb.bufsize self) input →
  ∃ self', PVVerb_process_ii fl revtime damp input self = Some self' ∧
    PVVerb_wf self' ∧
    PVVerb.size self' = PVStream.fftsize input ∧
    PVVerb.olaps self' = PVStream.olaps input ∧
    PVVerb.bufsize self' = PVVerb.bufsize self ∧
    PVVerb.count self' = PVStream.count input ∧
    PVVerb.overcount self'
    = advance_overcount (PVStream.olaps input)
        (frame_edges (PVStream.fftsize input) (PVStream.count input))
        (slot_after_adapt (PVVerb.size self) (PVVerb.olaps self)
           (PVVerb.overcount self) input) ∧
    PVStream_wf (PVVerb.bufsize self) (PVVerb_pv_stream self').
Proof.
  intros Hwf Hinput.
  apply (PVVerb_adapt_loop_run fl (λ _, Some (PVVerb_revtime fl revtime))
           (λ _, Some (PVVerb_damp fl damp))); eauto.
Qed.

Lemma sample_verb_wf : PVVerb_wf sample_verb.
Proof.
  destruct sample_tables as (_ & _ & ?).
  split; simpl; try done; try lia;
    unfold usable_config; split_and!; (reflexivity || lia).
Qed.

Lemma PVVerb_process_ii_stream_sample :
  PVVerb_wf sample_verb ∧ PVStream_wf (PVVerb.bufsize sample_verb) sample_stream ∧
  ∃ self', PVVerb_process_ii MYFLT_exact (3 / 4) (3 / 4) sample_stream sample_verb = Some self' ∧
    PVVerb.count self' = [3; 2]%Z ∧ PVVerb.overcount self' = 0%Z.
Proof.
  split; [apply sample_verb_wf|]. split; [apply sample_stream_wf|].
  destruct (PVVerb_process_ii_stream MYFLT_exact (3 / 4) (3 / 4) sample_stream sample_verb
    sample_verb_wf sample_stream_wf) as (self' & Hrun & _ & _ & _ & _ & Hcount & Hov & _).
  exists self'. split; [exact Hrun|]. split; [exact Hcount|]. exact Hov.
Defined.

Lemma PVVerb_adapt_Some input self self0 :
  PVVerb_adapt input self = Some self0 →
  PVVerb.bufsize self0 = PVVerb.bufsize self ∧
  PVVerb.size self0 = PVStream.fftsize input.
Proof.
  unfold PVVerb_adapt. case_bool_decide as Hne.
  - unfold PVVerb_realloc_memories.
    destruct (int_div _ 2) as [hsize|]; [simpl|done].
    destruct (int_div _ _) as [hopsize|]; [simpl|done].
    destruct (for_loop _ _ _) as [count'|]; [simpl|done].
    by intros [= <-].
  - intros [= <-]. split; [done|].
    destruct (decide (PVVerb.size self = PVStream.fftsize input)); [done|].
    exfalso. apply Hne. by left.
Qed.

Lemma PVVerb_sample_at_size fl revtime_at damp_at input i self self' :
  PVVerb_sample_at fl revtime_at damp_at input i self = Some self' →
  PVVerb.size self' = PVVerb.size self.
Proof.
  unfold PVVerb_sample_at.
  destruct (rd _ i) as [c|]; [cbn -[PVVerb_frame]|done].
  destruct (wr _ i c) as [count|]; [cbn -[PVVerb_frame]|done].
  destruct (_ <=? _)%Z; [|by intros [= <-]].
  destruct (revtime_at i) as [revtime|]; [cbn -[PVVerb_frame]|done].
  destruct (damp_at i) as [damp|]; [cbn -[PVVerb_frame]|done].
  destruct (PVVerb_frame fl _ _ _ _ _ _ _) as [[[l_magn magn] freq]|]; [simpl|done].
  by intros [= <-].
Qed.

(** Two pairs of parameter sources that agree at the frame edges of the
    block give the same loop over the samples. *)
Lemma PVVerb_loop_at_edges fl revtime_at damp_at revtime_at' damp_at' input self :
  PVVerb.size self = PVStream.fftsize input →
  (∀ i c, rd (PVStream.count input) i = Some c → (PVStream.fftsize input - 1 ≤ c)%Z →
     revtime_at i = revtime_at' i ∧ damp_at i = damp_at' i) →
  for_loop (PVVerb.bufsize self) (PVVerb_sample_at fl revtime_at damp_at input) self
  = for_loop (PVVerb.bufsize self) (PVVerb_sample_at fl revtime_at' damp_at' input) self.
Proof.
  intros Hsize Hedges.
  apply (for_loop_ext_inv (λ s, PVVerb.size s = PVStream.fftsize input)); [done| |].
  - intros k s Hk Hs. unfold PVVerb_sample_at.
    destruct (rd _ k) as [c|] eqn:Hc; [cbn -[PVVerb_frame]|done].
    destruct (wr _ k c) as [count|]; [cbn -[PVVerb_frame]|done].
    destruct (Z.leb_spec (PVVerb.size s - 1) c) as [Hedge|]; [|done].
    destruct (Hedges k c Hc) as [-> ->]; [lia|done].
  - intros k s s' _ Hs Hsample. apply PVVerb_sample_at_size in Hsample. congruence.
Qed.

(** X9: the audio-rate variants of the reverberator read their parameter
    blocks only at the samples where a frame edge falls: when the blocks
    hold [revtime] and [damp] at those samples, whatever they hold
    elsewhere, [PVVerb_process_ai], [PVVerb_process_ia] and
    [PVVerb_process_aa] compute what [PVVerb_process_ii] computes for
    [revtime] and [damp], including the cases in which they fail. *)
Theorem PVVerb_process_at_edges fl revtime damp rvt dmp input self :
  (∀ i c, rd (PVStream.count input) i = Some c → (PVStream.fftsize input - 1 ≤ c)%Z →
     rd rvt i = Some revtime ∧ rd dmp i = Some damp) →
  PVVerb_process_ai fl rvt damp input self = PVVerb_process_ii fl revtime damp input self ∧
  PVVerb_process_ia fl revtime dmp input self = PVVerb_process_ii fl revtime damp input self ∧
  PVVerb_process_aa fl rvt dmp input self = PVVerb_process_ii fl revtime damp input self.
Proof.
  intros Hedges.
  change (PVVerb_process_ii fl revtime damp input self)
    with (self0 ← PVVerb_adapt input self;
          for_loop (PVVerb.bufsize self0)
            (PVVerb_sample_at fl (λ _, Some (PVVerb_revtime fl revtime))
               (λ _, Some (PVVerb_damp fl damp)) input) self0).
  unfold PVVerb_process_ai, PVVerb_process_ia, PVVerb_process_aa.
  destruct (PVVerb_adapt input self) as [self0|] eqn:Hadapt; [simpl|done].
  apply PVVerb_adapt_Some in Hadapt as [_ Hsize].
  split_and!; apply PVVerb_loop_at_edges; try done; intros i c Hc Hedge;
    destruct (Hedges i c Hc Hedge) as [Hr Hd]; by rewrite ?Hr, ?Hd.
Qed.

Lemma PVVerb_process_at_edges_sample :
  (∀ i c, rd (PVStream.count sample_stream) i = Some c →
     (PVStream.fftsize sample_stream - 1 ≤ c)%Z →
     rd [1; 7]%R i = Some 1%R ∧ rd [0; 7]%R i = Some 0%R) ∧
  PVVerb_process_aa MYFLT_exact [1; 7]%R [0; 7]%R sample_stream sample_verb
  = PVVerb_process_ii MYFLT_exact 1 0 sample_stream sample_verb.
Proof.
  assert (H : ∀ i c, rd (PVStream.count sample_stream) i = Some c →
                (PVStream.fftsize sample_stream - 1 ≤ c)%Z →
                rd [1; 7]%R i = Some 1%R ∧ rd [0; 7]%R i = Some 0%R).
  { simpl. intros i c Hc Hedge. pose proof (rd_Some_bounds _ _ _ Hc) as Hi. simpl in Hi.
    assert (i = 0 ∨ i = 1)%Z as [-> | ->] by lia; [by split|].
    injection Hc as <-. lia. }
  split; [exact H|].
  exact (proj2 (proj2 (PVVerb_process_at_edges MYFLT_exact 1 0 [1; 7]%R [0; 7]%R
                         sample_stream sample_verb H))).
Defined.

(** ** PVTranspose over whole blocks *)

Lemma PVTranspose_realloc_memories_wf self size olaps :
  (2 ≤ size)%Z → (1 ≤ olaps ≤ size)%Z →
  (0 ≤ PVTranspose.bufsize self)%Z →
  cells (PVTranspose.bufsize self) (PVTranspose.count self) →
  ∃ self', PVTranspose_realloc_memories self size olaps = Some self' ∧
    PVTranspose_wf self' ∧
    PVTranspose.size self' = size ∧ PVTranspose.olaps self' = olaps ∧
    PVTranspose.bufsize self' = PVTranspose.bufsize self ∧
    PVTranspose.overcount self' = 0%Z ∧
    PVTranspose.magn self' = filled olaps (filled (PVTranspose.hsize self') 0%R) ∧
    PVTranspose.freq self' = filled olaps (filled (PVTranspose.hsize self') 0%R) ∧
    ∀ i, (0 ≤ i < PVTranspose.bufsize self)%Z →
      rd (PVTranspose.count self') i = Some (size - PVTranspose.hopsize self')%Z.
Proof.
  intros Hsize Holaps Hbuf Hcount.
  assert (Hcfg : usable_config size olaps (size `quot` 2) (size `quot` olaps)
                   (size - size `quot` olaps)) by done.
  pose proof (usable_config_facts _ _ _ _ _ Hcfg) as Hfacts.
  unfold PVTranspose_realloc_memories. rewrite !int_div_pos by lia. simpl.
  destruct (fill_loop (PVTranspose.bufsize self) (PVTranspose.count self)
    (size - size `quot` olaps)%Z Hbuf Hcount) as (count' & -> & Hcells & Hfilled).
  simpl. eexists. split; [reflexivity|]. simpl. split_and!; try done.
  split; simpl; try done; try lia; apply table_filled; lia.
Qed.

Lemma PVTranspose_adapt_run input self :
  PVTranspose_wf self → PVStream_wf (PVTranspose.bufsize self) input →
  ∃ self0, PVTranspose_adapt input self = Some self0 ∧ PVTranspose_wf self0 ∧
    PVTranspose.size self0 = PVStream.fftsize input ∧
    PVTranspose.olaps self0 = PVStream.olaps input ∧
    PVTranspose.bufsize self0 = PVTranspose.bufsize self ∧
    PVTranspose.overcount self0
    = slot_after_adapt (PVTranspose.size self) (PVTranspose.olaps self)
        (PVTranspose.overcount self) input.
Proof.
  intros Hwf Hinput. unfold PVTranspose_adapt, slot_after_adapt.
  case_bool_decide as Hne.
  - destruct (PVTranspose_realloc_memories_wf self (PVStream.fftsize input)
      (PVStream.olaps input)) as (self0 & ? & ? & ? & ? & ? & ? & _);
      [by destruct Hinput, Hwf..|].
    by exists self0.
  - exists self. split_and!; try done.
    + destruct (decide (PVTranspose.size self = PVStream.fftsize input)); [done|].
      exfalso. apply Hne. by left.
    + destruct (decide (PVTranspose.olaps self = PVStream.olaps input)); [done|].
      exfalso. apply Hne. by right.
Qed.

(** A frame of the transposition stays inside the tables when the cast of
    every product is defined and not negative; it rewrites the current
    slot and no other. *)
Lemma PVTranspose_frame_run fl transpo olaps hsize overcount magn_in freq_in magn freq :
  PVTranspose_index_defined fl transpo hsize →
  table olaps hsize magn_in → table olaps hsize freq_in →
  table olaps hsize magn → table olaps hsize freq →
  (0 ≤ overcount < olaps)%Z → (0 ≤ hsize)%Z →
  ∃ magn' freq',
    PVTranspose_frame fl transpo magn_in freq_in hsize overcount (magn, freq)
      = Some (magn', freq') ∧
    table olaps hsize magn' ∧ table olaps hsize freq' ∧
    (∀ i k, i ≠ overcount →
       rd2 magn' i k = rd2 magn i k ∧ rd2 freq' i k = rd2 freq i k) ∧
    ∀ idx, (0 ≤ idx < hsize)%Z →
      rd2 magn' overcount idx
        = Some (landing_sum_by (PVTranspose_index fl transpo)
                  (cell_or_0 magn_in overcount) idx (Z.to_nat hsize)) ∧
      rd2 freq' overcount idx
        = Some (landing_freq_by (PVTranspose_index fl transpo) transpo
                  (cell_or_0 freq_in overcount) idx (Z.to_nat hsize)).
Proof.
  intros Ht Hmi Hfi Hm Hf Ho Hh. unfold PVTranspose_frame.
  destruct (PVTranspose_clear_run olaps hsize overcount magn freq)
    as (magn0 & freq0 & -> & Hm0 & Hf0 & Hrows0 & Hzero); [done..|].
  simpl.
  destruct (PVTranspose_bins_run fl transpo olaps hsize overcount magn_in freq_in magn0 freq0)
    as (magn' & freq' & Hrun & ? & ? & Hrows & ?); [done..|].
  exists magn', freq'. split_and!; [done..| |done].
  intros i k Hi. destruct (Hrows i k Hi) as [-> ->]. by apply Hrows0.
Qed.

(** What one round of the loop over the samples does to the tables. *)
Lemma PVTranspose_sample_inv fl transpo_at input i self self' c :
  rd (PVStream.count input) i = Some c →
  PVTranspose_sample fl transpo_at input i self = Some self' →
  if (PVTranspose.size self - 1 <=? c)%Z
  then ∃ transpo, transpo_at i = Some transpo ∧
         PVTranspose_frame fl transpo (PVStream.magn input) (PVStream.freq input)
           (PVTranspose.hsize self) (PVTranspose.overcount self)
           (PVTranspose.magn self, PVTranspose.freq self)
         = Some (PVTranspose.magn self', PVTranspose.freq self')
  else PVTranspose.magn self' = PVTranspose.magn self ∧
       PVTranspose.freq self' = PVTranspose.freq self.
Proof.
  intros Hc. unfold PVTranspose_sample. rewrite Hc. cbn -[PVTranspose_frame].
  destruct (wr (PVTranspose.count self) i c) as [count|]; [|done].
  cbn -[PVTranspose_frame].
  destruct (PVTranspose.size self - 1 <=? c)%Z.
  - destruct (transpo_at i) as [transpo|]; [|done]. cbn -[PVTranspose_frame].
    intros H. exists transpo. split; [done|].
    destruct (PVTranspose_frame fl transpo (PVStream.magn input) (PVStream.freq input)
      (PVTranspose.hsize self) (PVTranspose.overcount self)
      (PVTranspose.magn self, PVTranspose.freq self)) as [[magn freq]|]; [|done].
    injection H as <-. reflexivity.
  - intros [= <-]. split; reflexivity.
Qed.

(** One sample of the transposition. *)
Lemma PVTranspose_sample_run fl transpo_at input i self :
  PVTranspose_wf self → PVStream_wf (PVTranspose.bufsize self) input →
  PVStream.fftsize input = PVTranspose.size self →
  PVStream.olaps input = PVTranspose.olaps self →
  (0 ≤ i < PVTranspose.bufsize self)%Z →
  (∀ c, rd (PVStream.count input) i = Some c → (PVTranspose.size self - 1 ≤ c)%Z →
     ∃ transpo, transpo_at i = Some transpo ∧
       PVTranspose_index_defined fl transpo (PVTranspose.hsize self)) →
  ∃ c self', rd (PVStream.count input) i = Some c ∧
    PVTranspose_sample fl transpo_at input i self = Some self' ∧
    PVTranspose_wf self' ∧
    PVTranspose.size self' = PVTranspose.size self ∧
    PVTranspose.olaps self' = PVTranspose.olaps self ∧
    PVTranspose.bufsize self' = PVTranspose.bufsize self ∧
    PVTranspose.count self' = <[Z.to_nat i := c]> (PVTranspose.count self) ∧
    PVTranspose.overcount self'
    = (if bool_decide (PVTranspose.size self - 1 ≤ c)%Z
       then next_overcount (PVTranspose.overcount self) (PVTranspose.olaps self)
       else PVTranspose.overcount self).
Proof.
  intros Hwf [] Hsize Holaps Hi Htranspo. pose proof Hwf as [].
  pose proof (usable_config_facts _ _ _ _ _ transpose_config0) as Hcfg.
  pose proof transpose_config0 as (_ & _ & Hhsize & _).
  destruct (rd_cells _ _ i stream_count0 Hi) as [c Hc].
  exists c. unfold PVTranspose_sample. rewrite Hc. cbn -[PVTranspose_frame].
  rewrite (wr_in_bounds (PVTranspose.count self)) by (unfold cells in *; lia).
  cbn -[PVTranspose_frame].
  rewrite Hsize, Holaps, <- Hhsize in stream_magn0, stream_freq0.
  destruct (Z.leb_spec (PVTranspose.size self - 1) c) as [Hedge|Hno].
  - destruct (Htranspo c Hc Hedge) as (transpo & -> & Hpos). cbn -[PVTranspose_frame].
    destruct (PVTranspose_frame_run fl transpo (PVTranspose.olaps self)
      (PVTranspose.hsize self) (PVTranspose.overcount self) (PVStream.magn input)
      (PVStream.freq input) (PVTranspose.magn self) (PVTranspose.freq self))
      as (magn' & freq' & -> & ? & ? & _); [done..|lia|].
    simpl. eexists. split_and!; try done.
    + split; simpl; try done; [by apply next_overcount_range|by apply cells_insert].
    + simpl. by rewrite bool_decide_eq_true_2.
  - eexists. split_and!; try done.
    + split; simpl; try done. by apply cells_insert.
    + simpl. by rewrite bool_decide_eq_false_2 by lia.
Qed.

(** The loop over the samples of a block, for both variants. *)
Lemma PVTranspose_loop_run fl transpo_at input self :
  PVTranspose_wf self → PVStream_wf (PVTranspose.bufsize self) input →
  PVStream.fftsize input = PVTranspose.size self →
  PVStream.olaps input = PVTranspose.olaps self →
  (∀ i c, rd (PVStream.count input) i = Some c → (PVTranspose.size self - 1 ≤ c)%Z →
     ∃ transpo, transpo_at i = Some transpo ∧
       PVTranspose_index_defined fl transpo (PVTranspose.hsize self)) →
  ∃ self', for_loop (PVTranspose.bufsize self)
             (PVTranspose_sample fl transpo_at input) self = Some self' ∧
    PVTranspose_wf self' ∧
    PVTranspose.size self' = PVTranspose.size self ∧
    PVTranspose.olaps self' = PVTranspose.olaps self ∧
    PVTranspose.bufsize self' = PVTranspose.bufsize self ∧
    PVTranspose.count self' = PVStream.count input ∧
    PVTranspose.overcount self'
    = advance_overcount (PVTranspose.olaps self)
        (frame_edges (PVTranspose.size self) (PVStream.count input))
        (PVTranspose.overcount self).
Proof.
  intros Hwf Hinput Hsize Holaps Htranspo.
  destruct (for_loop_inv
    (λ i s, PVTranspose_wf s ∧
       PVTranspose.size s = PVTranspose.size self ∧
       PVTranspose.olaps s = PVTranspose.olaps self ∧
       PVTranspose.bufsize s = PVTranspose.bufsize self ∧
       take (Z.to_nat i) (PVTranspose.count s)
       = take (Z.to_nat i) (PVStream.count input) ∧
       PVTranspose.overcount s
       = advance_overcount (PVTranspose.olaps self)
           (frame_edges (PVTranspose.size self)
              (take (Z.to_nat i) (PVStream.count input)))
           (PVTranspose.overcount self))
    (PVTranspose.bufsize self) (PVTranspose_sample fl transpo_at input) self)
    as (self' & Hrun & Hwf' & Hs' & Ho' & Hb' & Hcount & Hov); [by destruct Hwf|done| |].
  - intros i s Hi (Hs & Hsz & Hol & Hbuf & Hcount & Hov).
    assert (Hh : PVTranspose.hsize s = PVTranspose.hsize self).
    { destruct Hs as [(_ & _ & -> & _) _ _ _ _ _], Hwf as [(_ & _ & -> & _) _ _ _ _ _].
      congruence. }
    destruct (PVTranspose_sample_run fl transpo_at input i s)
      as (c & s' & Hc & Hsample & Hs' & Hsz' & Hol' & Hbuf' & Hcount' & Hov');
      [done|by rewrite Hbuf|congruence..|by rewrite Hbuf| |].
    { rewrite Hsz, Hh. by apply Htranspo. }
    exists s'. split; [done|]. split_and!; [done|congruence..| |].
    + rewrite Hcount', take_insert_same by (destruct Hs; unfold cells in *; lia).
      rewrite (take_succ_rd _ i c) by (done || lia). by rewrite Hcount.
    + rewrite (take_succ_rd _ i c) by (done || lia).
      rewrite frame_edges_snoc, Hov', Hov, Hsz, Hol.
      destruct (bool_decide (PVTranspose.size self - 1 ≤ c)%Z);
        [by rewrite advance_overcount_S|by rewrite Nat.add_0_r].
  - exists self'. split_and!; try done.
    + destruct Hwf', Hinput. unfold cells in *.
      rewrite !firstn_all2 in Hcount by lia. done.
    + destruct Hinput. unfold cells in *. rewrite firstn_all2 in Hov by lia. done.
Qed.

Lemma PVTranspose_pv_stream_wf self :
  PVTranspose_wf self →
  count_in_range (PVTranspose.size self - PVTranspose.hopsize self)
    (PVTranspose.size self) (PVTranspose.count self) →
  PVStream_wf (PVTranspose.bufsize self) (PVTranspose_pv_stream self).
Proof.
  intros [] Hrange. destruct transpose_config0 as (? & ? & Hhsize & Hhop & _).
  split; simpl; try done; by rewrite <- ?Hhsize, <- ?Hhop.
Qed.

(** A block of the transposition, whatever the factor is read from. *)
Lemma PVTranspose_adapt_loop_run fl transpo_at input self :
  PVTranspose_wf self → PVStream_wf (PVTranspose.bufsize self) input →
  (∀ i c, rd (PVStream.count input) i = Some c → (PVStream.fftsize input - 1 ≤ c)%Z →
     ∃ transpo, transpo_at i = Some transpo ∧
       PVTranspose_index_defined fl transpo (PVStream.fftsize input `quot` 2)) →
  ∃ self', (self0 ← PVTranspose_adapt input self;
            for_loop (PVTranspose.bufsize self0)
              (PVTranspose_sample fl transpo_at input) self0) = Some self' ∧
    PVTranspose_wf self' ∧
    PVTranspose.size self' = PVStream.fftsize input ∧
    PVTranspose.olaps self' = PVStream.olaps input ∧
    PVTranspose.bufsize self' = PVTranspose.bufsize self ∧
    PVTranspose.count self' = PVStream.count input ∧
    PVTranspose.overcount self'
    = advance_overcount (PVStream.olaps input)
        (frame_edges (PVStream.fftsize input) (PVStream.count input))
        (slot_after_adapt (PVTranspose.size self) (PVTranspose.olaps self)
           (PVTranspose.overcount self) input) ∧
    PVStream_wf (PVTranspose.bufsize self) (PVTranspose_pv_stream self').
Proof.
  intros Hwf Hinput Htranspo.
  destruct (PVTranspose_adapt_run input self)
    as (self0 & -> & Hwf0 & Hs0 & Ho0 & Hb0 & Hov0); [done..|].
  simpl. rewrite <- Hb0 in Hinput.
  assert (Hh0 : PVTranspose.hsize self0 = (PVStream.fftsize input `quot` 2)%Z).
  { destruct Hwf0 as [(_ & _ & -> & _) _ _ _ _ _]. by rewrite Hs0. }
  destruct (PVTranspose_loop_run fl transpo_at input self0)
    as (self' & -> & Hwf' & Hs' & Ho' & Hb' & Hc' & Hov'); [done..|by rewrite Hh0, Hs0|].
  exists self'. rewrite Hs0, Ho0, Hov0 in *. split_and!; try done; [congruence|].
  rewrite <- Hb0, <- Hb'. apply PVTranspose_pv_stream_wf; [done|].
  destruct Hwf' as [(_ & _ & _ & -> & _) _ _ _ _ _]. rewrite Hc', Hs', Ho'.
  by destruct Hinput.
Qed.

(** X10: on a well-formed stream [PVTranspose_process_i] returns when the
    factor is such that every product [k * transpo] of a frame, as it is
    computed, is not negative and below [2^31], where its cast to [int] is
    defined; it takes over the size and the overlaps of the stream,
    republishes the counter of the stream unchanged, advances its slot
    once for every frame edge of the block (from 0 if it had to re-latch),
    and what it publishes is again a well-formed stream. *)
Theorem PVTranspose_process_i_stream fl transpo input self :
  PVTranspose_index_defined fl transpo (PVStream.fftsize input `quot` 2) →
  PVTranspose_wf self → PVStream_wf (PVTranspose.bufsize self) input →
  ∃ self', PVTranspose_process_i fl transpo input self = Some self' ∧
    PVTranspose_wf self' ∧
    PVTranspose.size self' = PVStream.fftsize input ∧
    PVTranspose.olaps self' = PVStream.olaps input ∧
    PVTranspose.bufsize self' = PVTranspose.bufsize self ∧
    PVTranspose.count self' = PVStream.count input ∧
    PVTranspose.overcount self'
    = advance_overcount (PVStream.olaps input)
        (frame_edges (PVStream.fftsize input) (PVStream.count input))
        (slot_after_adapt (PVTranspose.size self) (PVTranspose.olaps self)
           (PVTranspose.overcount self) input) ∧
    PVStream_wf (PVTranspose.bufsize self) (PVTranspose_pv_stream self').
Proof.
  intros Hpos Hwf Hinput.
  apply (PVTranspose_adapt_loop_run fl (λ _, Some transpo)); eauto.
Qed.

Lemma sample_transpose_wf : PVTranspose_wf sample_transpose.
Proof.
  destruct sample_tables as (_ & _ & ?).
  split; simpl; try done; try lia;
    unfold usable_config; split_and!; (reflexivity || lia).
Qed.

Lemma PVTranspose_process_i_stream_sample :
  PVTranspose_index_defined MYFLT_exact 2 (PVStream.fftsize sample_stream `quot` 2) ∧
  PVTranspose_wf sample_transpose ∧
  PVStream_wf (PVTranspose.bufsize sample_transpose) sample_stream ∧
  ∃ self', PVTranspose_process_i MYFLT_exact 2 sample_stream sample_transpose = Some self' ∧
    PVTranspose.count self' = [3; 2]%Z ∧ PVTranspose.overcount self' = 0%Z.
Proof.
  assert (H0 : PVTranspose_index_defined MYFLT_exact 2
                 (PVStream.fftsize sample_stream `quot` 2)).
  { apply PVTranspose_index_MYFLT_exact; [lra|].
    change (IZR (PVStream.fftsize sample_stream `quot` 2 - 1)) with 1%R.
    change (IZR (INT_MAX + 1)) with 2147483648%R. lra. }
  split; [exact H0|]. split; [apply sample_transpose_wf|].
  split; [apply sample_stream_wf|].
  destruct (PVTranspose_process_i_stream MYFLT_exact 2 sample_stream sample_transpose H0
    sample_transpose_wf sample_stream_wf)
    as (self' & Hrun & _ & _ & _ & _ & Hcount & Hov & _).
  exists self'. split; [exact Hrun|]. split; [exact Hcount|]. exact Hov.
Defined.

Lemma PVTranspose_adapt_Some input self self0 :
  PVTranspose_adapt input self = Some self0 →
  PVTranspose.bufsize self0 = PVTranspose.bufsize self ∧
  PVTranspose.size self0 = PVStream.fftsize input.
Proof.
  unfold PVTranspose_adapt. case_bool_decide as Hne.
  - unfold PVTranspose_realloc_memories.
    destruct (int_div _ 2) as [hsize|]; [simpl|done].
    destruct (int_div _ _) as [hopsize|]; [simpl|done].
    destruct (for_loop _ _ _) as [count'|]; [simpl|done].
    by intros [= <-].
  - intros [= <-]. split; [done|].
    destruct (decide (PVTranspose.size self = PVStream.fftsize input)); [done|].
    exfalso. apply Hne. by left.
Qed.

Lemma PVTranspose_sample_size fl transpo_at input i self self' :
  PVTranspose_sample fl transpo_at input i self = Some self' →
  PVTranspose.size self' = PVTranspose.size self.
Proof.
  unfold PVTranspose_sample.
  destruct (rd _ i) as [c|]; [cbn -[PVTranspose_frame]|done].
  destruct (wr _ i c) as [count|]; [cbn -[PVTranspose_frame]|done].
  destruct (_ <=? _)%Z; [|by intros [= <-]].
  destruct (transpo_at i) as [transpo|]; [cbn -[PVTranspose_frame]|done].
  destruct (PVTranspose_frame fl _ _ _ _ _ _) as [[magn freq]|]; [simpl|done].
  by intros [= <-].
Qed.

(** X11: [PVTranspose_process_a] reads the block of the factor only at the
    samples where a frame edge falls: when the block holds [transpo] at
    those samples, whatever it holds elsewhere, it computes what
    [PVTranspose_process_i] computes for [transpo], including the cases in
    which they fail. *)
Theorem PVTranspose_process_at_edges fl transpo tr input self :
  (∀ i c, rd (PVStream.count input) i = Some c → (PVStream.fftsize input - 1 ≤ c)%Z →
     rd tr i = Some transpo) →
  PVTranspose_process_a fl tr input self = PVTranspose_process_i fl transpo input self.
Proof.
  intros Hedges. unfold PVTranspose_process_a, PVTranspose_process_i.
  destruct (PVTranspose_adapt input self) as [self0|] eqn:Hadapt; [simpl|done].
  apply PVTranspose_adapt_Some in Hadapt as [_ Hsize].
  apply (for_loop_ext_inv (λ s, PVTranspose.size s = PVStream.fftsize input)); [done| |].
  - intros k s Hk Hs. unfold PVTranspose_sample.
    destruct (rd (PVStream.count input) k) as [c|] eqn:Hc;
      [cbn -[PVTranspose_frame]|done].
    destruct (wr _ k c) as [count|]; [cbn -[PVTranspose_frame]|done].
    destruct (Z.leb_spec (PVTranspose.size s - 1) c) as [Hedge|]; [|done].
    rewrite (Hedges k c Hc) by lia. done.
  - intros k s s' _ Hs Hsample. apply PVTranspose_sample_size in Hsample. congruence.
Qed.

Lemma PVTranspose_process_at_edges_sample :
  (∀ i c, rd (PVStream.count sample_stream) i = Some c →
     (PVStream.fftsize sample_stream - 1 ≤ c)%Z → rd [2; 7]%R i = Some 2%R) ∧
  PVTranspose_process_a MYFLT_exact [2; 7]%R sample_stream sample_transpose
  = PVTranspose_process_i MYFLT_exact 2 sample_stream sample_transpose.
Proof.
  assert (H : ∀ i c, rd (PVStream.count sample_stream) i = Some c →
                (PVStream.fftsize sample_stream - 1 ≤ c)%Z → rd [2; 7]%R i = Some 2%R).
  { simpl. intros i c Hc Hedge. pose proof (rd_Some_bounds _ _ _ Hc) as Hi. simpl in Hi.
    assert (i = 0 ∨ i = 1)%Z as [-> | ->] by lia; [done|].
    injection Hc as <-. lia. }
  split; [exact H|].
  exact (PVTranspose_process_at_edges MYFLT_exact 2 [2; 7]%R sample_stream sample_transpose H).
Defined.

(** ** Nodes in step *)

(** The analyser advances its slot once for every frame edge that it
    publishes. *)
Lemma PVAnal_process_edges realfft_split input self :
  PVAnal_wf self → cells (PVAnal.bufsize self) input →
  ∃ self', PVAnal_process realfft_split input self = Some self' ∧
    PVAnal_wf self' ∧ PVAnal_same_config self self' ∧
    PVAnal.overcount self'
    = advance_overcount (PVAnal.olaps self)
        (frame_edges (PVAnal.size self) (PVAnal.count self')) (PVAnal.overcount self).
Proof.
  intros Hwf Hinput. unfold PVAnal_process.
  destruct (for_loop_inv
    (λ i s, PVAnal_wf s ∧ PVAnal_same_config self s ∧
       PVAnal.overcount s
       = advance_overcount (PVAnal.olaps self)
           (frame_edges (PVAnal.size self) (take (Z.to_nat i) (PVAnal.count s)))
           (PVAnal.overcount self))
    (PVAnal.bufsize self) (PVAnal_sample realfft_split input) self)
    as (self' & Hrun & Hwf' & Hsame & Hov); [by destruct Hwf| | |].
  - split_and!; [done|apply PVAnal_same_config_refl|done].
  - intros i s Hi (Hs & Hsame & Hov).
    pose proof Hsame as (Hbuf & _ & Hsize & Holaps & _).
    destruct (PVAnal_sample_run realfft_split input i s)
      as (x & s' & _ & Hsample & Hs' & Hsame' & Hc' & Hcase); [done|by rewrite Hbuf..|].
    exists s'. split; [done|].
    split_and!; [done|by eapply PVAnal_same_config_trans|].
    rewrite Hc', take_insert_same by (destruct Hs; unfold cells in *; lia).
    rewrite frame_edges_snoc.
    destruct Hcase as [(Hroom & _ & -> & _)|[Hfull (_ & -> & _)]].
    + rewrite bool_decide_eq_false_2 by lia. by rewrite Nat.add_0_r.
    + rewrite bool_decide_eq_true_2 by lia.
      by rewrite advance_overcount_S, Hov, Holaps.
  - exists self'. split_and!; [done..|].
    destruct Hwf'. pose proof Hsame as (Hbuf & _). unfold cells in *.
    rewrite firstn_all2 in Hov by lia. done.
Qed.

(** The synthesiser advances its slot once for every frame edge of the
    block. *)
Lemma PVSynth_loop_edges irealfft_split input self :
  PVSynth_wf self → PVStream_wf (PVSynth.bufsize self) input →
  PVStream.fftsize input = PVSynth.size self →
  PVStream.olaps input = PVSynth.olaps self →
  ∃ self', for_loop (PVSynth.bufsize self) (PVSynth_sample irealfft_split input) self
           = Some self' ∧
    PVSynth_wf self' ∧ PVSynth_same_config self self' ∧
    PVSynth.overcount self'
    = advance_overcount (PVSynth.olaps self)
        (frame_edges (PVSynth.size self) (PVStream.count input)) (PVSynth.overcount self).
Proof.
  intros Hwf Hinput Hsize Holaps.
  destruct (for_loop_inv
    (λ i s, PVSynth_wf s ∧ PVSynth_same_config self s ∧
       PVSynth.overcount s
       = advance_overcount (PVSynth.olaps self)
           (frame_edges (PVSynth.size self) (take (Z.to_nat i) (PVStream.count input)))
           (PVSynth.overcount self))
    (PVSynth.bufsize self) (PVSynth_sample irealfft_split input) self)
    as (self' & Hrun & Hwf' & Hsame & Hov); [by destruct Hwf| | |].
  - split_and!; [done|apply PVSynth_same_config_refl|done].
  - intros i s Hi (Hs & Hsame & Hov).
    pose proof Hsame as (Hbuf & _ & Hsz & _ & Hol & _).
    destruct (PVSynth_sample_run irealfft_split input i s)
      as (c & x & s' & Hc & _ & Hsample & Hs' & Hsame' & _ & Hcase);
      [done|by rewrite Hbuf|congruence..|by rewrite Hbuf|].
    exists s'. split; [done|].
    split_and!; [done|by eapply PVSynth_same_config_trans|].
    rewrite (take_succ_rd _ i c) by (done || lia). rewrite frame_edges_snoc.
    destruct Hcase as [(Hno & -> & _)|[Hedge (-> & _)]].
    + rewrite bool_decide_eq_false_2 by lia. by rewrite Nat.add_0_r.
    + rewrite bool_decide_eq_true_2 by lia.
      by rewrite advance_overcount_S, Hov, Hol.
  - exists self'. split_and!; [done..|].
    destruct Hinput. unfold cells in *. rewrite firstn_all2 in Hov by lia. done.
Qed.

Lemma PVSynth_process_edges gen_window irealfft_split input self :
  PVSynth_wf self → PVStream_wf (PVSynth.bufsize self) input →
  PVStream.fftsize input = PVSynth.size self →
  PVStream.olaps input = PVSynth.olaps self →
  ∃ self', PVSynth_process gen_window irealfft_split input self = Some self' ∧
    PVSynth_wf self' ∧ PVSynth_same_config self self' ∧
    PVSynth.overcount self'
    = advance_overcount (PVSynth.olaps self)
        (frame_edges (PVSynth.size self) (PVStream.count input)) (PVSynth.overcount self).
Proof.
  intros Hwf Hinput Hsize Holaps. unfold PVSynth_process.
  rewrite bool_decide_eq_false_2 by (intros [?|?]; congruence). simpl.
  by apply PVSynth_loop_edges.
Qed.

(** The same when the synthesiser has to re-latch first: the slot starts
    from 0. *)
Lemma PVSynth_process_relatch gen_window irealfft_split input self :
  PVSynth_wf self → PVStream_wf (PVSynth.bufsize self) input → PVStream_fits input →
  PVSynth.size self ≠ PVStream.fftsize input
  ∨ PVSynth.olaps self ≠ PVStream.olaps input →
  ∃ self', PVSynth_process gen_window irealfft_split input self = Some self' ∧
    PVSynth_wf self' ∧
    PVSynth.size self' = PVStream.fftsize input ∧
    PVSynth.olaps self' = PVStream.olaps input ∧
    PVSynth.bufsize self' = PVSynth.bufsize self ∧
    PVSynth.overcount self'
    = advance_overcount (PVStream.olaps input)
        (frame_edges (PVStream.fftsize input) (PVStream.count input)) 0.
Proof.
  intros Hwf Hinput Hfits Hne. unfold PVSynth_process.
  rewrite bool_decide_eq_true_2 by done.
  destruct (PVSynth_realloc_memories_fresh gen_window
    (PVSynth_with_size_olaps self (PVStream.fftsize input) (PVStream.olaps input)))
    as (self0 & -> & Hwf0 & Hs0 & Ho0 & Hb0 & _ & Hov0 & _);
    [by destruct Hinput, Hwf..|].
  simpl in Hs0, Ho0, Hb0. simpl. rewrite <- Hb0 in Hinput.
  destruct (PVSynth_loop_edges irealfft_split input self0)
    as (self' & Hrun & Hwf' & Hsame & Hov); [done..|].
  pose proof Hsame as (Hb' & _ & Hs' & _ & Ho' & _).
  exists self'. split_and!; [done..|congruence|congruence|congruence|].
  by rewrite Hov, Hov0, Hs0, Ho0.
Qed.

Lemma slot_after_adapt_same size olaps overcount input :
  PVStream.fftsize input = size → PVStream.olaps input = olaps →
  slot_after_adapt size olaps overcount input = overcount.
Proof.
  intros <- <-. unfold slot_after_adapt.
  by rewrite bool_decide_eq_false_2 by (intros [?|?]; congruence).
Qed.

(** X12: a chain analyser, transposition, reverberator, gate, synthesiser
    whose nodes are in step, with a transposition factor for which the
    cast of every product [k * transpo] of a frame is defined and not
    negative, processes a block of input without leaving a buffer, and its
    nodes are in step again afterwards: every consumer has advanced its
    overlap slot exactly as often as the analyser, so it reads the slot
    the analyser wrote. *)
Theorem PVChain_block_in_step fl gen_window realfft_split irealfft_split
    transpo revtime damp thresh gate_damp input chain :
  PVTranspose_index_defined fl transpo (PVAnal.size (PVChain.anal chain) `quot` 2) →
  PVChain_in_step chain →
  cells (PVAnal.bufsize (PVChain.anal chain)) input →
  ∃ chain',
    PVChain_block fl gen_window realfft_split irealfft_split
      transpo revtime damp thresh gate_damp input chain = Some chain' ∧
    PVChain_in_step chain' ∧
    PVStream.count (PVGate_pv_stream (PVChain.gate chain'))
    = PVAnal.count (PVChain.anal chain').
Proof.
  intros Hpos (Ha & Ht & Hv & Hg & Hs & (Hbt & Hbv & Hbg & Hbs) & (Hst & Hsv & Hsg & Hss) &
               (Hot & Hov & Hog & Hos) & (Hct & Hcv & Hcg & Hcs)) Hinput.
  unfold PVChain_block.
  destruct (PVAnal_process_edges realfft_split input (PVChain.anal chain))
    as (anal' & -> & Ha' & Hsame & Hca); [done..|].
  pose proof Hsame as (Hba & _ & Hsa & Hoa & _).
  pose proof (PVAnal_pv_stream_wf _ Ha') as Hstream_a. rewrite Hba in Hstream_a.
  simpl.
  destruct (PVTranspose_adapt_loop_run fl (λ _, Some transpo) (PVAnal_pv_stream anal')
    (PVChain.transpose chain))
    as (tr' & Hrun_t & Ht' & Hst' & Hot' & Hbt' & Hct' & Hovt & Hstream_t);
    [done|by rewrite Hbt|simpl; rewrite Hsa; eauto|].
  assert (PVTranspose_process_i fl transpo (PVAnal_pv_stream anal') (PVChain.transpose chain)
          = Some tr') as -> by exact Hrun_t.
  rewrite slot_after_adapt_same in Hovt by (simpl; congruence).
  simpl in Hst', Hot', Hct', Hovt. rewrite Hbt, <- Hbv in Hstream_t. simpl.
  destruct (PVVerb_adapt_loop_run fl (λ _, Some (PVVerb_revtime fl revtime))
    (λ _, Some (PVVerb_damp fl damp)) (PVTranspose_pv_stream tr') (PVChain.verb chain))
    as (verb' & Hrun_v & Hv' & Hsv' & Hov' & Hbv' & Hcv' & Hovv & Hstream_v);
    [done|done|eauto|eauto|].
  assert (PVVerb_process_ii fl revtime damp (PVTranspose_pv_stream tr') (PVChain.verb chain)
          = Some verb') as -> by exact Hrun_v.
  rewrite slot_after_adapt_same in Hovv by (simpl; congruence).
  simpl in Hsv', Hov', Hcv', Hovv. rewrite Hbv, <- Hbg in Hstream_v. simpl.
  destruct (PVGate_adapt_loop_run (λ _, Some (PVGate_thresh thresh))
    (λ _, Some gate_damp) (PVVerb_pv_stream verb') (PVChain.gate chain))
    as (gate' & Hrun_g & Hg' & Hsg' & Hog' & Hbg' & Hcg' & Hovg & Hstream_g);
    [done|done|eauto|eauto|].
  assert (PVGate_process_ii thresh gate_damp (PVVerb_pv_stream verb') (PVChain.gate chain)
          = Some gate') as -> by exact Hrun_g.
  rewrite slot_after_adapt_same in Hovg by (simpl; congruence).
  simpl in Hsg', Hog', Hcg', Hovg. rewrite Hbg, <- Hbs in Hstream_g. simpl.
  destruct (PVSynth_process_edges gen_window irealfft_split (PVGate_pv_stream gate')
    (PVChain.synth chain))
    as (synth' & -> & Hs' & Hsame_s & Hovs); [done|done|simpl; congruence..|].
  pose proof Hsame_s as (Hbs' & _ & Hss' & _ & Hos' & _).
  simpl in Hovs. simpl. eexists. split; [reflexivity|].
  split; [|simpl; congruence].
  unfold PVChain_in_step. simpl.
  split_and!; try done; try congruence.
Qed.

Lemma sample_chain_in_step : PVChain_in_step sample_chain.
Proof.
  unfold PVChain_in_step. simpl.
  split_and!; try reflexivity.
  - apply sample_anal_running_wf.
  - apply sample_transpose_wf.
  - apply sample_verb_wf.
  - apply sample_gate_wf.
  - apply sample_synth_running_wf.
Qed.

Lemma PVChain_block_in_step_sample :
  PVTranspose_index_defined MYFLT_exact 2
    (PVAnal.size (PVChain.anal sample_chain) `quot` 2) ∧
  PVChain_in_step sample_chain ∧
  cells (PVAnal.bufsize (PVChain.anal sample_chain)) [1; 0]%R ∧
  ∃ chain',
    PVChain_block MYFLT_exact (λ _ _ _, 1%R) (λ _ _ _, 0%R) (λ _ _ _, 0%R) 2 (3 / 4) (3 / 4) (-20) 0
      [1; 0]%R sample_chain = Some chain' ∧
    PVChain_in_step chain'.
Proof.
  assert (H0 : PVTranspose_index_defined MYFLT_exact 2
                 (PVAnal.size (PVChain.anal sample_chain) `quot` 2)).
  { apply PVTranspose_index_MYFLT_exact; [lra|].
    change (IZR (PVAnal.size (PVChain.anal sample_chain) `quot` 2 - 1)) with 1%R.
    change (IZR (INT_MAX + 1)) with 2147483648%R. lra. }
  split; [exact H0|]. split; [apply sample_chain_in_step|]. split; [reflexivity|].
  destruct (PVChain_block_in_step MYFLT_exact (λ _ _ _, 1%R) (λ _ _ _, 0%R) (λ _ _ _, 0%R)
    2 (3 / 4) (3 / 4) (-20) 0 [1; 0]%R sample_chain H0 sample_chain_in_step eq_refl)
    as (chain' & Hrun & Hstep & _).
  exists chain'. split; [exact Hrun|exact Hstep].
Defined.

(** ** Where the transposition puts the bins *)

Lemma Int_part_bounds x : (IZR (Int_part x) <= x < IZR (Int_part x) + 1)%R.
Proof. destruct (base_Int_part x). lra. Qed.

(** With a factor of at least 1 no two bins land on the same bin. *)
Lemma landing_apart transpo k k' :
  (1 <= transpo)%R → (0 ≤ k < k')%Z →
  (Int_part (IZR k * transpo) < Int_part (IZR k' * transpo))%Z.
Proof.
  intros Ht Hk. apply lt_IZR.
  pose proof (Int_part_bounds (IZR k * transpo)).
  pose proof (Int_part_bounds (IZR k' * transpo)).
  assert (IZR k + 1 <= IZR k')%R by (rewrite <- plus_IZR; apply IZR_le; lia).
  assert (0 <= IZR k)%R by (apply IZR_le; lia).
  nra.
Qed.

Lemma landing_sum_nothing transpo m idx n :
  (∀ k, (0 ≤ k < Z.of_nat n)%Z → Int_part (IZR k * transpo) ≠ idx) →
  landing_sum transpo m idx n = 0%R.
Proof.
  induction n as [|n IH]; intros Hnone; [done|]. simpl.
  destruct (Z.eqb_spec (Int_part (IZR (Z.of_nat n) * transpo)) idx) as [Heq|_].
  - exfalso. apply (Hnone (Z.of_nat n)); [lia|done].
  - apply IH. intros k Hk. apply Hnone. lia.
Qed.

Lemma landing_sum_alone transpo m idx n k :
  (0 ≤ k < Z.of_nat n)%Z → Int_part (IZR k * transpo) = idx →
  (∀ k', (0 ≤ k' < Z.of_nat n)%Z → k' ≠ k → Int_part (IZR k' * transpo) ≠ idx) →
  landing_sum transpo m idx n = m k.
Proof.
  induction n as [|n IH]; intros Hk Hland Hothers; [lia|]. simpl.
  destruct (Z.eqb_spec (Int_part (IZR (Z.of_nat n) * transpo)) idx) as [Heq|Hne].
  - destruct (decide (k = Z.of_nat n)) as [->|Hkn].
    + rewrite landing_sum_nothing; [lra|]. intros k' Hk'. apply Hothers; lia.
    + exfalso. apply (Hothers (Z.of_nat n)); [lia|done|done].
  - apply IH; [|done|].
    + destruct (decide (k = Z.of_nat n)) as [->|?]; [done|lia].
    + intros k' Hk' Hne'. apply Hothers; [lia|done].
Qed.

(** X13: with a factor of at least 1, for which the cast of every product
    [k * transpo] of the frame is defined and no product is rounded across
    an integer, the transposition moves bins apart: every input bin [k]
    that lands inside the frame is alone on its bin [⌊k * transpo⌋], which
    receives the magnitude of [k] unchanged and its frequency times
    [transpo]; a bin on which nothing lands holds 0 and 0. *)
Theorem PVTranspose_frame_apart fl transpo olaps hsize overcount magn_in freq_in magn freq :
  (1 <= transpo)%R →
  PVTranspose_index_defined fl transpo hsize → PVTranspose_index_exact fl transpo hsize →
  table olaps hsize magn_in → table olaps hsize freq_in →
  table olaps hsize magn → table olaps hsize freq →
  (0 ≤ overcount < olaps)%Z → (0 ≤ hsize)%Z →
  ∃ magn' freq',
    PVTranspose_frame fl transpo magn_in freq_in hsize overcount (magn, freq)
      = Some (magn', freq') ∧
    (∀ k, (0 ≤ k < hsize)%Z → (Int_part (IZR k * transpo) < hsize)%Z →
       ∃ m f,
         rd2 magn_in overcount k = Some m ∧ rd2 freq_in overcount k = Some f ∧
         rd2 magn' overcount (Int_part (IZR k * transpo)) = Some m ∧
         rd2 freq' overcount (Int_part (IZR k * transpo)) = Some (f * transpo)%R) ∧
    (∀ idx, (0 ≤ idx < hsize)%Z →
       (∀ k, (0 ≤ k < hsize)%Z → Int_part (IZR k * transpo) ≠ idx) →
       rd2 magn' overcount idx = Some 0%R ∧ rd2 freq' overcount idx = Some 0%R).
Proof.
  intros Ht Hdef Hexact Hmi Hfi Hm Hf Ho Hh.
  destruct (PVTranspose_frame_run fl transpo olaps hsize overcount magn_in freq_in magn freq)
    as (magn' & freq' & Hrun & _ & _ & _ & Hlands0); [done..|].
  assert (Hlands : ∀ idx, (0 ≤ idx < hsize)%Z →
    rd2 magn' overcount idx
      = Some (landing_sum transpo (cell_or_0 magn_in overcount) idx (Z.to_nat hsize)) ∧
    rd2 freq' overcount idx
      = Some (landing_freq transpo (cell_or_0 freq_in overcount) idx (Z.to_nat hsize))).
  { intros idx Hidx. destruct (Hlands0 idx Hidx) as [-> ->].
    by destruct (landing_by_exact fl transpo hsize (cell_or_0 magn_in overcount)
                   (cell_or_0 freq_in overcount) idx Hexact) as [-> ->]. }
  exists magn', freq'. split; [done|]. split.
  - intros k Hk Hin.
    destruct (rd2_table _ _ _ _ _ Hmi Ho Hk) as [m Hmk].
    destruct (rd2_table _ _ _ _ _ Hfi Ho Hk) as [f Hfk].
    exists m, f. split_and!; [done..| |].
    + assert (0 ≤ Int_part (IZR k * transpo))%Z as Hpos.
      { apply Int_part_nonneg. apply Rmult_le_pos; [apply IZR_le; lia|lra]. }
      destruct (Hlands (Int_part (IZR k * transpo))) as [-> _]; [lia|]. f_equal.
      rewrite (landing_sum_alone _ _ _ _ k); [|lia|done|].
      * unfold cell_or_0. by rewrite Hmk.
      * intros k' Hk' Hne Heq.
        destruct (Z.lt_trichotomy k k') as [Hlt|[?|Hlt]]; [|done|].
        -- pose proof (landing_apart transpo k k' Ht ltac:(lia)). lia.
        -- pose proof (landing_apart transpo k' k Ht ltac:(lia)). lia.
    + assert (0 ≤ Int_part (IZR k * transpo))%Z as Hpos.
      { apply Int_part_nonneg. apply Rmult_le_pos; [apply IZR_le; lia|lra]. }
      destruct (Hlands (Int_part (IZR k * transpo))) as [_ ->]; [lia|]. f_equal.
      rewrite (landing_freq_largest _ _ _ _ k); [|lia|done|].
      * unfold cell_or_0. by rewrite Hfk.
      * intros k' Hk' Heq.
        pose proof (landing_apart transpo k k' Ht ltac:(lia)). lia.
  - intros idx Hidx Hnone. destruct (Hlands idx Hidx) as [-> ->].
    rewrite landing_sum_nothing, landing_freq_nothing; [done| |];
      intros k Hk; apply Hnone; lia.
Qed.

Lemma PVTranspose_frame_apart_sample :
  (1 <= 2)%R ∧
  PVTranspose_index_defined MYFLT_exact 2 2 ∧ PVTranspose_index_exact MYFLT_exact 2 2 ∧
  table 2 2 sample_magn_in ∧ table 2 2 sample_freq_in ∧
  table 2 2 sample_table ∧
  ∃ magn' freq',
    PVTranspose_frame MYFLT_exact 2 sample_magn_in sample_freq_in 2 1 (sample_table, sample_table)
      = Some (magn', freq') ∧
    rd2 magn' 1 0 = Some 3%R ∧ rd2 freq' 1 0 = Some (0 * 2)%R ∧
    rd2 magn' 1 1 = Some 0%R.
Proof.
  assert (H1 : (1 <= 2)%R) by lra.
  destruct (PVTranspose_index_MYFLT_exact 2 2) as [Hdef Hexact];
    [lra|change (IZR (2 - 1)) with 1%R;
         change (IZR (INT_MAX + 1)) with 2147483648%R; lra|].
  destruct sample_tables as (Hm & Hf & Ht).
  split; [exact H1|]. split; [exact Hdef|]. split; [exact Hexact|].
  split; [exact Hm|]. split; [exact Hf|]. split; [exact Ht|].
  destruct (PVTranspose_frame_apart MYFLT_exact 2 2 2 1 sample_magn_in sample_freq_in
    sample_table sample_table H1 Hdef Hexact Hm Hf Ht Ht ltac:(lia) ltac:(lia))
    as (magn' & freq' & Hrun & Hlands & Hnone).
  assert (H0 : Int_part (0 * 2) = 0%Z).
  { symmetry. apply Int_part_spec. lra. }
  assert (H2 : Int_part (1 * 2) = 2%Z).
  { symmetry. apply Int_part_spec. simpl. lra. }
  exists magn', freq'. split; [exact Hrun|].
  destruct (Hlands 0%Z) as (m & f & Hmk & Hfk & Hm' & Hf'); [lia|rewrite H0; lia|].
  rewrite H0 in Hm', Hf'.
  unfold rd2 in Hmk, Hfk. simpl in Hmk, Hfk. unfold rd in Hmk, Hfk. simpl in Hmk, Hfk.
  injection Hmk as <-. injection Hfk as <-.
  split; [exact Hm'|]. split; [exact Hf'|].
  apply Hnone; [lia|]. intros k Hk.
  assert (k = 0 ∨ k = 1)%Z as [-> | ->] by lia; [rewrite H0|rewrite H2]; lia.
Defined.

(** X14: with the factor 1, the value [PVTranspose_new] starts from, a
    frame of the transposition copies the current slot of the input
    tables.  The numbers of the bins are [int] values that [MYFLT]
    represents, so that no product is rounded. *)
Theorem PVTranspose_frame_unison fl olaps hsize overcount magn_in freq_in magn freq :
  (∀ k, (0 ≤ k < hsize)%Z → fl (IZR k) = IZR k) → (hsize ≤ INT_MAX + 1)%Z →
  table olaps hsize magn_in → table olaps hsize freq_in →
  table olaps hsize magn → table olaps hsize freq →
  (0 ≤ overcount < olaps)%Z → (0 ≤ hsize)%Z →
  ∃ magn' freq',
    PVTranspose_frame fl 1 magn_in freq_in hsize overcount (magn, freq)
      = Some (magn', freq') ∧
    ∀ k, (0 ≤ k < hsize)%Z →
      rd2 magn' overcount k = rd2 magn_in overcount k ∧
      rd2 freq' overcount k = rd2 freq_in overcount k.
Proof.
  intros Hfl Hmax Hmi Hfi Hm Hf Ho Hh.
  assert (Hprod : ∀ k, (0 ≤ k < hsize)%Z → PVTranspose_product fl 1 k = IZR k).
  { intros k Hk. unfold PVTranspose_product. by rewrite (Hfl k Hk), Rmult_1_r, Hfl. }
  assert (Hdef : PVTranspose_index_defined fl 1 hsize).
  { intros k Hk. rewrite (Hprod k Hk). split; apply IZR_le || apply IZR_lt; lia. }
  assert (Hexact : PVTranspose_index_exact fl 1 hsize).
  { intros k Hk. by rewrite (Hprod k Hk), Rmult_1_r. }
  destruct (PVTranspose_frame_run fl 1 olaps hsize overcount magn_in freq_in magn freq)
    as (magn' & freq' & Hrun & _ & _ & _ & Hlands0); [done..|].
  assert (Hlands : ∀ idx, (0 ≤ idx < hsize)%Z →
    rd2 magn' overcount idx
      = Some (landing_sum 1 (cell_or_0 magn_in overcount) idx (Z.to_nat hsize)) ∧
    rd2 freq' overcount idx
      = Some (landing_freq 1 (cell_or_0 freq_in overcount) idx (Z.to_nat hsize))).
  { intros idx Hidx. destruct (Hlands0 idx Hidx) as [-> ->].
    by destruct (landing_by_exact fl 1 hsize (cell_or_0 magn_in overcount)
                   (cell_or_0 freq_in overcount) idx Hexact) as [-> ->]. }
  exists magn', freq'. split; [done|]. intros k Hk.
  assert (Hland : ∀ j, Int_part (IZR j * 1) = j).
  { intros j. symmetry. apply Int_part_spec. lra. }
  destruct (rd2_table _ _ _ _ _ Hmi Ho Hk) as [m Hmk].
  destruct (rd2_table _ _ _ _ _ Hfi Ho Hk) as [f Hfk].
  destruct (Hlands k Hk) as [-> ->]. rewrite Hmk, Hfk. split; f_equal.
  - rewrite (landing_sum_alone _ _ _ _ k); [|lia|done|].
    + unfold cell_or_0. by rewrite Hmk.
    + intros k' _ Hne. by rewrite Hland.
  - rewrite (landing_freq_largest _ _ _ _ k); [|lia|done|].
    + unfold cell_or_0. rewrite Hfk. simpl. lra.
    + intros k' Hk'. rewrite Hland. lia.
Qed.

Lemma PVTranspose_frame_unison_sample :
  (∀ k, (0 ≤ k < 2)%Z → MYFLT_exact (IZR k) = IZR k) ∧ (2 ≤ INT_MAX + 1)%Z ∧
  table 2 2 sample_magn_in ∧ table 2 2 sample_freq_in ∧ table 2 2 sample_table ∧
  ∃ magn' freq',
    PVTranspose_frame MYFLT_exact 1 sample_magn_in sample_freq_in 2 1 (sample_table, sample_table)
      = Some (magn', freq') ∧
    rd2 magn' 1 1 = Some (1 / 2)%R ∧ rd2 freq' 1 1 = Some 2%R.
Proof.
  destruct sample_tables as (Hm & Hf & Ht).
  assert (H1 : ∀ k, (0 ≤ k < 2)%Z → MYFLT_exact (IZR k) = IZR k) by done.
  assert (H2 : (2 ≤ INT_MAX + 1)%Z) by (unfold INT_MAX; lia).
  split; [exact H1|]. split; [exact H2|].
  split; [exact Hm|]. split; [exact Hf|]. split; [exact Ht|].
  destruct (PVTranspose_frame_unison MYFLT_exact 2 2 1 sample_magn_in sample_freq_in
    sample_table sample_table H1 H2 Hm Hf Ht Ht ltac:(lia) ltac:(lia))
    as (magn' & freq' & Hrun & Hcopy).
  exists magn', freq'. split; [exact Hrun|].
  destruct (Hcopy 1%Z ltac:(lia)) as [-> ->]. split; reflexivity.
Defined.

(** A loop in which round [k] fails whatever the state. *)
Lemma for_loop_fails_at {St} n k (body : Z → St → option St) s :
  (0 ≤ k < n)%Z → (∀ s, body k s = None) → for_loop n body s = None.
Proof.
  intros Hk Hfail. unfold for_loop.
  assert (Hm : ∀ m, (Z.to_nat k < m)%nat → for_upto m body s = None).
  { induction m as [|m IH]; intros Hlt; [lia|]. simpl.
    destruct (decide (m = Z.to_nat k)) as [->|Hne].
    - rewrite Z2Nat.id by lia. destruct (for_upto _ _ _); [apply Hfail|done].
    - by rewrite IH by lia. }
  apply Hm. lia.
Qed.

(** X15: the cast of [k * transpo] is only tested against [hsize]: for a
    factor so negative that for some bin [k] the product, as it is
    computed, is [-1] or less, the index is negative (where the cast is
    defined at all) and the frame reads and writes before the start of
    the slot. *)
Theorem PVTranspose_frame_negative fl transpo magn_in freq_in hsize overcount tables k :
  (0 ≤ k < hsize)%Z → (PVTranspose_product fl transpo k <= -1)%R →
  PVTranspose_frame fl transpo magn_in freq_in hsize overcount tables = None.
Proof.
  intros Hk Hneg. unfold PVTranspose_frame.
  destruct (PVTranspose_clear _ _ _) as [tables0|]; [simpl|done].
  apply (for_loop_fails_at _ k); [done|]. intros [magn freq]. unfold PVTranspose_bin.
  destruct (int_of_float (PVTranspose_product fl transpo k)) as [index|] eqn:Hcast;
    [simpl|done].
  assert (Hindex : (index < 0)%Z).
  { revert Hcast. unfold int_of_float.
    destruct (Rle_dec 0 (PVTranspose_product fl transpo k)); [lra|].
    case_bool_decide; [|done]. intros [= <-].
    pose proof (Int_part_bounds (- PVTranspose_product fl transpo k)) as Hb.
    assert (0 < Int_part (- PVTranspose_product fl transpo k))%Z; [|lia].
    apply lt_IZR. lra. }
  destruct (Z.ltb_spec index hsize); [|lia].
  unfold rd2. destruct (rd magn overcount) as [row|]; [simpl|done].
  assert (rd row index = None) as ->; [|done].
  unfold rd. by rewrite bool_decide_eq_false_2 by lia.
Qed.

Lemma PVTranspose_frame_negative_sample :
  (0 ≤ 1 < 2)%Z ∧ (PVTranspose_product MYFLT_exact (-1) 1 <= -1)%R ∧
  PVTranspose_frame MYFLT_exact (-1) sample_magn_in sample_freq_in 2 1 (sample_table, sample_table)
  = None.
Proof.
  assert (H1 : (0 ≤ 1 < 2)%Z) by lia.
  assert (H2 : (PVTranspose_product MYFLT_exact (-1) 1 <= -1)%R)
    by (unfold PVTranspose_product, MYFLT_exact; lra).
  split; [exact H1|]. split; [exact H2|].
  exact (PVTranspose_frame_negative MYFLT_exact (-1) sample_magn_in sample_freq_in 2 1
           (sample_table, sample_table) 1 H1 H2).
Defined.

(** ** The setters of the analyser *)

Lemma power_of_two_below p k :
  power_of_two p → power_of_two k → (p < k)%Z → (2 * p ≤ k)%Z.
Proof.
  intros [a ->] [b ->] Hlt.
  assert (Z.of_nat a < Z.of_nat b)%Z by (apply (Z.pow_lt_mono_r_iff 2); lia).
  replace (2 * 2 ^ Z.of_nat a)%Z with (2 ^ (Z.of_nat a + 1))%Z
    by (rewrite Z.pow_add_r by lia; lia).
  apply Z.pow_le_mono_r; lia.
Qed.

(** The snap gives the least power of two that is not below the request. *)
Lemma snap_to_power_of_two_least msg x :
  (1 ≤ x ≤ 2 ^ 30)%Z →
  ∃ k, snap_to_power_of_two msg x
       = Some (k, if isPowerOfTwo x then [] else [msg k]) ∧
    power_of_two k ∧ (x ≤ k)%Z ∧ ∀ p, power_of_two p → (x ≤ p)%Z → (k ≤ p)%Z.
Proof.
  intros Hx.
  assert (Hrange : in_int_range x) by (unfold in_int_range, INT_MIN, INT_MAX; lia).
  assert (Hmin : x ≠ INT_MIN) by (unfold INT_MIN; lia).
  destruct (snap_to_power_of_two_exits msg x Hrange Hmin)
    as (k & out & Hsnap & _ & Hk & Hpow & Hnot); [lia|].
  exists k. destruct (isPowerOfTwo x) eqn:Hpx.
  - apply isPowerOfTwo_spec in Hpx; [|done..].
    destruct (Hpow Hpx) as [-> ->]. split_and!; [done..|lia|auto].
  - assert (¬ power_of_two x) as Hnp.
    { intros Hp. apply isPowerOfTwo_spec in Hp; [congruence|done..]. }
    destruct (Hnot Hnp) as (Hlt & Hdouble & ->). split_and!; [done..|lia|].
    intros p Hp Hxp. destruct (Z.le_gt_cases k p); [done|].
    pose proof (power_of_two_below p k Hp Hk). lia.
Qed.

(** X16: [PVAnal_setSize] with an integer between 2 and 2^30, on an
    analyser whose [olaps] is between 1 and that integer, keeps the least
    power of two that is not below the request, prints the advisory if and
    only if the request was not a power of two, and reconfigures: the
    analyser is in a usable configuration with cleared buffers, at overlap
    slot 0 and with [incount] at [inputLatency].  Any other argument
    leaves the analyser as it is. *)
Theorem PVAnal_setSize_reconfigures gen_window self n :
  (2 ≤ n ≤ 2 ^ 30)%Z → (1 ≤ PVAnal.olaps self ≤ n)%Z →
  (0 ≤ PVAnal.bufsize self)%Z → cells (PVAnal.bufsize self) (PVAnal.count self) →
  (∃ self',
     PVAnal_setSize gen_window self (PyInt n)
     = Some (self', if isPowerOfTwo n then []
                    else [FFT_size_must_be_power_of_2 (PVAnal.size self')]) ∧
     power_of_two (PVAnal.size self') ∧ (n ≤ PVAnal.size self')%Z ∧
     (∀ p, power_of_two p → (n ≤ p)%Z → (PVAnal.size self' ≤ p)%Z) ∧
     PVAnal.olaps self' = PVAnal.olaps self ∧
     PVAnal_wf self' ∧
     PVAnal.incount self' = PVAnal.inputLatency self' ∧
     PVAnal.overcount self' = 0%Z ∧
     PVAnal_silent self') ∧
  PVAnal_setSize gen_window self PyNotAnInt = Some (self, []).
Proof.
  intros Hn Holaps Hbuf Hcount. split; [|done].
  destruct (snap_to_power_of_two_least FFT_size_must_be_power_of_2 n)
    as (k & Hsnap & Hk & Hle & Hleast); [lia|].
  unfold PVAnal_setSize.
  rewrite wrap_int_id by (unfold in_int_range, INT_MIN, INT_MAX; lia).
  rewrite Hsnap. simpl.
  destruct (PVAnal_realloc_memories_fresh gen_window (PVAnal_with_size self k))
    as (self' & -> & Hwf & Hsize & Holaps' & _ & _ & _ & Hin & Hov & Hib & Hlp & _ &
        Hm & Hf & _); [simpl; lia..|done|].
  simpl in Hsize, Holaps'. simpl. exists self'. rewrite Hsize.
  split_and!; try done.
  split_and!.
  - rewrite Hib. apply all_zero_filled.
  - rewrite Hlp. apply all_zero_filled.
  - rewrite Hm. apply all_zero2_filled.
  - intros i j v Hv. left. rewrite Hf in Hv. by eapply all_zero2_filled.
Qed.

Lemma PVAnal_setSize_reconfigures_sample :
  (2 ≤ 1000 ≤ 2 ^ 30)%Z ∧ (1 ≤ PVAnal.olaps sample_anal_running ≤ 1000)%Z ∧
  (0 ≤ PVAnal.bufsize sample_anal_running)%Z ∧
  cells (PVAnal.bufsize sample_anal_running) (PVAnal.count sample_anal_running) ∧
  ∃ self',
    PVAnal_setSize (λ _ _ _, 1%R) sample_anal_running (PyInt 1000)
    = Some (self', [FFT_size_must_be_power_of_2 (PVAnal.size self')]) ∧
    power_of_two (PVAnal.size self') ∧ (1000 ≤ PVAnal.size self')%Z.
Proof.
  assert (H1 : (2 ≤ 1000 ≤ 2 ^ 30)%Z) by lia.
  assert (H2 : (1 ≤ PVAnal.olaps sample_anal_running ≤ 1000)%Z) by (simpl; lia).
  assert (H3 : (0 ≤ PVAnal.bufsize sample_anal_running)%Z) by (simpl; lia).
  assert (H4 : cells (PVAnal.bufsize sample_anal_running)
                 (PVAnal.count sample_anal_running)) by reflexivity.
  split_and!; [done..|].
  destruct (PVAnal_setSize_reconfigures (λ _ _ _, 1%R) sample_anal_running 1000
    H1 H2 H3 H4) as [(self' & Hset & Hpow & Hle & _) _].
  exists self'. split; [exact Hset|]. split; [exact Hpow|exact Hle].
Defined.

(** X17: [PVAnal_setOverlaps] with an integer between 1 and 2^30 keeps the
    least power of two that is not below the request, prints the advisory
    if and only if the request was not a power of two, and reconfigures
    with the hop size [size / olaps]; it does not compare the result with
    [size].  Any other argument leaves the analyser as it is. *)
Theorem PVAnal_setOverlaps_reconfigures gen_window self n :
  (1 ≤ n ≤ 2 ^ 30)%Z →
  (0 ≤ PVAnal.bufsize self)%Z → cells (PVAnal.bufsize self) (PVAnal.count self) →
  (∃ self',
     PVAnal_setOverlaps gen_window self (PyInt n)
     = Some (self', if isPowerOfTwo n then []
                    else [FFT_overlaps_must_be_power_of_2 (PVAnal.olaps self')]) ∧
     power_of_two (PVAnal.olaps self') ∧ (n ≤ PVAnal.olaps self')%Z ∧
     (∀ p, power_of_two p → (n ≤ p)%Z → (PVAnal.olaps self' ≤ p)%Z) ∧
     PVAnal.size self' = PVAnal.size self ∧
     PVAnal.hopsize self' = (PVAnal.size self `quot` PVAnal.olaps self')%Z ∧
     PVAnal.inputLatency self' = (PVAnal.size self - PVAnal.hopsize self')%Z ∧
     PVAnal.incount self' = PVAnal.inputLatency self' ∧
     PVAnal.overcount self' = 0%Z ∧
     ((2 ≤ PVAnal.size self)%Z → (PVAnal.olaps self' ≤ PVAnal.size self)%Z →
      PVAnal_wf self')) ∧
  PVAnal_setOverlaps gen_window self PyNotAnInt = Some (self, []).
Proof.
  intros Hn Hbuf Hcount. split; [|done].
  destruct (snap_to_power_of_two_least FFT_overlaps_must_be_power_of_2 n)
    as (k & Hsnap & Hk & Hle & Hleast); [lia|].
  unfold PVAnal_setOverlaps.
  rewrite wrap_int_id by (unfold in_int_range, INT_MIN, INT_MAX; lia).
  rewrite Hsnap. simpl.
  destruct (PVAnal_realloc_memories_returns gen_window (PVAnal_with_olaps self k))
    as (self' & Hre & Hsize & Holaps & _); [simpl; lia|simpl; lia|done..|].
  simpl in Hsize, Holaps. rewrite Hre. simpl. exists self'. rewrite Holaps.
  split_and!; try done.
  1-4: revert Hre; unfold PVAnal_realloc_memories; simpl;
    rewrite (int_div_pos _ k) by lia;
    destruct (int_div _ 2) as [hsize|]; [simpl|done];
    destruct (for_loop _ _ _) as [count'|]; [simpl|done];
    by intros [= <-].
  intros H2 Hks.
  destruct (PVAnal_realloc_memories_wf gen_window (PVAnal_with_olaps self k))
    as (self'' & Hre' & Hwf & _); [simpl; lia..|done|].
  congruence.
Qed.

Lemma PVAnal_setOverlaps_reconfigures_sample :
  (1 ≤ 3 ≤ 2 ^ 30)%Z ∧
  (0 ≤ PVAnal.bufsize sample_anal_running)%Z ∧
  cells (PVAnal.bufsize sample_anal_running) (PVAnal.count sample_anal_running) ∧
  ∃ self',
    PVAnal_setOverlaps (λ _ _ _, 1%R) sample_anal_running (PyInt 3)
    = Some (self', [FFT_overlaps_must_be_power_of_2 (PVAnal.olaps self')]) ∧
    power_of_two (PVAnal.olaps self') ∧ (3 ≤ PVAnal.olaps self')%Z ∧
    PVAnal.hopsize self' = (4 `quot` PVAnal.olaps self')%Z.
Proof.
  assert (H1 : (1 ≤ 3 ≤ 2 ^ 30)%Z) by lia.
  assert (H3 : (0 ≤ PVAnal.bufsize sample_anal_running)%Z) by (simpl; lia).
  assert (H4 : cells (PVAnal.bufsize sample_anal_running)
                 (PVAnal.count sample_anal_running)) by reflexivity.
  split_and!; [done..|].
  destruct (PVAnal_setOverlaps_reconfigures (λ _ _ _, 1%R) sample_anal_running 3
    H1 H3 H4) as [(self' & Hset & Hpow & Hle & _ & _ & Hhop & _) _].
  exists self'. split; [exact Hset|]. split; [exact Hpow|]. split; [exact Hle|exact Hhop].
Defined.

(** X18: a reconfiguration that leaves more overlaps than samples,
    [0 < size < olaps], gives the hop size 0 and an input buffer that is
    full from the start: the first sample of the next block is stored one
    cell past its end. *)
Theorem PVAnal_process_without_hop gen_window realfft_split self0 self input :
  PVAnal_realloc_memories gen_window self0 = Some self →
  (0 < PVAnal.size self0 < PVAnal.olaps self0)%Z →
  (1 ≤ PVAnal.bufsize self0)%Z →
  PVAnal.hopsize self = 0%Z ∧ PVAnal.incount self = PVAnal.size self ∧
  cells (PVAnal.size self) (PVAnal.input_buffer self) ∧
  PVAnal_process realfft_split input self = None.
Proof.
  intros Hre Hsize Hbuf. revert Hre. unfold PVAnal_realloc_memories.
  rewrite (int_div_pos _ 2), (int_div_pos _ (PVAnal.olaps self0)) by lia. simpl.
  rewrite (Z.quot_small (PVAnal.size self0) (PVAnal.olaps self0)) by lia.
  destruct (for_loop _ _ _) as [count'|]; [simpl|done]. intros [= <-]. simpl.
  split; [done|]. split; [lia|]. split; [apply cells_filled; lia|].
  unfold PVAnal_process. simpl. apply for_loop_fails_at_0; [done|].
  apply PVAnal_sample_no_room; simpl; [apply cells_filled; lia|lia].
Qed.

Lemma PVAnal_process_without_hop_sample :
  ∃ self,
    PVAnal_realloc_memories (λ _ _ _, 1%R)
      (PVAnal_with_count (PVAnal_alloc 2 4%R 2 4 2) [0; 0]%Z) = Some self ∧
    (0 < 2 < 4)%Z ∧ (1 ≤ 2)%Z ∧
    PVAnal_process (λ _ _ _, 0%R) [1; 1]%R self = None.
Proof.
  eexists. split; [reflexivity|]. split; [lia|]. split; [lia|].
  refine (proj2 (proj2 (proj2 (PVAnal_process_without_hop (λ _ _ _, 1%R) (λ _ _ _, 0%R)
    (PVAnal_with_count (PVAnal_alloc 2 4%R 2 4 2) [0; 0]%Z) _ [1; 1]%R
    eq_refl _ _)))); simpl; lia.
Defined.

(** ** Phase unwrapping *)

(** X19: the two loops that bring the phase deviation back into range
    always exit, with a value in [-π, π] that differs from the deviation
    by a whole number of turns; a deviation that is in range already is
    left alone. *)
Theorem unwrap_principal_value tmp :
  ∃ r, unwrap tmp = Some r ∧ (- PI <= r <= PI)%R ∧
       (∃ n : Z, r = (tmp + IZR n * TWOPI)%R) ∧
       ((- PI <= tmp <= PI)%R → r = tmp).
Proof.
  destruct (unwrap_exits tmp) as (r & Hr & Hrange & Hturns).
  exists r. split; [done|]. split; [done|]. split; [done|].
  intros Hin. rewrite unwrap_id in Hr by done. congruence.
Qed.

(** ** Changing the window type *)

Lemma gen_window_into_run gen_window size wintype window :
  (0 ≤ size)%Z → cells size window →
  gen_window_into gen_window size wintype window
  = Some (tabulate size (gen_window size wintype)).
Proof.
  intros Hsize Hwin. unfold gen_window_into.
  destruct (store_loop size (gen_window size wintype) window)
    as (window' & -> & Hc & Hv); [done..|].
  f_equal. apply (cells_ext size); [done|by apply cells_tabulate|].
  intros k Hk. by rewrite Hv, rd_tabulate.
Qed.

(** X20: [PVAnal_setWinType] and [PVSynth_setWinType] with an integer
    regenerate the window for the size in force and change nothing else:
    the node stays in its configuration, in the middle of its run, with
    its buffers, its counters and its overlap slot as they were.  Any
    other argument leaves the node as it is. *)
Theorem setWinType_keeps_running gen_window anal synth n :
  PVAnal_wf anal → PVSynth_wf synth → in_int_range n →
  (∃ anal',
     PVAnal_setWinType gen_window anal (PyInt n) = Some anal' ∧
     PVAnal_wf anal' ∧ PVAnal.wintype anal' = n ∧
     PVAnal.window anal' = tabulate (PVAnal.size anal) (gen_window (PVAnal.size anal) n) ∧
     PVAnal.size anal' = PVAnal.size anal ∧ PVAnal.olaps anal' = PVAnal.olaps anal ∧
     PVAnal.incount anal' = PVAnal.incount anal ∧
     PVAnal.overcount anal' = PVAnal.overcount anal ∧
     PVAnal.input_buffer anal' = PVAnal.input_buffer anal ∧
     PVAnal.lastPhase anal' = PVAnal.lastPhase anal ∧
     PVAnal_pv_stream anal' = PVAnal_pv_stream anal) ∧
  (∃ synth',
     PVSynth_setWinType gen_window synth (PyInt n) = Some synth' ∧
     PVSynth_wf synth' ∧ PVSynth.wintype synth' = n ∧
     PVSynth.window synth'
     = tabulate (PVSynth.size synth) (gen_window (PVSynth.size synth) n) ∧
     PVSynth.size synth' = PVSynth.size synth ∧
     PVSynth.olaps synth' = PVSynth.olaps synth ∧
     PVSynth.overcount synth' = PVSynth.overcount synth ∧
     PVSynth.output_buffer synth' = PVSynth.output_buffer synth ∧
     PVSynth.outputAccum synth' = PVSynth.outputAccum synth ∧
     PVSynth.sumPhase synth' = PVSynth.sumPhase synth ∧
     PVSynth.data synth' = PVSynth.data synth) ∧
  PVAnal_setWinType gen_window anal PyNotAnInt = Some anal ∧
  PVSynth_setWinType gen_window synth PyNotAnInt = Some synth.
Proof.
  intros Ha Hs Hn. split_and!; [| |done..].
  - pose proof Ha as [].
    pose proof (usable_config_facts _ _ _ _ _ anal_config0) as Hcfg.
    unfold PVAnal_setWinType. rewrite (wrap_int_id n) by done.
    rewrite gen_window_into_run by (done || lia). simpl.
    eexists. split; [reflexivity|]. simpl. split_and!; try done.
    split; simpl; try done. apply cells_tabulate. lia.
  - pose proof Hs as [].
    pose proof (usable_config_facts _ _ _ _ _ synth_config0) as Hcfg.
    unfold PVSynth_setWinType. rewrite (wrap_int_id n) by done.
    rewrite gen_window_into_run by (done || lia). simpl.
    eexists. split; [reflexivity|]. simpl. split_and!; try done.
    split; simpl; try done. apply cells_tabulate. lia.
Qed.

Lemma setWinType_keeps_running_sample :
  PVAnal_wf sample_anal_running ∧ PVSynth_wf sample_synth_running ∧ in_int_range 7 ∧
  (∃ anal',
     PVAnal_setWinType (λ _ wintype _, IZR wintype) sample_anal_running (PyInt 7)
     = Some anal' ∧
     PVAnal.window anal' = [7; 7; 7; 7]%R ∧ PVAnal.incount anal' = 3%Z) ∧
  (∃ synth',
     PVSynth_setWinType (λ _ wintype _, IZR wintype) sample_synth_running (PyInt 7)
     = Some synth' ∧
     PVSynth.window synth' = [7; 7; 7; 7]%R ∧ PVSynth.overcount synth' = 1%Z).
Proof.
  assert (H : in_int_range 7) by (unfold in_int_range, INT_MIN, INT_MAX; lia).
  split; [apply sample_anal_running_wf|]. split; [apply sample_synth_running_wf|].
  split; [exact H|].
  destruct (setWinType_keeps_running (λ _ wintype _, IZR wintype) sample_anal_running
    sample_synth_running 7 sample_anal_running_wf sample_synth_running_wf H)
    as ((anal' & Ha & _ & _ & Hwa & _ & _ & Hin & _) &
        (synth' & Hs & _ & _ & Hws & _ & _ & Hov & _) & _).
  split.
  - exists anal'. split; [exact Ha|]. split; [exact Hwa|exact Hin].
  - exists synth'. split; [exact Hs|]. split; [exact Hws|exact Hov].
Defined.

(** ** The decay of the reverberator *)

Lemma PVVerb_follow_silence last revtime amp :
  (0 <= last)%R →
  PVVerb_follow MYFLT_exact 0 last revtime amp = (last * (revtime * amp))%R.
Proof.
  intros Hl. rewrite PVVerb_follow_exact. destruct (Rlt_dec last 0); lra.
Qed.

(** One sample of the reverberator, with what happens to the follower. *)
Lemma PVVerb_sample_follower fl r d input i self :
  PVVerb_wf self → PVStream_wf (PVVerb.bufsize self) input →
  PVStream.fftsize input = PVVerb.size self →
  PVStream.olaps input = PVVerb.olaps self →
  (0 ≤ i < PVVerb.bufsize self)%Z →
  ∃ c self', rd (PVStream.count input) i = Some c ∧
    PVVerb_sample fl r d input i self = Some self' ∧
    PVVerb_wf self' ∧
    PVVerb.size self' = PVVerb.size self ∧ PVVerb.olaps self' = PVVerb.olaps self ∧
    PVVerb.bufsize self' = PVVerb.bufsize self ∧
    (((c < PVVerb.size self - 1)%Z ∧ PVVerb.l_magn self' = PVVerb.l_magn self) ∨
     ((PVVerb.size self - 1 ≤ c)%Z ∧
      ∀ k, (0 ≤ k < PVVerb.hsize self)%Z → ∃ mag last,
        rd2 (PVStream.magn input) (PVVerb.overcount self) k = Some mag ∧
        rd (PVVerb.l_magn self) k = Some last ∧
        rd (PVVerb.l_magn self') k
        = Some (PVVerb_follow fl mag last r (PVVerb_amp fl d (Z.to_nat k))))).
Proof.
  intros Hwf Hinput Hsize Holaps Hi.
  destruct (PVVerb_sample_at_run fl (λ _, Some r) (λ _, Some d) input i self r d)
    as (c & self' & Hc & Hsample & Hwf' & Hs' & Ho' & Hb' & _); [done..|].
  change (PVVerb_sample fl r d input i self = Some self') in Hsample.
  exists c, self'. split_and!; [done..|].
  pose proof Hwf as []. pose proof Hinput as [].
  pose proof (usable_config_facts _ _ _ _ _ verb_config0) as Hcfg.
  pose proof verb_config0 as (_ & _ & Hhsize & _).
  rewrite Hsize, Holaps, <- Hhsize in stream_magn0, stream_freq0.
  assert (Hi' : (0 ≤ i < Z.of_nat (length (PVVerb.count self)))%Z)
    by (unfold cells in *; lia).
  destruct (Z.lt_ge_cases c (PVVerb.size self - 1)) as [Hno|Hedge].
  - left. split; [done|].
    destruct (PVVerb_sample_no_edge fl r d input i self c Hc Hi' Hno)
      as (self'' & Hsample' & Hl & _).
    congruence.
  - right. split; [lia|].
    destruct (PVVerb_frame_run fl r d (PVVerb.olaps self) (PVVerb.hsize self)
      (PVVerb.overcount self) (PVStream.magn input) (PVStream.freq input)
      (PVVerb.l_magn self) (PVVerb.magn self) (PVVerb.freq self))
      as (l_magn' & magn' & freq' & Hframe & _ & _ & _ & Hbins); [done..|lia|].
    destruct (PVVerb_sample_edge fl r d input i self c l_magn' magn' freq' Hc Hi'
      ltac:(lia) Hframe) as (self'' & Hsample' & Hl & _).
    assert (self'' = self') as -> by congruence.
    intros k Hk. destruct (Hbins k Hk) as (mag & last & f & ? & ? & _ & ? & _).
    exists mag, last. rewrite Hl. by split_and!.
Qed.

(** X21: while the stream carries no energy, every frame multiplies the
    follower of bin [k] by [revtime * damp^k] (the mapped values): after a
    block with [n] frame edges a follower that held [last >= 0] holds
    [last * (revtime * damp^k)^n].  The arithmetic of [MYFLT] is taken as
    exact. *)
Theorem PVVerb_process_ii_decay revtime damp input self :
  PVVerb_wf self → PVStream_wf (PVVerb.bufsize self) input →
  PVStream.fftsize input = PVVerb.size self →
  PVStream.olaps input = PVVerb.olaps self →
  all_zero2 (PVStream.magn input) →
  (∀ k last, rd (PVVerb.l_magn self) k = Some last → (0 <= last)%R) →
  ∃ self', PVVerb_process_ii MYFLT_exact revtime damp input self = Some self' ∧
    ∀ k, (0 ≤ k < PVVerb.hsize self)%Z → ∃ last,
      rd (PVVerb.l_magn self) k = Some last ∧
      rd (PVVerb.l_magn self') k
      = Some (last * (PVVerb_revtime MYFLT_exact revtime
                      * PVVerb_damp MYFLT_exact damp ^ Z.to_nat k)
                     ^ frame_edges (PVVerb.size self) (PVStream.count input))%R.
Proof.
  intros Hwf Hinput Hsize Holaps Hzero Hpos. unfold PVVerb_process_ii.
  rewrite bool_decide_eq_false_2 by (intros [?|?]; congruence). simpl.
  set (r := PVVerb_revtime MYFLT_exact revtime). set (d := PVVerb_damp MYFLT_exact damp).
  pose proof (PVVerb_revtime_bounds revtime) as Hr. fold r in Hr.
  pose proof (PVVerb_damp_bounds damp) as Hd. fold d in Hd.
  assert (Hq : ∀ k : nat, (0 <= r * d ^ k)%R).
  { intros k. apply Rmult_le_pos; [lra|]. apply pow_le. lra. }
  pose proof Hwf as []. pose proof verb_config0 as (_ & _ & Hhsize & _).
  destruct (for_loop_inv
    (λ i s, PVVerb_wf s ∧
       PVVerb.size s = PVVerb.size self ∧ PVVerb.olaps s = PVVerb.olaps self ∧
       PVVerb.bufsize s = PVVerb.bufsize self ∧
       ∀ k, (0 ≤ k < PVVerb.hsize self)%Z → ∃ last,
         rd (PVVerb.l_magn self) k = Some last ∧
         rd (PVVerb.l_magn s) k
         = Some (last * (r * d ^ Z.to_nat k)
                        ^ frame_edges (PVVerb.size self)
                            (take (Z.to_nat i) (PVStream.count input)))%R)
    (PVVerb.bufsize self) (PVVerb_sample MYFLT_exact r d input) self)
    as (self' & Hrun & _ & _ & _ & _ & Hdecay); [done| | |].
  - split_and!; [done..|]. intros k Hk.
    destruct (rd_cells _ _ k verb_l_magn0 Hk) as [last Hlast].
    exists last. split; [done|]. rewrite Hlast. f_equal. simpl. lra.
  - intros i s Hi (Hs & Hsz & Hol & Hbuf & Hdecay).
    destruct (PVVerb_sample_follower MYFLT_exact r d input i s)
      as (c & s' & Hc & Hsample & Hs' & Hsz' & Hol' & Hbuf' & Hcase);
      [done|by rewrite Hbuf|congruence..|by rewrite Hbuf|].
    exists s'. split; [done|]. split_and!; [done|congruence..|].
    intros k Hk. destruct (Hdecay k Hk) as (last & Hlast & Hnow).
    exists last. split; [done|].
    rewrite (take_succ_rd _ i c) by (done || lia). rewrite frame_edges_snoc.
    assert (Hhs : PVVerb.hsize s = PVVerb.hsize self).
    { destruct Hs as [(_ & _ & -> & _) _ _ _ _ _ _]. congruence. }
    destruct Hcase as [[Hno ->]|[Hedge Hbins]].
    + rewrite bool_decide_eq_false_2 by lia. by rewrite Nat.add_0_r.
    + rewrite bool_decide_eq_true_2 by lia.
      destruct (Hbins k ltac:(lia)) as (mag & last' & Hmag & Hlast' & ->).
      apply Hzero in Hmag as ->. rewrite Hnow in Hlast'. injection Hlast' as <-.
      rewrite PVVerb_amp_exact, PVVerb_follow_silence.
      * f_equal. rewrite Nat.add_1_r. simpl. ring.
      * apply Rmult_le_pos; [by eapply Hpos|]. apply pow_le. apply Hq.
  - exists self'. split; [done|]. intros k Hk.
    destruct (Hdecay k Hk) as (last & ? & Hnow). exists last. split; [done|].
    destruct Hinput. unfold cells in *. rewrite firstn_all2 in Hnow by lia. done.
Qed.

Lemma PVVerb_process_ii_decay_sample :
  PVVerb_wf sample_verb ∧
  PVStream_wf (PVVerb.bufsize sample_verb) sample_silent_stream ∧
  all_zero2 (PVStream.magn sample_silent_stream) ∧
  (∀ k last, rd (PVVerb.l_magn sample_verb) k = Some last → (0 <= last)%R) ∧
  ∃ self', PVVerb_process_ii MYFLT_exact 1 0 sample_silent_stream sample_verb = Some self' ∧
    rd (PVVerb.l_magn self') 1
    = Some (2 * (PVVerb_revtime MYFLT_exact 1 * PVVerb_damp MYFLT_exact 0 ^ 1) ^ 1)%R.
Proof.
  assert (H1 : all_zero2 (PVStream.magn sample_silent_stream))
    by (apply all_zero2_Forall; repeat constructor).
  assert (H2 : ∀ k last, rd (PVVerb.l_magn sample_verb) k = Some last → (0 <= last)%R).
  { simpl. intros k last Hk. pose proof (rd_Some_bounds _ _ _ Hk) as Hb. simpl in Hb.
    assert (k = 0 ∨ k = 1)%Z as [-> | ->] by lia; injection Hk as <-; lra. }
  split; [apply sample_verb_wf|]. split; [apply sample_silent_stream_wf|].
  split; [exact H1|]. split; [exact H2|].
  destruct (PVVerb_process_ii_decay 1 0 sample_silent_stream sample_verb
    sample_verb_wf sample_silent_stream_wf eq_refl eq_refl H1 H2) as (self' & Hrun & Hdecay).
  exists self'. split; [exact Hrun|].
  destruct (Hdecay 1%Z ltac:(simpl; lia)) as (last & Hlast & Hnow).
  injection Hlast as <-. exact Hnow.
Defined.

(** ** Reconfiguring the analyser under a synthesiser *)

Lemma advance_overcount_mod olaps n overcount :
  (0 ≤ overcount < olaps)%Z →
  advance_overcount olaps n overcount = ((overcount + Z.of_nat n) `mod` olaps)%Z.
Proof.
  intros Ho. induction n as [|n IH].
  - simpl. rewrite Z.add_0_r, Z.mod_small by lia. done.
  - change (advance_overcount olaps (S n) overcount)
      with (next_overcount (advance_overcount olaps n overcount) olaps).
    rewrite IH, next_overcount_mod by lia. f_equal. lia.
Qed.

(** X22: when the analyser has been reconfigured to another size or
    another number of overlaps, with [size + hopsize] in the range of
    [int], a synthesiser that reads its stream re-latches at the next
    block: it takes over the new size and overlaps, starts again at slot 0
    as the analyser did, and is in step with the analyser at the end of
    the block. *)
Theorem PVSynth_relatches_in_step gen_window realfft_split irealfft_split
    input anal synth :
  PVAnal_wf anal → PVAnal.overcount anal = 0%Z →
  PVSynth_wf synth → PVSynth.bufsize synth = PVAnal.bufsize anal →
  PVSynth.size synth ≠ PVAnal.size anal ∨ PVSynth.olaps synth ≠ PVAnal.olaps anal →
  PVStream_fits (PVAnal_pv_stream anal) →
  cells (PVAnal.bufsize anal) input →
  ∃ anal' synth',
    PVAnal_process realfft_split input anal = Some anal' ∧
    PVSynth_process gen_window irealfft_split (PVAnal_pv_stream anal') synth
    = Some synth' ∧
    PVSynth_wf synth' ∧
    PVSynth.size synth' = PVAnal.size anal' ∧
    PVSynth.olaps synth' = PVAnal.olaps anal' ∧
    PVSynth.overcount synth' = PVAnal.overcount anal'.
Proof.
  intros Ha Hfresh Hs Hbuf Hne Hfits Hinput.
  destruct (PVAnal_process_edges realfft_split input anal)
    as (anal' & Hrun & Ha' & Hsame & Hov); [done..|].
  pose proof Hsame as (Hba & _ & Hsa & Hoa & _).
  pose proof (PVAnal_pv_stream_wf _ Ha') as Hstream. rewrite Hba, <- Hbuf in Hstream.
  destruct (PVSynth_process_relatch gen_window irealfft_split (PVAnal_pv_stream anal')
    synth) as (synth' & Hrun' & Hs' & Hss & Hos & _ & Hovs);
    [done|done|unfold PVStream_fits in *; simpl in *; by rewrite Hsa, Hoa
    |simpl; by rewrite Hsa, Hoa|].
  simpl in Hss, Hos, Hovs. exists anal', synth'. split_and!; [done..|].
  rewrite Hovs, Hov, Hfresh. congruence.
Qed.

Lemma PVSynth_relatches_in_step_sample :
  ∃ anal,
    PVAnal_setSize (λ _ _ _, 1%R) sample_anal_running (PyInt 8) = Some (anal, []) ∧
    PVAnal_wf anal ∧ PVAnal.overcount anal = 0%Z ∧
    PVSynth_wf sample_synth_running ∧
    PVSynth.bufsize sample_synth_running = PVAnal.bufsize anal ∧
    PVSynth.size sample_synth_running ≠ PVAnal.size anal ∧
    PVStream_fits (PVAnal_pv_stream anal) ∧
    cells (PVAnal.bufsize anal) [1; 0]%R ∧
    ∃ anal' synth',
      PVAnal_process (λ _ _ _, 0%R) [1; 0]%R anal = Some anal' ∧
      PVSynth_process (λ _ _ _, 1%R) (λ _ _ _, 0%R) (PVAnal_pv_stream anal')
        sample_synth_running = Some synth' ∧
      PVSynth.size synth' = 8%Z ∧
      PVSynth.overcount synth' = PVAnal.overcount anal'.
Proof.
  destruct (PVAnal_realloc_memories_fresh (λ _ _ _, 1%R)
    (PVAnal_with_size sample_anal_running 8))
    as (anal & Hre & Hwf & Hsize & Holaps & Hbuf & _ & _ & _ & Hov & _);
    [simpl; lia..|reflexivity|].
  simpl in Hsize, Holaps, Hbuf.
  assert (Hne : PVSynth.size sample_synth_running ≠ PVAnal.size anal)
    by (rewrite Hsize; simpl; lia).
  assert (Hinput : cells (PVAnal.bufsize anal) [1; 0]%R) by (by rewrite Hbuf).
  assert (Hfits : PVStream_fits (PVAnal_pv_stream anal))
    by (unfold PVStream_fits; simpl; rewrite Hsize, Holaps; by vm_compute).
  exists anal. split.
  { change (PVAnal_setSize (λ _ _ _, 1%R) sample_anal_running (PyInt 8))
      with (self ← PVAnal_realloc_memories (λ _ _ _, 1%R)
                     (PVAnal_with_size sample_anal_running 8);
            Some (self, @nil advisory)).
    by rewrite Hre. }
  split; [exact Hwf|]. split; [exact Hov|]. split; [apply sample_synth_running_wf|].
  split; [by rewrite Hbuf|]. split; [exact Hne|]. split; [exact Hfits|].
  split; [exact Hinput|].
  destruct (PVSynth_relatches_in_step (λ _ _ _, 1%R) (λ _ _ _, 0%R) (λ _ _ _, 0%R)
    [1; 0]%R anal sample_synth_running Hwf Hov sample_synth_running_wf
    ltac:(by rewrite Hbuf) (or_introl Hne) Hfits Hinput)
    as (anal' & synth' & Hrun & Hrun' & _ & Hss & _ & Hovs).
  exists anal', synth'. split; [exact Hrun|]. split; [exact Hrun'|].
  split; [|exact Hovs].
  rewrite Hss. destruct (PVAnal_process_wf (λ _ _ _, 0%R) [1; 0]%R anal Hwf Hinput)
    as (anal'' & Hrun'' & _ & Hsize'' & _).
  congruence.
Defined.

(** X23: [PVAnal_setSize] with the size already in force still
    reconfigures the analyser, which starts again at slot 0, but no
    consumer re-latches, since neither [size] nor [olaps] has changed: a
    synthesiser that was in step at a slot other than 0 is out of step
    after the next block, and reads another slot than the analyser
    writes. *)
Theorem PVAnal_setSize_same_size_out_of_step gen_window realfft_split irealfft_split
    input anal synth :
  PVAnal_wf anal → PVSynth_wf synth →
  power_of_two (PVAnal.size anal) → (PVAnal.size anal ≤ 2 ^ 30)%Z →
  PVSynth.bufsize synth = PVAnal.bufsize anal →
  PVSynth.size synth = PVAnal.size anal → PVSynth.olaps synth = PVAnal.olaps anal →
  PVSynth.overcount synth = PVAnal.overcount anal → PVAnal.overcount anal ≠ 0%Z →
  cells (PVAnal.bufsize anal) input →
  ∃ anal1 anal2 synth2,
    PVAnal_setSize gen_window anal (PyInt (PVAnal.size anal)) = Some (anal1, []) ∧
    PVAnal.size anal1 = PVAnal.size anal ∧ PVAnal.olaps anal1 = PVAnal.olaps anal ∧
    PVAnal.overcount anal1 = 0%Z ∧
    PVAnal_process realfft_split input anal1 = Some anal2 ∧
    PVSynth_process gen_window irealfft_split (PVAnal_pv_stream anal2) synth
    = Some synth2 ∧
    PVSynth.size synth2 = PVAnal.size anal2 ∧
    PVSynth.olaps synth2 = PVAnal.olaps anal2 ∧
    PVSynth.overcount synth2 ≠ PVAnal.overcount anal2.
Proof.
  intros Ha Hs Hpow Hmax Hbuf Hsize Holaps Hov Hne Hinput.
  pose proof Ha as []. pose proof (usable_config_facts _ _ _ _ _ anal_config0) as Hcfg.
  pose proof anal_config0 as (_ & Hle & _).
  assert (Hrange : in_int_range (PVAnal.size anal))
    by (unfold in_int_range, INT_MIN, INT_MAX; lia).
  assert (Hsnap : snap_to_power_of_two FFT_size_must_be_power_of_2 (PVAnal.size anal)
                  = Some (PVAnal.size anal, [])).
  { unfold snap_to_power_of_two.
    assert (isPowerOfTwo (PVAnal.size anal) = true) as ->; [|done].
    apply isPowerOfTwo_spec; [done|unfold INT_MIN; lia|done]. }
  destruct (PVAnal_realloc_memories_fresh gen_window
    (PVAnal_with_size anal (PVAnal.size anal)))
    as (anal1 & Hre & Ha1 & Hs1 & Ho1 & Hb1 & _ & _ & _ & Hov1 & _);
    [simpl; lia..|done|].
  simpl in Hs1, Ho1, Hb1.
  destruct (PVAnal_process_edges realfft_split input anal1)
    as (anal2 & Hrun & Ha2 & Hsame & Hov2); [done|by rewrite Hb1|].
  pose proof Hsame as (Hb2 & _ & Hs2 & Ho2 & _).
  pose proof (PVAnal_pv_stream_wf _ Ha2) as Hstream.
  rewrite Hb2, Hb1, <- Hbuf in Hstream.
  destruct (PVSynth_process_edges gen_window irealfft_split (PVAnal_pv_stream anal2)
    synth) as (synth2 & Hrun' & Hs2' & Hsame' & Hovs); [done|done|simpl; congruence..|].
  pose proof Hsame' as (_ & _ & Hss & _ & Hos & _).
  simpl in Hovs. exists anal1, anal2, synth2.
  split_and!; try done; try congruence.
  - unfold PVAnal_setSize. rewrite wrap_int_id by done. rewrite Hsnap. simpl.
    by rewrite Hre.
  - rewrite Hovs, Hov2, Hov1, Hs1, Ho1, Holaps, Hsize, Hov.
    rewrite !advance_overcount_mod by lia.
    intros Heq. apply mod_window_inj in Heq; lia.
Qed.

Lemma PVAnal_setSize_same_size_out_of_step_sample :
  PVAnal_wf sample_anal_running ∧ PVSynth_wf sample_synth_running ∧
  power_of_two (PVAnal.size sample_anal_running) ∧
  PVSynth.overcount sample_synth_running = PVAnal.overcount sample_anal_running ∧
  PVAnal.overcount sample_anal_running ≠ 0%Z ∧
  cells (PVAnal.bufsize sample_anal_running) [1; 0]%R ∧
  ∃ anal1 anal2 synth2,
    PVAnal_setSize (λ _ _ _, 1%R) sample_anal_running (PyInt 4) = Some (anal1, []) ∧
    PVAnal_process (λ _ _ _, 0%R) [1; 0]%R anal1 = Some anal2 ∧
    PVSynth_process (λ _ _ _, 1%R) (λ _ _ _, 0%R) (PVAnal_pv_stream anal2)
      sample_synth_running = Some synth2 ∧
    PVSynth.overcount synth2 ≠ PVAnal.overcount anal2.
Proof.
  assert (H1 : (PVAnal.size sample_anal_running ≤ 2 ^ 30)%Z) by (simpl; lia).
  assert (H2 : PVAnal.overcount sample_anal_running ≠ 0%Z) by (simpl; lia).
  split; [apply sample_anal_running_wf|]. split; [apply sample_synth_running_wf|].
  split; [apply power_of_two_4|]. split; [reflexivity|]. split; [exact H2|].
  split; [reflexivity|].
  destruct (PVAnal_setSize_same_size_out_of_step (λ _ _ _, 1%R) (λ _ _ _, 0%R)
    (λ _ _ _, 0%R) [1; 0]%R sample_anal_running sample_synth_running
    sample_anal_running_wf sample_synth_running_wf power_of_two_4 H1
    eq_refl eq_refl eq_refl eq_refl H2 eq_refl)
    as (anal1 & anal2 & synth2 & Hset & _ & _ & _ & Hrun & Hrun' & _ & _ & Hne).
  exists anal1, anal2, synth2.
  split; [exact Hset|]. split; [exact Hrun|]. split; [exact Hrun'|exact Hne].
Defined.

(** ** The objects: constructors, setters and dispatch *)

Lemma PyParam_mode_bit p stream mode :
  PyParam_mode p stream mode → mode = 0%Z ∨ mode = 1%Z.
Proof. destruct p; simpl; [by left|intros [-> _]; by right|done]. Qed.

(** *** PVVerb *)

Lemma PVVerb_setProcMode_selected self :
  PyParam_mode (PVVerbObject.revtime self) (PVVerbObject.revtime_stream self)
    (PVVerbObject.modebuffer_0 self) →
  PyParam_mode (PVVerbObject.damp self) (PVVerbObject.damp_stream self)
    (PVVerbObject.modebuffer_1 self) →
  PVVerb_selected (PVVerb_setProcMode self).
Proof.
  intros H0 H1. split_and!; [done..|]. simpl.
  destruct (PyParam_mode_bit _ _ _ H0) as [-> | ->],
           (PyParam_mode_bit _ _ _ H1) as [-> | ->]; reflexivity.
Qed.

Lemma PVVerb_setRevtime_selected self arg self' :
  PyParam_mode (PVVerbObject.damp self) (PVVerbObject.damp_stream self)
    (PVVerbObject.modebuffer_1 self) →
  PVVerb_setRevtime self arg = Some self' →
  PVVerb_selected self' ∧
  PVVerbObject.revtime self' = arg ∧ PVVerbObject.damp self' = PVVerbObject.damp self ∧
  PVVerbObject.core self' = PVVerbObject.core self.
Proof.
  intros H1 Hset. destruct arg; simpl in Hset; [| |done]; injection Hset as <-;
    (split; [by apply PVVerb_setProcMode_selected|done]).
Qed.

Lemma PVVerb_setDamp_selected self arg self' :
  PyParam_mode (PVVerbObject.revtime self) (PVVerbObject.revtime_stream self)
    (PVVerbObject.modebuffer_0 self) →
  PVVerb_setDamp self arg = Some self' →
  PVVerb_selected self' ∧
  PVVerbObject.damp self' = arg ∧ PVVerbObject.revtime self' = PVVerbObject.revtime self ∧
  PVVerbObject.core self' = PVVerbObject.core self.
Proof.
  intros H0 Hset. destruct arg; simpl in Hset; [| |done]; injection Hset as <-;
    (split; [by apply PVVerb_setProcMode_selected|done]).
Qed.

Lemma PVVerb_alloc_mode bufsize :
  PyParam_mode (PVVerbObject.revtime (PVVerb_alloc bufsize))
    (PVVerbObject.revtime_stream (PVVerb_alloc bufsize))
    (PVVerbObject.modebuffer_0 (PVVerb_alloc bufsize)) ∧
  PyParam_mode (PVVerbObject.damp (PVVerb_alloc bufsize))
    (PVVerbObject.damp_stream (PVVerb_alloc bufsize))
    (PVVerbObject.modebuffer_1 (PVVerb_alloc bufsize)).
Proof. by split. Qed.

(** What the constructor leaves, in terms of its arguments. *)
Lemma PVVerb_new_inv bufsize input revtimetmp damptmp self :
  PVVerb_new bufsize (Some input) revtimetmp damptmp = Some (PyReturn self) →
  PVVerb_selected self ∧
  PVVerbObject.revtime self = default (PyNumber 0.75) revtimetmp ∧
  PVVerbObject.damp self = default (PyNumber 0.75) damptmp ∧
  PVVerb_realloc_memories
    (PVVerb_with_count (PVVerbObject.core (PVVerb_alloc bufsize)) (filled bufsize 0%Z))
    (PVStream.fftsize input) (PVStream.olaps input)
  = Some (PVVerbObject.core self).
Proof.
  unfold PVVerb_new. destruct (PVVerb_alloc_mode bufsize) as [H0 H1].
  assert (Hr0 : PVVerbObject.revtime (PVVerb_alloc bufsize) = PyNumber 0.75) by done.
  assert (Hd0 : PVVerbObject.damp (PVVerb_alloc bufsize) = PyNumber 0.75) by done.
  remember (PVVerb_alloc bufsize) as self0 eqn:Hself0. intros Hnew.
  assert (∃ self1, match revtimetmp with
                   | Some arg => PVVerb_setRevtime self0 arg
                   | None => Some self0
                   end = Some self1 ∧
            PyParam_mode (PVVerbObject.revtime self1) (PVVerbObject.revtime_stream self1)
              (PVVerbObject.modebuffer_0 self1) ∧
            PyParam_mode (PVVerbObject.damp self1) (PVVerbObject.damp_stream self1)
              (PVVerbObject.modebuffer_1 self1) ∧
            PVVerbObject.revtime self1
            = default (PVVerbObject.revtime self0) revtimetmp ∧
            PVVerbObject.damp self1 = PVVerbObject.damp self0 ∧
            PVVerbObject.core self1 = PVVerbObject.core self0)
    as (self1 & Hset1 & H0' & H1' & Hr1 & Hd1 & Hc1).
  { destruct revtimetmp as [arg|]; [|by exists self0].
    destruct (PVVerb_setRevtime self0 arg) as [self1|] eqn:Hset; [|done].
    destruct (PVVerb_setRevtime_selected _ _ _ H1 Hset) as ((? & ? & _) & ? & ? & ?).
    by exists self1. }
  rewrite Hset1 in Hnew. simpl in Hnew.
  assert (∃ self2, match damptmp with
                   | Some arg => PVVerb_setDamp self1 arg
                   | None => Some self1
                   end = Some self2 ∧
            PyParam_mode (PVVerbObject.revtime self2) (PVVerbObject.revtime_stream self2)
              (PVVerbObject.modebuffer_0 self2) ∧
            PyParam_mode (PVVerbObject.damp self2) (PVVerbObject.damp_stream self2)
              (PVVerbObject.modebuffer_1 self2) ∧
            PVVerbObject.damp self2 = default (PVVerbObject.damp self1) damptmp ∧
            PVVerbObject.revtime self2 = PVVerbObject.revtime self1 ∧
            PVVerbObject.core self2 = PVVerbObject.core self1)
    as (self2 & Hset2 & H0'' & H1'' & Hd2 & Hr2 & Hc2).
  { destruct damptmp as [arg|]; [|by exists self1].
    destruct (PVVerb_setDamp self1 arg) as [self2|] eqn:Hset; [|done].
    destruct (PVVerb_setDamp_selected _ _ _ H0' Hset) as ((? & ? & _) & ? & ? & ?).
    by exists self2. }
  rewrite Hset2 in Hnew. simpl in Hnew. rewrite Hc2, Hc1 in Hnew.
  destruct (PVVerb_realloc_memories _ _ _) as [core|]; [|done].
  injection Hnew as <-. split; [by apply PVVerb_setProcMode_selected|].
  simpl. split_and!; [congruence..|done].
Qed.

Lemma PVVerb_new_returns bufsize input revtimetmp damptmp :
  (0 ≤ bufsize)%Z →
  (2 ≤ PVStream.fftsize input)%Z →
  (1 ≤ PVStream.olaps input ≤ PVStream.fftsize input)%Z →
  revtimetmp ≠ Some PyOther → damptmp ≠ Some PyOther →
  ∃ self, PVVerb_new bufsize (Some input) revtimetmp damptmp = Some (PyReturn self).
Proof.
  intros Hbuf Hsize Holaps Hr Hd. unfold PVVerb_new.
  assert (∃ self1, match revtimetmp with
                   | Some arg => PVVerb_setRevtime (PVVerb_alloc bufsize) arg
                   | None => Some (PVVerb_alloc bufsize)
                   end = Some self1 ∧
            PVVerbObject.core self1 = PVVerbObject.core (PVVerb_alloc bufsize))
    as (self1 & -> & Hc1).
  { destruct revtimetmp as [[| |]|]; try done; by eexists. }
  simpl.
  assert (∃ self2, match damptmp with
                   | Some arg => PVVerb_setDamp self1 arg
                   | None => Some self1
                   end = Some self2 ∧
            PVVerbObject.core self2 = PVVerbObject.core self1)
    as (self2 & -> & Hc2).
  { destruct damptmp as [[| |]|]; try done; by eexists. }
  simpl. rewrite Hc2, Hc1.
  destruct (PVVerb_realloc_memories_wf
    (PVVerb_with_count (PVVerbObject.core (PVVerb_alloc bufsize)) (filled bufsize 0%Z))
    (PVStream.fftsize input) (PVStream.olaps input)) as (core & -> & _); [done..| |].
  { simpl. by apply cells_filled. }
  by eexists.
Qed.

Lemma PVVerb_reachable_selected fl self : PVVerb_reachable fl self → PVVerb_selected self.
Proof.
  induction 1 as [bufsize inputtmp revtimetmp damptmp self Hnew
                 |self arg self' _ IH Hset|self arg self' _ IH Hset
                 |self data input self' _ IH Hrun].
  - destruct inputtmp as [input|]; [|done]. by apply PVVerb_new_inv in Hnew as [? _].
  - destruct IH as (_ & H1 & _). by apply (PVVerb_setRevtime_selected _ _ _ H1) in Hset as [? _].
  - destruct IH as (H0 & _). by apply (PVVerb_setDamp_selected _ _ _ H0) in Hset as [? _].
  - unfold PVVerb_compute_next_data_frame in Hrun.
    destruct (PVVerbObject.proc_func_ptr self); [simpl in Hrun|done].
    destruct (_ : option PVVerb.t) in Hrun; [|done]. by injection Hrun as <-.
Qed.

Lemma PVVerb_selected_dispatch fl data input self :
  PVVerb_selected self →
  PVVerb_compute_next_data_frame fl data input self = PVVerb_process_at fl data input self.
Proof.
  intros (H0 & H1 & Hptr). unfold PVVerb_compute_next_data_frame, PVVerb_process_at.
  rewrite Hptr. clear Hptr.
  destruct (PVVerbObject.revtime self) as [r|s|], (PVVerbObject.damp self) as [d|t|];
    simpl in H0, H1; try done;
    repeat match goal with
           | H : _ ∧ _ |- _ => destruct H as [? ?]
           | H : PVVerbObject.modebuffer_0 self = _ |- _ => rewrite H
           | H : PVVerbObject.modebuffer_1 self = _ |- _ => rewrite H
           | H : PVVerbObject.revtime_stream self = _ |- _ => rewrite H
           | H : PVVerbObject.damp_stream self = _ |- _ => rewrite H
           end; reflexivity.
Qed.

(** X24: whatever sequence of [PVVerb_setRevtime], [PVVerb_setDamp] and
    processed blocks follows [PVVerb_new], the function that
    [PVVerb_compute_next_data_frame] calls through [proc_func_ptr] reads
    each parameter from where its last setter put it: a number is used as
    it is, an object is read through its stream at the samples where a
    frame edge falls.  A setter accepts a number or a pyo object, stores it
    and leaves the other parameter and the buffers alone. *)
Theorem PVVerb_dispatch fl self :
  PVVerb_reachable fl self →
  (∀ data input,
     PVVerb_compute_next_data_frame fl data input self = PVVerb_process_at fl data input self) ∧
  (∀ arg, arg ≠ PyOther →
     ∃ self', PVVerb_setRevtime self arg = Some self' ∧
       PVVerbObject.revtime self' = arg ∧
       PVVerbObject.damp self' = PVVerbObject.damp self ∧
       PVVerbObject.core self' = PVVerbObject.core self) ∧
  (∀ arg, arg ≠ PyOther →
     ∃ self', PVVerb_setDamp self arg = Some self' ∧
       PVVerbObject.damp self' = arg ∧
       PVVerbObject.revtime self' = PVVerbObject.revtime self ∧
       PVVerbObject.core self' = PVVerbObject.core self).
Proof.
  intros Hreach. pose proof (PVVerb_reachable_selected fl _ Hreach) as Hsel.
  split; [intros; by apply PVVerb_selected_dispatch|].
  split; intros arg Harg; destruct arg; try done; by eexists.
Qed.

Lemma PVVerb_dispatch_sample :
  ∃ self self',
    PVVerb_new 2 (Some sample_stream) None (Some (PyoObject 0)) = Some (PyReturn self) ∧
    PVVerb_setRevtime self (PyoObject 1) = Some self' ∧
    PVVerb_reachable MYFLT_exact self' ∧
    ∀ data input,
      PVVerb_compute_next_data_frame MYFLT_exact data input self' = PVVerb_process_at MYFLT_exact data input self'.
Proof.
  destruct (PVVerb_new_returns 2 sample_stream None (Some (PyoObject 0)))
    as [self Hnew]; [simpl; lia..|done|done|].
  pose proof (PVVerb_reachable_new MYFLT_exact _ _ _ _ _ Hnew) as Hreach.
  destruct (proj1 (proj2 (PVVerb_dispatch MYFLT_exact self Hreach)) (PyoObject 1))
    as (self' & Hset & _); [done|].
  pose proof (PVVerb_reachable_setRevtime MYFLT_exact _ _ _ Hreach Hset) as Hreach'.
  exists self, self'. split; [exact Hnew|]. split; [exact Hset|].
  split; [exact Hreach'|]. exact (proj1 (PVVerb_dispatch MYFLT_exact self' Hreach')).
Defined.

(** X25: [PVVerb_new] on an input that publishes a stream with at least 2
    points and between 1 and [size] overlaps returns an object whose
    buffers are laid out for the size and the overlaps of that stream (the
    1024 and 4 it starts from are never used), at slot 0 with an empty
    follower, and whose parameters are the arguments given, 0.75 for each
    one left out.  On an input without a [pv_stream] the constructor ends
    the interpreter with status 1. *)
Theorem PVVerb_new_latches bufsize input revtimetmp damptmp :
  (0 ≤ bufsize)%Z →
  (2 ≤ PVStream.fftsize input)%Z →
  (1 ≤ PVStream.olaps input ≤ PVStream.fftsize input)%Z →
  revtimetmp ≠ Some PyOther → damptmp ≠ Some PyOther →
  (∃ self,
     PVVerb_new bufsize (Some input) revtimetmp damptmp = Some (PyReturn self) ∧
     PVVerb_wf (PVVerbObject.core self) ∧
     PVVerb.bufsize (PVVerbObject.core self) = bufsize ∧
     PVVerb.size (PVVerbObject.core self) = PVStream.fftsize input ∧
     PVVerb.olaps (PVVerbObject.core self) = PVStream.olaps input ∧
     PVVerb.overcount (PVVerbObject.core self) = 0%Z ∧
     all_zero (PVVerb.l_magn (PVVerbObject.core self)) ∧
     PVVerbObject.revtime self = default (PyNumber 0.75) revtimetmp ∧
     PVVerbObject.damp self = default (PyNumber 0.75) damptmp) ∧
  PVVerb_new bufsize None revtimetmp damptmp = Some (Py_Exit 1).
Proof.
  intros Hbuf Hsize Holaps Hr Hd. split; [|done].
  destruct (PVVerb_new_returns bufsize input revtimetmp damptmp) as [self Hnew]; [done..|].
  exists self. split; [done|].
  apply PVVerb_new_inv in Hnew as (_ & Hrev & Hdamp & Hre).
  destruct (PVVerb_realloc_memories_wf
    (PVVerb_with_count (PVVerbObject.core (PVVerb_alloc bufsize)) (filled bufsize 0%Z))
    (PVStream.fftsize input) (PVStream.olaps input))
    as (core & Hre' & Hwf & Hs & Ho & Hb & Hov & Hl & _); [done..|by apply cells_filled|].
  rewrite Hre in Hre'. injection Hre' as <-.
  split_and!; try done. rewrite Hl. apply all_zero_filled.
Qed.

Lemma PVVerb_new_latches_sample :
  ∃ self,
    PVVerb_new 2 (Some sample_stream) (Some (PyNumber 1)) None = Some (PyReturn self) ∧
    PVVerb.size (PVVerbObject.core self) = 4%Z ∧
    PVVerb.olaps (PVVerbObject.core self) = 2%Z ∧
    PVVerbObject.revtime self = PyNumber 1 ∧
    PVVerbObject.damp self = PyNumber 0.75.
Proof.
  destruct (PVVerb_new_latches 2 sample_stream (Some (PyNumber 1)) None)
    as [(self & Hnew & _ & _ & Hs & Ho & _ & _ & Hr & Hd) _]; [simpl; lia..|done|done|].
  exists self. split; [exact Hnew|]. split; [exact Hs|]. split; [exact Ho|].
  split; [exact Hr|exact Hd].
Defined.

(** *** PVGate *)

Lemma PVGate_setProcMode_selected self :
  PyParam_mode (PVGateObject.thresh self) (PVGateObject.thresh_stream self)
    (PVGateObject.modebuffer_0 self) →
  PyParam_mode (PVGateObject.damp self) (PVGateObject.damp_stream self)
    (PVGateObject.modebuffer_1 self) →
  PVGate_selected (PVGate_setProcMode self).
Proof.
  intros H0 H1. split_and!; [done..|]. simpl.
  destruct (PyParam_mode_bit _ _ _ H0) as [-> | ->],
           (PyParam_mode_bit _ _ _ H1) as [-> | ->]; reflexivity.
Qed.

Lemma PVGate_setThresh_selected self arg self' :
  PyParam_mode (PVGateObject.damp self) (PVGateObject.damp_stream self)
    (PVGateObject.modebuffer_1 self) →
  PVGate_setThresh self arg = Some self' →
  PVGate_selected self' ∧
  PVGateObject.thresh self' = arg ∧ PVGateObject.damp self' = PVGateObject.damp self ∧
  PVGateObject.core self' = PVGateObject.core self.
Proof.
  intros H1 Hset. destruct arg; simpl in Hset; [| |done]; injection Hset as <-;
    (split; [by apply PVGate_setProcMode_selected|done]).
Qed.

Lemma PVGate_setDamp_selected self arg self' :
  PyParam_mode (PVGateObject.thresh self) (PVGateObject.thresh_stream self)
    (PVGateObject.modebuffer_0 self) →
  PVGate_setDamp self arg = Some self' →
  PVGate_selected self' ∧
  PVGateObject.damp self' = arg ∧ PVGateObject.thresh self' = PVGateObject.thresh self ∧
  PVGateObject.core self' = PVGateObject.core self.
Proof.
  intros H0 Hset. destruct arg; simpl in Hset; [| |done]; injection Hset as <-;
    (split; [by apply PVGate_setProcMode_selected|done]).
Qed.

Lemma PVGate_alloc_mode bufsize :
  PyParam_mode (PVGateObject.thresh (PVGate_alloc bufsize))
    (PVGateObject.thresh_stream (PVGate_alloc bufsize))
    (PVGateObject.modebuffer_0 (PVGate_alloc bufsize)) ∧
  PyParam_mode (PVGateObject.damp (PVGate_alloc bufsize))
    (PVGateObject.damp_stream (PVGate_alloc bufsize))
    (PVGateObject.modebuffer_1 (PVGate_alloc bufsize)).
Proof. by split. Qed.

(** What the constructor leaves, in terms of its arguments. *)
Lemma PVGate_new_inv bufsize input threshtmp damptmp self :
  PVGate_new bufsize (Some input) threshtmp damptmp = Some (PyReturn self) →
  PVGate_selected self ∧
  PVGateObject.thresh self = default (PyNumber (-20)) threshtmp ∧
  PVGateObject.damp self = default (PyNumber 0) damptmp ∧
  PVGate_realloc_memories
    (PVGate_with_count (PVGateObject.core (PVGate_alloc bufsize)) (filled bufsize 0%Z))
    (PVStream.fftsize input) (PVStream.olaps input)
  = Some (PVGateObject.core self).
Proof.
  unfold PVGate_new. destruct (PVGate_alloc_mode bufsize) as [H0 H1].
  assert (Hr0 : PVGateObject.thresh (PVGate_alloc bufsize) = PyNumber (-20)) by done.
  assert (Hd0 : PVGateObject.damp (PVGate_alloc bufsize) = PyNumber 0) by done.
  remember (PVGate_alloc bufsize) as self0 eqn:Hself0. intros Hnew.
  assert (∃ self1, match threshtmp with
                   | Some arg => PVGate_setThresh self0 arg
                   | None => Some self0
                   end = Some self1 ∧
            PyParam_mode (PVGateObject.thresh self1) (PVGateObject.thresh_stream self1)
              (PVGateObject.modebuffer_0 self1) ∧
            PyParam_mode (PVGateObject.damp self1) (PVGateObject.damp_stream self1)
              (PVGateObject.modebuffer_1 self1) ∧
            PVGateObject.thresh self1
            = default (PVGateObject.thresh self0) threshtmp ∧
            PVGateObject.damp self1 = PVGateObject.damp self0 ∧
            PVGateObject.core self1 = PVGateObject.core self0)
    as (self1 & Hset1 & H0' & H1' & Hr1 & Hd1 & Hc1).
  { destruct threshtmp as [arg|]; [|by exists self0].
    destruct (PVGate_setThresh self0 arg) as [self1|] eqn:Hset; [|done].
    destruct (PVGate_setThresh_selected _ _ _ H1 Hset) as ((? & ? & _) & ? & ? & ?).
    by exists self1. }
  rewrite Hset1 in Hnew. simpl in Hnew.
  assert (∃ self2, match damptmp with
                   | Some arg => PVGate_setDamp self1 arg
                   | None => Some self1
                   end = Some self2 ∧
            PyParam_mode (PVGateObject.thresh self2) (PVGateObject.thresh_stream self2)
              (PVGateObject.modebuffer_0 self2) ∧
            PyParam_mode (PVGateObject.damp self2) (PVGateObject.damp_stream self2)
              (PVGateObject.modebuffer_1 self2) ∧
            PVGateObject.damp self2 = default (PVGateObject.damp self1) damptmp ∧
            PVGateObject.thresh self2 = PVGateObject.thresh self1 ∧
            PVGateObject.core self2 = PVGateObject.core self1)
    as (self2 & Hset2 & H0'' & H1'' & Hd2 & Hr2 & Hc2).
  { destruct damptmp as [arg|]; [|by exists self1].
    destruct (PVGate_setDamp self1 arg) as [self2|] eqn:Hset; [|done].
    destruct (PVGate_setDamp_selected _ _ _ H0' Hset) as ((? & ? & _) & ? & ? & ?).
    by exists self2. }
  rewrite Hset2 in Hnew. simpl in Hnew. rewrite Hc2, Hc1 in Hnew.
  destruct (PVGate_realloc_memories _ _ _) as [core|]; [|done].
  injection Hnew as <-. split; [by apply PVGate_setProcMode_selected|].
  simpl. split_and!; [congruence..|done].
Qed.

Lemma PVGate_new_returns bufsize input threshtmp damptmp :
  (0 ≤ bufsize)%Z →
  (2 ≤ PVStream.fftsize input)%Z →
  (1 ≤ PVStream.olaps input ≤ PVStream.fftsize input)%Z →
  threshtmp ≠ Some PyOther → damptmp ≠ Some PyOther →
  ∃ self, PVGate_new bufsize (Some input) threshtmp damptmp = Some (PyReturn self).
Proof.
  intros Hbuf Hsize Holaps Hr Hd. unfold PVGate_new.
  assert (∃ self1, match threshtmp with
                   | Some arg => PVGate_setThresh (PVGate_alloc bufsize) arg
                   | None => Some (PVGate_alloc bufsize)
                   end = Some self1 ∧
            PVGateObject.core self1 = PVGateObject.core (PVGate_alloc bufsize))
    as (self1 & -> & Hc1).
  { destruct threshtmp as [[| |]|]; try done; by eexists. }
  simpl.
  assert (∃ self2, match damptmp with
                   | Some arg => PVGate_setDamp self1 arg
                   | None => Some self1
                   end = Some self2 ∧
            PVGateObject.core self2 = PVGateObject.core self1)
    as (self2 & -> & Hc2).
  { destruct damptmp as [[| |]|]; try done; by eexists. }
  simpl. rewrite Hc2, Hc1.
  destruct (PVGate_realloc_memories_wf
    (PVGate_with_count (PVGateObject.core (PVGate_alloc bufsize)) (filled bufsize 0%Z))
    (PVStream.fftsize input) (PVStream.olaps input)) as (core & -> & _); [done..| |].
  { simpl. by apply cells_filled. }
  by eexists.
Qed.

Lemma PVGate_reachable_selected self : PVGate_reachable self → PVGate_selected self.
Proof.
  induction 1 as [bufsize inputtmp threshtmp damptmp self Hnew
                 |self arg self' _ IH Hset|self arg self' _ IH Hset
                 |self data input self' _ IH Hrun].
  - destruct inputtmp as [input|]; [|done]. by apply PVGate_new_inv in Hnew as [? _].
  - destruct IH as (_ & H1 & _). by apply (PVGate_setThresh_selected _ _ _ H1) in Hset as [? _].
  - destruct IH as (H0 & _). by apply (PVGate_setDamp_selected _ _ _ H0) in Hset as [? _].
  - unfold PVGate_compute_next_data_frame in Hrun.
    destruct (PVGateObject.proc_func_ptr self); [simpl in Hrun|done].
    destruct (_ : option PVGate.t) in Hrun; [|done]. by injection Hrun as <-.
Qed.

Lemma PVGate_selected_dispatch data input self :
  PVGate_selected self →
  PVGate_compute_next_data_frame data input self = PVGate_process_at data input self.
Proof.
  intros (H0 & H1 & Hptr). unfold PVGate_compute_next_data_frame, PVGate_process_at.
  rewrite Hptr. clear Hptr.
  destruct (PVGateObject.thresh self) as [r|s|], (PVGateObject.damp self) as [d|t|];
    simpl in H0, H1; try done;
    repeat match goal with
           | H : _ ∧ _ |- _ => destruct H as [? ?]
           | H : PVGateObject.modebuffer_0 self = _ |- _ => rewrite H
           | H : PVGateObject.modebuffer_1 self = _ |- _ => rewrite H
           | H : PVGateObject.thresh_stream self = _ |- _ => rewrite H
           | H : PVGateObject.damp_stream self = _ |- _ => rewrite H
           end; reflexivity.
Qed.

(** X26: whatever sequence of [PVGate_setThresh], [PVGate_setDamp] and
    processed blocks follows [PVGate_new], the function that
    [PVGate_compute_next_data_frame] calls through [proc_func_ptr] reads
    each parameter from where its last setter put it: a number is used as
    it is, an object is read through its stream at the samples where a
    frame edge falls.  A setter accepts a number or a pyo object, stores it
    and leaves the other parameter and the buffers alone. *)
Theorem PVGate_dispatch self :
  PVGate_reachable self →
  (∀ data input,
     PVGate_compute_next_data_frame data input self = PVGate_process_at data input self) ∧
  (∀ arg, arg ≠ PyOther →
     ∃ self', PVGate_setThresh self arg = Some self' ∧
       PVGateObject.thresh self' = arg ∧
       PVGateObject.damp self' = PVGateObject.damp self ∧
       PVGateObject.core self' = PVGateObject.core self) ∧
  (∀ arg, arg ≠ PyOther →
     ∃ self', PVGate_setDamp self arg = Some self' ∧
       PVGateObject.damp self' = arg ∧
       PVGateObject.thresh self' = PVGateObject.thresh self ∧
       PVGateObject.core self' = PVGateObject.core self).
Proof.
  intros Hreach. pose proof (PVGate_reachable_selected _ Hreach) as Hsel.
  split; [intros; by apply PVGate_selected_dispatch|].
  split; intros arg Harg; destruct arg; try done; by eexists.
Qed.

Lemma PVGate_dispatch_sample :
  ∃ self self',
    PVGate_new 2 (Some sample_stream) None (Some (PyoObject 0)) = Some (PyReturn self) ∧
    PVGate_setThresh self (PyoObject 1) = Some self' ∧
    PVGate_reachable self' ∧
    ∀ data input,
      PVGate_compute_next_data_frame data input self' = PVGate_process_at data input self'.
Proof.
  destruct (PVGate_new_returns 2 sample_stream None (Some (PyoObject 0)))
    as [self Hnew]; [simpl; lia..|done|done|].
  pose proof (PVGate_reachable_new _ _ _ _ _ Hnew) as Hreach.
  destruct (proj1 (proj2 (PVGate_dispatch self Hreach)) (PyoObject 1))
    as (self' & Hset & _); [done|].
  pose proof (PVGate_reachable_setThresh _ _ _ Hreach Hset) as Hreach'.
  exists self, self'. split; [exact Hnew|]. split; [exact Hset|].
  split; [exact Hreach'|]. exact (proj1 (PVGate_dispatch self' Hreach')).
Defined.

(** X27: [PVGate_new] on an input that publishes a stream with at least 2
    points and between 1 and [size] overlaps returns an object whose
    buffers are laid out for the size and the overlaps of that stream (the
    1024 and 4 it starts from are never used), at slot 0, and whose
    parameters are the arguments given, -20 for a threshold and 0 for a
    damping factor left out.  On an input without a [pv_stream] the
    constructor ends the interpreter with status 1. *)
Theorem PVGate_new_latches bufsize input threshtmp damptmp :
  (0 ≤ bufsize)%Z →
  (2 ≤ PVStream.fftsize input)%Z →
  (1 ≤ PVStream.olaps input ≤ PVStream.fftsize input)%Z →
  threshtmp ≠ Some PyOther → damptmp ≠ Some PyOther →
  (∃ self,
     PVGate_new bufsize (Some input) threshtmp damptmp = Some (PyReturn self) ∧
     PVGate_wf (PVGateObject.core self) ∧
     PVGate.bufsize (PVGateObject.core self) = bufsize ∧
     PVGate.size (PVGateObject.core self) = PVStream.fftsize input ∧
     PVGate.olaps (PVGateObject.core self) = PVStream.olaps input ∧
     PVGate.overcount (PVGateObject.core self) = 0%Z ∧
     PVGateObject.thresh self = default (PyNumber (-20)) threshtmp ∧
     PVGateObject.damp self = default (PyNumber 0) damptmp) ∧
  PVGate_new bufsize None threshtmp damptmp = Some (Py_Exit 1).
Proof.
  intros Hbuf Hsize Holaps Hr Hd. split; [|done].
  destruct (PVGate_new_returns bufsize input threshtmp damptmp) as [self Hnew]; [done..|].
  exists self. split; [done|].
  apply PVGate_new_inv in Hnew as (_ & Hthr & Hdamp & Hre).
  destruct (PVGate_realloc_memories_wf
    (PVGate_with_count (PVGateObject.core (PVGate_alloc bufsize)) (filled bufsize 0%Z))
    (PVStream.fftsize input) (PVStream.olaps input))
    as (core & Hre' & Hwf & Hs & Ho & Hb & Hov & _); [done..|by apply cells_filled|].
  rewrite Hre in Hre'. injection Hre' as <-.
  split_and!; done.
Qed.

Lemma PVGate_new_latches_sample :
  ∃ self,
    PVGate_new 2 (Some sample_stream) (Some (PyNumber 1)) None = Some (PyReturn self) ∧
    PVGate.size (PVGateObject.core self) = 4%Z ∧
    PVGate.olaps (PVGateObject.core self) = 2%Z ∧
    PVGateObject.thresh self = PyNumber 1 ∧
    PVGateObject.damp self = PyNumber 0.
Proof.
  destruct (PVGate_new_latches 2 sample_stream (Some (PyNumber 1)) None)
    as [(self & Hnew & _ & _ & Hs & Ho & _ & Hr & Hd) _]; [simpl; lia..|done|done|].
  exists self. split; [exact Hnew|]. split; [exact Hs|]. split; [exact Ho|].
  split; [exact Hr|exact Hd].
Defined.

(** *** PVTranspose *)

Lemma PVTranspose_setProcMode_selected self :
  PyParam_mode (PVTransposeObject.transpo self) (PVTransposeObject.transpo_stream self)
    (PVTransposeObject.modebuffer_0 self) →
  PVTranspose_selected (PVTranspose_setProcMode self).
Proof.
  intros H0. split; [done|]. simpl.
  destruct (PyParam_mode_bit _ _ _ H0) as [-> | ->]; reflexivity.
Qed.

Lemma PVTranspose_setTranspo_selected self arg self' :
  PVTranspose_setTranspo self arg = Some self' →
  PVTranspose_selected self' ∧
  PVTransposeObject.transpo self' = arg ∧
  PVTransposeObject.core self' = PVTransposeObject.core self.
Proof.
  intros Hset. destruct arg; simpl in Hset; [| |done]; injection Hset as <-;
    (split; [by apply PVTranspose_setProcMode_selected|done]).
Qed.

Lemma PVTranspose_new_inv bufsize input transpotmp self :
  PVTranspose_new bufsize (Some input) transpotmp = Some (PyReturn self) →
  PVTranspose_selected self ∧
  transpotmp = Some (PVTransposeObject.transpo self) ∧
  PVTranspose_realloc_memories
    (PVTranspose_with_count (PVTransposeObject.core (PVTranspose_alloc bufsize))
       (filled bufsize 0%Z))
    (PVStream.fftsize input) (PVStream.olaps input)
  = Some (PVTransposeObject.core self).
Proof.
  unfold PVTranspose_new. destruct transpotmp as [arg|]; [simpl|done].
  destruct (PVTranspose_setTranspo (PVTranspose_alloc bufsize) arg) as [self1|] eqn:Hset;
    [simpl|done].
  apply PVTranspose_setTranspo_selected in Hset as ((H0 & _) & Ht & Hc).
  rewrite Hc.
  destruct (PVTranspose_realloc_memories _ _ _) as [core|]; [simpl|done].
  intros [= <-]. split; [by apply PVTranspose_setProcMode_selected|].
  simpl. by rewrite Ht.
Qed.

Lemma PVTranspose_new_returns bufsize input arg :
  (0 ≤ bufsize)%Z →
  (2 ≤ PVStream.fftsize input)%Z →
  (1 ≤ PVStream.olaps input ≤ PVStream.fftsize input)%Z →
  arg ≠ PyOther →
  ∃ self, PVTranspose_new bufsize (Some input) (Some arg) = Some (PyReturn self).
Proof.
  intros Hbuf Hsize Holaps Harg. unfold PVTranspose_new. simpl.
  assert (∃ self1, PVTranspose_setTranspo (PVTranspose_alloc bufsize) arg = Some self1 ∧
            PVTransposeObject.core self1 = PVTransposeObject.core (PVTranspose_alloc bufsize))
    as (self1 & -> & Hc1).
  { destruct arg; try done; by eexists. }
  simpl. rewrite Hc1.
  destruct (PVTranspose_realloc_memories_wf
    (PVTranspose_with_count (PVTransposeObject.core (PVTranspose_alloc bufsize))
       (filled bufsize 0%Z))
    (PVStream.fftsize input) (PVStream.olaps input)) as (core & -> & _); [done..| |].
  { simpl. by apply cells_filled. }
  by eexists.
Qed.

Lemma PVTranspose_reachable_selected fl self :
  PVTranspose_reachable fl self → PVTranspose_selected self.
Proof.
  induction 1 as [bufsize inputtmp transpotmp self Hnew
                 |self arg self' _ IH Hset
                 |self data input self' _ IH Hrun].
  - destruct inputtmp as [input|]; [|done]. by apply PVTranspose_new_inv in Hnew as [? _].
  - by apply PVTranspose_setTranspo_selected in Hset as [? _].
  - unfold PVTranspose_compute_next_data_frame in Hrun.
    destruct (PVTransposeObject.proc_func_ptr self); [simpl in Hrun|done].
    destruct (_ : option PVTranspose.t) in Hrun; [|done]. by injection Hrun as <-.
Qed.

Lemma PVTranspose_selected_dispatch fl data input self :
  PVTranspose_selected self →
  PVTranspose_compute_next_data_frame fl data input self
  = PVTranspose_process_at fl data input self.
Proof.
  intros (H0 & Hptr).
  unfold PVTranspose_compute_next_data_frame, PVTranspose_process_at.
  rewrite Hptr. clear Hptr.
  destruct (PVTransposeObject.transpo self) as [r|s|]; simpl in H0; [| |done].
  - rewrite H0. reflexivity.
  - destruct H0 as [-> ->]. reflexivity.
Qed.

(** X28: whatever sequence of [PVTranspose_setTranspo] and processed
    blocks follows [PVTranspose_new], the function that
    [PVTranspose_compute_next_data_frame] calls through [proc_func_ptr]
    reads the factor from where the last setter put it: a number is used
    as it is, an object is read through its stream at the samples where a
    frame edge falls.  The setter accepts a number or a pyo object, stores
    it and leaves the buffers alone. *)
Theorem PVTranspose_dispatch fl self :
  PVTranspose_reachable fl self →
  (∀ data input,
     PVTranspose_compute_next_data_frame fl data input self
     = PVTranspose_process_at fl data input self) ∧
  (∀ arg, arg ≠ PyOther →
     ∃ self', PVTranspose_setTranspo self arg = Some self' ∧
       PVTransposeObject.transpo self' = arg ∧
       PVTransposeObject.core self' = PVTransposeObject.core self).
Proof.
  intros Hreach. pose proof (PVTranspose_reachable_selected fl _ Hreach) as Hsel.
  split; [intros; by apply PVTranspose_selected_dispatch|].
  intros arg Harg; destruct arg; try done; by eexists.
Qed.

Lemma PVTranspose_dispatch_sample :
  ∃ self self',
    PVTranspose_new 2 (Some sample_stream) (Some (PyNumber 2)) = Some (PyReturn self) ∧
    PVTranspose_setTranspo self (PyoObject 1) = Some self' ∧
    PVTranspose_reachable MYFLT_exact self' ∧
    ∀ data input,
      PVTranspose_compute_next_data_frame MYFLT_exact data input self'
      = PVTranspose_process_at MYFLT_exact data input self'.
Proof.
  destruct (PVTranspose_new_returns 2 sample_stream (PyNumber 2))
    as [self Hnew]; [simpl; lia..|done|].
  pose proof (PVTranspose_reachable_new MYFLT_exact _ _ _ _ Hnew) as Hreach.
  destruct (proj2 (PVTranspose_dispatch MYFLT_exact self Hreach) (PyoObject 1))
    as (self' & Hset & _); [done|].
  pose proof (PVTranspose_reachable_setTranspo MYFLT_exact _ _ _ Hreach Hset) as Hreach'.
  exists self, self'. split; [exact Hnew|]. split; [exact Hset|].
  split; [exact Hreach'|]. exact (proj1 (PVTranspose_dispatch MYFLT_exact self' Hreach')).
Defined.

(** X29: [PVTranspose_new] with a factor, on an input that publishes a
    stream with at least 2 points and between 1 and [size] overlaps,
    returns an object whose buffers are laid out for the size and the
    overlaps of that stream, at slot 0, with the factor given.  On an
    input without a [pv_stream] the constructor ends the interpreter with
    status 1.  When the factor is left out, the constructor tests a
    variable that was never assigned, and the call has no defined
    outcome. *)
Theorem PVTranspose_new_latches bufsize input arg :
  (0 ≤ bufsize)%Z →
  (2 ≤ PVStream.fftsize input)%Z →
  (1 ≤ PVStream.olaps input ≤ PVStream.fftsize input)%Z →
  arg ≠ PyOther →
  (∃ self,
     PVTranspose_new bufsize (Some input) (Some arg) = Some (PyReturn self) ∧
     PVTranspose_wf (PVTransposeObject.core self) ∧
     PVTranspose.bufsize (PVTransposeObject.core self) = bufsize ∧
     PVTranspose.size (PVTransposeObject.core self) = PVStream.fftsize input ∧
     PVTranspose.olaps (PVTransposeObject.core self) = PVStream.olaps input ∧
     PVTranspose.overcount (PVTransposeObject.core self) = 0%Z ∧
     PVTransposeObject.transpo self = arg) ∧
  PVTranspose_new bufsize None (Some arg) = Some (Py_Exit 1) ∧
  PVTranspose_new bufsize (Some input) None = None.
Proof.
  intros Hbuf Hsize Holaps Harg. split; [|done].
  destruct (PVTranspose_new_returns bufsize input arg) as [self Hnew]; [done..|].
  exists self. split; [done|].
  apply PVTranspose_new_inv in Hnew as (_ & Ht & Hre).
  destruct (PVTranspose_realloc_memories_wf
    (PVTranspose_with_count (PVTransposeObject.core (PVTranspose_alloc bufsize))
       (filled bufsize 0%Z))
    (PVStream.fftsize input) (PVStream.olaps input))
    as (core & Hre' & Hwf & Hs & Ho & Hb & Hov & _); [done..|by apply cells_filled|].
  rewrite Hre in Hre'. injection Hre' as <-.
  split_and!; try done. congruence.
Qed.

Lemma PVTranspose_new_latches_sample :
  ∃ self,
    PVTranspose_new 2 (Some sample_stream) (Some (PyNumber 2)) = Some (PyReturn self) ∧
    PVTranspose.size (PVTransposeObject.core self) = 4%Z ∧
    PVTranspose.olaps (PVTransposeObject.core self) = 2%Z ∧
    PVTransposeObject.transpo self = PyNumber 2.
Proof.
  destruct (PVTranspose_new_latches 2 sample_stream (PyNumber 2))
    as [(self & Hnew & _ & _ & Hs & Ho & _ & Ht) _]; [simpl; lia..|done|].
  exists self. split; [exact Hnew|]. split; [exact Hs|]. split; [exact Ho|exact Ht].
Defined.

(** * The transformers, frame edge by frame edge

    What the loop over the samples of a block does at each of its rounds:
    [st i] is the state of the node on entry of round [i], [st 0] the
    state after the re-latch and [st bufsize] the state that the block
    leaves. *)

(** The states that a loop goes through. *)
Lemma for_loop_states {St} (P : Z → St → Prop) (Q : Z → St → St → Prop) n
    (body : Z → St → option St) s :
  (0 ≤ n)%Z → P 0%Z s →
  (∀ k s, (0 ≤ k < n)%Z → P k s →
     ∃ s', body k s = Some s' ∧ P (k + 1)%Z s' ∧ Q k s s') →
  ∃ st : Z → St, st 0%Z = s ∧ for_loop n body s = Some (st n) ∧
    ∀ k, (0 ≤ k < n)%Z → P k (st k) ∧ Q k (st k) (st (k + 1)%Z).
Proof.
  intros Hn H0 Hstep.
  set (st := λ k : Z, default s (for_loop k body s)).
  assert (Hpre : ∀ k, (0 ≤ k ≤ n)%Z → for_loop k body s = Some (st k) ∧ P k (st k)).
  { intros k Hk.
    destruct (for_loop_inv P k body s) as (sk & Hrun & HP); [lia|done| |].
    - intros j s0 Hj HP. destruct (Hstep j s0) as (s1 & ? & ? & _); [lia|done|].
      by exists s1.
    - unfold st. rewrite Hrun. by split. }
  exists st. split_and!.
  - done.
  - by apply Hpre.
  - intros k Hk. destruct (Hpre k) as [Hrun HP]; [lia|]. split; [done|].
    destruct (Hstep k (st k)) as (s1 & Hbody & _ & HQ); [done..|].
    destruct (Hpre (k + 1)%Z) as [Hrun1 _]; [lia|].
    assert (Hs1 : for_loop (k + 1) body s = Some s1).
    { unfold for_loop in *. replace (Z.to_nat (k + 1)) with (S (Z.to_nat k)) by lia.
      simpl. rewrite Hrun. simpl. by rewrite Z2Nat.id by lia. }
    rewrite Hs1 in Hrun1. by injection Hrun1 as <-.
Qed.

(** ** PVGate *)




(** ** PVVerb *)

(** The states of the loop over the samples of the reverberator. *)
Lemma PVVerb_loop_states fl revtime_at damp_at input self :
  PVVerb_wf self → PVStream_wf (PVVerb.bufsize self) input →
  PVStream.fftsize input = PVVerb.size self →
  PVStream.olaps input = PVVerb.olaps self →
  (∀ i, (0 ≤ i < PVVerb.bufsize self)%Z → ∃ revtime, revtime_at i = Some revtime) →
  (∀ i, (0 ≤ i < PVVerb.bufsize self)%Z → ∃ damp, damp_at i = Some damp) →
  ∃ st : Z → PVVerb.t, st 0%Z = self ∧
    for_loop (PVVerb.bufsize self) (PVVerb_sample_at fl revtime_at damp_at input) self
      = Some (st (PVVerb.bufsize self)) ∧
    ∀ i, (0 ≤ i < PVVerb.bufsize self)%Z →
      (PVVerb_wf (st i) ∧ PVVerb.size (st i) = PVVerb.size self ∧
       PVVerb.olaps (st i) = PVVerb.olaps self ∧
       PVVerb.bufsize (st i) = PVVerb.bufsize self) ∧
      PVVerb_sample_at fl revtime_at damp_at input i (st i) = Some (st (i + 1)%Z).
Proof.
  intros Hwf Hinput Hsize Holaps Hrevtime Hdamp.
  apply (for_loop_states
    (λ _ s, PVVerb_wf s ∧ PVVerb.size s = PVVerb.size self ∧
       PVVerb.olaps s = PVVerb.olaps self ∧ PVVerb.bufsize s = PVVerb.bufsize self)
    (λ i s s', PVVerb_sample_at fl revtime_at damp_at input i s = Some s'));
    [by destruct Hwf|done|].
  intros i s Hi (Hs & Hsz & Hol & Hbuf).
  destruct (Hrevtime i Hi) as [revtime Hr]. destruct (Hdamp i Hi) as [damp Hd].
  destruct (PVVerb_sample_at_run fl revtime_at damp_at input i s revtime damp)
    as (c & s' & Hc & Hsample & Hs' & Hsz' & Hol' & Hbuf' & _);
    [done|by rewrite Hbuf|congruence..|by rewrite Hbuf|done|done|].
  exists s'. split_and!; [done|done|congruence..|done].
Qed.

(** What one round of the loop over the samples does to the follower and
    to the tables. *)
Lemma PVVerb_sample_follows fl r d input i self self' c :
  PVVerb_wf self → PVStream_wf (PVVerb.bufsize self) input →
  PVStream.fftsize input = PVVerb.size self →
  PVStream.olaps input = PVVerb.olaps self →
  rd (PVStream.count input) i = Some c →
  PVVerb_sample fl r d input i self = Some self' →
  if bool_decide (PVVerb.size self - 1 ≤ c)%Z then
    PVVerb.overcount self' = next_overcount (PVVerb.overcount self) (PVVerb.olaps self) ∧
    ∀ k, (0 ≤ k < PVVerb.hsize self)%Z → ∃ mag_in last f_in,
      rd2 (PVStream.magn input) (PVVerb.overcount self) k = Some mag_in ∧
      rd (PVVerb.l_magn self) k = Some last ∧
      rd2 (PVStream.freq input) (PVVerb.overcount self) k = Some f_in ∧
      rd (PVVerb.l_magn self') k
        = Some (PVVerb_follow fl mag_in last r (PVVerb_amp fl d (Z.to_nat k))) ∧
      rd2 (PVVerb.magn self') (PVVerb.overcount self) k
        = Some (PVVerb_follow fl mag_in last r (PVVerb_amp fl d (Z.to_nat k))) ∧
      rd2 (PVVerb.freq self') (PVVerb.overcount self) k = Some f_in
  else
    PVVerb.l_magn self' = PVVerb.l_magn self ∧
    PVVerb.magn self' = PVVerb.magn self ∧ PVVerb.freq self' = PVVerb.freq self ∧
    PVVerb.overcount self' = PVVerb.overcount self.
Proof.
  intros Hwf Hinput Hsize Holaps Hc Hsample.
  pose proof Hwf as []. pose proof Hinput as [].
  pose proof (usable_config_facts _ _ _ _ _ verb_config0) as Hcfg.
  pose proof verb_config0 as (_ & _ & Hhsize & _).
  rewrite Hsize, Holaps, <- Hhsize in stream_magn0, stream_freq0.
  assert (Hi : (0 ≤ i < Z.of_nat (length (PVVerb.count self)))%Z).
  { apply rd_Some_bounds in Hc. unfold cells in *. lia. }
  case_bool_decide as Hedge.
  - destruct (PVVerb_frame_run fl r d (PVVerb.olaps self) (PVVerb.hsize self)
      (PVVerb.overcount self) (PVStream.magn input) (PVStream.freq input)
      (PVVerb.l_magn self) (PVVerb.magn self) (PVVerb.freq self))
      as (l_magn' & magn' & freq' & Hframe & _ & _ & _ & Hbins); [done..|lia|].
    destruct (PVVerb_sample_edge fl r d input i self c l_magn' magn' freq' Hc Hi
      Hedge Hframe) as (self'' & Hsample' & Hl & Hm & Hf & Hov & _).
    assert (self'' = self') as -> by congruence.
    split; [done|]. by rewrite Hl, Hm, Hf.
  - destruct (PVVerb_sample_no_edge fl r d input i self c Hc Hi ltac:(lia))
      as (self'' & Hsample' & Hl & Hm & Hf & Hov & _).
    assert (self'' = self') as -> by congruence. done.
Qed.

(** A block of [PVVerb_process_ii], round by round. *)
Lemma PVVerb_process_ii_states fl revtime damp input self :
  PVVerb_wf self → PVStream_wf (PVVerb.bufsize self) input →
  ∃ self0 (st : Z → PVVerb.t),
    PVVerb_adapt input self = Some self0 ∧ st 0%Z = self0 ∧
    PVVerb_process_ii fl revtime damp input self = Some (st (PVVerb.bufsize self)) ∧
    ∀ i c, rd (PVStream.count input) i = Some c →
      if bool_decide (PVStream.fftsize input - 1 ≤ c)%Z then
        PVVerb.overcount (st (i + 1)%Z)
          = next_overcount (PVVerb.overcount (st i)) (PVStream.olaps input) ∧
        ∀ k, (0 ≤ k < PVStream.fftsize input `quot` 2)%Z →
          ∃ mag_in last f_in out,
            rd2 (PVStream.magn input) (PVVerb.overcount (st i)) k = Some mag_in ∧
            rd (PVVerb.l_magn (st i)) k = Some last ∧
            rd2 (PVStream.freq input) (PVVerb.overcount (st i)) k = Some f_in ∧
            out = PVVerb_follow fl mag_in last (PVVerb_revtime fl revtime)
                    (PVVerb_amp fl (PVVerb_damp fl damp) (Z.to_nat k)) ∧
            rd (PVVerb.l_magn (st (i + 1)%Z)) k = Some out ∧
            rd2 (PVVerb.magn (st (i + 1)%Z)) (PVVerb.overcount (st i)) k = Some out ∧
            rd2 (PVVerb.freq (st (i + 1)%Z)) (PVVerb.overcount (st i)) k = Some f_in
      else
        PVVerb.l_magn (st (i + 1)%Z) = PVVerb.l_magn (st i) ∧
        PVVerb.magn (st (i + 1)%Z) = PVVerb.magn (st i) ∧
        PVVerb.freq (st (i + 1)%Z) = PVVerb.freq (st i) ∧
        PVVerb.overcount (st (i + 1)%Z) = PVVerb.overcount (st i).
Proof.
  intros Hwf Hinput.
  change (PVVerb_process_ii fl revtime damp input self)
    with (self0 ← PVVerb_adapt input self;
          for_loop (PVVerb.bufsize self0)
            (PVVerb_sample_at fl (λ _, Some (PVVerb_revtime fl revtime))
               (λ _, Some (PVVerb_damp fl damp)) input) self0).
  destruct (PVVerb_adapt_run input self) as (self0 & -> & Hwf0 & Hs0 & Ho0 & Hb0 & _);
    [done..|].
  simpl. rewrite <- Hb0 in Hinput.
  destruct (PVVerb_loop_states fl (λ _, Some (PVVerb_revtime fl revtime))
              (λ _, Some (PVVerb_damp fl damp)) input self0)
    as (st & Hst0 & Hrun & Hstep); [done|done|done|done|eauto|eauto|].
  exists self0, st. rewrite <- Hb0. split_and!; [done..|].
  intros i c Hc.
  assert (Hi : (0 ≤ i < PVVerb.bufsize self0)%Z).
  { apply rd_Some_bounds in Hc. destruct Hinput. unfold cells in *. lia. }
  destruct (Hstep i Hi) as ((Hwfi & Hsi & Hoi & Hbi) & Hsample).
  pose proof (PVVerb_sample_follows fl (PVVerb_revtime fl revtime) (PVVerb_damp fl damp)
                input i (st i) (st (i + 1)%Z) c Hwfi) as Hfollows.
  rewrite Hbi, Hsi, Hoi, <- Hs0, <- Ho0 in Hfollows.
  specialize (Hfollows Hinput eq_refl eq_refl Hc Hsample).
  assert (Hh : PVVerb.hsize (st i) = (PVVerb.size self0 `quot` 2)%Z).
  { destruct Hwfi as [(_ & _ & -> & _) _ _ _ _ _ _]. by rewrite Hsi. }
  rewrite Hh in Hfollows. rewrite <- Hs0, <- Ho0.
  destruct (bool_decide (PVVerb.size self0 - 1 ≤ c)%Z); [|done].
  destruct Hfollows as [Hov Hbins]. split; [done|]. intros k Hk.
  destruct (Hbins k Hk) as (a & b & f & ? & ? & ? & ? & ? & ?).
  exists a, b, f. eexists. by split_and!.
Qed.


(** C10, as amended.  In a block of [PVVerb_process_ii] on magnitudes
    that are numbers of [MYFLT], at every sample where a frame edge falls
    and for every bin [k] the magnitude emitted is not below the input
    magnitude [mag_in] and not above the larger of [mag_in] and
    [mag_in + (L[k] - mag_in)] as the arithmetic of [MYFLT] computes it,
    the difference rounded and then the sum; and the follower holds the
    emitted magnitude after the bin.  Where the difference and the sum are
    exact the upper bound is the larger of [mag_in] and [L[k]].  At every
    other sample the follower and the table stay as they are. *)
Theorem PVVerb_process_bounds fl revtime damp input self :
  MYFLT_rounding fl →
  (∀ i k mag, rd2 (PVStream.magn input) i k = Some mag → fl mag = mag) →
  PVVerb_wf self → PVStream_wf (PVVerb.bufsize self) input →
  ∃ self0 (st : Z → PVVerb.t),
    PVVerb_adapt input self = Some self0 ∧ st 0%Z = self0 ∧
    PVVerb_process_ii fl revtime damp input self = Some (st (PVVerb.bufsize self)) ∧
    ∀ i c, rd (PVStream.count input) i = Some c →
      let slot := PVVerb.overcount (st i) in
      if bool_decide (PVStream.fftsize input - 1 ≤ c)%Z then
        ∀ k, (0 ≤ k < PVStream.fftsize input `quot` 2)%Z →
          ∃ mag_in last out,
            rd2 (PVStream.magn input) slot k = Some mag_in ∧
            rd (PVVerb.l_magn (st i)) k = Some last ∧
            rd2 (PVVerb.magn (st (i + 1)%Z)) slot k = Some out ∧
            rd (PVVerb.l_magn (st (i + 1)%Z)) k = Some out ∧
            (mag_in <= out <= Rmax mag_in (fl (mag_in + fl (last - mag_in))))%R ∧
            (fl (mag_in + fl (last - mag_in))%R = last →
             (mag_in <= out <= Rmax mag_in last)%R)
      else
        PVVerb.l_magn (st (i + 1)%Z) = PVVerb.l_magn (st i) ∧
        PVVerb.magn (st (i + 1)%Z) = PVVerb.magn (st i).
Proof.
  intros Hfl Hmagn Hwf Hinput.
  destruct (PVVerb_process_ii_states fl revtime damp input self Hwf Hinput)
    as (self0 & st & Hadapt & Hst0 & Hrun & Hstep).
  exists self0, st. split_and!; [done..|]. intros i c Hc slot.
  specialize (Hstep i c Hc).
  destruct (bool_decide (PVStream.fftsize input - 1 ≤ c)%Z);
    [|by destruct Hstep as (? & ? & _)].
  intros k Hk. destruct Hstep as [_ Hbins].
  destruct (Hbins k Hk) as (a & b & f & out & Ha & ? & ? & Hout & ? & ? & ?).
  exists a, b, out. do 4 (split; [done|]). split.
  - rewrite Hout. apply PVVerb_follow_rounded_bounds; [done|by eapply Hmagn| |].
    + by apply PVVerb_revtime_unit.
    + apply PVVerb_amp_unit; [done|]. by apply PVVerb_damp_unit.
  - intros <-. rewrite Hout.
    apply PVVerb_follow_rounded_bounds; [done|by eapply Hmagn| |].
    + by apply PVVerb_revtime_unit.
    + apply PVVerb_amp_unit; [done|]. by apply PVVerb_damp_unit.
Qed.

(** ** PVTranspose *)

Lemma landing_last_by_bounds index idx n k :
  landing_last_by index idx n = Some k →
  (0 ≤ k < Z.of_nat n)%Z ∧ index k = idx ∧
  ∀ k', (k < k' < Z.of_nat n)%Z → index k' ≠ idx.
Proof.
  induction n as [|n IH]; [done|]. simpl.
  destruct (Z.eqb_spec (index (Z.of_nat n)) idx) as [Heq|Hne].
  - intros [= <-]. split_and!; [lia..|done|]. intros k' Hk'. lia.
  - intros (Hk & Hidx & Hlast)%IH. split_and!; [lia..|done|].
    intros k' Hk'. destruct (decide (k' = Z.of_nat n)) as [->|]; [done|].
    apply Hlast. lia.
Qed.

Lemma landing_last_by_None index idx n k :
  landing_last_by index idx n = None → (0 ≤ k < Z.of_nat n)%Z → index k ≠ idx.
Proof.
  induction n as [|n IH]; [lia|]. simpl.
  destruct (Z.eqb_spec (index (Z.of_nat n)) idx) as [Heq|Hne]; [done|].
  intros Hnone Hk. destruct (decide (k = Z.of_nat n)) as [->|]; [done|].
  apply IH; [done|lia].
Qed.

(** [landing_freq_by] keeps the frequency of the largest bin whose index
    is [idx], and 0 when there is no such bin. *)
Lemma landing_freq_by_largest index transpo f idx n k :
  (0 ≤ k < Z.of_nat n)%Z → index k = idx →
  (∀ k', (k < k' < Z.of_nat n)%Z → index k' ≠ idx) →
  landing_freq_by index transpo f idx n = (f k * transpo)%R.
Proof.
  intros Hk Hidx Hlargest. unfold landing_freq_by.
  destruct (landing_last_by index idx n) as [k0|] eqn:Hlast.
  - apply landing_last_by_bounds in Hlast as (Hk0 & Hidx0 & Hlargest0).
    destruct (Z.lt_trichotomy k k0) as [Hlt|[->|Hgt]]; [|done|].
    + destruct (Hlargest k0); [lia|done].
    + destruct (Hlargest0 k); [lia|done].
  - by destruct (landing_last_by_None _ _ _ k Hlast Hk).
Qed.

Lemma landing_freq_by_nothing index transpo f idx n :
  (∀ k, (0 ≤ k < Z.of_nat n)%Z → index k ≠ idx) →
  landing_freq_by index transpo f idx n = 0%R.
Proof.
  intros Hnone. unfold landing_freq_by.
  destruct (landing_last_by index idx n) as [k0|] eqn:Hlast; [|done].
  apply landing_last_by_bounds in Hlast as (Hk0 & Hidx0 & _).
  by destruct (Hnone k0).
Qed.

Lemma landing_sum_by_nothing index m idx n :
  (∀ k, (0 ≤ k < Z.of_nat n)%Z → index k ≠ idx) →
  landing_sum_by index m idx n = 0%R.
Proof.
  induction n as [|n IH]; intros Hnone; [done|]. simpl.
  destruct (Z.eqb_spec (index (Z.of_nat n)) idx) as [Heq|Hne].
  - destruct (Hnone (Z.of_nat n)); [lia|done].
  - apply IH. intros k Hk. apply Hnone. lia.
Qed.

(** The states of the loop over the samples of the transposition. *)
Lemma PVTranspose_loop_states fl transpo_at input self :
  PVTranspose_wf self → PVStream_wf (PVTranspose.bufsize self) input →
  PVStream.fftsize input = PVTranspose.size self →
  PVStream.olaps input = PVTranspose.olaps self →
  (∀ i c, rd (PVStream.count input) i = Some c → (PVTranspose.size self - 1 ≤ c)%Z →
     ∃ transpo, transpo_at i = Some transpo ∧
       PVTranspose_index_defined fl transpo (PVTranspose.hsize self)) →
  ∃ st : Z → PVTranspose.t, st 0%Z = self ∧
    for_loop (PVTranspose.bufsize self) (PVTranspose_sample fl transpo_at input) self
      = Some (st (PVTranspose.bufsize self)) ∧
    ∀ i, (0 ≤ i < PVTranspose.bufsize self)%Z →
      (PVTranspose_wf (st i) ∧ PVTranspose.size (st i) = PVTranspose.size self ∧
       PVTranspose.olaps (st i) = PVTranspose.olaps self ∧
       PVTranspose.bufsize (st i) = PVTranspose.bufsize self) ∧
      PVTranspose_sample fl transpo_at input i (st i) = Some (st (i + 1)%Z).
Proof.
  intros Hwf Hinput Hsize Holaps Htranspo.
  apply (for_loop_states
    (λ _ s, PVTranspose_wf s ∧ PVTranspose.size s = PVTranspose.size self ∧
       PVTranspose.olaps s = PVTranspose.olaps self ∧
       PVTranspose.bufsize s = PVTranspose.bufsize self)
    (λ i s s', PVTranspose_sample fl transpo_at input i s = Some s'));
    [by destruct Hwf|done|].
  intros i s Hi (Hs & Hsz & Hol & Hbuf).
  assert (Hh : PVTranspose.hsize s = PVTranspose.hsize self).
  { destruct Hs as [(_ & _ & -> & _) _ _ _ _ _], Hwf as [(_ & _ & -> & _) _ _ _ _ _].
    congruence. }
  destruct (PVTranspose_sample_run fl transpo_at input i s)
    as (c & s' & Hc & Hsample & Hs' & Hsz' & Hol' & Hbuf' & _);
    [done|by rewrite Hbuf|congruence..|by rewrite Hbuf| |].
  { rewrite Hsz, Hh. by apply Htranspo. }
  exists s'. split_and!; [done|congruence..|done].
Qed.

(** What one round of the loop over the samples does to the tables. *)
Lemma PVTranspose_sample_lands fl transpo_at input i self self' c :
  PVTranspose_wf self → PVStream_wf (PVTranspose.bufsize self) input →
  PVStream.fftsize input = PVTranspose.size self →
  PVStream.olaps input = PVTranspose.olaps self →
  rd (PVStream.count input) i = Some c →
  ((PVTranspose.size self - 1 ≤ c)%Z →
   ∃ transpo, transpo_at i = Some transpo ∧
     PVTranspose_index_defined fl transpo (PVTranspose.hsize self)) →
  PVTranspose_sample fl transpo_at input i self = Some self' →
  if bool_decide (PVTranspose.size self - 1 ≤ c)%Z then
    ∃ transpo, transpo_at i = Some transpo ∧
      PVTranspose.overcount self'
      = next_overcount (PVTranspose.overcount self) (PVTranspose.olaps self) ∧
      ∀ idx, (0 ≤ idx < PVTranspose.hsize self)%Z →
        rd2 (PVTranspose.magn self') (PVTranspose.overcount self) idx
          = Some (landing_sum_by (PVTranspose_index fl transpo)
                    (cell_or_0 (PVStream.magn input) (PVTranspose.overcount self)) idx
                    (Z.to_nat (PVTranspose.hsize self))) ∧
        rd2 (PVTranspose.freq self') (PVTranspose.overcount self) idx
          = Some (landing_freq_by (PVTranspose_index fl transpo) transpo
                    (cell_or_0 (PVStream.freq input) (PVTranspose.overcount self)) idx
                    (Z.to_nat (PVTranspose.hsize self)))
  else
    PVTranspose.magn self' = PVTranspose.magn self ∧
    PVTranspose.freq self' = PVTranspose.freq self ∧
    PVTranspose.overcount self' = PVTranspose.overcount self.
Proof.
  intros Hwf Hinput Hsize Holaps Hc Htranspo Hsample.
  pose proof Hwf as []. pose proof Hinput as [].
  pose proof (usable_config_facts _ _ _ _ _ transpose_config0) as Hcfg.
  pose proof transpose_config0 as (_ & _ & Hhsize & _).
  rewrite Hsize, Holaps, <- Hhsize in stream_magn0, stream_freq0.
  assert (Hi : (0 ≤ i < Z.of_nat (length (PVTranspose.count self)))%Z).
  { apply rd_Some_bounds in Hc. unfold cells in *. lia. }
  case_bool_decide as Hedge.
  - destruct (Htranspo Hedge) as (transpo & Ht & Hdef). exists transpo. split; [done|].
    destruct (PVTranspose_frame_run fl transpo (PVTranspose.olaps self)
      (PVTranspose.hsize self) (PVTranspose.overcount self) (PVStream.magn input)
      (PVStream.freq input) (PVTranspose.magn self) (PVTranspose.freq self))
      as (magn' & freq' & Hframe & _ & _ & _ & Hbins); [done..|lia|].
    destruct (PVTranspose_sample_edge fl transpo_at input i self c transpo magn' freq'
      Hc Hi Hedge Ht Hframe) as (self'' & Hsample' & Hm & Hf & Hov & _).
    assert (self'' = self') as -> by congruence.
    split; [done|]. by rewrite Hm, Hf.
  - destruct (PVTranspose_sample_no_edge fl transpo_at input i self c Hc Hi ltac:(lia))
      as (self'' & Hsample' & Hm & Hf & Hov & _).
    assert (self'' = self') as -> by congruence. done.
Qed.

(** A block of the transposition, round by round, whatever the factor is
    read from. *)
Lemma PVTranspose_block_states fl transpo_at input self :
  PVTranspose_wf self → PVStream_wf (PVTranspose.bufsize self) input →
  (∀ i c, rd (PVStream.count input) i = Some c → (PVStream.fftsize input - 1 ≤ c)%Z →
     ∃ transpo, transpo_at i = Some transpo ∧
       PVTranspose_index_defined fl transpo (PVStream.fftsize input `quot` 2)) →
  ∃ self0 (st : Z → PVTranspose.t),
    PVTranspose_adapt input self = Some self0 ∧ st 0%Z = self0 ∧
    (self0 ← PVTranspose_adapt input self;
     for_loop (PVTranspose.bufsize self0) (PVTranspose_sample fl transpo_at input) self0)
      = Some (st (PVTranspose.bufsize self)) ∧
    ∀ i c, rd (PVStream.count input) i = Some c →
      if bool_decide (PVStream.fftsize input - 1 ≤ c)%Z then
        ∃ transpo, transpo_at i = Some transpo ∧
          PVTranspose.overcount (st (i + 1)%Z)
          = next_overcount (PVTranspose.overcount (st i)) (PVStream.olaps input) ∧
          ∀ idx, (0 ≤ idx < PVStream.fftsize input `quot` 2)%Z →
            rd2 (PVTranspose.magn (st (i + 1)%Z)) (PVTranspose.overcount (st i)) idx
              = Some (landing_sum_by (PVTranspose_index fl transpo)
                        (cell_or_0 (PVStream.magn input) (PVTranspose.overcount (st i)))
                        idx (Z.to_nat (PVStream.fftsize input `quot` 2))) ∧
            rd2 (PVTranspose.freq (st (i + 1)%Z)) (PVTranspose.overcount (st i)) idx
              = Some (landing_freq_by (PVTranspose_index fl transpo) transpo
                        (cell_or_0 (PVStream.freq input) (PVTranspose.overcount (st i)))
                        idx (Z.to_nat (PVStream.fftsize input `quot` 2)))
      else
        PVTranspose.magn (st (i + 1)%Z) = PVTranspose.magn (st i) ∧
        PVTranspose.freq (st (i + 1)%Z) = PVTranspose.freq (st i) ∧
        PVTranspose.overcount (st (i + 1)%Z) = PVTranspose.overcount (st i).
Proof.
  intros Hwf Hinput Htranspo.
  destruct (PVTranspose_adapt_run input self)
    as (self0 & -> & Hwf0 & Hs0 & Ho0 & Hb0 & _); [done..|].
  simpl. rewrite <- Hb0 in Hinput.
  assert (Hh0 : PVTranspose.hsize self0 = (PVStream.fftsize input `quot` 2)%Z).
  { destruct Hwf0 as [(_ & _ & -> & _) _ _ _ _ _]. by rewrite Hs0. }
  destruct (PVTranspose_loop_states fl transpo_at input self0)
    as (st & Hst0 & Hrun & Hstep); [done|done|done|done|by rewrite Hh0, Hs0|].
  exists self0, st. rewrite <- Hb0. split_and!; [done..|].
  intros i c Hc.
  assert (Hi : (0 ≤ i < PVTranspose.bufsize self0)%Z).
  { apply rd_Some_bounds in Hc. destruct Hinput. unfold cells in *. lia. }
  destruct (Hstep i Hi) as ((Hwfi & Hsi & Hoi & Hbi) & Hsample).
  assert (Hh : PVTranspose.hsize (st i) = (PVStream.fftsize input `quot` 2)%Z).
  { destruct Hwfi as [(_ & _ & -> & _) _ _ _ _ _]. by rewrite Hsi, Hs0. }
  pose proof (PVTranspose_sample_lands fl transpo_at input i (st i)
                (st (i + 1)%Z) c Hwfi) as Hlands.
  rewrite Hbi, Hsi, Hoi, Hh, Hs0, Ho0 in Hlands.
  apply Hlands; [done|done|done|done| |done].
  intros Hedge. by apply (Htranspo i c).
Qed.

(** C5, as amended.  [run] is a block of [PVTranspose_process_i], where
    the factor is the number [transpo] at every sample, or a block of
    [PVTranspose_process_a], where the factor is read from the block [tr]
    at the sample where a frame edge falls; [transpo_at] is the factor at
    each sample.  At every sample where a frame edge falls, if every
    product [k * transpo] of the frame, as [MYFLT] computes it, is not
    negative and below [2^31], the index of input bin [k] is the integer
    part [index k] of that product, and the frame leaves in the current
    slot, for every bin [idx] below [hsize], in [magn] the sum of the input
    magnitudes of the bins [k < hsize] with [index k = idx] (0 when there
    is none: the slot is zeroed first) and in [freq] the input frequency
    times [transpo] of the largest such [k], or 0 when there is none; bins
    whose index is [hsize] or more are in no sum.  Where no product is
    rounded across an integer, [index k] is [⌊k·transpo⌋] and the sums are
    those of the spec.  At every other sample the tables and the slot stay
    as they are. *)
Theorem PVTranspose_process_lands fl transpo tr transpo_at run input self :
  (transpo_at = (λ _, Some transpo) ∧ run = PVTranspose_process_i fl transpo input self) ∨
  (transpo_at = rd tr ∧ run = PVTranspose_process_a fl tr input self) →
  PVTranspose_wf self → PVStream_wf (PVTranspose.bufsize self) input →
  (∀ i c, rd (PVStream.count input) i = Some c → (PVStream.fftsize input - 1 ≤ c)%Z →
     ∃ transpo, transpo_at i = Some transpo ∧
       PVTranspose_index_defined fl transpo (PVStream.fftsize input `quot` 2)) →
  ∃ self0 (st : Z → PVTranspose.t),
    PVTranspose_adapt input self = Some self0 ∧ st 0%Z = self0 ∧
    run = Some (st (PVTranspose.bufsize self)) ∧
    ∀ i c, rd (PVStream.count input) i = Some c →
      let slot := PVTranspose.overcount (st i) in
      let hsize := (PVStream.fftsize input `quot` 2)%Z in
      if bool_decide (PVStream.fftsize input - 1 ≤ c)%Z then
        ∃ transpo, transpo_at i = Some transpo ∧
          let index := PVTranspose_index fl transpo in
          PVTranspose.overcount (st (i + 1)%Z)
          = next_overcount slot (PVStream.olaps input) ∧
          (∀ k, (0 ≤ k < hsize)%Z →
             int_of_float (PVTranspose_product fl transpo k) = Some (index k)) ∧
          ∀ idx, (0 ≤ idx < hsize)%Z →
            rd2 (PVTranspose.magn (st (i + 1)%Z)) slot idx
              = Some (landing_sum_by index (cell_or_0 (PVStream.magn input) slot) idx
                        (Z.to_nat hsize)) ∧
            (∀ k, (0 ≤ k < hsize)%Z → index k = idx →
               (∀ k', (k < k' < hsize)%Z → index k' ≠ idx) →
               rd2 (PVTranspose.freq (st (i + 1)%Z)) slot idx
                 = Some (cell_or_0 (PVStream.freq input) slot k * transpo)%R) ∧
            ((∀ k, (0 ≤ k < hsize)%Z → index k ≠ idx) →
             rd2 (PVTranspose.magn (st (i + 1)%Z)) slot idx = Some 0%R ∧
             rd2 (PVTranspose.freq (st (i + 1)%Z)) slot idx = Some 0%R) ∧
            (PVTranspose_index_exact fl transpo hsize →
             rd2 (PVTranspose.magn (st (i + 1)%Z)) slot idx
               = Some (landing_sum transpo (cell_or_0 (PVStream.magn input) slot) idx
                         (Z.to_nat hsize)) ∧
             rd2 (PVTranspose.freq (st (i + 1)%Z)) slot idx
               = Some (landing_freq transpo (cell_or_0 (PVStream.freq input) slot) idx
                         (Z.to_nat hsize)))
      else
        PVTranspose.magn (st (i + 1)%Z) = PVTranspose.magn (st i) ∧
        PVTranspose.freq (st (i + 1)%Z) = PVTranspose.freq (st i) ∧
        PVTranspose.overcount (st (i + 1)%Z) = slot.
Proof.
  intros Hrun Hwf Hinput Htranspo.
  destruct (PVTranspose_block_states fl transpo_at input self Hwf Hinput Htranspo)
    as (self0 & st & Hadapt & Hst0 & Hblock & Hstep).
  exists self0, st. split_and!; [done..| |].
  { by destruct Hrun as [[-> ->]|[-> ->]]. }
  intros i c Hc slot hsize. specialize (Hstep i c Hc). fold slot hsize in Hstep.
  case_bool_decide as Hedge; [|done].
  destruct Hstep as (t & Ht & Hov & Hbins).
  destruct (Htranspo i c Hc Hedge) as (t' & Ht' & Hdef).
  assert (t' = t) as -> by congruence.
  exists t. split; [done|]. intros index. split_and!; [done| |].
  { intros k Hk. by apply int_of_float_floor, Hdef. }
  assert (Hhs : (0 ≤ hsize)%Z).
  { destruct Hinput. unfold hsize. apply Z.quot_pos; lia. }
  intros idx Hidx. destruct (Hbins idx Hidx) as [Hsum Hfreq].
  split_and!; [done| | |].
  - intros k Hk Hlands Hlargest. rewrite Hfreq. f_equal.
    apply landing_freq_by_largest; [lia|done|]. intros k' Hk'. apply Hlargest. lia.
  - intros Hnone. split.
    + rewrite Hsum. f_equal. apply landing_sum_by_nothing.
      intros k Hk. apply Hnone. lia.
    + rewrite Hfreq. f_equal. apply landing_freq_by_nothing.
      intros k Hk. apply Hnone. lia.
  - intros Hexact.
    destruct (landing_by_exact fl t hsize
                (cell_or_0 (PVStream.magn input) slot)
                (cell_or_0 (PVStream.freq input) slot) idx Hexact) as [<- <-].
    by split.
Qed.

(** ** The three theorems on a block of two samples

    The stream [sample_stream] has a frame edge at its first sample and
    none at its second; the three transformers are in slot 1 and need no
    re-latch. *)

(** The size and the number of bins of [sample_stream] in a side
    condition. *)
Ltac sample_stream_size :=
  clear;
  change (PVStream.fftsize sample_stream `quot` 2)%Z with 2%Z;
  change (PVStream.fftsize sample_stream) with 4%Z;
  lia.

Lemma PVTranspose_process_lands_sample :
  PVTranspose_wf sample_transpose ∧
  PVStream_wf (PVTranspose.bufsize sample_transpose) sample_stream ∧
  PVTranspose_index_defined MYFLT_exact 2 (PVStream.fftsize sample_stream `quot` 2) ∧
  (∃ self',
     PVTranspose_process_i MYFLT_exact 2 sample_stream sample_transpose = Some self' ∧
     rd2 (PVTranspose.magn self') 1 0
     = Some (landing_sum 2 (cell_or_0 sample_magn_in 1) 0 2)) ∧
  ∃ self',
    PVTranspose_process_a MYFLT_exact [2; 7]%R sample_stream sample_transpose
    = Some self' ∧
    rd2 (PVTranspose.magn self') 1 0
    = Some (landing_sum 2 (cell_or_0 sample_magn_in 1) 0 2).
Proof.
  destruct (PVTranspose_index_MYFLT_exact 2 (PVStream.fftsize sample_stream `quot` 2))
    as [Hdef Hexact]; [lra| |].
  { change (IZR (PVStream.fftsize sample_stream `quot` 2 - 1)) with 1%R.
    change (IZR (INT_MAX + 1)) with 2147483648%R. lra. }
  split; [apply sample_transpose_wf|]. split; [apply sample_stream_wf|].
  split; [exact Hdef|]. split.
  - destruct (PVTranspose_process_lands MYFLT_exact 2 [] (λ _, Some 2%R)
                (PVTranspose_process_i MYFLT_exact 2 sample_stream sample_transpose)
                sample_stream sample_transpose)
      as (self0 & st & Hadapt & Hst0 & Hrun & Hstep);
      [by left|apply sample_transpose_wf|apply sample_stream_wf|by eauto|].
    injection Hadapt as <-.
    exists (st 2%Z). split; [exact Hrun|].
    pose proof (Hstep 0%Z 3%Z eq_refl) as H0. cbv zeta in H0.
    rewrite bool_decide_eq_true_2 in H0 by sample_stream_size.
    destruct H0 as (t & [= <-] & _ & _ & Hbins).
    pose proof (Hstep 1%Z 2%Z eq_refl) as H1. cbv zeta in H1.
    rewrite bool_decide_eq_false_2 in H1 by sample_stream_size.
    destruct H1 as (Hm & _). change (1 + 1)%Z with 2%Z in Hm. rewrite Hm.
    destruct (Hbins 0%Z) as (_ & _ & _ & Hspec); [sample_stream_size|].
    destruct (Hspec Hexact) as [Hsum _]. rewrite Hst0 in Hsum. exact Hsum.
  - destruct (PVTranspose_process_lands MYFLT_exact 0 [2; 7]%R (rd [2; 7]%R)
                (PVTranspose_process_a MYFLT_exact [2; 7]%R sample_stream
                   sample_transpose)
                sample_stream sample_transpose)
      as (self0 & st & Hadapt & Hst0 & Hrun & Hstep);
      [by right|apply sample_transpose_wf|apply sample_stream_wf| |].
    { intros i c Hc Hedge. pose proof (rd_Some_bounds _ _ _ Hc) as Hi.
      change (Z.of_nat (length (PVStream.count sample_stream))) with 2%Z in Hi.
      assert (i = 0 ∨ i = 1)%Z as [-> | ->] by lia.
      - exists 2%R. by split.
      - injection Hc as <-. revert Hedge. sample_stream_size. }
    injection Hadapt as <-.
    exists (st 2%Z). split; [exact Hrun|].
    pose proof (Hstep 0%Z 3%Z eq_refl) as H0. cbv zeta in H0.
    rewrite bool_decide_eq_true_2 in H0 by sample_stream_size.
    destruct H0 as (t & [= <-] & _ & _ & Hbins).
    pose proof (Hstep 1%Z 2%Z eq_refl) as H1. cbv zeta in H1.
    rewrite bool_decide_eq_false_2 in H1 by sample_stream_size.
    destruct H1 as (Hm & _). change (1 + 1)%Z with 2%Z in Hm. rewrite Hm.
    destruct (Hbins 0%Z) as (_ & _ & _ & Hspec); [sample_stream_size|].
    destruct (Hspec Hexact) as [Hsum _]. rewrite Hst0 in Hsum. exact Hsum.
Defined.



(** * Single precision

    The rounding [round_binary32] is monotone and idempotent, and on the
    quotients of an integer by a power of two it is a computation on
    integers. *)

Lemma Int_part_unique x z : (IZR z <= x < IZR z + 1)%R → Int_part x = z.
Proof.
  intros [Hlo Hhi]. destruct (base_Int_part x) as [Hle Hgt].
  assert (Int_part x < z + 1)%Z by (apply lt_IZR; rewrite plus_IZR; lra).
  assert (z < Int_part x + 1)%Z by (apply lt_IZR; rewrite plus_IZR; lra).
  lia.
Qed.

(** ** Rounding to the nearest integer *)

Lemma Rabs_le_between x b : (Rabs x <= b)%R → (- b <= x <= b)%R.
Proof. unfold Rabs. destruct (Rcase_abs x); lra. Qed.

(** [round_half_even x] is within a half of [x], and even when it is
    exactly a half away. *)
Lemma round_half_even_spec x :
  (Rabs (x - IZR (round_half_even x)) < 1 / 2)%R ∨
  (Rabs (x - IZR (round_half_even x)) = 1 / 2)%R ∧ Z.even (round_half_even x) = true.
Proof.
  unfold round_half_even. pose proof (Int_part_bounds x) as Hb.
  destruct (Rlt_dec (x - IZR (Int_part x)) (1 / 2)) as [Hlt|Hnlt].
  { left. rewrite Rabs_pos_eq; lra. }
  destruct (Rlt_dec (1 / 2) (x - IZR (Int_part x))) as [Hgt|Hngt].
  { left. rewrite plus_IZR. rewrite Rabs_left; lra. }
  destruct (Z.even (Int_part x)) eqn:Heven.
  - right. split; [|done]. rewrite Rabs_pos_eq; lra.
  - right. split.
    + rewrite plus_IZR. rewrite Rabs_left; lra.
    + by rewrite Z.even_add, Heven.
Qed.

(** It is the only such integer. *)
Lemma round_half_even_unique x n :
  (Rabs (x - IZR n) < 1 / 2)%R ∨ (Rabs (x - IZR n) = 1 / 2)%R ∧ Z.even n = true →
  round_half_even x = n.
Proof.
  intros Hn. pose proof (round_half_even_spec x) as Hm.
  set (m := round_half_even x) in *.
  assert (Hnb : (Rabs (x - IZR n) <= 1 / 2)%R) by (destruct Hn as [?|[? _]]; lra).
  assert (Hmb : (Rabs (x - IZR m) <= 1 / 2)%R) by (destruct Hm as [?|[? _]]; lra).
  apply Rabs_le_between in Hnb, Hmb.
  assert (Hd : (m - 1 ≤ n ≤ m + 1)%Z).
  { split; apply le_IZR; rewrite ?minus_IZR, ?plus_IZR; lra. }
  destruct (decide (n = m)) as [|Hne]; [done|]. exfalso.
  assert (Hhalf : (Rabs (x - IZR n) = 1 / 2 ∧ Rabs (x - IZR m) = 1 / 2)%R).
  { assert (n = m - 1 ∨ n = m + 1)%Z as [->| ->] by lia;
      rewrite ?minus_IZR, ?plus_IZR in *; split;
      (rewrite Rabs_pos_eq by lra; lra) || (rewrite Rabs_left1 by lra; lra). }
  destruct Hn as [?|[_ Hen]]; [lra|]. destruct Hm as [?|[_ Hem]]; [lra|].
  assert (n = m - 1 ∨ n = m + 1)%Z as [->| ->] by lia.
  - rewrite Z.even_sub, Hem in Hen. done.
  - rewrite Z.even_add, Hem in Hen. done.
Qed.

Lemma round_half_even_IZR n : round_half_even (IZR n) = n.
Proof.
  apply round_half_even_unique. left.
  replace (IZR n - IZR n)%R with 0%R by lra. rewrite Rabs_R0. lra.
Qed.

Lemma round_half_even_opp x : round_half_even (- x) = (- round_half_even x)%Z.
Proof.
  apply round_half_even_unique. rewrite opp_IZR, Z.even_opp.
  replace (- x - - IZR (round_half_even x))%R
    with (- (x - IZR (round_half_even x)))%R by lra.
  rewrite Rabs_Ropp. apply round_half_even_spec.
Qed.

Lemma round_half_even_mono x y :
  (x <= y)%R → (round_half_even x ≤ round_half_even y)%Z.
Proof.
  intros Hxy. pose proof (round_half_even_spec x) as Hm.
  pose proof (round_half_even_spec y) as Hn.
  set (m := round_half_even x) in *. set (n := round_half_even y) in *.
  destruct (Z.le_gt_cases m n) as [|Hgt]; [done|]. exfalso.
  assert (Hmb : (Rabs (x - IZR m) <= 1 / 2)%R) by (destruct Hm as [?|[? _]]; lra).
  assert (Hnb : (Rabs (y - IZR n) <= 1 / 2)%R) by (destruct Hn as [?|[? _]]; lra).
  apply Rabs_le_between in Hnb, Hmb.
  assert (Hmn : (IZR n + 1 <= IZR m)%R) by (rewrite <- plus_IZR; apply IZR_le; lia).
  assert (Hx : (x - IZR m = - (1 / 2))%R) by lra.
  assert (Hy : (y - IZR n = 1 / 2)%R) by lra.
  assert (m = n + 1)%Z as Hm1.
  { apply eq_IZR. rewrite plus_IZR. lra. }
  destruct Hm as [Hm|[_ Hem]]; [rewrite Hx, Rabs_Ropp, Rabs_pos_eq in Hm; lra|].
  destruct Hn as [Hn|[_ Hen]]; [rewrite Hy, Rabs_pos_eq in Hn; lra|].
  rewrite Hm1, Z.even_add, Hen in Hem. done.
Qed.

Lemma round_half_even_ge n x : (IZR n <= x)%R → (n ≤ round_half_even x)%Z.
Proof. intros H%round_half_even_mono. by rewrite round_half_even_IZR in H. Qed.

Lemma round_half_even_le n x : (x <= IZR n)%R → (round_half_even x ≤ n)%Z.
Proof. intros H%round_half_even_mono. by rewrite round_half_even_IZR in H. Qed.

(** ** The bits that single precision drops *)

Lemma Int_part_IZR n : Int_part (IZR n) = n.
Proof. apply Int_part_unique. lra. Qed.

Lemma Int_part_mono x y : (x <= y)%R → (Int_part x ≤ Int_part y)%Z.
Proof.
  intros Hxy. pose proof (Int_part_bounds x). pose proof (Int_part_bounds y).
  assert (Int_part x < Int_part y + 1)%Z by (apply lt_IZR; rewrite plus_IZR; lra).
  lia.
Qed.

Lemma IZR_pow2_pos n : (0 ≤ n)%Z → (0 < IZR (2 ^ n))%R.
Proof. intros Hn. apply IZR_lt. by apply Z.pow_pos_nonneg. Qed.

Lemma binary32_drop_nonneg X : (0 ≤ binary32_drop X)%Z.
Proof. unfold binary32_drop. lia. Qed.

(** [E] low bits are dropped from a number of [E + 24] bits. *)
Lemma binary32_drop_range X :
  (Rabs X < IZR (2 ^ (binary32_drop X + 24)))%R ∧
  ((0 < binary32_drop X)%Z → (IZR (2 ^ (binary32_drop X + 23)) <= Rabs X)%R).
Proof.
  unfold binary32_drop. set (a := Int_part (Rabs X)).
  pose proof (Int_part_bounds (Rabs X)) as Hb. fold a in Hb.
  assert (Ha : (0 ≤ a)%Z) by apply Int_part_nonneg, Rabs_pos.
  destruct (decide (a = 0%Z)) as [Ha0|Hapos].
  - rewrite Ha0 in *. change (Z.max (Z.log2 0 - 23) 0) with 0%Z. split; [|lia].
    change (IZR (2 ^ (0 + 24))) with 16777216%R. lra.
  - pose proof (Z.log2_spec a ltac:(lia)) as [Hlo Hhi].
    pose proof (Z.log2_nonneg a) as Hl. set (l := Z.log2 a) in *.
    split.
    + apply Rlt_le_trans with (IZR (a + 1)); [rewrite plus_IZR; lra|]. apply IZR_le.
      transitivity (2 ^ Z.succ l)%Z; [lia|]. apply Z.pow_le_mono_r; lia.
    + intros HE. apply Rle_trans with (IZR a); [|lra]. apply IZR_le.
      replace (Z.max (l - 23) 0 + 23)%Z with l by lia. done.
Qed.

Lemma binary32_drop_unique X E :
  (0 ≤ E)%Z → (Rabs X < IZR (2 ^ (E + 24)))%R →
  (E = 0%Z ∨ (IZR (2 ^ (E + 23)) <= Rabs X)%R) →
  binary32_drop X = E.
Proof.
  intros HE Hhi Hlo. unfold binary32_drop. set (a := Int_part (Rabs X)).
  pose proof (Int_part_bounds (Rabs X)) as Hb. fold a in Hb.
  assert (Ha : (0 ≤ a)%Z) by apply Int_part_nonneg, Rabs_pos.
  assert (Hahi : (a < 2 ^ (E + 24))%Z) by (apply lt_IZR; lra).
  destruct Hlo as [->|Hlo].
  - assert (Z.log2 a < 24)%Z; [|lia].
    destruct (decide (a = 0%Z)) as [->|]; [done|]. apply Z.log2_lt_pow2; [lia|done].
  - assert (2 ^ (E + 23) ≤ a)%Z.
    { apply Z.lt_succ_r, lt_IZR. rewrite succ_IZR. lra. }
    assert (Z.log2 a = E + 23)%Z; [|lia]. apply Z.log2_unique; [lia|].
    split; [done|]. by replace (Z.succ (E + 23)) with (E + 24)%Z by lia.
Qed.

Lemma binary32_drop_mono X Y :
  (Rabs X <= Rabs Y)%R → (binary32_drop X ≤ binary32_drop Y)%Z.
Proof.
  intros H. unfold binary32_drop. apply Z.max_le_compat_r, Z.sub_le_mono_r.
  by apply Z.log2_le_mono, Int_part_mono.
Qed.

Lemma binary32_drop_opp X : binary32_drop (- X) = binary32_drop X.
Proof. unfold binary32_drop. by rewrite Rabs_Ropp. Qed.

(** ** The rounding in units of [2^-149] *)

Lemma binary32_units_opp X : binary32_units (- X) = (- binary32_units X)%R.
Proof.
  unfold binary32_units. rewrite binary32_drop_opp.
  replace (- X / IZR (2 ^ binary32_drop X))%R
    with (- (X / IZR (2 ^ binary32_drop X)))%R by (unfold Rdiv; ring).
  rewrite round_half_even_opp, opp_IZR. ring.
Qed.

(** The integer that is kept has at most 24 bits, and exactly 24 when
    bits are dropped. *)
Lemma binary32_mantissa X :
  (0 <= X)%R →
  (0 ≤ round_half_even (X / IZR (2 ^ binary32_drop X)) ≤ 2 ^ 24)%Z ∧
  ((0 < binary32_drop X)%Z →
   (2 ^ 23 ≤ round_half_even (X / IZR (2 ^ binary32_drop X)))%Z).
Proof.
  intros HX. pose proof (binary32_drop_nonneg X) as HE.
  destruct (binary32_drop_range X) as [Hhi Hlo].
  set (E := binary32_drop X) in *.
  rewrite Rabs_pos_eq in Hhi, Hlo by done.
  assert (Hc : (0 < IZR (2 ^ E))%R) by (by apply IZR_pow2_pos).
  assert (Hinv : (0 < / IZR (2 ^ E))%R) by (by apply Rinv_0_lt_compat).
  rewrite Z.pow_add_r, mult_IZR in Hhi by lia.
  split; [split|].
  - apply round_half_even_ge. unfold Rdiv. apply Rmult_le_pos; lra.
  - apply round_half_even_le. apply (Rmult_le_reg_r (IZR (2 ^ E))); [done|].
    unfold Rdiv. rewrite Rmult_assoc, Rinv_l by lra. lra.
  - intros HEpos. specialize (Hlo HEpos). rewrite Z.pow_add_r, mult_IZR in Hlo by lia.
    apply round_half_even_ge. apply (Rmult_le_reg_r (IZR (2 ^ E))); [done|].
    unfold Rdiv. rewrite Rmult_assoc, Rinv_l by lra. lra.
Qed.

Lemma binary32_units_nonneg X : (0 <= X)%R → (0 <= binary32_units X)%R.
Proof.
  intros HX. destruct (binary32_mantissa X HX) as [[Hm _] _].
  pose proof (binary32_drop_nonneg X) as HE. unfold binary32_units.
  apply Rmult_le_pos; [by apply IZR_le|]. left. by apply IZR_pow2_pos.
Qed.

Lemma binary32_units_idempotent_nonneg X :
  (0 <= X)%R → binary32_units (binary32_units X) = binary32_units X.
Proof.
  intros HX. destruct (binary32_mantissa X HX) as [[Hm0 Hm24] Hm23].
  pose proof (binary32_drop_nonneg X) as HE.
  assert (HG : binary32_units X
               = (IZR (round_half_even (X / IZR (2 ^ binary32_drop X)))
                  * IZR (2 ^ binary32_drop X))%R) by reflexivity.
  set (E := binary32_drop X) in *.
  set (m := round_half_even (X / IZR (2 ^ E))) in *.
  assert (Hc : (0 < IZR (2 ^ E))%R) by (by apply IZR_pow2_pos).
  assert (Hpos : (0 <= IZR m * IZR (2 ^ E))%R).
  { apply Rmult_le_pos; [by apply IZR_le|lra]. }
  rewrite HG. destruct (decide (m = 2 ^ 24)%Z) as [Hmax|Hlt].
  - assert (Hd : binary32_drop (IZR m * IZR (2 ^ E)) = (E + 1)%Z).
    { apply binary32_drop_unique; [lia| |right]; rewrite Rabs_pos_eq by done;
        rewrite Hmax, <- mult_IZR, <- Z.pow_add_r by lia.
      - apply IZR_lt, Z.pow_lt_mono_r; lia.
      - apply IZR_le, Z.pow_le_mono_r; lia. }
    unfold binary32_units. rewrite Hd.
    replace (IZR m * IZR (2 ^ E) / IZR (2 ^ (E + 1)))%R with (IZR (2 ^ 23)).
    + rewrite round_half_even_IZR, Hmax, <- !mult_IZR, <- !Z.pow_add_r by lia.
      do 2 f_equal. lia.
    + rewrite Hmax, (Z.pow_add_r 2 E 1), (mult_IZR (2 ^ E)) by lia.
      change (IZR (2 ^ 24)) with 16777216%R. change (IZR (2 ^ 23)) with 8388608%R.
      change (IZR (2 ^ 1)) with 2%R. field. lra.
  - assert (Hd : binary32_drop (IZR m * IZR (2 ^ E)) = E).
    { apply binary32_drop_unique; [done| |]; rewrite Rabs_pos_eq by done.
      - rewrite (Z.add_comm E), Z.pow_add_r, mult_IZR by lia.
        apply Rmult_lt_compat_r; [done|]. apply IZR_lt. lia.
      - destruct (decide (E = 0%Z)) as [|HE0]; [by left|right].
        rewrite (Z.add_comm E), Z.pow_add_r, mult_IZR by lia.
        apply Rmult_le_compat_r; [lra|]. apply IZR_le, Hm23. lia. }
    unfold binary32_units. rewrite Hd.
    replace (IZR m * IZR (2 ^ E) / IZR (2 ^ E))%R with (IZR m) by (field; lra).
    by rewrite round_half_even_IZR.
Qed.

Lemma binary32_units_idempotent X :
  binary32_units (binary32_units X) = binary32_units X.
Proof.
  destruct (Rle_dec 0 X) as [HX|HX]; [by apply binary32_units_idempotent_nonneg|].
  assert (HY : (0 <= - X)%R) by lra.
  replace X with (- - X)%R by lra. revert HY. generalize (- X)%R. intros Y HY.
  rewrite !binary32_units_opp. by rewrite binary32_units_idempotent_nonneg.
Qed.

Lemma binary32_units_mono_nonneg X Y :
  (0 <= X <= Y)%R → (binary32_units X <= binary32_units Y)%R.
Proof.
  intros [HX HXY]. assert (HY : (0 <= Y)%R) by lra.
  destruct (binary32_mantissa X HX) as [[Hm0 Hm24] _].
  destruct (binary32_mantissa Y HY) as [[Hn0 _] Hn23].
  pose proof (binary32_drop_mono X Y) as HE. rewrite !Rabs_pos_eq in HE by done.
  specialize (HE HXY).
  pose proof (binary32_drop_nonneg X) as HE1. unfold binary32_units.
  set (E1 := binary32_drop X) in *. set (E2 := binary32_drop Y) in *.
  set (m := round_half_even (X / IZR (2 ^ E1))) in *.
  set (n := round_half_even (Y / IZR (2 ^ E2))) in *.
  destruct (decide (E1 = E2)) as [Heq|Hne].
  - unfold n. rewrite <- Heq.
    assert (Hc : (0 < IZR (2 ^ E1))%R) by (by apply IZR_pow2_pos).
    apply Rmult_le_compat_r; [lra|]. apply IZR_le, round_half_even_mono.
    unfold Rdiv. apply Rmult_le_compat_r; [|done]. left. by apply Rinv_0_lt_compat.
  - rewrite <- !mult_IZR. apply IZR_le.
    transitivity (2 ^ 24 * 2 ^ E1)%Z.
    { apply Z.mul_le_mono_nonneg_r; [by apply Z.pow_nonneg|done]. }
    transitivity (2 ^ 23 * 2 ^ E2)%Z.
    { rewrite <- !Z.pow_add_r by lia. apply Z.pow_le_mono_r; lia. }
    apply Z.mul_le_mono_nonneg_r; [by apply Z.pow_nonneg|]. apply Hn23. lia.
Qed.

Lemma binary32_units_mono X Y :
  (X <= Y)%R → (binary32_units X <= binary32_units Y)%R.
Proof.
  intros HXY. destruct (Rle_dec 0 X) as [HX|HX].
  { by apply binary32_units_mono_nonneg. }
  destruct (Rle_dec 0 Y) as [HY|HY].
  - pose proof (binary32_units_nonneg Y HY).
    pose proof (binary32_units_nonneg (- X) ltac:(lra)) as HnX.
    rewrite binary32_units_opp in HnX. lra.
  - pose proof (binary32_units_mono_nonneg (- Y) (- X) ltac:(lra)) as Hmono.
    rewrite !binary32_units_opp in Hmono. lra.
Qed.

(** ** Single precision is a rounding *)

Lemma round_binary32_rounding : MYFLT_rounding round_binary32.
Proof.
  assert (Hc : (0 < IZR (2 ^ 149))%R) by (by apply IZR_pow2_pos).
  split.
  - intros x y Hxy. unfold round_binary32, Rdiv.
    apply Rmult_le_compat_r; [left; by apply Rinv_0_lt_compat|].
    apply binary32_units_mono. apply Rmult_le_compat_r; lra.
  - intros x. unfold round_binary32.
    replace (binary32_units (x * IZR (2 ^ 149)) / IZR (2 ^ 149) * IZR (2 ^ 149))%R
      with (binary32_units (x * IZR (2 ^ 149))) by (field; lra).
    by rewrite binary32_units_idempotent.
  - unfold round_binary32, binary32_units. rewrite Rmult_0_l.
    replace (0 / IZR (2 ^ binary32_drop 0))%R with (IZR 0) by (unfold Rdiv; ring).
    rewrite round_half_even_IZR. unfold Rdiv. ring.
  - unfold round_binary32. rewrite Rmult_1_l.
    assert (Hd : binary32_drop (IZR (2 ^ 149)) = 126%Z).
    { apply binary32_drop_unique; [lia| |right]; rewrite Rabs_pos_eq by lra.
      - apply IZR_lt. by apply Z.pow_lt_mono_r.
      - apply IZR_le. by apply Z.pow_le_mono_r. }
    unfold binary32_units. rewrite Hd.
    replace (IZR (2 ^ 149) / IZR (2 ^ 126))%R with (IZR (2 ^ 23)).
    + rewrite round_half_even_IZR, <- mult_IZR.
      change (2 ^ 23 * 2 ^ 126)%Z with (2 ^ 149)%Z. field. lra.
    + change (2 ^ 149)%Z with (2 ^ 23 * 2 ^ 126)%Z. rewrite mult_IZR. field.
      apply Rgt_not_eq. by apply IZR_pow2_pos.
Qed.

(** ** Single precision on the quotients of an integer by a power of two *)

Lemma quotient_div_mod a b :
  (0 < b)%Z →
  (IZR a / IZR b = IZR (a `div` b) + IZR (a `mod` b) / IZR b)%R ∧
  (0 <= IZR (a `mod` b) / IZR b < 1)%R.
Proof.
  intros Hb. assert (HbR : (0 < IZR b)%R) by (by apply IZR_lt).
  pose proof (Z.mod_pos_bound a b Hb) as Hmod.
  assert (Ha : IZR a = (IZR b * IZR (a `div` b) + IZR (a `mod` b))%R).
  { rewrite <- mult_IZR, <- plus_IZR. f_equal. apply Z.div_mod. lia. }
  assert (Hr : (0 <= IZR (a `mod` b) < IZR b)%R).
  { split; [apply IZR_le|apply IZR_lt]; lia. }
  split.
  - rewrite Ha at 1. field. lra.
  - split.
    + apply Rmult_le_pos; [lra|]. left. by apply Rinv_0_lt_compat.
    + apply (Rmult_lt_reg_r (IZR b)); [done|]. unfold Rdiv.
      rewrite Rmult_assoc, Rinv_l by lra. lra.
Qed.

Lemma Int_part_quotient a b : (0 < b)%Z → Int_part (IZR a / IZR b) = (a `div` b)%Z.
Proof.
  intros Hb. destruct (quotient_div_mod a b Hb) as [Heq Hfrac].
  apply Int_part_unique. lra.
Qed.

Lemma round_half_even_quotient_spec a b :
  (0 < b)%Z → round_half_even (IZR a / IZR b) = round_half_even_quotient a b.
Proof.
  intros Hb. unfold round_half_even, round_half_even_quotient.
  rewrite Int_part_quotient by done.
  destruct (quotient_div_mod a b Hb) as [Heq Hfrac].
  assert (HbR : (0 < IZR b)%R) by (by apply IZR_lt).
  set (q := (a `div` b)%Z) in *. set (r := (a `mod` b)%Z) in *.
  replace (IZR a / IZR b - IZR q)%R with (IZR r / IZR b)%R by lra.
  set (y := (IZR r / IZR b)%R) in *.
  assert (H2r : IZR (2 * r) = (2 * y * IZR b)%R).
  { rewrite mult_IZR. unfold y. field. lra. }
  destruct (Rlt_dec y (1 / 2)) as [Hlt|Hnlt].
  { assert (Hz : (2 * r < b)%Z) by (apply lt_IZR; rewrite H2r; nra).
    by rewrite (proj2 (Z.ltb_lt _ _) Hz). }
  assert (Hz : ¬ (2 * r < b)%Z) by (intros Hc%IZR_lt; rewrite H2r in Hc; nra).
  rewrite (proj2 (Z.ltb_ge _ _)) by lia.
  destruct (Rlt_dec (1 / 2) y) as [Hgt|Hngt].
  { assert (Hz' : (b < 2 * r)%Z) by (apply lt_IZR; rewrite H2r; nra).
    by rewrite (proj2 (Z.ltb_lt _ _) Hz'). }
  assert (Hz' : ¬ (b < 2 * r)%Z) by (intros Hc%IZR_lt; rewrite H2r in Hc; nra).
  by rewrite (proj2 (Z.ltb_ge _ _)) by lia.
Qed.

(** The rounding of [m / 2^s], computed on integers: it is [n / d] when
    the integer kept, put back in its place, is [n / d] in units of
    [2^-149]. *)
Lemma round_binary32_eval x m s n d :
  x = (IZR m / IZR (2 ^ s))%R → (0 ≤ s)%Z → (0 < d)%Z →
  (let E := Z.max (Z.log2 ((Z.abs m * 2 ^ 149) `div` 2 ^ s) - 23) 0 in
   round_half_even_quotient (m * 2 ^ 149) (2 ^ s * 2 ^ E) * 2 ^ E * d = n * 2 ^ 149)%Z →
  round_binary32 x = (IZR n / IZR d)%R.
Proof.
  intros -> Hs Hd Heq. unfold round_binary32, binary32_units.
  assert (Hpos : (0 < 2 ^ s)%Z) by (by apply Z.pow_pos_nonneg).
  assert (HposR : (0 < IZR (2 ^ s))%R) by (by apply IZR_lt).
  assert (Hc : (0 < IZR (2 ^ 149))%R) by (by apply IZR_pow2_pos).
  assert (HdR : (0 < IZR d)%R) by (by apply IZR_lt).
  replace (IZR m / IZR (2 ^ s) * IZR (2 ^ 149))%R
    with (IZR (m * 2 ^ 149) / IZR (2 ^ s))%R by (rewrite mult_IZR; field; lra).
  assert (HE : binary32_drop (IZR (m * 2 ^ 149) / IZR (2 ^ s))
               = Z.max (Z.log2 ((Z.abs m * 2 ^ 149) `div` 2 ^ s) - 23) 0).
  { unfold binary32_drop. do 3 f_equal.
    rewrite <- (Int_part_quotient _ _ Hpos). apply (f_equal Int_part).
    rewrite !mult_IZR, abs_IZR. unfold Rdiv.
    rewrite !Rabs_mult, (Rabs_pos_eq (IZR (2 ^ 149))), (Rabs_pos_eq (/ _)); [done| |lra].
    left. by apply Rinv_0_lt_compat. }
  rewrite HE. cbv zeta in Heq.
  set (E := Z.max (Z.log2 ((Z.abs m * 2 ^ 149) `div` 2 ^ s) - 23) 0) in *.
  assert (HE0 : (0 ≤ E)%Z) by (unfold E; lia).
  assert (HcE : (0 < IZR (2 ^ E))%R) by (by apply IZR_pow2_pos).
  replace (IZR (m * 2 ^ 149) / IZR (2 ^ s) / IZR (2 ^ E))%R
    with (IZR (m * 2 ^ 149) / IZR (2 ^ s * 2 ^ E))%R
    by (rewrite (mult_IZR (2 ^ s)); field; lra).
  rewrite round_half_even_quotient_spec by lia.
  apply (f_equal IZR) in Heq. rewrite !mult_IZR in Heq.
  apply (Rmult_eq_reg_r (IZR (2 ^ 149) * IZR d)); [|nra].
  field_simplify; [|lra..]. lra.
Qed.

(** The equation between a number written with numerals and [m / 2^s]. *)
Ltac dyadic :=
  match goal with
  | |- _ = (IZR _ / IZR (2 ^ ?s))%R =>
      let v := eval vm_compute in (2 ^ s)%Z in change (2 ^ s)%Z with v; lra
  end.

(** [round_binary32 x = n / d], where [x = m / 2^s]. *)
Ltac binary32 m s n d :=
  apply (round_binary32_eval _ m s n d); [dyadic|lia|lia|by vm_compute].


(** ** The reverberator near a tie *)

Lemma round_binary32_1 : round_binary32 (1 * 0.25 + 0.75) = 1%R.
Proof.
  apply eq_trans with (8388608 / 8388608)%R; [|lra].
  binary32 1%Z 0%Z 8388608%Z 8388608%Z.
Qed.

Lemma round_binary32_difference :
  round_binary32 (8388611 / 8388608 - 3 / 16777216) = (8388610 / 8388608)%R.
Proof. binary32 16777219%Z 24%Z 8388610%Z 8388608%Z. Qed.

Lemma round_binary32_product :
  round_binary32 (8388610 / 8388608 * 1) = (8388610 / 8388608)%R.
Proof. binary32 8388610%Z 23%Z 8388610%Z 8388608%Z. Qed.

Lemma round_binary32_sum :
  round_binary32 (3 / 16777216 + 8388610 / 8388608) = (8388612 / 8388608)%R.
Proof. binary32 16777223%Z 24%Z 8388612%Z 8388608%Z. Qed.

(** In single precision the follower [1 + 3 * 2^-23] and the magnitude
    [3 * 2^-24] give [1 + 4 * 2^-23]: the difference is rounded up to
    [1 + 2 * 2^-23], and so is the sum, to [1 + 4 * 2^-23]. *)
Lemma PVVerb_follow_near_tie damp :
  PVVerb_follow round_binary32 (3 / 16777216) (8388611 / 8388608)
    (PVVerb_revtime round_binary32 1) (PVVerb_amp round_binary32 damp 0)
  = (8388612 / 8388608)%R.
Proof.
  unfold PVVerb_follow, PVVerb_revtime, PVVerb_amp. simpl Nat.iter.
  rewrite clip01_id by lra. rewrite round_binary32_1.
  destruct (Rlt_dec _ _) as [Hlt|_]; [lra|].
  rewrite round_binary32_difference, !round_binary32_product.
  apply round_binary32_sum.
Qed.

(** ** The transposition by 1.4 in single precision *)

Lemma round_binary32_0 : round_binary32 0 = 0%R.
Proof.
  apply eq_trans with (0 / 1)%R; [|lra]. binary32 0%Z 0%Z 0%Z 1%Z.
Qed.

(** The products [k * transpo] of a frame of 8 bins, as single precision
    computes them: [k] converted, then the product rounded. *)
Lemma PVTranspose_product_binary32_1_4 :
  PVTranspose_product round_binary32 binary32_1_4 0 = 0%R ∧
  PVTranspose_product round_binary32 binary32_1_4 1 = (11744051 / 8388608)%R ∧
  PVTranspose_product round_binary32 binary32_1_4 2 = (11744051 / 4194304)%R ∧
  PVTranspose_product round_binary32 binary32_1_4 3 = (8808038 / 2097152)%R ∧
  PVTranspose_product round_binary32 binary32_1_4 4 = (11744051 / 2097152)%R ∧
  PVTranspose_product round_binary32 binary32_1_4 5 = (14680064 / 2097152)%R ∧
  PVTranspose_product round_binary32 binary32_1_4 6 = (8808038 / 1048576)%R ∧
  PVTranspose_product round_binary32 binary32_1_4 7 = (10276045 / 1048576)%R.
Proof.
  unfold PVTranspose_product, binary32_1_4. split_and!.
  - rewrite round_binary32_0. replace (0 * (11744051 / 8388608))%R with 0%R by lra.
    apply round_binary32_0.
  - rewrite (round_binary32_eval 1 1 0 8388608 8388608);
      [|dyadic|lia|lia|by vm_compute].
    binary32 11744051%Z 23%Z 11744051%Z 8388608%Z.
  - rewrite (round_binary32_eval 2 2 0 8388608 4194304);
      [|dyadic|lia|lia|by vm_compute].
    binary32 23488102%Z 23%Z 11744051%Z 4194304%Z.
  - rewrite (round_binary32_eval 3 3 0 12582912 4194304);
      [|dyadic|lia|lia|by vm_compute].
    binary32 35232153%Z 23%Z 8808038%Z 2097152%Z.
  - rewrite (round_binary32_eval 4 4 0 8388608 2097152);
      [|dyadic|lia|lia|by vm_compute].
    binary32 46976204%Z 23%Z 11744051%Z 2097152%Z.
  - rewrite (round_binary32_eval 5 5 0 10485760 2097152);
      [|dyadic|lia|lia|by vm_compute].
    binary32 58720255%Z 23%Z 14680064%Z 2097152%Z.
  - rewrite (round_binary32_eval 6 6 0 12582912 2097152);
      [|dyadic|lia|lia|by vm_compute].
    binary32 70464306%Z 23%Z 8808038%Z 1048576%Z.
  - rewrite (round_binary32_eval 7 7 0 14680064 2097152);
      [|dyadic|lia|lia|by vm_compute].
    binary32 82208357%Z 23%Z 10276045%Z 1048576%Z.
Qed.

(** The indices that the code computes from these products: bin 5 gets
    index 7, its product being rounded up to 7. *)
Lemma PVTranspose_index_binary32_1_4 k :
  (0 ≤ k < 8)%Z →
  PVTranspose_index round_binary32 binary32_1_4 k
  = nth (Z.to_nat k) [0; 1; 2; 4; 5; 7; 8; 9]%Z 0%Z.
Proof.
  intros Hk. unfold PVTranspose_index.
  destruct PVTranspose_product_binary32_1_4
    as (H0 & H1 & H2 & H3 & H4 & H5 & H6 & H7).
  assert (k = 0 ∨ k = 1 ∨ k = 2 ∨ k = 3 ∨ k = 4 ∨ k = 5 ∨ k = 6 ∨ k = 7)%Z
    as [->|[->|[->|[->|[->|[->|[->| ->]]]]]]] by lia.
  - rewrite H0. by apply Int_part_unique; simpl; lra.
  - rewrite H1. by rewrite Int_part_quotient.
  - rewrite H2. by rewrite Int_part_quotient.
  - rewrite H3. by rewrite Int_part_quotient.
  - rewrite H4. by rewrite Int_part_quotient.
  - rewrite H5. by rewrite Int_part_quotient.
  - rewrite H6. by rewrite Int_part_quotient.
  - rewrite H7. by rewrite Int_part_quotient.
Qed.

(** The indices of the spec: [⌊5 * transpo⌋] is 6. *)
Lemma Int_part_binary32_1_4 k :
  (0 ≤ k < 8)%Z →
  Int_part (IZR k * binary32_1_4) = nth (Z.to_nat k) [0; 1; 2; 4; 5; 6; 8; 9]%Z 0%Z.
Proof.
  intros Hk. unfold binary32_1_4.
  replace (IZR k * (11744051 / 8388608))%R with (IZR (k * 11744051) / IZR 8388608)%R
    by (rewrite mult_IZR; lra).
  rewrite Int_part_quotient by lia.
  assert (k = 0 ∨ k = 1 ∨ k = 2 ∨ k = 3 ∨ k = 4 ∨ k = 5 ∨ k = 6 ∨ k = 7)%Z
    as [->|[->|[->|[->|[->|[->|[->| ->]]]]]]] by lia; reflexivity.
Qed.

Lemma PVTranspose_index_defined_binary32_1_4 :
  PVTranspose_index_defined round_binary32 binary32_1_4 8.
Proof.
  intros k Hk.
  destruct PVTranspose_product_binary32_1_4
    as (H0 & H1 & H2 & H3 & H4 & H5 & H6 & H7).
  change (IZR (INT_MAX + 1)) with 2147483648%R.
  assert (k = 0 ∨ k = 1 ∨ k = 2 ∨ k = 3 ∨ k = 4 ∨ k = 5 ∨ k = 6 ∨ k = 7)%Z
    as [->|[->|[->|[->|[->|[->|[->| ->]]]]]]] by lia;
    [rewrite H0|rewrite H1|rewrite H2|rewrite H3|rewrite H4|rewrite H5|rewrite H6
    |rewrite H7]; lra.
Qed.

Lemma stream_of_8_bins_wf : PVStream_wf 1 stream_of_8_bins.
Proof.
  split; simpl; try done; try lia.
  - apply table_Forall; [reflexivity|by repeat constructor].
  - apply table_Forall; [reflexivity|by repeat constructor].
  - apply count_in_range_Forall. change (16 `quot` 2)%Z with 8%Z.
    repeat (apply Forall_cons; [lia|]). apply Forall_nil.
Qed.

Lemma transpose_of_8_bins_wf : PVTranspose_wf transpose_of_8_bins.
Proof.
  assert (table 2 8 (PVTranspose.magn transpose_of_8_bins))
    by (apply table_Forall; [reflexivity|by repeat constructor]).
  split; simpl; try done; try lia;
    unfold usable_config; split_and!; (reflexivity || lia).
Qed.

(** A frame in which the cast of a product is not defined has no result. *)
Lemma PVTranspose_frame_overflow fl transpo magn_in freq_in hsize overcount tables k :
  (0 ≤ k < hsize)%Z → (IZR (INT_MAX + 1) <= PVTranspose_product fl transpo k)%R →
  PVTranspose_frame fl transpo magn_in freq_in hsize overcount tables = None.
Proof.
  intros Hk Hover. unfold PVTranspose_frame.
  destruct (PVTranspose_clear _ _ _) as [tables0|]; [simpl|done].
  apply (for_loop_fails_at _ k); [done|]. intros [magn freq]. unfold PVTranspose_bin.
  by rewrite int_of_float_overflow.
Qed.

(** C5 as stated fails in two ways.  For a factor of [2^31] the product
    [1 * transpo] has no cast to [int], the behaviour of the frame is not
    defined, and here [PVTranspose_process_i] has no result.  In single
    precision, for the factor 1.4 ([11744051 * 2^-23]) and 8 bins of
    magnitude 1, [⌊5 * transpo⌋] is 6, but the product that the code casts
    is rounded up to 7: the magnitude of bin 5 lands on bin 7 and bin 6,
    where the spec has the sum 1, holds 0. *)
Lemma PVTranspose_process_lands_counterexample :
  ((0 <= 2147483648)%R ∧
   PVTranspose_process_i MYFLT_exact 2147483648 sample_stream sample_transpose = None) ∧
  (0 <= binary32_1_4)%R ∧
  ∃ self',
    PVTranspose_process_i round_binary32 binary32_1_4 stream_of_8_bins transpose_of_8_bins
      = Some self' ∧
    Int_part (5 * binary32_1_4) = 6%Z ∧
    rd2 (PVStream.magn stream_of_8_bins) 0 5 = Some 1%R ∧
    landing_sum binary32_1_4 (cell_or_0 (PVStream.magn stream_of_8_bins) 0) 6 8 = 1%R ∧
    rd2 (PVTranspose.magn self') 0 6 = Some 0%R.
Proof.
  split; [split; [lra|]|split; [unfold binary32_1_4; lra|]].
  - unfold PVTranspose_process_i.
    change (PVTranspose_adapt sample_stream sample_transpose) with (Some sample_transpose).
    cbn [mbind option_bind]. apply for_loop_fails_at_0; [simpl; lia|].
    unfold PVTranspose_sample. cbn -[PVTranspose_frame].
    rewrite (PVTranspose_frame_overflow _ _ _ _ _ _ _ 1%Z); [done|lia|].
    unfold PVTranspose_product, MYFLT_exact.
    change (IZR (INT_MAX + 1)) with 2147483648%R. lra.
  - destruct (PVTranspose_block_states round_binary32 (λ _, Some binary32_1_4)
                stream_of_8_bins transpose_of_8_bins transpose_of_8_bins_wf
                stream_of_8_bins_wf) as (self0 & st & Hadapt & Hst0 & Hrun & Hstep).
    { intros i c _ _. exists binary32_1_4. split; [done|].
      apply PVTranspose_index_defined_binary32_1_4. }
    injection Hadapt as <-.
    exists (st 1%Z). split; [exact Hrun|].
    split; [apply (Int_part_binary32_1_4 5); lia|]. split; [reflexivity|].
    split.
    { rewrite <- landing_sum_by_spec.
      rewrite (landing_sum_by_ext _
                 (λ k, nth (Z.to_nat k) [0; 1; 2; 4; 5; 6; 8; 9]%Z 0%Z));
        [|intros k Hk; apply Int_part_binary32_1_4; lia].
      unfold landing_sum_by, cell_or_0. simpl. lra. }
    pose proof (Hstep 0%Z 15%Z eq_refl) as H0.
    rewrite bool_decide_eq_true_2 in H0
      by (clear; change (PVStream.fftsize stream_of_8_bins) with 16%Z; lia).
    destruct H0 as (t & [= <-] & _ & Hbins).
    destruct (Hbins 6%Z) as [Hsum _];
      [clear; change (PVStream.fftsize stream_of_8_bins `quot` 2)%Z with 8%Z; lia|].
    rewrite Hst0 in Hsum. change (0 + 1)%Z with 1%Z in Hsum.
    change (PVTranspose.overcount transpose_of_8_bins) with 0%Z in Hsum.
    rewrite Hsum. f_equal. apply landing_sum_by_nothing.
    intros k Hk. change (PVStream.fftsize stream_of_8_bins `quot` 2)%Z with 8%Z in Hk.
    rewrite PVTranspose_index_binary32_1_4 by lia.
    assert (k = 0 ∨ k = 1 ∨ k = 2 ∨ k = 3 ∨ k = 4 ∨ k = 5 ∨ k = 6 ∨ k = 7)%Z
      as [->|[->|[->|[->|[->|[->|[->| ->]]]]]]] by lia; done.
Qed.

(** ** The reverberator near a tie, over a block *)

Lemma stream_near_tie_wf : PVStream_wf 2 stream_near_tie.
Proof.
  destruct sample_tables as (_ & ? & _).
  split; simpl; try done; try lia.
  - apply table_Forall; [reflexivity|by repeat constructor].
  - apply count_in_range_Forall. change (4 `quot` 2)%Z with 2%Z.
    repeat (apply Forall_cons; [lia|]). apply Forall_nil.
Qed.

Lemma verb_near_tie_wf : PVVerb_wf verb_near_tie.
Proof.
  destruct sample_tables as (_ & _ & ?).
  split; simpl; try done; try lia;
    unfold usable_config; split_and!; (reflexivity || lia).
Qed.

(** C10 as stated fails in single precision.  The follower of bin 0 holds
    [1 + 3 * 2^-23] and the input magnitude is [3 * 2^-24], both not
    negative; [revtime = 1] is mapped to 1 and [amp] is 1 at bin 0.  The
    difference [1 + 3 * 2^-24] lies half way between two numbers of the
    format and is rounded to [1 + 2 * 2^-23]; the sum with the magnitude,
    [1 + 7 * 2^-24], again lies half way and is rounded to [1 + 4 * 2^-23],
    which is emitted and is above the follower, the larger of the two. *)
Lemma PVVerb_process_bounds_counterexample :
  ∃ self' mag_in last out,
    PVVerb_process_ii round_binary32 1 0 stream_near_tie verb_near_tie = Some self' ∧
    rd2 (PVStream.magn stream_near_tie) 1 0 = Some mag_in ∧
    rd (PVVerb.l_magn verb_near_tie) 0 = Some last ∧
    (0 <= mag_in)%R ∧ (0 <= last)%R ∧
    rd2 (PVVerb.magn self') 1 0 = Some out ∧
    rd (PVVerb.l_magn self') 0 = Some out ∧
    ¬ (out <= Rmax mag_in last)%R.
Proof.
  destruct (PVVerb_process_ii_states round_binary32 1 0 stream_near_tie verb_near_tie
              verb_near_tie_wf stream_near_tie_wf)
    as (self0 & st & Hadapt & Hst0 & Hrun & Hstep).
  injection Hadapt as <-.
  pose proof (Hstep 0%Z 3%Z eq_refl) as H0.
  rewrite bool_decide_eq_true_2 in H0
    by (clear; change (PVStream.fftsize stream_near_tie) with 4%Z; lia).
  destruct H0 as (_ & Hbins).
  pose proof (Hstep 1%Z 2%Z eq_refl) as H1.
  rewrite bool_decide_eq_false_2 in H1
    by (clear; change (PVStream.fftsize stream_near_tie) with 4%Z; lia).
  destruct H1 as (Hl & Hm & _). change (1 + 1)%Z with 2%Z in Hl, Hm.
  destruct (Hbins 0%Z) as (mag_in & last & f_in & out & Hmag & Hlast & _ & Hout & Hl1 & Hm1 & _);
    [clear; change (PVStream.fftsize stream_near_tie `quot` 2)%Z with 2%Z; lia|].
  rewrite Hst0 in Hmag, Hlast, Hm1. injection Hmag as <-. injection Hlast as <-.
  change (Z.to_nat 0) with 0%nat in Hout. rewrite PVVerb_follow_near_tie in Hout.
  subst out.
  exists (st 2%Z), (3 / 16777216)%R, (8388611 / 8388608)%R, (8388612 / 8388608)%R.
  rewrite Hl, Hm. split_and!; [done|done|done|lra|lra|done|done|].
  unfold Rmax. destruct (Rle_dec _ _); lra.
Qed.

(** On the same block the bound of C10, as amended, holds. *)
Lemma stream_near_tie_binary32 i k mag :
  rd2 (PVStream.magn stream_near_tie) i k = Some mag → round_binary32 mag = mag.
Proof.
  intros (row & Hrow & Hmag)%rd2_Some_inv.
  pose proof (rd_Some_bounds _ _ _ Hrow) as Hi. simpl in Hi.
  assert (i = 0 ∨ i = 1)%Z as [-> | ->] by lia; injection Hrow as <-;
    pose proof (rd_Some_bounds _ _ _ Hmag) as Hk; simpl in Hk;
    (assert (k = 0 ∨ k = 1)%Z as [-> | ->] by lia); injection Hmag as <-;
    try apply round_binary32_0.
  binary32 3%Z 24%Z 3%Z 16777216%Z.
Qed.

Lemma PVVerb_process_bounds_sample :
  MYFLT_rounding round_binary32 ∧
  (∀ i k mag, rd2 (PVStream.magn stream_near_tie) i k = Some mag →
     round_binary32 mag = mag) ∧
  PVVerb_wf verb_near_tie ∧ PVStream_wf (PVVerb.bufsize verb_near_tie) stream_near_tie ∧
  ∃ self' out,
    PVVerb_process_ii round_binary32 1 0 stream_near_tie verb_near_tie = Some self' ∧
    rd2 (PVVerb.magn self') 1 0 = Some out ∧
    (3 / 16777216 <= out
     <= Rmax (3 / 16777216)
          (round_binary32
             (3 / 16777216 + round_binary32 (8388611 / 8388608 - 3 / 16777216))))%R.
Proof.
  split; [apply round_binary32_rounding|]. split; [apply stream_near_tie_binary32|].
  split; [apply verb_near_tie_wf|]. split; [apply stream_near_tie_wf|].
  destruct (PVVerb_process_bounds round_binary32 1 0 stream_near_tie verb_near_tie
              round_binary32_rounding stream_near_tie_binary32 verb_near_tie_wf
              stream_near_tie_wf)
    as (self0 & st & Hadapt & Hst0 & Hrun & Hstep).
  injection Hadapt as <-.
  pose proof (Hstep 0%Z 3%Z eq_refl) as H0. cbv zeta in H0.
  rewrite bool_decide_eq_true_2 in H0
    by (clear; change (PVStream.fftsize stream_near_tie) with 4%Z; lia).
  pose proof (Hstep 1%Z 2%Z eq_refl) as H1. cbv zeta in H1.
  rewrite bool_decide_eq_false_2 in H1
    by (clear; change (PVStream.fftsize stream_near_tie) with 4%Z; lia).
  destruct H1 as (_ & Hm). change (1 + 1)%Z with 2%Z in Hm.
  destruct (H0 0%Z) as (mag_in & last & out & Hmag & Hlast & Hout & _ & Hbound & _);
    [clear; change (PVStream.fftsize stream_near_tie `quot` 2)%Z with 2%Z; lia|].
  rewrite Hst0 in Hmag, Hlast, Hout. injection Hmag as <-. injection Hlast as <-.
  exists (st 2%Z), out. split; [exact Hrun|]. rewrite Hm.
  split; [exact Hout|exact Hbound].
Defined.

(** ** The accumulator of the synthesiser beyond the range of [int] *)

(** When [size + hopsize] leaves the range of [int] the accumulator has no
    cell after reconfiguration. *)
Lemma PVSynth_realloc_memories_overflow gen_window self :
  (2 ≤ PVSynth.size self)%Z → (1 ≤ PVSynth.olaps self)%Z →
  (INT_MAX < PVSynth.size self + PVSynth.size self `quot` PVSynth.olaps self < 2 ^ 32)%Z →
  ∃ self', PVSynth_realloc_memories gen_window self = Some self' ∧
    PVSynth.size self' = PVSynth.size self ∧
    PVSynth.hopsize self' = (PVSynth.size self `quot` PVSynth.olaps self)%Z ∧
    PVSynth.outputAccum self' = [].
Proof.
  intros Hsize Holaps Hsum. unfold PVSynth_realloc_memories.
  rewrite !int_div_pos by lia. cbn [mbind option_bind].
  eexists. split; [reflexivity|]. cbn [PVSynth.size PVSynth.hopsize PVSynth.outputAccum].
  split_and!; [done..|]. unfold filled.
  replace (Z.to_nat _) with 0%nat; [done|].
  unfold wrap_int, INT_MAX in *.
  rewrite <- (Z.mod_add _ (-1)) by lia. rewrite Z.mod_small by lia. lia.
Qed.

(** C8 as stated fails for [size = 2^30] and [olaps = 1], powers of two
    with [size >= 2 * olaps]: [hopsize] is [2^30], the [int] sum
    [size + hopsize] overflows and reconfiguration leaves an accumulator
    without cells, which has not [size + hopsize] of them, and no zero in
    its cell [size]. *)
Lemma PVSynth_outputAccum_tail_counterexample :
  ∃ synth0,
    PVSynth_realloc_memories (λ _ _ _, 1%R) (PVSynth_with_size_olaps sample_synth (2 ^ 30) 1)
      = Some synth0 ∧
    PVSynth.size synth0 = (2 ^ 30)%Z ∧ PVSynth.hopsize synth0 = (2 ^ 30)%Z ∧
    ¬ cells (PVSynth.size synth0 + PVSynth.hopsize synth0) (PVSynth.outputAccum synth0) ∧
    ¬ tail_is_zero (PVSynth.size synth0) (PVSynth.hopsize synth0)
        (PVSynth.outputAccum synth0).
Proof.
  destruct (PVSynth_realloc_memories_overflow (λ _ _ _, 1%R)
              (PVSynth_with_size_olaps sample_synth (2 ^ 30) 1))
    as (synth0 & Hrealloc & Hsize & Hhop & Hacc);
    [by vm_compute|by vm_compute|by vm_compute|].
  change (PVSynth.size (PVSynth_with_size_olaps sample_synth (2 ^ 30) 1))
    with (2 ^ 30)%Z in Hsize, Hhop.
  change (PVSynth.olaps (PVSynth_with_size_olaps sample_synth (2 ^ 30) 1))
    with 1%Z in Hhop.
  change (2 ^ 30 `quot` 1)%Z with (2 ^ 30)%Z in Hhop.
  exists synth0. rewrite Hsize, Hhop, Hacc. split_and!; [done..| |].
  - unfold cells. simpl. lia.
  - intros Htail. specialize (Htail (2 ^ 30)%Z ltac:(lia)). done.
Qed.
